(** * The MDL text parser of war3-model (src/parsers/mdl.ts)

    A shallow embedding of the recursive-descent parser: the scanner over
    a [State] (input string and cursor), the generic block readers, the
    animated-track reader, the twenty block handlers and the driver with
    its pivot-point pass.

    JavaScript features that the parser relies on are modelled as the
    language defines them:
    - [state.char()] past the end of the input is [undefined] ([None]);
      [RegExp.prototype.test] converts its argument to a string, so the
      character classes are tested against the text "undefined" there;
    - records are objects with dynamic keys ([res[keyword] = val]), hence
      insertion-ordered property lists;
    - [while] loops may run forever: every loop takes fuel and answers
      [Diverge] when it is exhausted;
    - node records and pivot vectors are shared between several lists and
      mutated after being shared, so they live in a store and are held by
      reference;
    - numbers are IEEE doubles: the operations the parser applies to them
      are collected in the interface [JSNumber]. *)

From Stdlib Require Import List String Ascii ZArith Lia Bool Arith PeanoNat DecimalString.
Import ListNotations.

Set Implicit Arguments.
Local Open Scope string_scope.
Local Open Scope nat_scope.

Infix "==" := String.eqb (at level 70, no associativity).

(** ** Numbers of the host language *)

Inductive elemKind := Uint8 | Uint16 | Uint32 | Int32 | Float32.

(** The operations of JavaScript numbers used by the parser.  [parseFloat]
    is the global function applied to the scanned lexeme; [coerce k] is
    the conversion performed by a store into a typed array of element
    kind [k]; [typedLength] is [ToIndex] as applied by the typed-array
    constructors ([None]: RangeError); [toPropertyKey] is [ToString]. *)
Class JSNumber (num : Type) := {
  parseFloat : string -> num;
  ofZ : Z -> num;
  toInt32 : num -> Z;
  toBoolean : num -> bool;
  toPropertyKey : num -> string;
  ltNat : nat -> num -> bool;
  mulNat : num -> nat -> num;
  ratio : nat -> nat -> num;
  typedLength : num -> option nat;
  coerce : elemKind -> num -> num;
  toInt32_ofZ : forall z, (- 2 ^ 31 <= z < 2 ^ 31)%Z -> toInt32 (ofZ z) = z;
  toInt32_range : forall n, (- 2 ^ 31 <= toInt32 n < 2 ^ 31)%Z
}.

(** ** Enumerations of ../model

    The module [../model] is not part of the sources at hand.  The
    enumerations whose values the specification fixes are defined below;
    the others are the fields of [Enums]. *)

Inductive LineType := DontInterp | Linear | Hermite | Bezier.

(** Modelled from the spec: LineType (animated interpolation):
    DontInterp=0, Linear=1, Hermite=2, Bezier=3. *)
Definition LineType_of (s : string) : LineType :=
  if s == "Linear" then Linear
  else if s == "Hermite" then Hermite
  else if s == "Bezier" then Bezier
  else DontInterp.

(** Modelled from the spec: TextureFlags: WrapWidth=1, WrapHeight=2. *)
Definition TextureFlags (s : string) : Z :=
  if s == "WrapWidth" then 1 else if s == "WrapHeight" then 2 else 0.

(** Modelled from the spec: FilterMode (Layer): None=0, Transparent=1,
    Blend=2, Additive=3, AddAlpha=4, Modulate=5, Modulate2x=6. *)
Definition FilterMode (s : string) : Z :=
  if s == "None" then 0
  else if s == "Transparent" then 1
  else if s == "Blend" then 2
  else if s == "Additive" then 3
  else if s == "AddAlpha" then 4
  else if s == "Modulate" then 5
  else if s == "Modulate2x" then 6
  else 0.

(** Modelled from the spec: LayerShading: Unshaded=1, SphereEnvMap=2,
    TwoSided=16, Unfogged=32, NoDepthTest=64, NoDepthSet=128. *)
Definition LayerShading (s : string) : Z :=
  if s == "Unshaded" then 1
  else if s == "SphereEnvMap" then 2
  else if s == "TwoSided" then 16
  else if s == "Unfogged" then 32
  else if s == "NoDepthTest" then 64
  else if s == "NoDepthSet" then 128
  else 0.

(** Modelled from the spec: MaterialRenderMode: ConstantColor=1,
    SortPrimsFarZ=16, FullResolution=32. *)
Definition MaterialRenderMode (s : string) : Z :=
  if s == "ConstantColor" then 1
  else if s == "SortPrimsFarZ" then 16
  else if s == "FullResolution" then 32
  else 0.

(** Modelled from the spec: CollisionShapeType: Box=0, Sphere=1. *)
Definition CollisionShapeType (s : string) : Z :=
  if s == "Sphere" then 1 else 0.

(** The enumerations whose numeric values the specification leaves to the
    implementer; each is a table from the member name to its value. *)
Record Enums := {
  NodeType : string -> Z;
  NodeFlags : string -> Z;
  GeosetAnimFlags : string -> Z;
  ParticleEmitterFlags : string -> Z;
  ParticleEmitter2Flags : string -> Z;
  ParticleEmitter2FramesFlags : string -> Z;
  ParticleEmitter2FilterMode : string -> Z;
  LightTypeOf : string -> Z
}.

(** ** Characters and the regular expressions of the scanner *)

Definition code (c : ascii) : nat := nat_of_ascii c.

Definition isDigit (c : ascii) : bool := (48 <=? code c) && (code c <=? 57).
Definition isLetter (c : ascii) : bool :=
  ((65 <=? code c) && (code c <=? 90)) || ((97 <=? code c) && (code c <=? 122)).

(** [/\s/i] on one code unit below 256: tab, line feed, vertical tab, form
    feed, carriage return, space and no-break space. *)
Definition isSpace (c : ascii) : bool :=
  ((9 <=? code c) && (code c <=? 13)) || (code c =? 32) || (code c =? 160).

(** Each test receives [state.char()]; on [undefined] the expression is
    matched against the text "undefined", which has letters (among them
    an "e") and neither white space, digits nor a minus sign. *)
Definition spaceRE (c : option ascii) : bool :=
  match c with Some a => isSpace a | None => false end.
Definition keywordFirstCharRE (c : option ascii) : bool :=
  match c with Some a => isLetter a | None => true end.
Definition keywordOtherCharRE (c : option ascii) : bool :=
  match c with Some a => isLetter a || isDigit a | None => true end.
Definition numberFirstCharRE (c : option ascii) : bool :=
  match c with Some a => (code a =? 45) || isDigit a | None => false end.
Definition numberOtherCharRE (c : option ascii) : bool :=
  match c with
  | Some a => (code a =? 45) || (code a =? 43) || (code a =? 46) || isDigit a
              || (code a =? 101) || (code a =? 69)
  | None => true
  end.

(** The double quote, code 34. *)
Definition dquote : ascii := "034"%char.

Definition is_char (c : option ascii) (a : ascii) : bool :=
  match c with Some b => Ascii.eqb b a | None => false end.

(** What [keyword += state.str[state.pos]] appends. *)
Definition charText (c : option ascii) : string :=
  match c with Some a => String a "" | None => "undefined" end.

(** ** The scanner state and the monad of the parser *)

Record State := mkState { str : list ascii; pos : nat }.

Definition char (st : State) : option ascii := nth_error (str st) (pos st).
Definition substring (st : State) (start stop : nat) : string :=
  string_of_list_ascii (firstn (stop - start) (skipn start (str st))).

Inductive error :=
| SyntaxError (near : nat) (msg : string)   (* throwError *)
| Error (msg : string)                      (* throw new Error(msg) *)
| TypeError                                 (* property access on null or undefined *)
| RangeError.                               (* invalid typed array length *)

(** The outcome of a computation: its value and the new cursor, an
    exception, or fuel exhausted.  [str] is a [readonly] field of the
    class [State]: only the cursor is threaded. *)
Inductive result (A : Type) :=
| Ok (a : A) (pos' : nat)
| Throw (e : error)
| Diverge.
Arguments Throw {A} e.
Arguments Diverge {A}.

Definition M (A : Type) := State -> result A.

(** The state with its cursor moved to [p]. *)
Definition at_ (st : State) (p : nat) : State := mkState (str st) p.

Definition ret {A} (a : A) : M A := fun st => Ok a (pos st).
Definition bind {A B} (m : M A) (k : A -> M B) : M B :=
  fun st => match m st with
            | Ok a p => k a (at_ st p)
            | Throw e => Throw e
            | Diverge => Diverge
            end.
Definition throw {A} (e : error) : M A := fun _ => Throw e.

Notation "x <- m ;; k" := (bind m (fun x => k))
  (at level 61, m at next level, right associativity).
Notation "m ;;; k" := (bind m (fun _ => k))
  (at level 61, right associativity).

Definition peek : M (option ascii) := fun st => Ok (char st) (pos st).
Definition peekAt (k : nat) : M (option ascii) :=
  fun st => Ok (nth_error (str st) (pos st + k)) (pos st).
Definition getPos : M nat := fun st => Ok (pos st) (pos st).
Definition advanceBy (k : nat) : M unit := fun st => Ok tt (pos st + k).
Definition advance : M unit := advanceBy 1.
Definition inBounds : M bool :=
  fun st => Ok (pos st <? List.length (str st)) (pos st).
Definition getSubstring (start stop : nat) : M string :=
  fun st => Ok (substring st start stop) (pos st).

(** [throwError(state, str)]. *)
Definition throwError {A} (msg : string) : M A :=
  fun st => Throw (SyntaxError (pos st) msg).

(** A [while] loop over the loop-carried value [a]; the condition may
    itself move the cursor. *)
Fixpoint while_ {A} (fuel : nat) (cond : A -> M bool) (body : A -> M A)
    (a : A) : M A :=
  fun st =>
    match fuel with
    | O => Diverge
    | S fuel' =>
        match cond a st with
        | Ok true p1 =>
            match body a (at_ st p1) with
            | Ok a' p2 => while_ fuel' cond body a' (at_ st p2)
            | Throw e => Throw e
            | Diverge => Diverge
            end
        | Ok false p1 => Ok a p1
        | Throw e => Throw e
        | Diverge => Diverge
        end
    end.

Definition charIs (a : ascii) : M bool := c <- peek ;; ret (is_char c a).
Definition charIsNot (a : ascii) : M bool := c <- peek ;; ret (negb (is_char c a)).

(** ** Values, records and the scene *)

Section Parser.

Context {num : Type} {JN : JSNumber num}.

(** A typed array: its element kind and its (fixed) elements. *)
Record TypedArray := mkTyped { kind : elemKind; elems : list num }.

Record AnimKeyframe := mkKeyframe {
  Frame : num;
  Vector : TypedArray;
  InTan : option TypedArray;
  OutTan : option TypedArray
}.

Record AnimVector := mkAnimVector {
  LineTypeOf : LineType;
  GlobalSeqId : option num;
  Keys : list AnimKeyframe
}.

#[local] Set Warnings "-register-all".
Inductive value :=
| VUndefined
| VNull
| VBool (b : bool)
| VNum (n : num)
| VStr (s : string)
| VTyped (t : TypedArray)
| VArr (l : list value)
| VObj (props : list (string * value))
| VAnim (a : AnimVector)
| VRef (addr : nat).

Definition obj := list (string * value).

Fixpoint getProp (o : obj) (k : string) : value :=
  match o with
  | [] => VUndefined
  | (k', v) :: o' => if k' == k then v else getProp o' k
  end.

Fixpoint setProp (o : obj) (k : string) (v : value) : obj :=
  match o with
  | [] => [(k, v)]
  | (k', v') :: o' => if k' == k then (k, v) :: o' else (k', v') :: setProp o' k v
  end.

Fixpoint hasProp (o : obj) (k : string) : bool :=
  match o with
  | [] => false
  | (k', _) :: o' => (k' == k) || hasProp o' k
  end.

Fixpoint deleteProp (o : obj) (k : string) : obj :=
  match o with
  | [] => []
  | (k', v) :: o' => if k' == k then o' else (k', v) :: deleteProp o' k
  end.

(** [ToBoolean]. *)
Definition truthy (v : value) : bool :=
  match v with
  | VUndefined | VNull => false
  | VBool b => b
  | VNum n => toBoolean n
  | VStr s => negb (s == "")
  | _ => true
  end.

(** [ToInt32] of the left operand of [|=].  The only strings the parser
    stores under a flag key are keywords: they denote NaN (or Infinity)
    and convert to 0. *)
Definition valueToInt32 (v : value) : Z :=
  match v with
  | VNum n => toInt32 n
  | VBool true => 1%Z
  | _ => 0%Z
  end.

Definition int32 (z : Z) : Z := ((z + 2 ^ 31) mod 2 ^ 32 - 2 ^ 31)%Z.

(** [o[key] |= v]. *)
Definition orFlag (o : obj) (key : string) (v : Z) : obj :=
  setProp o key (VNum (ofZ (Z.lor (valueToInt32 (getProp o key)) (int32 v)))).

Definition ofOptNum (n : option num) : value :=
  match n with Some x => VNum x | None => VNull end.
Definition ofOptStr (s : option string) : value :=
  match s with Some x => VStr x | None => VNull end.

(** The property key of [res[keyword]] when [keyword] may be [null]. *)
Definition keyOf (keyword : option string) : string :=
  match keyword with Some s => s | None => "null" end.

Definition kwIs (keyword : option string) (s : string) : bool :=
  match keyword with Some k => k == s | None => false end.
Definition kwIn (keyword : option string) (l : list string) : bool :=
  existsb (kwIs keyword) l.

(** *** Arrays *)

Fixpoint list_set {A} (l : list A) (i : nat) (x : A) : list A :=
  match l, i with
  | [], _ => []
  | _ :: t, O => x :: t
  | h :: t, S i' => h :: list_set t i' x
  end.

(** [new K(n)]: zero-filled. *)
Definition newTyped (k : elemKind) (n : nat) : TypedArray :=
  mkTyped k (repeat (ofZ 0) n).

(** [t[i] = n]: converted to the element kind; ignored out of range. *)
Definition typedSet (t : TypedArray) (i : nat) (n : num) : TypedArray :=
  mkTyped (kind t) (list_set (elems t) i (coerce (kind t) n)).

Definition typedReverse (t : TypedArray) : TypedArray :=
  mkTyped (kind t) (rev (elems t)).

(** [let temp = c[0]; c[0] = c[2]; c[2] = temp]. *)
Definition swap02 (t : TypedArray) : TypedArray :=
  match nth_error (elems t) 0, nth_error (elems t) 2 with
  | Some a, Some c => mkTyped (kind t) (list_set (list_set (elems t) 0 c) 2 a)
  | _, _ => t
  end.

(** [a.push(x)]. *)
Definition push {A} (l : list A) (x : A) : list A := (l ++ [x])%list.

(** [a[i] = v] on an ordinary array: the array grows, leaving holes. *)
Fixpoint arraySet (l : list value) (i : nat) (v : value) : list value :=
  match i, l with
  | O, [] => [v]
  | O, _ :: t => v :: t
  | S i', [] => VUndefined :: arraySet [] i' v
  | S i', h :: t => h :: arraySet t i' v
  end.

(** A property key is an array index when it is the canonical decimal
    text of an integer below 2^32 - 1. *)
Fixpoint digitsValue (s : string) (acc : N) : option N :=
  match s with
  | EmptyString => Some acc
  | String c s' =>
      if isDigit c then digitsValue s' (acc * 10 + N.of_nat (code c - 48))%N
      else None
  end.

Definition arrayIndex (key : string) : option nat :=
  match key with
  | EmptyString => None
  | String c rest =>
      if (code c =? 48) && negb (rest == "") then None
      else match digitsValue key 0%N with
           | Some n => if (n <? 4294967295)%N then Some (N.to_nat n) else None
           | None => None
           end
  end.

(** ** Scanner *)

(** Every loop of the parser may run for at most [fuel] iterations. *)
Variable fuel : nat.

Definition parseComment : M bool :=
  c0 <- peek ;;
  c1 <- peekAt 1 ;;
  if is_char c0 "/" && is_char c1 "/" then
    advanceBy 2 ;;;
    while_ fuel
      (fun _ => b <- inBounds ;;
                if b then advance ;;; charIsNot "010" else ret false)
      (fun _ => ret tt) tt ;;;
    advance ;;;
    ret true
  else ret false.

Definition parseSpace : M unit :=
  while_ fuel (fun _ => c <- peek ;; ret (spaceRE c)) (fun _ => advance) tt.

Definition parseKeyword : M (option string) :=
  c <- peek ;;
  if negb (keywordFirstCharRE c) then ret None
  else
    advance ;;;
    keyword <- while_ fuel
      (fun _ => c' <- peek ;; ret (keywordOtherCharRE c'))
      (fun keyword => c' <- peek ;; advance ;;; ret (keyword ++ charText c'))
      (charText c) ;;
    parseSpace ;;;
    ret (Some keyword).

Definition parseSymbol (symbol : ascii) : M unit :=
  b <- charIs symbol ;;
  if b then advance ;;; parseSpace else ret tt.

Definition strictParseSymbol (symbol : ascii) : M unit :=
  b <- charIsNot symbol ;;
  (if b then throwError ("extected " ++ String symbol "") else ret tt) ;;;
  advance ;;;
  parseSpace.

Definition parseString : M (option string) :=
  b <- charIs dquote ;;
  if b then
    advance ;;;
    start <- getPos ;;
    while_ fuel (fun _ => charIsNot dquote) (fun _ => advance) tt ;;;
    advance ;;;
    stop <- getPos ;;
    res <- getSubstring start (stop - 1) ;;
    parseSpace ;;;
    ret (Some res)
  else ret None.

Definition parseNumber : M (option num) :=
  c <- peek ;;
  if numberFirstCharRE c then
    start <- getPos ;;
    advance ;;;
    while_ fuel (fun _ => c' <- peek ;; ret (numberOtherCharRE c'))
      (fun _ => advance) tt ;;;
    stop <- getPos ;;
    lexeme <- getSubstring start stop ;;
    parseSpace ;;;
    ret (Some (parseFloat lexeme))
  else ret None.

(** One number of an array and the comma after it. *)
Definition arrayEntry {A} (store : A -> num -> A) (a : A) : M A :=
  n <- parseNumber ;;
  match n with
  | None => throwError "expected number"
  | Some x => parseSymbol "," ;;; ret (store a x)
  end.

(** The loop shared by [parseArray] and [parseArrayOrSingleItem]:
    [{ number (, number)* ,? }], each number stored by [store]. *)
Definition arrayLoop {A} (store : A -> num -> A) (a : A) : M A :=
  strictParseSymbol "{" ;;;
  a' <- while_ fuel (fun _ => charIsNot "}") (arrayEntry store) a ;;
  strictParseSymbol "}" ;;;
  ret a'.

Definition storeTyped (a : TypedArray * nat) (n : num) : TypedArray * nat :=
  (typedSet (fst a) (snd a) n, S (snd a)).

(** [parseArray(state, arr, pos)]: [VNull] when no brace follows;
    otherwise the array written into: [arr] from index [pos] on, or a
    fresh ordinary array when [arr] is absent. *)
Definition parseArray (arr : option TypedArray) (pos : nat) : M value :=
  b <- charIsNot "{" ;;
  if b then ret VNull
  else match arr with
       | None =>
           l <- arrayLoop (fun l n => push l (VNum n)) [] ;;
           ret (VArr l)
       | Some t =>
           r <- arrayLoop storeTyped (t, pos) ;;
           ret (VTyped (fst r))
       end.

(** The typed array [arr] after [parseArray(state, arr, pos)] returned
    [v]: it was written in place, or left alone when [v] is null. *)
Definition written (arr : TypedArray) (v : value) : TypedArray :=
  match v with VTyped t => t | _ => arr end.

Definition parseArrayOrSingleItem (arr : TypedArray) : M TypedArray :=
  b <- charIsNot "{" ;;
  if b then
    n <- parseNumber ;;
    ret (typedSet arr 0 (match n with Some x => x | None => ofZ 0 end))
  else
    r <- arrayLoop storeTyped (arr, 0) ;;
    ret (fst r).

(** One [key value] entry of [parseObject]. *)
Definition objectEntry (o : obj) : M obj :=
  keyword <- parseKeyword ;;
  match keyword with
  | None => throwError ""
  | Some k =>
      v <- (if k == "Interval" then parseArray (Some (newTyped Uint32 2)) 0
            else if (k == "MinimumExtent") || (k == "MaximumExtent")
            then parseArray (Some (newTyped Float32 3)) 0
            else
              a <- parseArray None 0 ;;
              v <- (if truthy a then ret a
                    else s <- parseString ;; ret (ofOptStr s)) ;;
              match v with
              | VNull => n <- parseNumber ;; ret (ofOptNum n)
              | _ => ret v
              end) ;;
      parseSymbol "," ;;;
      ret (setProp o k v)
  end.

Definition parseObject : M (value * obj) :=
  b <- charIsNot "{" ;;
  prefix <- (if b then
               s <- parseString ;;
               match s with
               | Some x => ret (VStr x)
               | None =>
                   n <- parseNumber ;;
                   match n with
                   | Some x => ret (VNum x)
                   | None => throwError "expected string or number"
                   end
               end
             else ret VNull) ;;
  strictParseSymbol "{" ;;;
  o <- while_ fuel (fun _ => charIsNot "}") objectEntry [] ;;
  strictParseSymbol "}" ;;;
  ret (prefix, o).

(** ** The scene

    [Nodes] is a JavaScript array that is also written by index
    ([model.Nodes[node.ObjectId] = node]): a hole reads as [VUndefined],
    and a key that is no array index becomes a named property of the
    array, kept in [NodesProps].  [Store] holds the objects that are
    reachable by more than one path, the node records and the pivot
    vectors; [VRef a] is a reference to the object in cell [a]. *)
Record Model := mkModel {
  Info : obj;
  Sequences : list value;
  Textures : list value;
  Materials : list value;
  Geosets : list value;
  GeosetAnims : list value;
  Bones : list value;
  Helpers : list value;
  Attachments : list value;
  Nodes : list value;
  NodesProps : obj;
  PivotPoints : list value;
  EventObjects : list value;
  CollisionShapes : list value;
  ParticleEmitters : list value;
  ParticleEmitters2 : list value;
  Cameras : list value;
  Lights : list value;
  RibbonEmitters : list value;
  TextureAnims : list value;
  GlobalSequences : list value;
  Version : value;
  Store : list value
}.

Definition set_Info (m : Model) (v : obj) : Model :=
  mkModel v (Sequences m) (Textures m) (Materials m) (Geosets m) (GeosetAnims m) (Bones m) (Helpers m) (Attachments m) (Nodes m) (NodesProps m) (PivotPoints m) (EventObjects m) (CollisionShapes m) (ParticleEmitters m) (ParticleEmitters2 m) (Cameras m) (Lights m) (RibbonEmitters m) (TextureAnims m) (GlobalSequences m) (Version m) (Store m).

Definition set_Sequences (m : Model) (v : list value) : Model :=
  mkModel (Info m) v (Textures m) (Materials m) (Geosets m) (GeosetAnims m) (Bones m) (Helpers m) (Attachments m) (Nodes m) (NodesProps m) (PivotPoints m) (EventObjects m) (CollisionShapes m) (ParticleEmitters m) (ParticleEmitters2 m) (Cameras m) (Lights m) (RibbonEmitters m) (TextureAnims m) (GlobalSequences m) (Version m) (Store m).

Definition set_Textures (m : Model) (v : list value) : Model :=
  mkModel (Info m) (Sequences m) v (Materials m) (Geosets m) (GeosetAnims m) (Bones m) (Helpers m) (Attachments m) (Nodes m) (NodesProps m) (PivotPoints m) (EventObjects m) (CollisionShapes m) (ParticleEmitters m) (ParticleEmitters2 m) (Cameras m) (Lights m) (RibbonEmitters m) (TextureAnims m) (GlobalSequences m) (Version m) (Store m).

Definition set_Materials (m : Model) (v : list value) : Model :=
  mkModel (Info m) (Sequences m) (Textures m) v (Geosets m) (GeosetAnims m) (Bones m) (Helpers m) (Attachments m) (Nodes m) (NodesProps m) (PivotPoints m) (EventObjects m) (CollisionShapes m) (ParticleEmitters m) (ParticleEmitters2 m) (Cameras m) (Lights m) (RibbonEmitters m) (TextureAnims m) (GlobalSequences m) (Version m) (Store m).

Definition set_Geosets (m : Model) (v : list value) : Model :=
  mkModel (Info m) (Sequences m) (Textures m) (Materials m) v (GeosetAnims m) (Bones m) (Helpers m) (Attachments m) (Nodes m) (NodesProps m) (PivotPoints m) (EventObjects m) (CollisionShapes m) (ParticleEmitters m) (ParticleEmitters2 m) (Cameras m) (Lights m) (RibbonEmitters m) (TextureAnims m) (GlobalSequences m) (Version m) (Store m).

Definition set_GeosetAnims (m : Model) (v : list value) : Model :=
  mkModel (Info m) (Sequences m) (Textures m) (Materials m) (Geosets m) v (Bones m) (Helpers m) (Attachments m) (Nodes m) (NodesProps m) (PivotPoints m) (EventObjects m) (CollisionShapes m) (ParticleEmitters m) (ParticleEmitters2 m) (Cameras m) (Lights m) (RibbonEmitters m) (TextureAnims m) (GlobalSequences m) (Version m) (Store m).

Definition set_Bones (m : Model) (v : list value) : Model :=
  mkModel (Info m) (Sequences m) (Textures m) (Materials m) (Geosets m) (GeosetAnims m) v (Helpers m) (Attachments m) (Nodes m) (NodesProps m) (PivotPoints m) (EventObjects m) (CollisionShapes m) (ParticleEmitters m) (ParticleEmitters2 m) (Cameras m) (Lights m) (RibbonEmitters m) (TextureAnims m) (GlobalSequences m) (Version m) (Store m).

Definition set_Helpers (m : Model) (v : list value) : Model :=
  mkModel (Info m) (Sequences m) (Textures m) (Materials m) (Geosets m) (GeosetAnims m) (Bones m) v (Attachments m) (Nodes m) (NodesProps m) (PivotPoints m) (EventObjects m) (CollisionShapes m) (ParticleEmitters m) (ParticleEmitters2 m) (Cameras m) (Lights m) (RibbonEmitters m) (TextureAnims m) (GlobalSequences m) (Version m) (Store m).

Definition set_Attachments (m : Model) (v : list value) : Model :=
  mkModel (Info m) (Sequences m) (Textures m) (Materials m) (Geosets m) (GeosetAnims m) (Bones m) (Helpers m) v (Nodes m) (NodesProps m) (PivotPoints m) (EventObjects m) (CollisionShapes m) (ParticleEmitters m) (ParticleEmitters2 m) (Cameras m) (Lights m) (RibbonEmitters m) (TextureAnims m) (GlobalSequences m) (Version m) (Store m).

Definition set_Nodes (m : Model) (v : list value) : Model :=
  mkModel (Info m) (Sequences m) (Textures m) (Materials m) (Geosets m) (GeosetAnims m) (Bones m) (Helpers m) (Attachments m) v (NodesProps m) (PivotPoints m) (EventObjects m) (CollisionShapes m) (ParticleEmitters m) (ParticleEmitters2 m) (Cameras m) (Lights m) (RibbonEmitters m) (TextureAnims m) (GlobalSequences m) (Version m) (Store m).

Definition set_NodesProps (m : Model) (v : obj) : Model :=
  mkModel (Info m) (Sequences m) (Textures m) (Materials m) (Geosets m) (GeosetAnims m) (Bones m) (Helpers m) (Attachments m) (Nodes m) v (PivotPoints m) (EventObjects m) (CollisionShapes m) (ParticleEmitters m) (ParticleEmitters2 m) (Cameras m) (Lights m) (RibbonEmitters m) (TextureAnims m) (GlobalSequences m) (Version m) (Store m).

Definition set_PivotPoints (m : Model) (v : list value) : Model :=
  mkModel (Info m) (Sequences m) (Textures m) (Materials m) (Geosets m) (GeosetAnims m) (Bones m) (Helpers m) (Attachments m) (Nodes m) (NodesProps m) v (EventObjects m) (CollisionShapes m) (ParticleEmitters m) (ParticleEmitters2 m) (Cameras m) (Lights m) (RibbonEmitters m) (TextureAnims m) (GlobalSequences m) (Version m) (Store m).

Definition set_EventObjects (m : Model) (v : list value) : Model :=
  mkModel (Info m) (Sequences m) (Textures m) (Materials m) (Geosets m) (GeosetAnims m) (Bones m) (Helpers m) (Attachments m) (Nodes m) (NodesProps m) (PivotPoints m) v (CollisionShapes m) (ParticleEmitters m) (ParticleEmitters2 m) (Cameras m) (Lights m) (RibbonEmitters m) (TextureAnims m) (GlobalSequences m) (Version m) (Store m).

Definition set_CollisionShapes (m : Model) (v : list value) : Model :=
  mkModel (Info m) (Sequences m) (Textures m) (Materials m) (Geosets m) (GeosetAnims m) (Bones m) (Helpers m) (Attachments m) (Nodes m) (NodesProps m) (PivotPoints m) (EventObjects m) v (ParticleEmitters m) (ParticleEmitters2 m) (Cameras m) (Lights m) (RibbonEmitters m) (TextureAnims m) (GlobalSequences m) (Version m) (Store m).

Definition set_ParticleEmitters (m : Model) (v : list value) : Model :=
  mkModel (Info m) (Sequences m) (Textures m) (Materials m) (Geosets m) (GeosetAnims m) (Bones m) (Helpers m) (Attachments m) (Nodes m) (NodesProps m) (PivotPoints m) (EventObjects m) (CollisionShapes m) v (ParticleEmitters2 m) (Cameras m) (Lights m) (RibbonEmitters m) (TextureAnims m) (GlobalSequences m) (Version m) (Store m).

Definition set_ParticleEmitters2 (m : Model) (v : list value) : Model :=
  mkModel (Info m) (Sequences m) (Textures m) (Materials m) (Geosets m) (GeosetAnims m) (Bones m) (Helpers m) (Attachments m) (Nodes m) (NodesProps m) (PivotPoints m) (EventObjects m) (CollisionShapes m) (ParticleEmitters m) v (Cameras m) (Lights m) (RibbonEmitters m) (TextureAnims m) (GlobalSequences m) (Version m) (Store m).

Definition set_Cameras (m : Model) (v : list value) : Model :=
  mkModel (Info m) (Sequences m) (Textures m) (Materials m) (Geosets m) (GeosetAnims m) (Bones m) (Helpers m) (Attachments m) (Nodes m) (NodesProps m) (PivotPoints m) (EventObjects m) (CollisionShapes m) (ParticleEmitters m) (ParticleEmitters2 m) v (Lights m) (RibbonEmitters m) (TextureAnims m) (GlobalSequences m) (Version m) (Store m).

Definition set_Lights (m : Model) (v : list value) : Model :=
  mkModel (Info m) (Sequences m) (Textures m) (Materials m) (Geosets m) (GeosetAnims m) (Bones m) (Helpers m) (Attachments m) (Nodes m) (NodesProps m) (PivotPoints m) (EventObjects m) (CollisionShapes m) (ParticleEmitters m) (ParticleEmitters2 m) (Cameras m) v (RibbonEmitters m) (TextureAnims m) (GlobalSequences m) (Version m) (Store m).

Definition set_RibbonEmitters (m : Model) (v : list value) : Model :=
  mkModel (Info m) (Sequences m) (Textures m) (Materials m) (Geosets m) (GeosetAnims m) (Bones m) (Helpers m) (Attachments m) (Nodes m) (NodesProps m) (PivotPoints m) (EventObjects m) (CollisionShapes m) (ParticleEmitters m) (ParticleEmitters2 m) (Cameras m) (Lights m) v (TextureAnims m) (GlobalSequences m) (Version m) (Store m).

Definition set_TextureAnims (m : Model) (v : list value) : Model :=
  mkModel (Info m) (Sequences m) (Textures m) (Materials m) (Geosets m) (GeosetAnims m) (Bones m) (Helpers m) (Attachments m) (Nodes m) (NodesProps m) (PivotPoints m) (EventObjects m) (CollisionShapes m) (ParticleEmitters m) (ParticleEmitters2 m) (Cameras m) (Lights m) (RibbonEmitters m) v (GlobalSequences m) (Version m) (Store m).

Definition set_GlobalSequences (m : Model) (v : list value) : Model :=
  mkModel (Info m) (Sequences m) (Textures m) (Materials m) (Geosets m) (GeosetAnims m) (Bones m) (Helpers m) (Attachments m) (Nodes m) (NodesProps m) (PivotPoints m) (EventObjects m) (CollisionShapes m) (ParticleEmitters m) (ParticleEmitters2 m) (Cameras m) (Lights m) (RibbonEmitters m) (TextureAnims m) v (Version m) (Store m).

Definition set_Version (m : Model) (v : value) : Model :=
  mkModel (Info m) (Sequences m) (Textures m) (Materials m) (Geosets m) (GeosetAnims m) (Bones m) (Helpers m) (Attachments m) (Nodes m) (NodesProps m) (PivotPoints m) (EventObjects m) (CollisionShapes m) (ParticleEmitters m) (ParticleEmitters2 m) (Cameras m) (Lights m) (RibbonEmitters m) (TextureAnims m) (GlobalSequences m) v (Store m).

Definition set_Store (m : Model) (v : list value) : Model :=
  mkModel (Info m) (Sequences m) (Textures m) (Materials m) (Geosets m) (GeosetAnims m) (Bones m) (Helpers m) (Attachments m) (Nodes m) (NodesProps m) (PivotPoints m) (EventObjects m) (CollisionShapes m) (ParticleEmitters m) (ParticleEmitters2 m) (Cameras m) (Lights m) (RibbonEmitters m) (TextureAnims m) (GlobalSequences m) (Version m) v.

(** Allocation of a shared object: the new cell and its address. *)
Definition alloc (m : Model) (v : value) : Model * nat :=
  (set_Store m (push (Store m) v), List.length (Store m)).

(** The key of [a[k]] for a value [k]: [ToString]. *)
Definition propertyKey (k : value) : string :=
  match k with
  | VNum n => toPropertyKey n
  | VStr s => s
  | VNull => "null"
  | VBool true => "true"
  | VBool false => "false"
  | _ => "undefined"
  end.

(** [model.Nodes[k] = v]. *)
Definition setNode (m : Model) (k : value) (v : value) : Model :=
  match arrayIndex (propertyKey k) with
  | Some i => set_Nodes m (arraySet (Nodes m) i v)
  | None => set_NodesProps m (setProp (NodesProps m) (propertyKey k) v)
  end.

(** ** Block handlers *)

Variable E : Enums.

Definition parseVersion (model : Model) : M Model :=
  r <- parseObject ;;
  let o := snd r in
  ret (if truthy (getProp o "FormatVersion")
       then set_Version model (getProp o "FormatVersion")
       else model).

Definition parseModelInfo (model : Model) : M Model :=
  r <- parseObject ;;
  ret (set_Info model (setProp (snd r) "Name" (fst r))).

(** One [Anim] of [parseSequences]. *)
Definition sequenceEntry (res : list value) : M (list value) :=
  parseKeyword ;;;
  r <- parseObject ;;
  let o := setProp (snd r) "Name" (fst r) in
  let o := setProp o "NonLooping" (VBool (hasProp o "NonLooping")) in
  ret (push res (VObj o)).

Definition parseSequences (model : Model) : M Model :=
  parseNumber ;;;
  strictParseSymbol "{" ;;;
  res <- while_ fuel (fun _ => charIsNot "}") sequenceEntry [] ;;
  strictParseSymbol "}" ;;;
  ret (set_Sequences model res).

(** One [Bitmap] of [parseTextures]. *)
Definition textureEntry (res : list value) : M (list value) :=
  parseKeyword ;;;
  r <- parseObject ;;
  let o := snd r in
  let wrapWidth := hasProp o "WrapWidth" in
  let wrapHeight := hasProp o "WrapHeight" in
  let flags := (0 + (if wrapWidth then TextureFlags "WrapWidth" else 0)
                  + (if wrapHeight then TextureFlags "WrapHeight" else 0))%Z in
  let o := setProp o "Flags" (VNum (ofZ flags)) in
  let o := if wrapWidth then deleteProp o "WrapWidth" else o in
  let o := if wrapHeight then deleteProp o "WrapHeight" else o in
  ret (push res (VObj o)).

Definition parseTextures (model : Model) : M Model :=
  parseNumber ;;;
  strictParseSymbol "{" ;;;
  res <- while_ fuel (fun _ => charIsNot "}") textureEntry [] ;;
  strictParseSymbol "}" ;;;
  ret (set_Textures model res).

Inductive AnimVectorType := INT1 | FLOAT1 | FLOAT3 | FLOAT4.

Definition animVectorSize (type : AnimVectorType) : nat :=
  match type with INT1 => 1 | FLOAT1 => 1 | FLOAT3 => 3 | FLOAT4 => 4 end.

Definition vectorKind (type : AnimVectorType) : elemKind :=
  match type with INT1 => Int32 | _ => Float32 end.

Definition hasTangents (lineType : LineType) : bool :=
  match lineType with Hermite | Bezier => true | _ => false end.

Definition parseAnimKeyframe (frame : num) (type : AnimVectorType)
    (lineType : LineType) : M AnimKeyframe :=
  let itemCount := animVectorSize type in
  vector <- parseArrayOrSingleItem (newTyped (vectorKind type) itemCount) ;;
  strictParseSymbol "," ;;;
  if hasTangents lineType then
    parseKeyword ;;;
    inTan <- parseArrayOrSingleItem (newTyped (vectorKind type) itemCount) ;;
    strictParseSymbol "," ;;;
    parseKeyword ;;;
    outTan <- parseArrayOrSingleItem (newTyped (vectorKind type) itemCount) ;;
    strictParseSymbol "," ;;;
    ret (mkKeyframe frame vector (Some inTan) (Some outTan))
  else ret (mkKeyframe frame vector None None).

(** One entry of an animated track: the [GlobalSeqId] or a keyframe. *)
Definition animVectorEntry (type : AnimVectorType) (animVector : AnimVector) : M AnimVector :=
  keyword <- parseKeyword ;;
  if kwIs keyword "GlobalSeqId" then
    n <- parseNumber ;;
    strictParseSymbol "," ;;;
    ret (mkAnimVector (LineTypeOf animVector) n (Keys animVector))
  else
    frame <- parseNumber ;;
    match frame with
    | None => throwError "expected frame number or GlobalSeqId"
    | Some f =>
        strictParseSymbol ":" ;;;
        key <- parseAnimKeyframe f type (LineTypeOf animVector) ;;
        ret (mkAnimVector (LineTypeOf animVector) (GlobalSeqId animVector)
               (push (Keys animVector) key))
    end.

Definition parseAnimVector (type : AnimVectorType) : M AnimVector :=
  parseNumber ;;;
  strictParseSymbol "{" ;;;
  lineType <- parseKeyword ;;
  let animVector :=
    mkAnimVector
      (if kwIn lineType ["DontInterp"; "Linear"; "Hermite"; "Bezier"]
       then LineType_of (keyOf lineType) else DontInterp)
      None [] in
  strictParseSymbol "," ;;;
  animVector <- while_ fuel (fun _ => charIsNot "}") (animVectorEntry type)
                  animVector ;;
  strictParseSymbol "}" ;;;
  ret animVector.

(** The common opening of a loop iteration in the handlers with the
    static/animated duality: the keyword, and whether [static] came first. *)
Definition parseStaticKeyword : M (option string * bool) :=
  keyword <- parseKeyword ;;
  match keyword with
  | None => throwError ""
  | Some k =>
      if k == "static" then keyword' <- parseKeyword ;; ret (keyword', true)
      else ret (keyword, false)
  end.

(** A keyword that must be present: [if (!keyword) throwError(state)]. *)
Definition requireKeyword : M string :=
  keyword <- parseKeyword ;;
  match keyword with
  | None => throwError ""
  | Some k => ret k
  end.

Definition layerShadingKeywords : list string :=
  ["Unshaded"; "SphereEnvMap"; "TwoSided"; "Unfogged"; "NoDepthTest"; "NoDepthSet"].

(** One entry of a [Layer] block. *)
Definition layerEntry (res : obj) : M obj :=
  ks <- parseStaticKeyword ;;
  let keyword := fst ks in
  let isStatic := snd ks in
  res <- (if negb isStatic && kwIs keyword "TextureID" then
            a <- parseAnimVector INT1 ;; ret (setProp res "TextureID" (VAnim a))
          else if negb isStatic && kwIs keyword "Alpha" then
            a <- parseAnimVector FLOAT1 ;; ret (setProp res "Alpha" (VAnim a))
          else if kwIn keyword layerShadingKeywords then
            ret (orFlag res "Shading" (LayerShading (keyOf keyword)))
          else if kwIs keyword "FilterMode" then
            val <- parseKeyword ;;
            ret (if kwIn val ["None"; "Transparent"; "Blend"; "Additive";
                              "AddAlpha"; "Modulate"; "Modulate2x"]
                 then setProp res "FilterMode" (VNum (ofZ (FilterMode (keyOf val))))
                 else res)
          else if kwIs keyword "TVertexAnimId" then
            n <- parseNumber ;; ret (setProp res "TVertexAnimId" (ofOptNum n))
          else
            n <- parseNumber ;;
            match n with
            | Some x => ret (setProp res (keyOf keyword) (VNum x))
            | None => k <- parseKeyword ;;
                      ret (setProp res (keyOf keyword) (ofOptStr k))
            end) ;;
  parseSymbol "," ;;;
  ret res.

Definition parseLayer : M obj :=
  let res := [("Alpha", VNull); ("TVertexAnimId", VNull);
              ("Shading", VNum (ofZ 0)); ("CoordId", VNum (ofZ 0))] in
  strictParseSymbol "{" ;;;
  res <- while_ fuel (fun _ => charIsNot "}") layerEntry res ;;
  strictParseSymbol "}" ;;;
  ret res.

(** One entry of a [Material] block. *)
Definition materialEntry (o : obj) : M obj :=
  keyword <- requireKeyword ;;
  o <- (if keyword == "Layer" then
          layer <- parseLayer ;;
          ret (setProp o "Layers"
                 (match getProp o "Layers" with
                  | VArr l => VArr (push l (VObj layer))
                  | v => v
                  end))
        else if keyword == "PriorityPlane" then
          n <- parseNumber ;; ret (setProp o "PriorityPlane" (ofOptNum n))
        else if (keyword == "ConstantColor") || (keyword == "SortPrimsFarZ")
                || (keyword == "FullResolution") then
          ret (orFlag o "RenderMode" (MaterialRenderMode keyword))
        else throw (Error ("Unknown material property " ++ keyword))) ;;
  parseSymbol "," ;;;
  ret o.

(** One [Material] of [parseMaterials]. *)
Definition materialsEntry (res : list value) : M (list value) :=
  let o := [("RenderMode", VNum (ofZ 0)); ("Layers", VArr [])] in
  parseKeyword ;;;
  strictParseSymbol "{" ;;;
  o <- while_ fuel (fun _ => charIsNot "}") materialEntry o ;;
  strictParseSymbol "}" ;;;
  ret (push res (VObj o)).

Definition parseMaterials (model : Model) : M Model :=
  parseNumber ;;;
  strictParseSymbol "{" ;;;
  res <- while_ fuel (fun _ => charIsNot "}") materialsEntry [] ;;
  strictParseSymbol "}" ;;;
  ret (set_Materials model res).

(** [new K(n)] for a number [n] / for the result of [parseNumber]. *)
Definition allocTyped (k : elemKind) (n : num) : M TypedArray :=
  match typedLength n with
  | Some len => ret (newTyped k len)
  | None => throw RangeError
  end.

Definition allocTypedOpt (k : elemKind) (n : option num) : M TypedArray :=
  match n with
  | Some x => allocTyped k x
  | None => ret (newTyped k 0)
  end.

(** [count * k] and [index < count], where [count] may be [null]. *)
Definition timesOpt (count : option num) (k : nat) : num :=
  match count with Some c => mulNat c k | None => ofZ 0 end.
Definition ltOpt (index : nat) (count : option num) : bool :=
  match count with Some c => ltNat index c | None => false end.

(** [o[key].push(v)]. *)
Definition pushProp (o : obj) (key : string) (v : value) : obj :=
  setProp o key (match getProp o key with
                 | VArr l => VArr (push l v)
                 | x => x
                 end).

(** [count { (arr ,) x count }] written into [arr], [countPerObj] numbers
    apart. *)
Definition parseVectors (count : option num) (countPerObj : nat)
    (arr : TypedArray) : M TypedArray :=
  strictParseSymbol "{" ;;;
  r <- while_ fuel (fun r => ret (ltOpt (fst r) count))
    (fun r =>
       v <- parseArray (Some (snd r)) (fst r * countPerObj) ;;
       strictParseSymbol "," ;;;
       ret (S (fst r), written (snd r) v)) (0, arr) ;;
  strictParseSymbol "}" ;;;
  ret (snd r).

(** One [Matrices] array of the [Groups] of a geoset. *)
Definition groupsEntry (groups : list value) : M (list value) :=
  parseKeyword ;;;
  v <- parseArray None 0 ;;
  parseSymbol "," ;;;
  ret (push groups v).

(** One entry of a [Geoset] block. *)
Definition geosetEntry (res : obj) : M obj :=
  keyword <- requireKeyword ;;
  if (keyword == "Vertices") || (keyword == "Normals") || (keyword == "TVertices")
  then
    let countPerObj := if keyword == "TVertices" then 2 else 3 in
    count <- parseNumber ;;
    arr <- allocTyped Float32 (timesOpt count countPerObj) ;;
    arr <- parseVectors count countPerObj arr ;;
    ret (if keyword == "TVertices" then pushProp res "TVertices" (VTyped arr)
         else setProp res keyword (VTyped arr))
  else if keyword == "VertexGroup" then
    match getProp res "Vertices" with
    | VTyped vertices =>
        arr <- allocTyped Uint8 (ratio (List.length (elems vertices)) 3) ;;
        v <- parseArray (Some arr) 0 ;;
        ret (setProp res "VertexGroup" (VTyped (written arr v)))
    | _ => throw TypeError
    end
  else if keyword == "Faces" then
    parseNumber ;;;
    indexCount <- parseNumber ;;
    faces <- allocTypedOpt Uint16 indexCount ;;
    strictParseSymbol "{" ;;;
    parseKeyword ;;;
    strictParseSymbol "{" ;;;
    v <- parseArray (Some faces) 0 ;;
    parseSymbol "," ;;;
    strictParseSymbol "}" ;;;
    strictParseSymbol "}" ;;;
    ret (setProp res "Faces" (VTyped (written faces v)))
  else if keyword == "Groups" then
    parseNumber ;;;
    total <- parseNumber ;;
    strictParseSymbol "{" ;;;
    groups <- while_ fuel (fun _ => charIsNot "}") groupsEntry [] ;;
    strictParseSymbol "}" ;;;
    ret (setProp (setProp res "TotalGroupsCount" (ofOptNum total))
           "Groups" (VArr groups))
  else if (keyword == "MinimumExtent") || (keyword == "MaximumExtent") then
    v <- parseArray (Some (newTyped Float32 3)) 0 ;;
    strictParseSymbol "," ;;;
    ret (setProp res keyword v)
  else if (keyword == "BoundsRadius") || (keyword == "MaterialID")
          || (keyword == "SelectionGroup") then
    n <- parseNumber ;;
    strictParseSymbol "," ;;;
    ret (setProp res keyword (ofOptNum n))
  else if keyword == "Anim" then
    r <- parseObject ;;
    let o := match getProp (snd r) "Alpha" with
             | VUndefined => setProp (snd r) "Alpha" (VNum (ofZ 1))
             | _ => snd r
             end in
    ret (pushProp res "Anims" (VObj o))
  else if keyword == "Unselectable" then
    strictParseSymbol "," ;;;
    ret (setProp res "Unselectable" (VBool true))
  else ret res.

Definition parseGeoset (model : Model) : M Model :=
  let res := [("Vertices", VNull); ("Normals", VNull); ("TVertices", VArr []);
              ("VertexGroup", VNull); ("Faces", VNull); ("Groups", VNull);
              ("TotalGroupsCount", VNull); ("MinimumExtent", VNull);
              ("MaximumExtent", VNull); ("BoundsRadius", VNull);
              ("Anims", VArr []); ("MaterialID", VNull);
              ("SelectionGroup", VNull); ("Unselectable", VBool false)] in
  strictParseSymbol "{" ;;;
  res <- while_ fuel (fun _ => charIsNot "}") geosetEntry res ;;
  strictParseSymbol "}" ;;;
  ret (set_Geosets model (push (Geosets model) (VObj res))).

(** [key.Vector.reverse(); if (key.InTan) { key.InTan.reverse();
    key.OutTan.reverse(); }]. *)
Definition reverseKey (key : AnimKeyframe) : AnimKeyframe :=
  match InTan key with
  | Some inTan =>
      mkKeyframe (Frame key) (typedReverse (Vector key))
        (Some (typedReverse inTan)) (option_map typedReverse (OutTan key))
  | None =>
      mkKeyframe (Frame key) (typedReverse (Vector key)) None (OutTan key)
  end.

Definition reverseKeys (a : AnimVector) : AnimVector :=
  mkAnimVector (LineTypeOf a) (GlobalSeqId a) (map reverseKey (Keys a)).

(** One entry of a [GeosetAnim] block. *)
Definition geosetAnimEntry (res : obj) : M obj :=
  ks <- parseStaticKeyword ;;
  let keyword := fst ks in
  let isStatic := snd ks in
  res <- (if kwIs keyword "Alpha" then
            if isStatic then
              n <- parseNumber ;; ret (setProp res "Alpha" (ofOptNum n))
            else
              a <- parseAnimVector FLOAT1 ;; ret (setProp res "Alpha" (VAnim a))
          else if kwIs keyword "Color" then
            if isStatic then
              v <- parseArray (Some (newTyped Float32 3)) 0 ;;
              match v with
              | VTyped t => ret (setProp res "Color" (VTyped (typedReverse t)))
              | _ => throw TypeError
              end
            else
              a <- parseAnimVector FLOAT3 ;;
              ret (setProp res "Color" (VAnim (reverseKeys a)))
          else if kwIs keyword "DropShadow" then
            ret (orFlag res "Flags" (GeosetAnimFlags E "DropShadow"))
          else
            n <- parseNumber ;; ret (setProp res (keyOf keyword) (ofOptNum n))) ;;
  parseSymbol "," ;;;
  ret res.

Definition parseGeosetAnim (model : Model) : M Model :=
  let res := [("GeosetId", VNum (ofZ (-1))); ("Alpha", VNum (ofZ 1));
              ("Color", VNull); ("Flags", VNum (ofZ 0))] in
  strictParseSymbol "{" ;;;
  res <- while_ fuel (fun _ => charIsNot "}") geosetAnimEntry res ;;
  strictParseSymbol "}" ;;;
  ret (set_GeosetAnims model (push (GeosetAnims model) (VObj res))).

(** [DontInherit { Translation | Rotation | Scaling }]. *)
Definition parseDontInherit (res : obj) : M obj :=
  strictParseSymbol "{" ;;;
  val <- parseKeyword ;;
  let res := if kwIs val "Translation"
             then orFlag res "Flags" (NodeFlags E "DontInheritTranslation")
             else if kwIs val "Rotation"
             then orFlag res "Flags" (NodeFlags E "DontInheritRotation")
             else if kwIs val "Scaling"
             then orFlag res "Flags" (NodeFlags E "DontInheritScaling")
             else res in
  strictParseSymbol "}" ;;;
  ret res.

(** The record of a node as its handler creates it. *)
Definition newNode (name : option string) (type : string) : obj :=
  [("Name", ofOptStr name); ("ObjectId", VNull); ("Parent", VNull);
   ("PivotPoint", VNull); ("Flags", VNum (ofZ (NodeType E type)))].

(** One entry of a [Bone], [Helper] or [Attachment] block. *)
Definition nodeEntry (node : obj) : M obj :=
  keyword <- requireKeyword ;;
  node <- (if (keyword == "Translation") || (keyword == "Rotation")
              || (keyword == "Scaling") || (keyword == "Visibility") then
             let vectorType := if keyword == "Rotation" then FLOAT4
                               else if keyword == "Visibility" then FLOAT1
                               else FLOAT3 in
             a <- parseAnimVector vectorType ;;
             ret (setProp node keyword (VAnim a))
           else if (keyword == "BillboardedLockZ") || (keyword == "BillboardedLockY")
                   || (keyword == "BillboardedLockX") || (keyword == "Billboarded")
                   || (keyword == "CameraAnchored") then
             ret (orFlag node "Flags" (NodeFlags E keyword))
           else if keyword == "DontInherit" then parseDontInherit node
           else if keyword == "Path" then
             s <- parseString ;; ret (setProp node "Path" (ofOptStr s))
           else
             k <- parseKeyword ;;
             val <- match k with
                    | Some s => ret (VStr s)
                    | None => n <- parseNumber ;; ret (ofOptNum n)
                    end ;;
             let val :=
               match val with
               | VStr s =>
                   if ((keyword == "GeosetId") && (s == "Multiple"))
                      || ((keyword == "GeosetAnimId") && (s == "None"))
                   then VNull else val
               | _ => val
               end in
             ret (setProp node keyword val)) ;;
  parseSymbol "," ;;;
  ret node.

(** [parseNode]: the node is stored and written to [model.Nodes] under
    its [ObjectId]; the result is the reference to it. *)
Definition parseNode (type : string) (model : Model) : M (value * Model) :=
  name <- parseString ;;
  let node := newNode name type in
  strictParseSymbol "{" ;;;
  node <- while_ fuel (fun _ => charIsNot "}") nodeEntry node ;;
  strictParseSymbol "}" ;;;
  let am := alloc model (VObj node) in
  let ref := VRef (snd am) in
  ret (ref, setNode (fst am) (getProp node "ObjectId") ref).

Definition parseBone (model : Model) : M Model :=
  r <- parseNode "Bone" model ;;
  ret (set_Bones (snd r) (push (Bones (snd r)) (fst r))).

Definition parseHelper (model : Model) : M Model :=
  r <- parseNode "Helper" model ;;
  ret (set_Helpers (snd r) (push (Helpers (snd r)) (fst r))).

Definition parseAttachment (model : Model) : M Model :=
  r <- parseNode "Attachment" model ;;
  ret (set_Attachments (snd r) (push (Attachments (snd r)) (fst r))).

(** The pivot vectors read by [parsePivotPoints] are stored one by one;
    an entry that [parseArray] answered [null] for stays [null]. *)
Fixpoint allocAll (m : Model) (vs : list value) : Model * list value :=
  match vs with
  | [] => (m, [])
  | VNull :: vs' =>
      let r := allocAll m vs' in (fst r, VNull :: snd r)
  | v :: vs' =>
      let am := alloc m v in
      let r := allocAll (fst am) vs' in
      (fst r, VRef (snd am) :: snd r)
  end.

Definition parsePivotPoints (model : Model) : M Model :=
  count <- parseNumber ;;
  strictParseSymbol "{" ;;;
  r <- while_ fuel (fun r => ret (ltOpt (fst r) count))
    (fun r =>
       v <- parseArray (Some (newTyped Float32 3)) 0 ;;
       strictParseSymbol "," ;;;
       ret (S (fst r), push (snd r) v)) (0, []) ;;
  strictParseSymbol "}" ;;;
  let am := allocAll model (snd r) in
  ret (set_PivotPoints (fst am) (snd am)).

(** The animated transformation of the handlers that read
    [Translation], [Rotation] and [Scaling] only. *)
Definition transformType (keyword : string) : AnimVectorType :=
  if keyword == "Rotation" then FLOAT4 else FLOAT3.

(** [bucket.push(res); model.Nodes.push(res)] for a fresh node [res]. *)
Definition registerNode (model : Model) (res : obj) : Model * value :=
  let am := alloc model (VObj res) in
  (fst am, VRef (snd am)).

(** One entry of an [EventObject] block. *)
Definition eventObjectEntry (res : obj) : M obj :=
  keyword <- requireKeyword ;;
  res <- (if keyword == "EventTrack" then
            count <- parseNumber ;;
            arr <- allocTypedOpt Uint32 count ;;
            v <- parseArray (Some arr) 0 ;;
            ret (setProp res "EventTrack" v)
          else if (keyword == "Translation") || (keyword == "Rotation")
                  || (keyword == "Scaling") then
            a <- parseAnimVector (transformType keyword) ;;
            ret (setProp res keyword (VAnim a))
          else
            n <- parseNumber ;; ret (setProp res keyword (ofOptNum n))) ;;
  parseSymbol "," ;;;
  ret res.

(** The record of an event object as its handler creates it. *)
Definition newEventObject (name : option string) : obj :=
  [("Name", ofOptStr name); ("ObjectId", VNull); ("Parent", VNull);
   ("PivotPoint", VNull); ("EventTrack", VNull);
   ("Flags", VNum (ofZ (NodeType E "EventObject")))].

Definition parseEventObject (model : Model) : M Model :=
  name <- parseString ;;
  let res := newEventObject name in
  strictParseSymbol "{" ;;;
  res <- while_ fuel (fun _ => charIsNot "}") eventObjectEntry res ;;
  strictParseSymbol "}" ;;;
  let r := registerNode model res in
  let m := set_EventObjects (fst r) (push (EventObjects (fst r)) (snd r)) in
  ret (set_Nodes m (push (Nodes m) (snd r))).

(** One entry of a [CollisionShape] block. *)
Definition collisionShapeEntry (res : obj) : M obj :=
  keyword <- requireKeyword ;;
  res <- (if keyword == "Sphere" then
            ret (setProp res "Shape" (VNum (ofZ (CollisionShapeType "Sphere"))))
          else if keyword == "Box" then
            ret (setProp res "Shape" (VNum (ofZ (CollisionShapeType "Box"))))
          else if keyword == "Vertices" then
            count <- parseNumber ;;
            vertices <- allocTyped Float32 (timesOpt count 3) ;;
            vertices <- parseVectors count 3 vertices ;;
            ret (setProp res "Vertices" (VTyped vertices))
          else if (keyword == "Translation") || (keyword == "Rotation")
                  || (keyword == "Scaling") then
            a <- parseAnimVector (transformType keyword) ;;
            ret (setProp res keyword (VAnim a))
          else
            n <- parseNumber ;; ret (setProp res keyword (ofOptNum n))) ;;
  parseSymbol "," ;;;
  ret res.

(** The record of a collision shape as its handler creates it. *)
Definition newCollisionShape (name : option string) : obj :=
  [("Name", ofOptStr name); ("ObjectId", VNull); ("Parent", VNull);
   ("PivotPoint", VNull);
   ("Shape", VNum (ofZ (CollisionShapeType "Box")));
   ("Vertices", VNull);
   ("Flags", VNum (ofZ (NodeType E "CollisionShape")))].

Definition parseCollisionShape (model : Model) : M Model :=
  name <- parseString ;;
  let res := newCollisionShape name in
  strictParseSymbol "{" ;;;
  res <- while_ fuel (fun _ => charIsNot "}") collisionShapeEntry res ;;
  strictParseSymbol "}" ;;;
  let r := registerNode model res in
  let m := set_CollisionShapes (fst r) (push (CollisionShapes (fst r)) (snd r)) in
  ret (set_Nodes m (push (Nodes m) (snd r))).

Definition parseGlobalSequences (model : Model) : M Model :=
  count <- parseNumber ;;
  strictParseSymbol "{" ;;;
  r <- while_ fuel (fun r => ret (ltOpt (fst r) count))
    (fun r =>
       keyword <- parseKeyword ;;
       res <- (if kwIs keyword "Duration" then
                 n <- parseNumber ;; ret (push (snd r) (ofOptNum n))
               else ret (snd r)) ;;
       parseSymbol "," ;;;
       ret (S (fst r), res)) (0, []) ;;
  strictParseSymbol "}" ;;;
  ret (set_GlobalSequences model (snd r)).

Definition parseUnknownBlock : M unit :=
  while_ fuel
    (fun _ => c <- peek ;;
              ret (match c with Some a => negb (Ascii.eqb a "{") | None => false end))
    (fun _ => advance) tt ;;;
  advance ;;;
  while_ fuel
    (fun opened => c <- peek ;;
                   ret (match c with Some _ => (0 <? opened)%Z | None => false end))
    (fun opened =>
       c <- peek ;;
       advance ;;;
       ret (if is_char c "{" then (opened + 1)%Z
            else if is_char c "}" then (opened - 1)%Z
            else opened)) 1%Z ;;;
  parseSpace.

(** One entry of the [Particle] block of a [ParticleEmitter]. *)
Definition particleEntry (res : obj) : M obj :=
  keyword2 <- parseKeyword ;;
  ks2 <- (if kwIs keyword2 "static"
          then k <- parseKeyword ;; ret (k, true)
          else ret (keyword2, false)) ;;
  let keyword2 := fst ks2 in
  let isStatic2 := snd ks2 in
  res <- (if negb isStatic2
             && (kwIs keyword2 "LifeSpan" || kwIs keyword2 "InitVelocity")
          then
            a <- parseAnimVector FLOAT1 ;;
            ret (setProp res (keyOf keyword2) (VAnim a))
          else if kwIs keyword2 "LifeSpan" || kwIs keyword2 "InitVelocity"
          then
            n <- parseNumber ;;
            ret (setProp res (keyOf keyword2) (ofOptNum n))
          else if kwIs keyword2 "Path" then
            s <- parseString ;; ret (setProp res "Path" (ofOptStr s))
          else ret res) ;;
  parseSymbol "," ;;;
  ret res.

(** One entry of a [ParticleEmitter] block. *)
Definition particleEmitterEntry (res : obj) : M obj :=
  ks <- parseStaticKeyword ;;
  let keyword := fst ks in
  let isStatic := snd ks in
  res <- (if kwIs keyword "ObjectId" || kwIs keyword "Parent" then
            n <- parseNumber ;; ret (setProp res (keyOf keyword) (ofOptNum n))
          else if kwIs keyword "EmitterUsesMDL" || kwIs keyword "EmitterUsesTGA" then
            ret (orFlag res "Flags" (ParticleEmitterFlags E (keyOf keyword)))
          else if negb isStatic
                  && kwIn keyword ["Visibility"; "Translation"; "Rotation"; "Scaling";
                                   "EmissionRate"; "Gravity"; "Longitude"; "Latitude"]
          then
            let type := if kwIn keyword ["Visibility"; "EmissionRate"; "Gravity";
                                         "Longitude"; "Latitude"] then FLOAT1
                        else if kwIs keyword "Rotation" then FLOAT4
                        else FLOAT3 in
            a <- parseAnimVector type ;;
            ret (setProp res (keyOf keyword) (VAnim a))
          else if kwIs keyword "Particle" then
            strictParseSymbol "{" ;;;
            res <- while_ fuel (fun _ => charIsNot "}") particleEntry res ;;
            strictParseSymbol "}" ;;;
            ret res
          else
            n <- parseNumber ;; ret (setProp res (keyOf keyword) (ofOptNum n))) ;;
  parseSymbol "," ;;;
  ret res.

Definition parseParticleEmitter (model : Model) : M Model :=
  let res := [("ObjectId", VNull); ("Parent", VNull); ("Name", VNull);
              ("Flags", VNum (ofZ 0))] in
  name <- parseString ;;
  let res := setProp res "Name" (ofOptStr name) in
  strictParseSymbol "{" ;;;
  res <- while_ fuel (fun _ => charIsNot "}") particleEmitterEntry res ;;
  strictParseSymbol "}" ;;;
  ret (set_ParticleEmitters model (push (ParticleEmitters model) (VObj res))).

(** One [Color] of a [SegmentColor] block. *)
Definition segmentColorEntry (colors : list value) : M (list value) :=
  parseKeyword ;;;
  let colorArr := newTyped Float32 3 in
  v <- parseArray (Some colorArr) 0 ;;
  let colorArr := swap02 (written colorArr v) in
  parseSymbol "," ;;;
  ret (push colors (VTyped colorArr)).

(** [SegmentColor { (Color arr ,)* }]. *)
Definition parseSegmentColor : M (list value) :=
  strictParseSymbol "{" ;;;
  colors <- while_ fuel (fun _ => charIsNot "}") segmentColorEntry [] ;;
  strictParseSymbol "}" ;;;
  ret colors.

(** One entry of a [ParticleEmitter2] block. *)
Definition particleEmitter2Entry (res : obj) : M obj :=
  ks <- parseStaticKeyword ;;
  let keyword := fst ks in
  let isStatic := snd ks in
  res <- (if negb isStatic
             && kwIn keyword ["Speed"; "Latitude"; "Visibility"; "EmissionRate";
                              "Width"; "Length"; "Translation"; "Rotation";
                              "Scaling"; "Gravity"; "Variation"]
          then
            let type := if kwIs keyword "Rotation" then FLOAT4
                        else if kwIn keyword ["Speed"; "Latitude"; "Visibility";
                                              "EmissionRate"; "Width"; "Length";
                                              "Gravity"; "Variation"] then FLOAT1
                        else FLOAT3 in
            a <- parseAnimVector type ;;
            ret (setProp res (keyOf keyword) (VAnim a))
          else if kwIs keyword "Variation" || kwIs keyword "Gravity" then
            n <- parseNumber ;; ret (setProp res (keyOf keyword) (ofOptNum n))
          else if kwIn keyword ["SortPrimsFarZ"; "Unshaded"; "LineEmitter";
                                "Unfogged"; "ModelSpace"; "XYQuad"] then
            ret (orFlag res "Flags" (ParticleEmitter2Flags E (keyOf keyword)))
          else if kwIs keyword "Both" then
            ret (orFlag res "FrameFlags"
                   (Z.lor (int32 (ParticleEmitter2FramesFlags E "Head"))
                          (int32 (ParticleEmitter2FramesFlags E "Tail"))))
          else if kwIs keyword "Head" || kwIs keyword "Tail" then
            ret (orFlag res "FrameFlags" (ParticleEmitter2FramesFlags E (keyOf keyword)))
          else if kwIs keyword "Squirt" then
            ret (setProp res "Squirt" (VBool true))
          else if kwIs keyword "DontInherit" then parseDontInherit res
          else if kwIs keyword "SegmentColor" then
            colors <- parseSegmentColor ;;
            ret (setProp res "SegmentColor" (VArr colors))
          else if kwIs keyword "Alpha" then
            let arr := newTyped Uint8 3 in
            v <- parseArray (Some arr) 0 ;;
            ret (setProp res "Alpha" (VTyped (written arr v)))
          else if kwIs keyword "ParticleScaling" then
            let arr := newTyped Float32 3 in
            v <- parseArray (Some arr) 0 ;;
            ret (setProp res "ParticleScaling" (VTyped (written arr v)))
          else if kwIn keyword ["LifeSpanUVAnim"; "DecayUVAnim"; "TailUVAnim";
                                "TailDecayUVAnim"] then
            let arr := newTyped Uint32 3 in
            v <- parseArray (Some arr) 0 ;;
            ret (setProp res (keyOf keyword) (VTyped (written arr v)))
          else if kwIn keyword ["Transparent"; "Blend"; "Additive"; "AlphaKey";
                                "Modulate"; "Modulate2x"] then
            ret (setProp res "FilterMode"
                   (VNum (ofZ (ParticleEmitter2FilterMode E (keyOf keyword)))))
          else
            n <- parseNumber ;; ret (setProp res (keyOf keyword) (ofOptNum n))) ;;
  parseSymbol "," ;;;
  ret res.

(** The record of a particle emitter as its handler creates it. *)
Definition newParticleEmitter2 (name : option string) : obj :=
  [("Name", ofOptStr name); ("ObjectId", VNull); ("Parent", VNull);
   ("PivotPoint", VNull);
   ("Flags", VNum (ofZ (NodeType E "ParticleEmitter")));
   ("FrameFlags", VNum (ofZ 0))].

Definition parseParticleEmitter2 (model : Model) : M Model :=
  name <- parseString ;;
  let res := newParticleEmitter2 name in
  strictParseSymbol "{" ;;;
  res <- while_ fuel (fun _ => charIsNot "}") particleEmitter2Entry res ;;
  strictParseSymbol "}" ;;;
  let r := registerNode model res in
  let m := set_ParticleEmitters2 (fst r) (push (ParticleEmitters2 (fst r)) (snd r)) in
  ret (set_Nodes m (push (Nodes m) (snd r))).

(** One entry of the [Target] block of a [Camera]. *)
Definition cameraTargetEntry (res : obj) : M obj :=
  keyword2 <- parseKeyword ;;
  res <- (if kwIs keyword2 "Position" then
            let arr := newTyped Float32 3 in
            v <- parseArray (Some arr) 0 ;;
            ret (setProp res "TargetPosition" (VTyped (written arr v)))
          else if kwIs keyword2 "Translation" then
            a <- parseAnimVector FLOAT3 ;;
            ret (setProp res "TargetTranslation" (VAnim a))
          else ret res) ;;
  parseSymbol "," ;;;
  ret res.

(** One entry of a [Camera] block. *)
Definition cameraEntry (res : obj) : M obj :=
  keyword <- requireKeyword ;;
  res <- (if keyword == "Position" then
            let arr := newTyped Float32 3 in
            v <- parseArray (Some arr) 0 ;;
            ret (setProp res "Position" (VTyped (written arr v)))
          else if (keyword == "FieldOfView") || (keyword == "NearClip")
                  || (keyword == "FarClip") then
            n <- parseNumber ;; ret (setProp res keyword (ofOptNum n))
          else if keyword == "Target" then
            strictParseSymbol "{" ;;;
            res <- while_ fuel (fun _ => charIsNot "}") cameraTargetEntry res ;;
            strictParseSymbol "}" ;;;
            ret res
          else if (keyword == "Translation") || (keyword == "Rotation") then
            a <- parseAnimVector (if keyword == "Rotation" then FLOAT1 else FLOAT3) ;;
            ret (setProp res keyword (VAnim a))
          else ret res) ;;
  parseSymbol "," ;;;
  ret res.

Definition parseCamera (model : Model) : M Model :=
  let res := [("Name", VNull); ("Position", VNull); ("FieldOfView", VNum (ofZ 0));
              ("NearClip", VNum (ofZ 0)); ("FarClip", VNum (ofZ 0));
              ("TargetPosition", VNull)] in
  name <- parseString ;;
  let res := setProp res "Name" (ofOptStr name) in
  strictParseSymbol "{" ;;;
  res <- while_ fuel (fun _ => charIsNot "}") cameraEntry res ;;
  strictParseSymbol "}" ;;;
  ret (set_Cameras model (push (Cameras model) (VObj res))).

(** [Color { b, g, r }] read into a fresh triple and stored in RGB order. *)
Definition parseSwappedColor : M value :=
  let color := newTyped Float32 3 in
  v <- parseArray (Some color) 0 ;;
  ret (VTyped (swap02 (written color v))).

(** One entry of a [Light] block. *)
Definition lightEntry (res : obj) : M obj :=
  ks <- parseStaticKeyword ;;
  let keyword := fst ks in
  let isStatic := snd ks in
  res <- (if negb isStatic
             && kwIn keyword ["Visibility"; "Color"; "Intensity"; "AmbIntensity";
                              "AmbColor"; "Translation"; "Rotation"; "Scaling";
                              "AttenuationStart"; "AttenuationEnd"]
          then
            let type := if kwIs keyword "Rotation" then FLOAT4
                        else if kwIn keyword ["Visibility"; "Intensity"; "AmbIntensity";
                                              "AttenuationStart"; "AttenuationEnd"]
                        then FLOAT1
                        else FLOAT3 in
            a <- parseAnimVector type ;;
            ret (setProp res (keyOf keyword)
                   (VAnim (if kwIs keyword "Color" || kwIs keyword "AmbColor"
                           then reverseKeys a else a)))
          else if kwIn keyword ["Omnidirectional"; "Directional"; "Ambient"] then
            ret (setProp res "LightType" (VNum (ofZ (LightTypeOf E (keyOf keyword)))))
          else if kwIs keyword "Color" || kwIs keyword "AmbColor" then
            color <- parseSwappedColor ;;
            ret (setProp res (keyOf keyword) color)
          else
            n <- parseNumber ;; ret (setProp res (keyOf keyword) (ofOptNum n))) ;;
  parseSymbol "," ;;;
  ret res.

(** The record of a light as its handler creates it. *)
Definition newLight (name : option string) : obj :=
  [("Name", ofOptStr name); ("ObjectId", VNull); ("Parent", VNull);
   ("PivotPoint", VNull); ("Flags", VNum (ofZ (NodeType E "Light")));
   ("LightType", VNum (ofZ 0))].

Definition parseLight (model : Model) : M Model :=
  name <- parseString ;;
  let res := newLight name in
  strictParseSymbol "{" ;;;
  res <- while_ fuel (fun _ => charIsNot "}") lightEntry res ;;
  strictParseSymbol "}" ;;;
  let r := registerNode model res in
  let m := set_Lights (fst r) (push (Lights (fst r)) (snd r)) in
  ret (set_Nodes m (push (Nodes m) (snd r))).

(** One entry of a [TVertexAnim] block. *)
Definition tVertexAnimEntry (o : obj) : M obj :=
  keyword <- requireKeyword ;;
  o <- (if (keyword == "Translation") || (keyword == "Rotation")
           || (keyword == "Scaling") then
          a <- parseAnimVector (transformType keyword) ;;
          ret (setProp o keyword (VAnim a))
        else throw (Error ("Unknown texture anim property " ++ keyword))) ;;
  parseSymbol "," ;;;
  ret o.

(** One [TVertexAnim] of [parseTextureAnims]. *)
Definition textureAnimsEntry (res : list value) : M (list value) :=
  parseKeyword ;;;
  strictParseSymbol "{" ;;;
  o <- while_ fuel (fun _ => charIsNot "}") tVertexAnimEntry [] ;;
  strictParseSymbol "}" ;;;
  ret (push res (VObj o)).

Definition parseTextureAnims (model : Model) : M Model :=
  parseNumber ;;;
  strictParseSymbol "{" ;;;
  res <- while_ fuel (fun _ => charIsNot "}") textureAnimsEntry [] ;;
  strictParseSymbol "}" ;;;
  ret (set_TextureAnims model res).

(** One entry of a [RibbonEmitter] block. *)
Definition ribbonEmitterEntry (res : obj) : M obj :=
  ks <- parseStaticKeyword ;;
  let keyword := fst ks in
  let isStatic := snd ks in
  res <- (if negb isStatic
             && kwIn keyword ["Visibility"; "HeightAbove"; "HeightBelow";
                              "Translation"; "Rotation"; "Scaling"; "Alpha";
                              "TextureSlot"]
          then
            let type := if kwIs keyword "Rotation" then FLOAT4
                        else if kwIn keyword ["Visibility"; "HeightAbove";
                                              "HeightBelow"; "Alpha"] then FLOAT1
                        else if kwIs keyword "TextureSlot" then INT1
                        else FLOAT3 in
            a <- parseAnimVector type ;;
            ret (setProp res (keyOf keyword) (VAnim a))
          else if kwIs keyword "Color" then
            color <- parseSwappedColor ;;
            ret (setProp res "Color" color)
          else
            n <- parseNumber ;; ret (setProp res (keyOf keyword) (ofOptNum n))) ;;
  parseSymbol "," ;;;
  ret res.

(** The record of a ribbon emitter as its handler creates it. *)
Definition newRibbonEmitter (name : option string) : obj :=
  [("Name", ofOptStr name); ("ObjectId", VNull); ("Parent", VNull);
   ("PivotPoint", VNull);
   ("Flags", VNum (ofZ (NodeType E "RibbonEmitter")));
   ("HeightAbove", VNull); ("HeightBelow", VNull); ("Alpha", VNull);
   ("Color", VNull); ("LifeSpan", VNull); ("TextureSlot", VNull);
   ("EmissionRate", VNull); ("Rows", VNull); ("Columns", VNull);
   ("MaterialID", VNull); ("Gravity", VNull); ("Visibility", VNull)].

Definition parseRibbonEmitter (model : Model) : M Model :=
  name <- parseString ;;
  let res := newRibbonEmitter name in
  strictParseSymbol "{" ;;;
  res <- while_ fuel (fun _ => charIsNot "}") ribbonEmitterEntry res ;;
  strictParseSymbol "}" ;;;
  let r := registerNode model res in
  let m := set_RibbonEmitters (fst r) (push (RibbonEmitters (fst r)) (snd r)) in
  ret (set_Nodes m (push (Nodes m) (snd r))).

(** ** Driver *)

(** The table [parsers]. *)
Definition parsers : list (string * (Model -> M Model)) :=
  [("Version", parseVersion); ("Model", parseModelInfo);
   ("Sequences", parseSequences); ("Textures", parseTextures);
   ("Materials", parseMaterials); ("Geoset", parseGeoset);
   ("GeosetAnim", parseGeosetAnim); ("Bone", parseBone);
   ("Helper", parseHelper); ("Attachment", parseAttachment);
   ("PivotPoints", parsePivotPoints); ("EventObject", parseEventObject);
   ("CollisionShape", parseCollisionShape);
   ("GlobalSequences", parseGlobalSequences);
   ("ParticleEmitter", parseParticleEmitter);
   ("ParticleEmitter2", parseParticleEmitter2); ("Camera", parseCamera);
   ("Light", parseLight); ("TextureAnims", parseTextureAnims);
   ("RibbonEmitter", parseRibbonEmitter)].

Fixpoint lookupParser (l : list (string * (Model -> M Model))) (keyword : string)
    : option (Model -> M Model) :=
  match l with
  | [] => None
  | (k, p) :: l' => if k == keyword then Some p else lookupParser l' keyword
  end.

(** [parsers] is an object literal: [keyword in parsers] also holds for
    the properties it inherits from [Object.prototype].  Those a keyword
    can spell are listed here; called as [parsers[keyword](state, model)]
    each returns without touching its arguments. *)
Definition inheritedProperties : list string :=
  ["constructor"; "hasOwnProperty"; "isPrototypeOf"; "propertyIsEnumerable";
   "toLocaleString"; "toString"; "valueOf"].

Definition initialModel : Model :=
  mkModel
    [("Name", VStr ""); ("MinimumExtent", VNull); ("MaximumExtent", VNull);
     ("BoundsRadius", VNum (ofZ 0)); ("BlendTime", VNum (ofZ 150))]
    [] [] [] [] [] [] [] [] [] [] [] [] [] [] [] [] [] [] [] []
    (VNum (ofZ 800)) [].

(** One turn of the top-level loop; [false] stands for [break]. *)
Definition parseBlock (model : Model) : M (bool * Model) :=
  while_ fuel (fun _ => parseComment) (fun _ => ret tt) tt ;;;
  keyword <- parseKeyword ;;
  match keyword with
  | Some k =>
      match lookupParser parsers k with
      | Some p => m <- p model ;; ret (true, m)
      | None =>
          if existsb (String.eqb k) inheritedProperties then ret (true, model)
          else parseUnknownBlock ;;; ret (true, model)
      end
  | None => ret (false, model)
  end.

Definition parseBlocks (model : Model) : M Model :=
  r <- while_ fuel (fun r : bool * Model => if fst r then inBounds else ret false)
         (fun r => parseBlock (snd r)) (true, model) ;;
  ret (snd r).

(** [model.Nodes[i].PivotPoint = model.PivotPoints[i]] on the store. *)
Definition assignPivot (m : Model) (i : nat) : option Model :=
  let pivot := nth i (PivotPoints m) VUndefined in
  if truthy pivot then
    match nth i (Nodes m) VUndefined with
    | VRef a =>
        match nth_error (Store m) a with
        | Some (VObj node) =>
            Some (set_Store m (list_set (Store m) a
                                 (VObj (setProp node "PivotPoint" pivot))))
        | _ => None
        end
    | _ => None
    end
  else Some m.

(** The finalization pass: [for (let i = 0; i < model.Nodes.length; ++i)],
    from index [i] with [n] indices left to visit. *)
Fixpoint assignPivots (n i : nat) (m : Model) : option Model :=
  match n with
  | O => Some m
  | S n' =>
      match assignPivot m i with
      | Some m' => assignPivots n' (S i) m'
      | None => None
      end
  end.

Definition finalize (m : Model) : M Model :=
  match assignPivots (List.length (Nodes m)) 0 m with
  | Some m' => ret m'
  | None => throw TypeError
  end.

(** [parse] from a given cursor and scene: the top-level loop followed by
    the finalization pass. *)
Definition parseFrom (model : Model) : M Model :=
  m <- parseBlocks model ;;
  finalize m.

Definition parse (s : string) : result Model :=
  parseFrom initialModel (mkState (list_ascii_of_string s) 0).

End Parser.

(** ** A reference instance of [JSNumber]

    Exact decimal numbers [m * 10^e]: an integer is [Dec m 0], any other
    number has [e < 0] and a mantissa free of trailing zeros.  The
    instance idealises IEEE rounding (a double is replaced by the decimal
    it was written as, and [Float32] stores do not round); it agrees with
    JavaScript on the integers below 2^53.  It serves to run the parser
    on concrete inputs; no theorem depends on it. *)
Unset Implicit Arguments.

Module DecNum.

Local Open Scope Z_scope.

Inductive t := NaN | Dec (m e : Z).

(** Removal of up to [n] trailing zeros of the mantissa; with [toZero],
    only while the exponent is negative. *)
Fixpoint strip (toZero : bool) (n : nat) (m e : Z) : Z * Z :=
  match n with
  | O => (m, e)
  | S n' =>
      if m =? 0 then (0, 0)
      else if toZero && (0 <=? e) then (m, e)
      else if m mod 10 =? 0 then strip toZero n' (m / 10) (e + 1)
      else (m, e)
  end.

Definition digitsBound (m : Z) : nat := S (Z.to_nat (Z.log2 (Z.abs m))).

Definition normalize (m e : Z) : t :=
  if 0 <=? e then Dec (m * 10 ^ e) 0
  else let r := strip true (digitsBound m) m e in Dec (fst r) (snd r).

(** The integer part, rounded towards zero. *)
Definition trunc (m e : Z) : Z :=
  if 0 <=? e then m * 10 ^ e else Z.quot m (10 ^ (- e)).

Fixpoint takeDigits (s : string) : list Z * string :=
  match s with
  | String c r =>
      if isDigit c then
        let p := takeDigits r in (Z.of_nat (code c - 48) :: fst p, snd p)
      else ([], s)
  | EmptyString => ([], s)
  end.

Definition digitsToZ (l : list Z) : Z :=
  fold_left (fun acc d => acc * 10 + d) l 0.

Definition takeSign (s : string) : bool * string :=
  match s with
  | String c r =>
      if (code c =? 45)%nat then (true, r)
      else if (code c =? 43)%nat then (false, r)
      else (false, s)
  | EmptyString => (false, s)
  end.

(** The longest prefix that is a decimal literal; [NaN] when there is
    none. *)
Definition parseFloat (s : string) : t :=
  let sg := takeSign s in
  let ip := takeDigits (snd sg) in
  let fp := match snd ip with
            | String c r => if (code c =? 46)%nat then takeDigits r else ([], snd ip)
            | EmptyString => ([], snd ip)
            end in
  if (List.length (fst ip) + List.length (fst fp) =? 0)%nat then NaN
  else
    let ex := match snd fp with
              | String c r =>
                  if ((code c =? 101) || (code c =? 69))%nat then
                    let es := takeSign r in
                    let ed := takeDigits (snd es) in
                    match fst ed with
                    | [] => 0
                    | _ => if fst es then - digitsToZ (fst ed) else digitsToZ (fst ed)
                    end
                  else 0
              | EmptyString => 0
              end in
    let m := digitsToZ (fst ip ++ fst fp) in
    normalize (if fst sg then - m else m) (ex - Z.of_nat (List.length (fst fp))).

Definition ofZ (z : Z) : t := normalize z 0.

Definition wrap32 (z : Z) : Z := (z + 2 ^ 31) mod 2 ^ 32 - 2 ^ 31.

Definition toInt32 (x : t) : Z :=
  match x with NaN => 0 | Dec m e => wrap32 (trunc m e) end.

Definition toBoolean (x : t) : bool :=
  match x with NaN => false | Dec m _ => negb (m =? 0) end.

Definition natDigits (n : Z) : string :=
  DecimalString.NilZero.string_of_uint (N.to_uint (Z.to_N n)).

Definition zeros (n : Z) : string :=
  string_of_list_ascii (repeat "0"%char (Z.to_nat n)).

(** [Number::toString] for radix 10, on the digits of the mantissa. *)
Definition toPropertyKey (x : t) : string :=
  match x with
  | NaN => "NaN"
  | Dec m0 e0 =>
      let m := fst (strip false (digitsBound m0) m0 e0) in
      let e := snd (strip false (digitsBound m0) m0 e0) in
      if m =? 0 then "0"
      else
        let sign := if m <? 0 then "-" else "" in
        let ds := natDigits (Z.abs m) in
        let k := Z.of_nat (String.length ds) in
        let n := e + k in
        String.concat ""
          (sign ::
           (if (k <=? n) && (n <=? 21) then [ds; zeros (n - k)]
            else if (0 <? n) && (n <=? 21) then
              [String.substring 0 (Z.to_nat n) ds; ".";
               String.substring (Z.to_nat n) (Z.to_nat (k - n)) ds]
            else if (-6 <? n) && (n <=? 0) then ["0."; zeros (- n); ds]
            else
              let ex := [if 0 <? n - 1 then "+" else "-"; natDigits (Z.abs (n - 1))] in
              if k =? 1 then ds :: "e" :: ex
              else String.substring 0 1 ds :: "." ::
                   String.substring 1 (Z.to_nat (k - 1)) ds :: "e" :: ex))
  end.

Definition ltNat (i : nat) (x : t) : bool :=
  match x with
  | NaN => false
  | Dec m e => if 0 <=? e then Z.of_nat i <? m * 10 ^ e
               else Z.of_nat i * 10 ^ (- e) <? m
  end.

Definition mulNat (x : t) (k : nat) : t :=
  match x with NaN => NaN | Dec m e => normalize (m * Z.of_nat k) e end.

(** The quotient of two lengths, to seventeen decimal places. *)
Definition ratio (a b : nat) : t :=
  if (b =? 0)%nat then NaN
  else normalize (Z.of_nat a * 10 ^ 17 / Z.of_nat b) (-17).

(** [ToIndex]. *)
Definition typedLength (x : t) : option nat :=
  match x with
  | NaN => Some O
  | Dec m e =>
      let i := trunc m e in
      if (0 <=? i) && (i <=? 2 ^ 53 - 1) then Some (Z.to_nat i) else None
  end.

Definition coerce (k : elemKind) (x : t) : t :=
  match k, x with
  | Float32, _ => x
  | _, NaN => Dec 0 0
  | Uint8, Dec m e => normalize (trunc m e mod 2 ^ 8) 0
  | Uint16, Dec m e => normalize (trunc m e mod 2 ^ 16) 0
  | Uint32, Dec m e => normalize (trunc m e mod 2 ^ 32) 0
  | Int32, Dec m e => normalize (wrap32 (trunc m e)) 0
  end.

Lemma toInt32_ofZ (z : Z) : - 2 ^ 31 <= z < 2 ^ 31 -> toInt32 (ofZ z) = z.
Proof.
  intros Hz. unfold ofZ, normalize, toInt32, trunc. simpl.
  unfold wrap32. rewrite Z.mul_1_r. rewrite Z.mod_small by lia. lia.
Qed.

Lemma toInt32_range (x : t) : - 2 ^ 31 <= toInt32 x < 2 ^ 31.
Proof.
  destruct x as [|m e]; simpl; [lia|]. unfold wrap32.
  pose proof (Z.mod_pos_bound (trunc m e + 2 ^ 31) (2 ^ 32)). lia.
Qed.

End DecNum.

#[export] Instance JSNumber_DecNum : JSNumber DecNum.t := {|
  parseFloat := DecNum.parseFloat;
  ofZ := DecNum.ofZ;
  toInt32 := DecNum.toInt32;
  toBoolean := DecNum.toBoolean;
  toPropertyKey := DecNum.toPropertyKey;
  ltNat := DecNum.ltNat;
  mulNat := DecNum.mulNat;
  ratio := DecNum.ratio;
  typedLength := DecNum.typedLength;
  coerce := DecNum.coerce;
  toInt32_ofZ := DecNum.toInt32_ofZ;
  toInt32_range := DecNum.toInt32_range
|}.

Arguments Model num : clear implicits.
Arguments value num : clear implicits.
Arguments obj num : clear implicits.
Arguments TypedArray num : clear implicits.
Arguments AnimKeyframe num : clear implicits.
Arguments AnimVector num : clear implicits.

(** ** Example enumeration tables

    Values as the specification constrains them: the node-type tags are
    single bits of one range, the node flags and the emitter flags lie
    outside that range. *)
Definition table (l : list (string * Z)) (s : string) : Z :=
  match find (fun p => fst p == s) l with
  | Some p => snd p
  | None => 0%Z
  end.

Definition refEnums : Enums := {|
  NodeType := table [("Helper", 256); ("Bone", 512); ("Light", 1024);
                     ("EventObject", 2048); ("Attachment", 4096);
                     ("ParticleEmitter", 8192); ("CollisionShape", 16384);
                     ("RibbonEmitter", 32768)]%Z;
  NodeFlags := table [("DontInheritTranslation", 1); ("DontInheritRotation", 2);
                      ("DontInheritScaling", 4); ("Billboarded", 8);
                      ("BillboardedLockX", 16); ("BillboardedLockY", 32);
                      ("BillboardedLockZ", 64); ("CameraAnchored", 128)]%Z;
  GeosetAnimFlags := table [("DropShadow", 1)]%Z;
  ParticleEmitterFlags := table [("EmitterUsesMDL", 32768); ("EmitterUsesTGA", 65536)]%Z;
  ParticleEmitter2Flags := table [("Unshaded", 65536); ("SortPrimsFarZ", 131072);
                                  ("LineEmitter", 262144); ("Unfogged", 524288);
                                  ("ModelSpace", 1048576); ("XYQuad", 2097152)]%Z;
  ParticleEmitter2FramesFlags := table [("Head", 1); ("Tail", 2)]%Z;
  ParticleEmitter2FilterMode := table [("Blend", 0); ("Additive", 1); ("Modulate", 2);
                                       ("Modulate2x", 3); ("AlphaKey", 4);
                                       ("Transparent", 5)]%Z;
  LightTypeOf := table [("Omnidirectional", 0); ("Directional", 1); ("Ambient", 2)]%Z
|}.

(** [parse] on the reference numbers and the example tables. *)
Definition refParse (fuel : nat) (s : string) : result (Model DecNum.t) :=
  parse fuel refEnums s.

(** ** Vocabulary of the statements *)

(** The input that is left at the cursor. *)
Definition rest (st : State) : list ascii := skipn (pos st) (str st).

(** The length of the longest prefix whose characters satisfy [f]. *)
Fixpoint span (f : ascii -> bool) (l : list ascii) : nat :=
  match l with
  | c :: l' => if f c then S (span f l') else 0
  | [] => 0
  end.

Definition isAlnum (c : ascii) : bool := isLetter c || isDigit c.
Definition isNumberChar (c : ascii) : bool :=
  (code c =? 45) || (code c =? 43) || (code c =? 46) || isDigit c
  || (code c =? 101) || (code c =? 69).

(** The input after its leading white space. *)
Definition skipSpace (l : list ascii) : list ascii := skipn (span isSpace l) l.

(** On every state whose remaining input is [l], the computation [m]
    returns [v] and leaves [l'] / throws [e]. *)
Definition returns {A} (m : M A) (l : list ascii) (v : A) (l' : list ascii) : Prop :=
  forall st, rest st = l -> exists p, m st = Ok v p /\ rest (at_ st p) = l'.
Definition raises {A} (m : M A) (l : list ascii) (e : error) : Prop :=
  forall st, rest st = l -> m st = Throw e.

Definition notQuote (c : ascii) : bool := negb (Ascii.eqb c dquote).

(** A keyword as [parseKeyword] reads it, a letter and then letters and
    digits; and a text whose first character ends a keyword. *)
Definition isKeyword (kw : string) : bool :=
  match kw with
  | String c cs => isLetter c && forallb isAlnum (list_ascii_of_string cs)
  | EmptyString => false
  end.
Definition endsKeyword (text : string) : bool :=
  match text with
  | String c _ => negb (isAlnum c)
  | EmptyString => false
  end.

(** The keyword Model, a space, a double quote and abc: a block keyword
    followed by a string that is not closed. *)
Definition unterminatedInput : string := "Model " ++ String dquote "abc".

(** A name between double quotes. *)
Definition quoted (s : string) : string :=
  String dquote (s ++ String dquote EmptyString).

Section Vocabulary.
Context {num : Type} {JN : JSNumber num}.

(** The array index that a node's [ObjectId] denotes, if it denotes one. *)
Definition objectIdIndex (node : obj num) : option nat :=
  arrayIndex (propertyKey (getProp node "ObjectId")).

(** A handler that goes through [parseNode] took the scene from [m] to
    [m']: the node is a new object of the store, its reference is appended
    to the typed bucket, and [Nodes] is written at the node's [ObjectId]. *)
Definition registered (bucket : Model num -> list (value num))
    (m m' : Model num) : Prop :=
  exists node : obj num,
    let ref := VRef (List.length (Store m)) in
    Store m' = push (Store m) (VObj node) /\
    bucket m' = push (bucket m) ref /\
    Nodes m' = match objectIdIndex node with
               | Some i => arraySet (Nodes m) i ref
               | None => Nodes m
               end.

(** The object a value refers to. *)
Definition deref (m : Model num) (v : value num) : option (obj num) :=
  match v with
  | VRef a => match nth_error (Store m) a with
              | Some (VObj o) => Some o
              | _ => None
              end
  | _ => None
  end.

Definition nodeAt (m : Model num) (i : nat) : value num := nth i (Nodes m) VUndefined.
Definition pivotAt (m : Model num) (i : nat) : value num := nth i (PivotPoints m) VUndefined.

(** The references held by [Nodes] point into the store and no object is
    held twice. *)
Definition nodesDistinct (m : Model num) : Prop :=
  (forall i a, nth_error (Nodes m) i = Some (VRef a) -> a < List.length (Store m)) /\
  (forall i j a, nth_error (Nodes m) i = Some (VRef a) ->
                 nth_error (Nodes m) j = Some (VRef a) -> i = j).

(** Every entry of [PivotPoints] is [null] or a reference. *)
Definition pivotsAreRefs (m : Model num) : Prop :=
  Forall (fun v => v = VNull \/ exists q, v = VRef q) (PivotPoints m).

Definition sharedInv (m : Model num) : Prop := nodesDistinct m /\ pivotsAreRefs m.

(** How a handler may change the shared part of the scene: the pivot
    list is kept, and either nothing else changes or one object is stored
    and possibly written to [Nodes]. *)
Definition grows (m m' : Model num) : Prop :=
  PivotPoints m' = PivotPoints m /\
  ((Nodes m' = Nodes m /\ Store m' = Store m) \/
   exists x, Store m' = push (Store m) x /\
             (Nodes m' = Nodes m \/
              Nodes m' = push (Nodes m) (VRef (List.length (Store m))) \/
              exists i, Nodes m' = arraySet (Nodes m) i (VRef (List.length (Store m))))).

(** Every entry of the bucket [l] refers to a record with property [P t],
    and so for the eight buckets of nodes, each under its node type. *)
Definition bucketSatisfies (P : string -> obj num -> Prop) (m : Model num)
    (t : string) (l : list (value num)) : Prop :=
  Forall (fun v => exists o, deref m v = Some o /\ P t o) l.

Definition nodesSatisfy (P : string -> obj num -> Prop) (m : Model num) : Prop :=
  bucketSatisfies P m "Bone" (Bones m) /\
  bucketSatisfies P m "Helper" (Helpers m) /\
  bucketSatisfies P m "Attachment" (Attachments m) /\
  bucketSatisfies P m "EventObject" (EventObjects m) /\
  bucketSatisfies P m "CollisionShape" (CollisionShapes m) /\
  bucketSatisfies P m "ParticleEmitter" (ParticleEmitters2 m) /\
  bucketSatisfies P m "Light" (Lights m) /\
  bucketSatisfies P m "RibbonEmitter" (RibbonEmitters m).

(** The bits of [Flags] that are node-type tags, and the record whose
    tag bits are exactly the tag of [type]. *)
Definition nodeTypeNames : list string :=
  ["Bone"; "Helper"; "Attachment"; "EventObject"; "CollisionShape";
   "ParticleEmitter"; "Light"; "RibbonEmitter"].

Definition tagMask (E : Enums) : Z :=
  fold_right Z.lor 0%Z (map (NodeType E) nodeTypeNames).

Definition oneTagBit (E : Enums) (type : string) (o : obj num) : Prop :=
  exists n, getProp o "Flags" = VNum n /\
            Z.land (toInt32 n) (tagMask E) = NodeType E type /\
            exists k, (0 <= k < 31)%Z /\ NodeType E type = (2 ^ k)%Z.

Definition sceneTagged (E : Enums) (m : Model num) : Prop :=
  nodesSatisfy (oneTagBit E) m.

(** *** Animated tracks *)

(** A keyframe of a channel of type [type] in a track of mode [lineType]:
    the vector has the arity of the channel, and the tangents are there,
    with that arity, exactly when the mode is Hermite or Bezier. *)
Definition keyframeOK (type : AnimVectorType) (lineType : LineType)
    (k : AnimKeyframe num) : bool :=
  let size := animVectorSize type in
  (List.length (elems (Vector k)) =? size) &&
  match InTan k, OutTan k with
  | Some i, Some o =>
      hasTangents lineType && (List.length (elems i) =? size)
      && (List.length (elems o) =? size)
  | None, None => negb (hasTangents lineType)
  | _, _ => false
  end.

Definition trackOK (type : AnimVectorType) (a : AnimVector num) : bool :=
  forallb (keyframeOK type (LineTypeOf a)) (Keys a).

(** The channels of a record: the type its handler declares for the
    animated track under each key. *)
Definition channels := string -> option AnimVectorType.

Definition channelTable (l : list (string * AnimVectorType)) : channels :=
  fun key => match find (fun e => fst e == key) l with
             | Some e => Some (snd e)
             | None => None
             end.

Definition noChannels : channels := fun _ => None.
Definition layerChannels : channels :=
  channelTable [("TextureID", INT1); ("Alpha", FLOAT1)].
Definition geosetAnimChannels : channels :=
  channelTable [("Alpha", FLOAT1); ("Color", FLOAT3)].
Definition nodeChannels : channels :=
  channelTable [("Translation", FLOAT3); ("Rotation", FLOAT4); ("Scaling", FLOAT3);
                ("Visibility", FLOAT1)].
Definition transformChannels : channels :=
  channelTable [("Translation", FLOAT3); ("Rotation", FLOAT4); ("Scaling", FLOAT3)].
Definition particleEmitterChannels : channels :=
  channelTable [("Visibility", FLOAT1); ("Translation", FLOAT3); ("Rotation", FLOAT4);
                ("Scaling", FLOAT3); ("EmissionRate", FLOAT1); ("Gravity", FLOAT1);
                ("Longitude", FLOAT1); ("Latitude", FLOAT1); ("LifeSpan", FLOAT1);
                ("InitVelocity", FLOAT1)].
Definition particleEmitter2Channels : channels :=
  channelTable [("Speed", FLOAT1); ("Latitude", FLOAT1); ("Visibility", FLOAT1);
                ("EmissionRate", FLOAT1); ("Width", FLOAT1); ("Length", FLOAT1);
                ("Translation", FLOAT3); ("Rotation", FLOAT4); ("Scaling", FLOAT3);
                ("Gravity", FLOAT1); ("Variation", FLOAT1)].
Definition cameraChannels : channels :=
  channelTable [("TargetTranslation", FLOAT3); ("Translation", FLOAT3);
                ("Rotation", FLOAT1)].
Definition lightChannels : channels :=
  channelTable [("Visibility", FLOAT1); ("Color", FLOAT3); ("Intensity", FLOAT1);
                ("AmbIntensity", FLOAT1); ("AmbColor", FLOAT3); ("Translation", FLOAT3);
                ("Rotation", FLOAT4); ("Scaling", FLOAT3); ("AttenuationStart", FLOAT1);
                ("AttenuationEnd", FLOAT1)].
Definition ribbonEmitterChannels : channels :=
  channelTable [("Visibility", FLOAT1); ("HeightAbove", FLOAT1); ("HeightBelow", FLOAT1);
                ("Translation", FLOAT3); ("Rotation", FLOAT4); ("Scaling", FLOAT3);
                ("Alpha", FLOAT1); ("TextureSlot", INT1)].

(** The channels of the node records, by node type. *)
Definition nodeChannelsOf (type : string) : channels :=
  if (type == "Bone") || (type == "Helper") || (type == "Attachment") then nodeChannels
  else if (type == "EventObject") || (type == "CollisionShape") then transformChannels
  else if type == "ParticleEmitter" then particleEmitter2Channels
  else if type == "Light" then lightChannels
  else if type == "RibbonEmitter" then ribbonEmitterChannels
  else noChannels.

(** Every animated track inside [v] is the value of a key that has a
    channel, and is a track of that channel. *)
Fixpoint valueOK (tbl : channels) (v : value num) : bool :=
  match v with
  | VAnim _ => false
  | VArr l => forallb (valueOK tbl) l
  | VObj props =>
      forallb (fun e => match e with
                        | (key, VAnim a) => match tbl key with
                                            | Some type => trackOK type a
                                            | None => false
                                            end
                        | (_, x) => valueOK tbl x
                        end) props
  | _ => true
  end.

(** The same of the value [v] stored under the key [key]. *)
Definition entryOK (tbl : channels) (key : string) (v : value num) : bool :=
  match v with
  | VAnim a => match tbl key with
               | Some type => trackOK type a
               | None => false
               end
  | x => valueOK tbl x
  end.

(** The tracks of the records that the scene holds by value, and of the
    whole scene. *)
Definition valuesOK (m : Model num) : Prop :=
  forallb (valueOK layerChannels) (Materials m) = true /\
  forallb (valueOK geosetAnimChannels) (GeosetAnims m) = true /\
  forallb (valueOK particleEmitterChannels) (ParticleEmitters m) = true /\
  forallb (valueOK cameraChannels) (Cameras m) = true /\
  forallb (valueOK transformChannels) (TextureAnims m) = true /\
  valueOK noChannels (VObj (Info m)) = true /\
  forallb (valueOK noChannels) (Sequences m) = true /\
  forallb (valueOK noChannels) (Textures m) = true /\
  forallb (valueOK noChannels) (Geosets m) = true /\
  forallb (valueOK noChannels) (GlobalSequences m) = true /\
  valueOK noChannels (Version m) = true.

Definition sceneTracksOK (m : Model num) : Prop :=
  nodesSatisfy (fun type o => valueOK (nodeChannelsOf type) (VObj o) = true) m /\
  valuesOK m.

(** What the finalization pass establishes of the scene [m] that [parse]
    returned for [s]; [m0] is the scene before the pass. *)
Definition pivotsAssigned (fuel : nat) (E : Enums) (s : string)
    (m : Model num) (p : nat) : Prop :=
  exists m0 : Model num,
    parseBlocks fuel E initialModel (mkState (list_ascii_of_string s) 0) = Ok m0 p /\
    Nodes m = Nodes m0 /\ PivotPoints m = PivotPoints m0 /\
    forall i, i < List.length (Nodes m) ->
      (truthy (pivotAt m i) = true ->
       exists q o, pivotAt m i = VRef q /\ deref m (nodeAt m i) = Some o /\
                   getProp o "PivotPoint" = VRef q) /\
      (truthy (pivotAt m i) = false ->
       deref m (nodeAt m i) = deref m0 (nodeAt m0 i)).

(** The eight buckets of nodes, and the property that every reference
    held by [Nodes] is held by one of them. *)
Definition nodeBuckets (m : Model num) : list (value num) :=
  (Bones m ++ Helpers m ++ Attachments m ++ EventObjects m ++ CollisionShapes m
   ++ ParticleEmitters2 m ++ Lights m ++ RibbonEmitters m)%list.

Definition nodesListed (m : Model num) : Prop :=
  forall i a, nth_error (Nodes m) i = Some (VRef a) -> In (VRef a) (nodeBuckets m).

(** A record whose [PivotPoint] is [null], as the handlers create it,
    and the scenes in which every node at an index without a defined
    entry of [PivotPoints] is such a record. *)
Definition noPivot (o : obj num) : Prop := getProp o "PivotPoint" = VNull.

Definition pivotsUnset (m : Model num) : Prop :=
  forall i o, i < List.length (Nodes m) -> truthy (pivotAt m i) = false ->
    deref m (nodeAt m i) = Some o -> noPivot o.

End Vocabulary.

(** A block [Bone "b" { ObjectId 0, }]. *)
Definition boneInput : string := "Bone " ++ quoted "b" ++ " { ObjectId 0, }".

(** A light, which is appended to [Nodes], and one pivot point. *)
Definition pivotInput : string :=
  "Light " ++ quoted "l" ++ " { ObjectId 0, } PivotPoints 1 { { 1, 2, 3 }, }".

(** Two lights and one pivot point: the second light has none. *)
Definition twoLightsInput : string :=
  "Light " ++ quoted "l" ++ " { ObjectId 0, } Light " ++ quoted "k"
  ++ " { ObjectId 1, } PivotPoints 1 { { 1, 2, 3 }, }".

(** A light whose block has a key [PivotPoint]. *)
Definition pivotKeyInput : string := "Light " ++ quoted "l" ++ " { PivotPoint 5, }".

(** The tables as the specification constrains them: every node-type tag
    is one bit, and the node flags and emitter flags have no bit in
    common with the tags. *)
Definition enumsDisjoint (E : Enums) : Prop :=
  (forall t, In t nodeTypeNames ->
             exists k, (0 <= k < 31)%Z /\ NodeType E t = (2 ^ k)%Z) /\
  (forall k, Z.land (int32 (NodeFlags E k)) (tagMask E) = 0%Z) /\
  (forall k, Z.land (int32 (ParticleEmitter2Flags E k)) (tagMask E) = 0%Z).

(** Whether the text [k] occurs somewhere in [s]. *)
Fixpoint prefixb (k s : list ascii) : bool :=
  match k, s with
  | [], _ => true
  | a :: k', b :: s' => Ascii.eqb a b && prefixb k' s'
  | _ :: _, [] => false
  end.

Fixpoint mentionsb (k s : list ascii) : bool :=
  prefixb k s || match s with [] => false | _ :: s' => mentionsb k s' end.

Definition mentions (k s : string) : bool :=
  mentionsb (list_ascii_of_string k) (list_ascii_of_string s).

(** The text [k] stands at the head of [s] as a whole keyword (the next
    character is neither a letter nor a digit), and it does so somewhere
    in [s]. *)
Definition wordAt (k s : list ascii) : bool :=
  prefixb k s && negb (keywordOtherCharRE (hd_error (skipn (List.length k) s))).

Fixpoint keyOccursb (k s : list ascii) : bool :=
  wordAt k s || match s with [] => false | _ :: s' => keyOccursb k s' end.

Definition keyOccurs (k s : string) : bool :=
  keyOccursb (list_ascii_of_string k) (list_ascii_of_string s).

(** A light with a flag keyword, and a light whose block has a key
    [Flags]. *)
Definition lightInput : string := "Light " ++ quoted "l" ++ " { Omnidirectional, }".
Definition flagsKeyInput : string := "Light " ++ quoted "l" ++ " { Flags 0, }".

(** A geoset animation with a Hermite track and a bone with a linear
    track. *)
Definition trackInput : string :=
  "GeosetAnim { Alpha 2 { Hermite, 0: 1, InTan 0, OutTan 0, 10: 0.5, InTan 0, OutTan 0, } GeosetId 0, } Bone "
  ++ quoted "b" ++ " { ObjectId 0, Translation 1 { Linear, 0: { 1, 2, 3 }, } }".

(** A block whose keyword is none of the twenty of [parsers], with an
    empty body, followed by a [Version] block; and the [Version] block
    alone. *)
Definition versionInput : string := "Version { FormatVersion 900, }".
Definition inheritedKeywordInput : string := "toString { } " ++ versionInput.

(** The keywords of the entries of a [Material] block and of a
    [TVertexAnim] block, and the sources that open such a block with the
    keyword [kw]. *)
Definition materialKeywords : list string :=
  ["Layer"; "PriorityPlane"; "ConstantColor"; "SortPrimsFarZ"; "FullResolution"].
Definition textureAnimKeywords : list string := ["Translation"; "Rotation"; "Scaling"].

Definition materialsInput (kw text : string) : string :=
  "Materials 1 { Material { " ++ kw ++ text.
Definition textureAnimsInput (kw text : string) : string :=
  "TextureAnims 1 { TVertexAnim { " ++ kw ++ text.

(** A [Layer] block that lists the flag keywords [ks], in a material; the
    bitwise OR of the values of [ks]; and the record of a layer that has
    read nothing but flags. *)
Definition flagKeyword (k : string) : bool :=
  existsb (String.eqb k) layerShadingKeywords.

Fixpoint flagsText (ks : list string) : string :=
  match ks with
  | [] => ""
  | k :: ks' => k ++ ", " ++ flagsText ks'
  end.

Definition layerInput (ks : list string) : string :=
  "Materials 1 { Material { Layer { " ++ flagsText ks ++ "} } }".

Definition shadingOf (ks : list string) : Z :=
  fold_right Z.lor 0%Z (map LayerShading ks).

Definition layerWith {num} {JN : JSNumber num} (shading : Z) : obj num :=
  [("Alpha", VNull); ("TVertexAnimId", VNull); ("Shading", VNum (ofZ shading));
   ("CoordId", VNum (ofZ 0))].

(** A [Layer] block with the flag [Unshaded] and an entry keyed
    [Shading]. *)
Definition shadingKeyInput : string :=
  "Materials 1 { Material { Layer { Unshaded, Shading 4, } } }".

(** *** Colours *)

(** A number as [parseNumber] reads it: a minus sign or a digit, and then
    the characters that [numberOtherCharRE] accepts. *)
Definition isNumberLexeme (lexeme : string) : bool :=
  match lexeme with
  | String c cs => numberFirstCharRE (Some c)
                   && forallb isNumberChar (list_ascii_of_string cs)
  | EmptyString => false
  end.

(** The source of a colour, blue first, and the triple stored for it, red
    first. *)
Definition colorText (b g r : string) : string := "{ " ++ b ++ ", " ++ g ++ ", " ++ r ++ " }".

Definition rgb {num} {JN : JSNumber num} (b g r : string) : TypedArray num :=
  mkTyped Float32 [coerce Float32 (parseFloat r); coerce Float32 (parseFloat g);
                   coerce Float32 (parseFloat b)].

(** The blocks with a static colour. *)
Definition geosetAnimColorInput (b g r : string) : string :=
  "GeosetAnim { static Color " ++ colorText b g r ++ ", }".
Definition lightColorInput (key b g r : string) : string :=
  "Light " ++ quoted "l" ++ " { static " ++ key ++ " " ++ colorText b g r ++ ", }".
Definition ribbonColorInput (b g r : string) : string :=
  "RibbonEmitter " ++ quoted "r" ++ " { static Color " ++ colorText b g r ++ ", }".

(** The [SegmentColor] block of the colours [cs]. *)
Fixpoint segmentText (cs : list (string * string * string)) : string :=
  match cs with
  | [] => ""
  | (b, g, r) :: cs' => "Color " ++ colorText b g r ++ ", " ++ segmentText cs'
  end.
Definition segmentColorInput (cs : list (string * string * string)) : string :=
  "ParticleEmitter2 " ++ quoted "e" ++ " { SegmentColor { " ++ segmentText cs ++ "}, }".

(** An animated colour with one keyframe at frame 0: linear, and Hermite
    with its two tangents. *)
Definition linearTrackText (b g r : string) : string :=
  "1 { Linear, 0: " ++ colorText b g r ++ ", }".
Definition hermiteTrackText (v i o : string * string * string) : string :=
  "1 { Hermite, 0: " ++ colorText (fst (fst v)) (snd (fst v)) (snd v)
  ++ ", InTan " ++ colorText (fst (fst i)) (snd (fst i)) (snd i)
  ++ ", OutTan " ++ colorText (fst (fst o)) (snd (fst o)) (snd o) ++ ", }".
Definition geosetAnimTrackInput (track : string) : string :=
  "GeosetAnim { Color " ++ track ++ " }".
Definition lightTrackInput (key track : string) : string :=
  "Light " ++ quoted "l" ++ " { " ++ key ++ " " ++ track ++ " }".

Definition isNumberTriple (c : string * string * string) : bool :=
  isNumberLexeme (fst (fst c)) && isNumberLexeme (snd (fst c)) && isNumberLexeme (snd c).
Definition tripleLength (c : string * string * string) : nat :=
  String.length (fst (fst c)) + String.length (snd (fst c)) + String.length (snd c).

(** The source triple of a colour as numbers, blue first, and the value
    stored for it. *)
Definition bgr {num} {JN : JSNumber num} (c : string * string * string) : TypedArray num :=
  mkTyped Float32 [coerce Float32 (parseFloat (fst (fst c)));
                   coerce Float32 (parseFloat (snd (fst c)));
                   coerce Float32 (parseFloat (snd c))].
Definition rgbOf {num} {JN : JSNumber num} (c : string * string * string) : value num :=
  VTyped (rgb (fst (fst c)) (snd (fst c)) (snd c)).

(** The bucket holds one record, by value or by reference, and the
    property [key] of the record is [v]. *)
Definition single {num} {JN : JSNumber num} (m : Model num) (bucket : list (value num))
    (key : string) (v : value num) : Prop :=
  exists x o, bucket = [x] /\ (x = VObj o \/ deref m x = Some o) /\ getProp o key = v.

(** [parse] returns a scene for [s], and the scene has the property [Q]. *)
Definition parsesTo {num} {JN : JSNumber num} (fuel : nat) (E : Enums) (s : string)
    (Q : Model num -> Prop) : Prop :=
  exists m p, parse fuel E s = Ok m p /\ Q m.

(** The track of one keyframe at frame 0 that is stored for a linear and
    for a Hermite colour track. *)
Definition linearStored {num} {JN : JSNumber num} (c : string * string * string)
    : value num :=
  VAnim (mkAnimVector Linear None
           [mkKeyframe (parseFloat "0") (rgb (fst (fst c)) (snd (fst c)) (snd c))
              None None]).
Definition hermiteStored {num} {JN : JSNumber num} (v i o : string * string * string)
    : value num :=
  VAnim (mkAnimVector Hermite None
           [mkKeyframe (parseFloat "0") (rgb (fst (fst v)) (snd (fst v)) (snd v))
              (Some (rgb (fst (fst i)) (snd (fst i)) (snd i)))
              (Some (rgb (fst (fst o)) (snd (fst o)) (snd o)))]).

(** *** The input behind a prefix *)

(** The state [st] when the text [pre] stands before the input; the
    result of a computation with its cursor, and the offset of a syntax
    error, moved behind [pre]; and the computations that run behind
    [pre] as they run without it ([sh] moves the value, when it is a
    cursor). *)
Definition shift (pre : list ascii) (st : State) : State :=
  mkState (pre ++ str st) (List.length pre + pos st).

Definition shiftError (n : nat) (e : error) : error :=
  match e with
  | SyntaxError near msg => SyntaxError (n + near) msg
  | _ => e
  end.

Definition shiftResult {A} (n : nat) (sh : A -> A) (r : result A) : result A :=
  match r with
  | Ok a p => Ok (sh a) (n + p)
  | Throw e => Throw (shiftError n e)
  | Diverge => Diverge
  end.

Definition shifts2 {A} (pre : list ascii) (sh : A -> A) (m' m : M A) : Prop :=
  forall st, m' (shift pre st) = shiftResult (List.length pre) sh (m st).

Definition shifts {A} (pre : list ascii) (m : M A) : Prop := shifts2 pre id m m.

(** A comment: two slashes, a character, the text [text] and a line
    feed. *)
Definition commentText (c : ascii) (text : string) : string :=
  "//" ++ String c (text ++ String "010"%char "").
Definition noLineFeed (text : string) : bool :=
  forallb (fun a => negb (Ascii.eqb a "010")) (list_ascii_of_string text).
Definition startsComment (s : string) : bool :=
  match s with
  | String a (String b _) => Ascii.eqb a "/" && Ascii.eqb b "/"
  | _ => false
  end.

(** Comments one after the other. *)
Fixpoint commentsText (cs : list (ascii * string)) : string :=
  match cs with
  | [] => ""
  | (c, text) :: cs' => commentText c text ++ commentsText cs'
  end.
Definition commentsOK (cs : list (ascii * string)) : bool :=
  forallb (fun ct => noLineFeed (snd ct)) cs.

(** A [Version] block with a comment inside, and with a space before. *)
Definition commentInsideInput : string :=
  "Version { " ++ commentText "c" "" ++ " FormatVersion 900, }".
Definition spaceBeforeInput : string := " " ++ versionInput.

(** ** Vocabulary of the further properties *)

(** A text that begins with a letter, with white space; a text of white
    space only; a text whose first character ends a number; a text
    without a double quote. *)
Definition startsKeyword (s : string) : bool :=
  match s with String c _ => isLetter c | EmptyString => false end.
Definition startsSpace (s : string) : bool :=
  match s with String c _ => isSpace c | EmptyString => false end.
Definition allSpace (ws : string) : bool := forallb isSpace (list_ascii_of_string ws).
Definition endsNumber (text : string) : bool :=
  match text with String c _ => negb (isNumberChar c) | EmptyString => false end.
Definition noQuote (s : string) : bool := forallb notQuote (list_ascii_of_string s).

(** On every state whose remaining input is [l], the computation [m]
    does not return: its loops run out of any fuel. *)
Definition diverges {A} (m : M A) (l : list ascii) : Prop :=
  forall st, rest st = l -> m st = Diverge.

(** The computation [m'] returns or throws what [m] does, whenever [m]
    does not run out of fuel. *)
Definition extends {A} (m m' : M A) : Prop :=
  forall st, m st <> Diverge -> m' st = m st.

(** The keyword [PivotPoints] followed by a number that ends the input,
    and a [Version] block that ends after its brace and white space. *)
Definition numberAtEndInput (lexeme : string) : string := "PivotPoints " ++ lexeme.
Definition truncatedInput (ws : string) : string := "Version {" ++ ws.

(** Braces that match: no closing brace without an open one, and none
    left open at the end ([depth] are open at the start). *)
Fixpoint bracesOK (depth : nat) (l : list ascii) : bool :=
  match l with
  | [] => depth =? 0
  | c :: l' =>
      if Ascii.eqb c "{" then bracesOK (S depth) l'
      else if Ascii.eqb c "}" then
             match depth with O => false | S d => bracesOK d l' end
           else bracesOK depth l'
  end.
Definition balanced (body : string) : bool := bracesOK 0 (list_ascii_of_string body).
Definition notOpenBrace (c : ascii) : bool := negb (Ascii.eqb c "{").
Definition noOpenBrace (hdr : string) : bool :=
  forallb notOpenBrace (list_ascii_of_string hdr).

(** The keys of the table [parsers], and a block: a keyword, a header
    without brace and a body between braces. *)
Definition blockKeywords : list string :=
  ["Version"; "Model"; "Sequences"; "Textures"; "Materials"; "Geoset"; "GeosetAnim";
   "Bone"; "Helper"; "Attachment"; "PivotPoints"; "EventObject"; "CollisionShape";
   "GlobalSequences"; "ParticleEmitter"; "ParticleEmitter2"; "Camera"; "Light";
   "TextureAnims"; "RibbonEmitter"].
Definition unknownBlock (kw hdr body : string) : string :=
  kw ++ hdr ++ "{" ++ body ++ "}".

(** The handlers that append their node to [Nodes]. *)
Definition appendedKinds : list string :=
  ["EventObject"; "CollisionShape"; "ParticleEmitter2"; "Light"; "RibbonEmitter"].

(** The body of a light block with [ObjectId] 5. *)
Definition lightIdInput : string := quoted "l" ++ " { ObjectId 5, }".

(** A bone with [ObjectId] 1, which leaves a hole at index 0 of [Nodes],
    and one pivot point. *)
Definition holeInput : string :=
  "Bone " ++ quoted "b" ++ " { ObjectId 1, } PivotPoints 1 { { 1, 2, 3 }, }".

(** A [Version] block with the format version [n]. *)
Definition versionText (n : string) : string := "Version { FormatVersion " ++ n ++ ", }".

(** Numbers, each followed by a comma and a space; and the same between
    braces. *)
Fixpoint numbersText (ns : list string) : string :=
  match ns with
  | [] => ""
  | n :: ns' => n ++ ", " ++ numbersText ns'
  end.
Definition arrayText (ns : list string) : string := "{ " ++ numbersText ns ++ "}".

(** A texture with [WrapWidth] and a sequence with [NonLooping]. *)
Definition listsInput : string :=
  "Textures 1 { Bitmap { Image " ++ quoted "a.blp" ++ ", WrapWidth, } } "
  ++ "Sequences 1 { Anim " ++ quoted "Stand" ++ " { Interval { 0, 100 }, NonLooping, } }".

(** A [Model] block with an empty body. *)
Definition modelText (name : string) : string := "Model " ++ quoted name ++ " { }".

(** A [PivotPoints] block whose count is followed by [x] where the opening
    brace is expected. *)
Definition missingBraceInput (n : string) (x : ascii) (tail : string) : string :=
  "PivotPoints " ++ n ++ " " ++ String x tail.

Section FurtherVocabulary.
Context {num : Type} {JN : JSNumber num}.

(** An entry of [Nodes] that is no node: a hole, or whatever else is no
    reference. *)
Definition isHole (v : value num) : bool :=
  match v with VRef _ => false | _ => true end.

(** The store of [m'] is the store of [m] with objects added behind. *)
Definition storeExtends (m m' : Model num) : Prop :=
  exists new, Store m' = (Store m ++ new)%list.

(** The typed array of length [len], zero-filled, after the numbers [xs]
    were stored from index 0 on. *)
Definition filled (k : elemKind) (len : nat) (xs : list num) : TypedArray num :=
  mkTyped k (firstn len (map (coerce k) xs) ++ repeat (ofZ 0) (len - List.length xs))%list.

(** A texture as [parseTextures] leaves it: the keys [WrapWidth] and
    [WrapHeight] are gone and [Flags] is the sum of their flags; a
    sequence as [parseSequences] leaves it: [NonLooping] is a boolean. *)
Definition textureOK (v : value num) : Prop :=
  exists o, v = VObj o /\
    hasProp o "WrapWidth" = false /\ hasProp o "WrapHeight" = false /\
    exists wrapWidth wrapHeight : bool,
      getProp o "Flags"
      = VNum (ofZ (0 + (if wrapWidth then TextureFlags "WrapWidth" else 0)
                     + (if wrapHeight then TextureFlags "WrapHeight" else 0))%Z).
Definition sequenceOK (v : value num) : Prop :=
  exists o b, v = VObj o /\ getProp o "NonLooping" = VBool b.
Definition listsNormalised (m : Model num) : Prop :=
  Forall textureOK (Textures m) /\ Forall sequenceOK (Sequences m).

(** A [Float32Array] of three elements, and a scene whose pivot points
    are [null] or refer to such a vector. *)
Definition isVector3 (v : value num) : Prop :=
  exists t, v = VTyped t /\ kind t = Float32 /\ List.length (elems t) = 3.
Definition pivotVectorOK (m : Model num) (v : value num) : Prop :=
  v = VNull \/ exists q x, v = VRef q /\ nth_error (Store m) q = Some x /\ isVector3 x.
Definition pivotVectorsOK (m : Model num) : Prop :=
  Forall (pivotVectorOK m) (PivotPoints m).

End FurtherVocabulary.


(** * Properties *)

(** ** The monad and its loops *)

Lemma bind_Diverge {A B} (m : M A) (k : A -> M B) st :
  m st = Diverge -> bind m k st = Diverge.
Proof. unfold bind. intros ->. reflexivity. Qed.

Lemma bind_Throw {A B} (m : M A) (k : A -> M B) st e :
  m st = Throw e -> bind m k st = Throw e.
Proof. unfold bind. intros ->. reflexivity. Qed.

Lemma bind_Ok_eq {A B} (m : M A) (k : A -> M B) st a p :
  m st = Ok a p -> bind m k st = k a (at_ st p).
Proof. unfold bind. intros ->. reflexivity. Qed.

Lemma bind_Ok_inv {A B} (m : M A) (k : A -> M B) st b p :
  bind m k st = Ok b p ->
  exists a p1, m st = Ok a p1 /\ k a (at_ st p1) = Ok b p.
Proof.
  unfold bind. destruct (m st) as [a p1| |]; try discriminate.
  intros H. exists a, p1. split; [reflexivity | exact H].
Qed.

Lemma while_S {A} fuel (cond : A -> M bool) body a st :
  while_ (S fuel) cond body a st =
  match cond a st with
  | Ok true p1 =>
      match body a (at_ st p1) with
      | Ok a' p2 => while_ fuel cond body a' (at_ st p2)
      | Throw e => Throw e
      | Diverge => Diverge
      end
  | Ok false p1 => Ok a p1
  | Throw e => Throw e
  | Diverge => Diverge
  end.
Proof. reflexivity. Qed.

Lemma at_at st p q : at_ (at_ st p) q = at_ st q.
Proof. reflexivity. Qed.

Lemma at_pos st : at_ st (pos st) = st.
Proof. destruct st; reflexivity. Qed.

(** An invariant of the loop-carried value is kept by a loop that ends. *)
Lemma while_invariant {A} (I : A -> Prop) (s : list ascii) fuel
    (cond : A -> M bool) (body : A -> M A) :
  (forall a st p1 a' p2, str st = s -> I a -> cond a st = Ok true p1 ->
                         body a (at_ st p1) = Ok a' p2 -> I a') ->
  forall a st a' p, str st = s -> I a ->
                    while_ fuel cond body a st = Ok a' p -> I a'.
Proof.
  intros Hstep. induction fuel as [|fuel IH]; intros a st a' p Hs Ha H.
  - discriminate.
  - rewrite while_S in H.
    destruct (cond a st) as [[|] p1| |] eqn:Hc; try discriminate.
    + destruct (body a (at_ st p1)) as [a1 p2| |] eqn:Hb; try discriminate.
      apply IH in H; auto. eapply Hstep; eauto.
    + injection H as <- _. exact Ha.
Qed.

(** ** An unterminated string *)

Section Unterminated.
Context {num : Type} {JN : JSNumber num}.

Lemma quote_loop_diverges (fuel : nat) (s : list ascii) (p : nat) :
  (forall q, p <= q -> nth_error s q <> Some dquote) ->
  while_ fuel (fun _ => charIsNot dquote) (fun _ => advance) tt (mkState s p) = Diverge.
Proof.
  revert p. induction fuel as [|fuel IH]; intros p H; [reflexivity|].
  simpl. unfold charIsNot, bind, peek, ret, char. simpl.
  assert (Hc : is_char (nth_error s p) dquote = false).
  { specialize (H p (le_n _)). destruct (nth_error s p) as [c|]; [|reflexivity].
    simpl. destruct (Ascii.eqb_spec c dquote); [subst; congruence | reflexivity]. }
  rewrite Hc. simpl. unfold at_. simpl. apply IH. intros q Hq. apply H. lia.
Qed.

Lemma parseString_diverges (fuel : nat) (s : list ascii) (p : nat) :
  nth_error s p = Some dquote ->
  (forall q, p < q -> nth_error s q <> Some dquote) ->
  parseString fuel (mkState s p) = Diverge.
Proof.
  intros H0 H. unfold parseString.
  unfold bind at 1. unfold charIs, bind, peek, ret, char. simpl. rewrite H0. simpl.
  unfold at_; simpl.
  rewrite quote_loop_diverges; [reflexivity|].
  intros q Hq. apply H. lia.
Qed.

(** C1 (the code diverges).  On the input made of the keyword Model, a
    space, a double quote and abc, whose quoted string is not terminated, [parse] returns neither a scene nor an
    error, whatever the fuel: the loop of [parseString] that looks for the
    closing quote never sees the end of the input. *)
Theorem parse_unterminated_string_diverges (fuel : nat) (E : Enums) :
  parse fuel E unterminatedInput = Diverge.
Proof.
  do 5 (destruct fuel as [|fuel]; [reflexivity|]).
  unfold parse, parseFrom, unterminatedInput. apply bind_Diverge.
  unfold parseBlocks. apply bind_Diverge.
  rewrite while_S. cbn [fst snd].
  change (inBounds _) with (@Ok bool true 0).
  cbv beta match.
  match goal with
  | |- context [parseBlock ?f E ?m ?st] =>
      assert (H : parseBlock f E m st = Diverge); [|rewrite H; reflexivity]
  end.
  unfold parseBlock.
  rewrite bind_Ok_eq with (a := tt) (p := 0) by reflexivity.
  rewrite bind_Ok_eq with (a := Some "Model") (p := 6) by reflexivity.
  cbn [lookupParser parsers String.eqb Ascii.eqb Bool.eqb].
  apply bind_Diverge. unfold parseModelInfo. apply bind_Diverge.
  unfold parseObject.
  rewrite bind_Ok_eq with (a := true) (p := 6) by reflexivity.
  apply bind_Diverge. apply bind_Diverge.
  apply parseString_diverges; [reflexivity|].
  intros q Hq.
  do 10 (destruct q as [|q]; [simpl; try lia; discriminate|]).
  simpl. destruct q; discriminate.
Qed.

End Unterminated.

(** ** Inversion of computations that returned *)

Lemma ret_Ok_inv {A} (a b : A) st p : ret a st = Ok b p -> b = a /\ p = pos st.
Proof. unfold ret. intros H. injection H as <- <-. auto. Qed.

Ltac bind_inv H :=
  let a := fresh "a" in
  let p := fresh "p" in
  let H1 := fresh "H" in
  apply bind_Ok_inv in H; destruct H as (a & p & H1 & H).

Ltac ret_inv H :=
  let E1 := fresh "E" in
  let E2 := fresh "E" in
  apply ret_Ok_inv in H; destruct H as [E1 E2];
  match type of E1 with ?b = _ => try subst b end;
  match type of E2 with ?q = _ => try subst q end.

(** The binds of [H] are peeled off up to the final [ret]. *)
Ltac unbind H := repeat bind_inv H.

Section SceneFacts.
Context {num : Type} {JN : JSNumber num}.
Variable fuel : nat.
Variable E : Enums.

Lemma parseNode_inv type (m : Model num) st r p :
  parseNode fuel E type m st = Ok r p ->
  exists node : obj num,
    fst r = VRef (List.length (Store m)) /\
    snd r = setNode (fst (alloc m (VObj node))) (getProp node "ObjectId") (fst r).
Proof.
  unfold parseNode. intros H. unbind H. ret_inv H.
  eexists. split; reflexivity.
Qed.

Lemma parseNode_registered type (m : Model num) st r p :
  parseNode fuel E type m st = Ok r p ->
  exists node : obj num,
    fst r = VRef (List.length (Store m)) /\
    Store (snd r) = push (Store m) (VObj node) /\
    Nodes (snd r) = match objectIdIndex node with
                    | Some i => arraySet (Nodes m) i (fst r)
                    | None => Nodes m
                    end /\
    Bones (snd r) = Bones m /\ Helpers (snd r) = Helpers m /\
    Attachments (snd r) = Attachments m.
Proof.
  intros H. apply parseNode_inv in H. destruct H as (node & Hr & Hm).
  exists node. rewrite Hm, Hr. unfold setNode, objectIdIndex, alloc. simpl.
  destruct (arrayIndex _); simpl; auto 10.
Qed.

(** C4 (as amended).  A Bone, Helper or Attachment block appends its node
    to the typed bucket and writes it to the flat list [Nodes] at the
    index given by the node's [ObjectId]; [Nodes] is left alone only when
    the [ObjectId] denotes no array index. *)
Theorem node_handlers_write_Nodes (m m' : Model num) (st : State) (p : nat) :
  (parseBone fuel E m st = Ok m' p -> registered Bones m m') /\
  (parseHelper fuel E m st = Ok m' p -> registered Helpers m m') /\
  (parseAttachment fuel E m st = Ok m' p -> registered Attachments m m').
Proof.
  unfold parseBone, parseHelper, parseAttachment, registered.
  (split; [|split]); intros H; bind_inv H; ret_inv H;
    apply parseNode_registered in H0;
    destruct H0 as (node & Hr & Hs & Hn & Hb & Hh & Ha);
    exists node; simpl; rewrite Hs, Hn, Hr; repeat split; congruence.
Qed.

End SceneFacts.

(** C4, a witness: the Bone block with [ObjectId 0], parsed into the
    empty scene. *)
Lemma node_handlers_write_Nodes_witness :
  exists m' p,
    parseBone 30 refEnums (@initialModel DecNum.t _)
      (mkState (list_ascii_of_string boneInput) 5) = Ok m' p /\
    registered Bones initialModel m'.
Proof.
  eexists. eexists. split; [vm_compute; reflexivity|].
  apply (proj1 (node_handlers_write_Nodes 30 refEnums initialModel _
                  (mkState (list_ascii_of_string boneInput) 5) 24)).
  vm_compute. reflexivity.
Defined.

(** C4, the claim as stated fails: parsing the Bone block changes the
    flat list [Nodes], from empty to one entry. *)
Lemma bone_block_changes_Nodes :
  exists m p, refParse 30 boneInput = Ok m p /\
              Nodes m = [VRef 0] /\ Nodes m <> Nodes (@initialModel DecNum.t _).
Proof.
  eexists. eexists. split; [vm_compute; reflexivity|].
  split; [reflexivity | discriminate].
Qed.

(** ** Lists and property lists *)

Lemma nth_error_list_set_eq {A} (l : list A) (i : nat) (x : A) :
  i < List.length l -> nth_error (list_set l i x) i = Some x.
Proof.
  revert i. induction l as [|h l IH]; intros [|i] H; simpl in *; try lia; auto.
  apply IH. lia.
Qed.

Lemma nth_error_list_set_neq {A} (l : list A) (i j : nat) (x : A) :
  i <> j -> nth_error (list_set l i x) j = nth_error l j.
Proof.
  revert i j. induction l as [|h l IH]; intros [|i] [|j] H; simpl; auto; try congruence.
Qed.

Lemma length_list_set {A} (l : list A) (i : nat) (x : A) :
  List.length (list_set l i x) = List.length l.
Proof. revert i. induction l as [|h l IH]; intros [|i]; simpl; auto. Qed.

Lemma nth_error_push_old {A} (l : list A) (x y : A) (i : nat) :
  nth_error l i = Some y -> nth_error (push l x) i = Some y.
Proof.
  intros H. unfold push. rewrite nth_error_app1; auto.
  apply nth_error_Some. congruence.
Qed.

Lemma nth_error_push_inv {A} (l : list A) (x y : A) (i : nat) :
  nth_error (push l x) i = Some y ->
  nth_error l i = Some y \/ (i = List.length l /\ y = x).
Proof.
  unfold push. intros H. destruct (Nat.lt_ge_cases i (List.length l)) as [Hi|Hi].
  - rewrite nth_error_app1 in H by assumption. auto.
  - rewrite nth_error_app2 in H by assumption.
    destruct (i - List.length l) as [|k] eqn:Hk; simpl in H.
    + injection H as <-. right. split; [lia | reflexivity].
    + destruct k; discriminate.
Qed.

Section ListFacts.
Context {num : Type}.

Lemma nth_error_arraySet_inv (l : list (value num)) (i j : nat) (v y : value num) :
  nth_error (arraySet l i v) j = Some y ->
  (j = i /\ y = v) \/ (j <> i /\ (nth_error l j = Some y \/ y = VUndefined)).
Proof.
  revert l j. induction i as [|i IH]; intros l j H.
  - destruct l as [|h l]; destruct j as [|j]; simpl in H.
    + injection H as <-. auto.
    + destruct j; discriminate.
    + injection H as <-. auto.
    + right. split; [lia | auto].
  - destruct l as [|h l]; destruct j as [|j]; simpl in H.
    + injection H as <-. right. split; [lia | auto].
    + apply IH in H. destruct H as [[-> ->]|[Hn [H|H]]]; auto;
        try (destruct j; discriminate); right; (split; [lia | auto]).
    + injection H as <-. right. split; [lia | auto].
    + apply IH in H. destruct H as [[-> ->]|[Hn H]]; auto;
        right; (split; [lia | exact H]).
Qed.

Lemma getProp_setProp (o : obj num) (k k' : string) (v : value num) :
  getProp (setProp o k v) k' = if k == k' then v else getProp o k'.
Proof.
  induction o as [|[k0 v0] o IH]; simpl.
  - destruct (k == k'); reflexivity.
  - destruct (String.eqb_spec k0 k) as [->|Hk]; simpl.
    + destruct (k == k'); reflexivity.
    + destruct (String.eqb_spec k0 k') as [->|Hk'].
      * destruct (String.eqb_spec k k'); [congruence | reflexivity].
      * exact IH.
Qed.

Lemma getProp_setProp_other (o : obj num) (k k' : string) (v : value num) :
  (k == k') = false -> getProp (setProp o k v) k' = getProp o k'.
Proof. intros H. rewrite getProp_setProp, H. reflexivity. Qed.

Lemma getProp_setProp_same (o : obj num) (k : string) (v : value num) :
  getProp (setProp o k v) k = v.
Proof. rewrite getProp_setProp, String.eqb_refl. reflexivity. Qed.

End ListFacts.

(** ** The shared part of the scene *)

Section Shared.
Context {num : Type} {JN : JSNumber num}.
Variable fuel : nat.
Variable E : Enums.

Lemma sharedInv_grows (m m' : Model num) :
  sharedInv m -> grows m m' -> sharedInv m'.
Proof.
  intros [[Hlt Hinj] Hp] [HP Hg]. split; [|unfold pivotsAreRefs; rewrite HP; exact Hp].
  destruct Hg as [[HN HS]|(x & HS & HN)].
  - unfold nodesDistinct. rewrite HN, HS. auto.
  - assert (Hlen : List.length (Store m') = S (List.length (Store m))).
    { rewrite HS. unfold push. rewrite length_app. simpl. lia. }
    destruct HN as [HN|[HN|[i HN]]]; unfold nodesDistinct; rewrite HN, Hlen.
    + split; [intros i a H; apply Hlt in H; lia | exact Hinj].
    + split.
      * intros i a H. apply nth_error_push_inv in H.
        destruct H as [H|[_ H]]; [apply Hlt in H; lia | injection H as ->; lia].
      * intros i j a Hi Hj.
        apply nth_error_push_inv in Hi. apply nth_error_push_inv in Hj.
        destruct Hi as [Hi|[-> Hi]]; destruct Hj as [Hj|[-> Hj]].
        -- eauto.
        -- injection Hj as ->. apply Hlt in Hi. lia.
        -- injection Hi as ->. apply Hlt in Hj. lia.
        -- reflexivity.
    + split.
      * intros k a H. apply nth_error_arraySet_inv in H.
        destruct H as [[_ H]|[_ [H|H]]].
        -- injection H as ->. lia.
        -- apply Hlt in H. lia.
        -- discriminate.
      * intros k j a Hk Hj.
        apply nth_error_arraySet_inv in Hk. apply nth_error_arraySet_inv in Hj.
        destruct Hk as [[-> Hk]|[Hk1 [Hk|Hk]]]; destruct Hj as [[-> Hj]|[Hj1 [Hj|Hj]]];
          try discriminate; try reflexivity.
        -- injection Hk as ->. apply Hlt in Hj. lia.
        -- injection Hj as ->. apply Hlt in Hk. lia.
        -- eauto.
Qed.

Lemma grows_refl (m : Model num) : grows m m.
Proof. split; [reflexivity | left; split; reflexivity]. Qed.

(** The handlers that only fill their own list. *)
Ltac own_list H :=
  unbind H; ret_inv H;
  try match goal with |- context [if ?c then _ else _] => destruct c end;
  (split; [reflexivity | left; split; reflexivity]).

Lemma parseVersion_grows m st m' p : parseVersion fuel m st = Ok m' p -> grows m m'.
Proof. unfold parseVersion. intros H. own_list H. Qed.

Lemma parseModelInfo_grows m st m' p : parseModelInfo fuel m st = Ok m' p -> grows m m'.
Proof. unfold parseModelInfo. intros H. own_list H. Qed.

Lemma parseSequences_grows m st m' p : parseSequences fuel m st = Ok m' p -> grows m m'.
Proof. unfold parseSequences. intros H. own_list H. Qed.

Lemma parseTextures_grows m st m' p : parseTextures fuel m st = Ok m' p -> grows m m'.
Proof. unfold parseTextures. intros H. own_list H. Qed.

Lemma parseMaterials_grows m st m' p : parseMaterials fuel m st = Ok m' p -> grows m m'.
Proof. unfold parseMaterials. intros H. own_list H. Qed.

Lemma parseGeoset_grows m st m' p : parseGeoset fuel m st = Ok m' p -> grows m m'.
Proof. unfold parseGeoset. intros H. own_list H. Qed.

Lemma parseGeosetAnim_grows m st m' p : parseGeosetAnim fuel E m st = Ok m' p -> grows m m'.
Proof. unfold parseGeosetAnim. intros H. own_list H. Qed.

Lemma parseGlobalSequences_grows m st m' p :
  parseGlobalSequences fuel m st = Ok m' p -> grows m m'.
Proof. unfold parseGlobalSequences. intros H. own_list H. Qed.

Lemma parseParticleEmitter_grows m st m' p :
  parseParticleEmitter fuel E m st = Ok m' p -> grows m m'.
Proof. unfold parseParticleEmitter. intros H. own_list H. Qed.

Lemma parseCamera_grows m st m' p : parseCamera fuel m st = Ok m' p -> grows m m'.
Proof. unfold parseCamera. intros H. own_list H. Qed.

Lemma parseTextureAnims_grows m st m' p :
  parseTextureAnims fuel m st = Ok m' p -> grows m m'.
Proof. unfold parseTextureAnims. intros H. own_list H. Qed.

(** The handlers that store a node and append it to [Nodes]. *)
Ltac appended H :=
  unbind H; ret_inv H;
  (split; [reflexivity | right; eexists; split; [reflexivity | right; left; reflexivity]]).

Lemma parseEventObject_grows m st m' p :
  parseEventObject fuel E m st = Ok m' p -> grows m m'.
Proof. unfold parseEventObject. intros H. appended H. Qed.

Lemma parseCollisionShape_grows m st m' p :
  parseCollisionShape fuel E m st = Ok m' p -> grows m m'.
Proof. unfold parseCollisionShape. intros H. appended H. Qed.

Lemma parseParticleEmitter2_grows m st m' p :
  parseParticleEmitter2 fuel E m st = Ok m' p -> grows m m'.
Proof. unfold parseParticleEmitter2. intros H. appended H. Qed.

Lemma parseLight_grows m st m' p : parseLight fuel E m st = Ok m' p -> grows m m'.
Proof. unfold parseLight. intros H. appended H. Qed.

Lemma parseRibbonEmitter_grows m st m' p :
  parseRibbonEmitter fuel E m st = Ok m' p -> grows m m'.
Proof. unfold parseRibbonEmitter. intros H. appended H. Qed.

(** The handlers that go through [parseNode]. *)
Lemma parseNode_grows type m st r p :
  parseNode fuel E type m st = Ok r p ->
  PivotPoints (snd r) = PivotPoints m /\
  exists x, Store (snd r) = push (Store m) x /\
            (Nodes (snd r) = Nodes m \/
             exists i, Nodes (snd r) = arraySet (Nodes m) i (VRef (List.length (Store m)))).
Proof.
  intros H. apply parseNode_inv in H. destruct H as (node & Hr & Hm).
  rewrite Hm, Hr. unfold setNode, alloc. simpl.
  destruct (arrayIndex _); simpl; (split; [reflexivity|]);
    eexists; (split; [reflexivity|]); eauto.
Qed.

Lemma bucket_grows type m st r p (m' : Model num) :
  parseNode fuel E type m st = Ok r p ->
  PivotPoints m' = PivotPoints (snd r) -> Nodes m' = Nodes (snd r) ->
  Store m' = Store (snd r) -> grows m m'.
Proof.
  intros H HP' HN' HS'. apply parseNode_grows in H.
  destruct H as (HP & x & HS & HN).
  split; [congruence | right; exists x; split; [congruence|]].
  destruct HN as [HN|[i HN]]; [left | right; right; exists i]; congruence.
Qed.

Lemma parseBone_grows m st m' p : parseBone fuel E m st = Ok m' p -> grows m m'.
Proof.
  unfold parseBone. intros H. bind_inv H. ret_inv H.
  eapply bucket_grows; eauto.
Qed.

Lemma parseHelper_grows m st m' p : parseHelper fuel E m st = Ok m' p -> grows m m'.
Proof.
  unfold parseHelper. intros H. bind_inv H. ret_inv H.
  eapply bucket_grows; eauto.
Qed.

Lemma parseAttachment_grows m st m' p :
  parseAttachment fuel E m st = Ok m' p -> grows m m'.
Proof.
  unfold parseAttachment. intros H. bind_inv H. ret_inv H.
  eapply bucket_grows; eauto.
Qed.

(** The pivot vectors go to the store; [Nodes] is not touched. *)
Lemma allocAll_spec (vs : list (value num)) (m : Model num) :
  Nodes (fst (allocAll m vs)) = Nodes m /\
  List.length (Store m) <= List.length (Store (fst (allocAll m vs))) /\
  Forall (fun v => v = VNull \/ exists q, v = VRef q) (snd (allocAll m vs)).
Proof.
  revert m. induction vs as [|v vs IH]; intros m; simpl.
  - auto.
  - assert (Hstep : forall w,
      Nodes (fst (allocAll (fst (alloc m w)) vs)) = Nodes m /\
      List.length (Store m) <= List.length (Store (fst (allocAll (fst (alloc m w)) vs))) /\
      Forall (fun v => v = VNull \/ exists q, v = VRef q)
        (VRef (snd (alloc m w)) :: snd (allocAll (fst (alloc m w)) vs))).
    { intros w. destruct (IH (fst (alloc m w))) as (H1 & H2 & H3).
      split; [exact H1|]. split.
      - unfold alloc, push in *. cbn [fst snd Store set_Store] in *.
        rewrite length_app in H2. simpl in H2. lia.
      - constructor; [right; eexists; reflexivity | exact H3]. }
    destruct v; simpl; try apply Hstep.
    destruct (IH m) as (H1 & H2 & H3). repeat split; auto.
Qed.

Lemma parsePivotPoints_sharedInv m st m' p :
  parsePivotPoints fuel m st = Ok m' p -> sharedInv m -> sharedInv m'.
Proof.
  unfold parsePivotPoints. intros H [[Hlt Hinj] _]. unbind H. ret_inv H.
  match goal with
  | |- context [allocAll m ?vs] => destruct (allocAll_spec vs m) as (Ha1 & Ha2 & Ha3)
  end.
  split; [split|]; simpl.
  - rewrite Ha1. intros i b Hi. apply Hlt in Hi. lia.
  - rewrite Ha1. exact Hinj.
  - unfold pivotsAreRefs. simpl. exact Ha3.
Qed.

Lemma handler_sharedInv (k : string) (h : Model num -> M (Model num)) m st m' p :
  lookupParser (parsers fuel E) k = Some h ->
  h m st = Ok m' p -> sharedInv m -> sharedInv m'.
Proof.
  intros Hl H Hi. unfold parsers in Hl. cbn [lookupParser] in Hl.
  repeat match type of Hl with
         | (if ?c then _ else _) = Some _ =>
             destruct c;
             [injection Hl as <-;
              first [ eapply parsePivotPoints_sharedInv; eassumption
                    | eapply sharedInv_grows; [eassumption|];
                      eauto using parseVersion_grows, parseModelInfo_grows,
                        parseSequences_grows, parseTextures_grows, parseMaterials_grows,
                        parseGeoset_grows, parseGeosetAnim_grows, parseBone_grows,
                        parseHelper_grows, parseAttachment_grows,
                        parseEventObject_grows, parseCollisionShape_grows,
                        parseGlobalSequences_grows, parseParticleEmitter_grows,
                        parseParticleEmitter2_grows, parseCamera_grows, parseLight_grows,
                        parseTextureAnims_grows, parseRibbonEmitter_grows ]
             |]
         end.
  discriminate.
Qed.

(** What one turn of the top-level loop returns: the scene of a handler,
    or the scene it was given. *)
Lemma parseBlock_inv (m : Model num) st r p :
  parseBlock fuel E m st = Ok r p ->
  snd r = m \/
  exists k h st' p', lookupParser (parsers fuel E) k = Some h /\
                     str st' = str st /\ h m st' = Ok (snd r) p'.
Proof.
  unfold parseBlock. intros H. bind_inv H. bind_inv H.
  destruct a0 as [k|].
  - destruct (lookupParser (parsers fuel E) k) as [h|] eqn:Hl.
    + bind_inv H. ret_inv H. right. exists k, h. do 2 eexists.
      split; [exact Hl|]. split; [|eassumption]. reflexivity.
    + destruct (existsb _ _).
      * ret_inv H. left. reflexivity.
      * bind_inv H. ret_inv H. left. reflexivity.
  - ret_inv H. left. reflexivity.
Qed.

Lemma parseBlocks_sharedInv (m : Model num) st m' p :
  parseBlocks fuel E m st = Ok m' p -> sharedInv m -> sharedInv m'.
Proof.
  unfold parseBlocks. intros H Hi. bind_inv H. ret_inv H.
  eapply (while_invariant (fun r : bool * Model num => sharedInv (snd r))) in H0;
    [exact H0 | | reflexivity | exact Hi].
  intros r st1 p1 r' p2 _ Hr _ Hb. apply parseBlock_inv in Hb.
  destruct Hb as [->|(k & h & st' & p' & Hl & _ & Hh)]; [exact Hr|].
  eapply handler_sharedInv; eauto.
Qed.

Lemma sharedInv_initial : sharedInv (@initialModel num JN).
Proof.
  split; [split|]; simpl.
  - intros [|i] a H; discriminate.
  - intros [|i] j a H; discriminate.
  - constructor.
Qed.

(** *** The finalization pass *)

Lemma nth_VRef (l : list (value num)) (i a : nat) :
  nth i l VUndefined = VRef a -> nth_error l i = Some (VRef a).
Proof.
  revert i. induction l as [|h l IH]; intros [|i] H; simpl in *;
    try discriminate; [congruence | auto].
Qed.

Lemma assignPivot_spec (m m' : Model num) (i : nat) :
  assignPivot m i = Some m' ->
  Nodes m' = Nodes m /\ PivotPoints m' = PivotPoints m /\
  if truthy (pivotAt m i)
  then exists a o, nodeAt m i = VRef a /\ nth_error (Store m) a = Some (VObj o) /\
                   Store m' = list_set (Store m) a
                                (VObj (setProp o "PivotPoint" (pivotAt m i)))
  else m' = m.
Proof.
  unfold assignPivot, pivotAt, nodeAt.
  destruct (truthy (nth i (PivotPoints m) VUndefined)).
  - destruct (nth i (Nodes m) VUndefined) as [| | | | | | | | |a]; try discriminate.
    destruct (nth_error (Store m) a) as [[| | | | | | |o| |]|] eqn:Ha; try discriminate.
    intros H. injection H as <-. simpl. repeat split; eauto.
  - intros H. injection H as <-. auto.
Qed.

(** A store cell other than the one written keeps what it refers to. *)
Lemma deref_other (m m1 : Model num) (a : nat) (x : value num) (v : value num) :
  Store m1 = list_set (Store m) a x -> v <> VRef a -> deref m1 v = deref m v.
Proof.
  intros HS Hv. destruct v; simpl; auto.
  rewrite HS, nth_error_list_set_neq; [reflexivity | congruence].
Qed.

Lemma assignPivots_spec (n : nat) :
  forall (i : nat) (m m' : Model num),
    assignPivots n i m = Some m' -> nodesDistinct m ->
    Nodes m' = Nodes m /\ PivotPoints m' = PivotPoints m /\
    List.length (Store m') = List.length (Store m) /\
    forall j, j < List.length (Nodes m) ->
      if (i <=? j) && (j <? i + n) && truthy (pivotAt m j)
      then exists o, deref m' (nodeAt m j) = Some o /\
                     getProp o "PivotPoint" = pivotAt m j
      else deref m' (nodeAt m j) = deref m (nodeAt m j).
Proof.
  induction n as [|n IH]; intros i m m' H Hd.
  - injection H as <-. repeat split; auto. intros j Hj.
    replace ((i <=? j) && (j <? i + 0)) with false; [reflexivity|].
    destruct (Nat.leb_spec i j), (Nat.ltb_spec j (i + 0)); simpl; try reflexivity; lia.
  - simpl in H. destruct (assignPivot m i) as [m1|] eqn:H1; [|discriminate].
    apply assignPivot_spec in H1. destruct H1 as (HN1 & HP1 & Hstep).
    assert (HL1 : List.length (Store m1) = List.length (Store m)).
    { destruct (truthy (pivotAt m i)).
      - destruct Hstep as (a & o & _ & _ & ->). apply length_list_set.
      - subst m1. reflexivity. }
    assert (Hd1 : nodesDistinct m1).
    { unfold nodesDistinct. rewrite HN1, HL1. exact Hd. }
    destruct (IH (S i) m1 m' H Hd1) as (HN & HP & HL & Hall).
    split; [congruence|]. split; [congruence|]. split; [congruence|].
    intros j Hj. specialize (Hall j). rewrite HN1 in Hall. specialize (Hall Hj).
    unfold pivotAt, nodeAt in *. rewrite HP1, HN1 in Hall.
    assert (Hother : j <> i ->
              deref m1 (nth j (Nodes m) VUndefined) = deref m (nth j (Nodes m) VUndefined)).
    { intros Hji. destruct (truthy (nth i (PivotPoints m) VUndefined)).
      - destruct Hstep as (a & o & Hi & _ & HS).
        eapply deref_other; [exact HS|]. intros Hj'.
        apply nth_VRef in Hi. apply nth_VRef in Hj'.
        destruct Hd as [_ Hinj]. apply Hji. eapply Hinj; eauto.
      - subst m1. reflexivity. }
    destruct (Nat.eq_dec j i) as [->|Hji].
    + replace (S i <=? i) with false in Hall
        by (symmetry; apply Nat.leb_gt; lia).
      simpl in Hall. rewrite Nat.leb_refl.
      replace (i <? i + S n) with true by (symmetry; apply Nat.ltb_lt; lia).
      simpl. destruct (truthy (nth i (PivotPoints m) VUndefined)).
      * destruct Hstep as (a & o & Hi & Ha & HS).
        rewrite Hall, Hi. simpl. rewrite HS.
        rewrite nth_error_list_set_eq
          by (apply nth_error_Some; congruence).
        eexists. split; [reflexivity|]. apply getProp_setProp_same.
      * subst m1. exact Hall.
    + replace ((i <=? j) && (j <? i + S n)) with ((S i <=? j) && (j <? S i + n)).
      * destruct ((S i <=? j) && (j <? S i + n) && truthy (nth j (PivotPoints m) VUndefined)).
        -- exact Hall.
        -- rewrite Hall. apply Hother. exact Hji.
      * destruct (Nat.leb_spec (S i) j), (Nat.leb_spec i j),
          (Nat.ltb_spec j (S i + n)), (Nat.ltb_spec j (i + S n));
          simpl; try reflexivity; lia.
Qed.

Lemma truthy_pivot_is_ref (m : Model num) (i : nat) :
  pivotsAreRefs m -> truthy (pivotAt m i) = true -> exists q, pivotAt m i = VRef q.
Proof.
  unfold pivotsAreRefs, pivotAt. intros H Ht.
  destruct (Nat.lt_ge_cases i (List.length (PivotPoints m))) as [Hi|Hi].
  - rewrite Forall_forall in H.
    destruct (H (nth i (PivotPoints m) VUndefined) (nth_In _ _ Hi)) as [Hn|Hq].
    + rewrite Hn in Ht. discriminate.
    + exact Hq.
  - rewrite nth_overflow in Ht by assumption. discriminate.
Qed.

(** In the scene that [parse] returns, every index of [Nodes] whose
    entry of [PivotPoints] is defined holds a node whose [PivotPoint] is
    that very reference; the node at an index without a defined entry is
    as the top-level loop left it. *)
Lemma parse_pivotsAssigned (s : string) (m : Model num) (p : nat) :
  parse fuel E s = Ok m p -> pivotsAssigned fuel E s m p.
Proof.
  unfold pivotsAssigned, parse, parseFrom. intros H. bind_inv H. rename a into m0.
  unfold finalize in H.
  destruct (assignPivots (List.length (Nodes m0)) 0 m0) as [m1|] eqn:Hf;
    [|discriminate].
  ret_inv H. simpl in H0.
  pose proof (parseBlocks_sharedInv _ _ _ _ H0 sharedInv_initial) as [Hd Hp].
  destruct (assignPivots_spec _ _ _ _ Hf Hd) as (HN & HP & _ & Hall).
  exists m0. split; [exact H0|]. split; [exact HN|]. split; [exact HP|].
  intros i Hi. rewrite HN in Hi. specialize (Hall i Hi).
  replace (0 <=? i) with true in Hall by reflexivity.
  replace (i <? 0 + List.length (Nodes m0)) with true in Hall
    by (symmetry; apply Nat.ltb_lt; lia).
  simpl in Hall. unfold pivotAt, nodeAt in *. rewrite HN, HP.
  split; intros Ht; rewrite Ht in Hall.
  - destruct (truthy_pivot_is_ref m0 i Hp Ht) as [q Hq]. unfold pivotAt in Hq.
    destruct Hall as (o & Ho & Hg). exists q, o. rewrite Hq in *. auto.
  - exact Hall.
Qed.

End Shared.


(** ** Keywords are read off the input *)

Lemma hd_error_skipn {A} (l : list A) (n : nat) :
  hd_error (skipn n l) = nth_error l n.
Proof. revert l; induction n as [|n IH]; intros [|x l]; simpl; auto. Qed.

Lemma char_rest (st : State) : char st = hd_error (rest st).
Proof. unfold char, rest. symmetry. apply hd_error_skipn. Qed.

Lemma rest_at (st : State) (k : nat) :
  rest (at_ st (pos st + k)) = skipn k (rest st).
Proof. unfold rest, at_. simpl. rewrite skipn_skipn. f_equal. lia. Qed.

Lemma rest_at_S (st : State) : rest (at_ st (pos st + 1)) = tl (rest st).
Proof. rewrite rest_at. destruct (rest st); reflexivity. Qed.

Lemma append_assoc_char (a : string) (c : ascii) (b : string) :
  ((a ++ String c EmptyString) ++ b)%string = (a ++ String c b)%string.
Proof. induction a as [|x a IH]; simpl; [reflexivity | rewrite IH; reflexivity]. Qed.

Lemma append_empty_r (a : string) : (a ++ EmptyString)%string = a.
Proof. induction a as [|x a IH]; simpl; [reflexivity | rewrite IH; reflexivity]. Qed.

Lemma list_of_append (a b : string) :
  list_ascii_of_string (a ++ b)%string
  = (list_ascii_of_string a ++ list_ascii_of_string b)%list.
Proof. induction a as [|x a IH]; simpl; [reflexivity | rewrite IH; reflexivity]. Qed.

Lemma prefixb_app (l r : list ascii) : prefixb l (l ++ r) = true.
Proof.
  induction l as [|x l IH]; simpl; [reflexivity|].
  rewrite Ascii.eqb_refl. exact IH.
Qed.

Lemma prefixb_eq (k l r : list ascii) :
  List.length k = List.length l -> prefixb k (l ++ r) = true -> k = l.
Proof.
  revert l. induction k as [|x k IH]; intros [|y l] Hl H; simpl in *;
    try discriminate; [reflexivity|].
  apply andb_true_iff in H as [Hxy H]. apply Ascii.eqb_eq in Hxy. subst y.
  f_equal. apply IH; [lia | exact H].
Qed.

Lemma mentionsb_skipn (k s : list ascii) (i : nat) :
  mentionsb k s = false -> prefixb k (skipn i s) = false.
Proof.
  revert i. induction s as [|c s IH]; intros i H.
  - rewrite skipn_nil. simpl in H. rewrite orb_false_r in H. exact H.
  - simpl in H. apply orb_false_iff in H as [H1 H2].
    destruct i as [|i]; [exact H1 | simpl; apply IH; exact H2].
Qed.

Lemma skipn_length_app {A} (l r : list A) : skipn (List.length l) (l ++ r) = r.
Proof. rewrite skipn_app, Nat.sub_diag, skipn_all. reflexivity. Qed.

Lemma keyOccursb_skipn (k s : list ascii) (i : nat) :
  keyOccursb k s = false -> wordAt k (skipn i s) = false.
Proof.
  revert i. induction s as [|c s IH]; intros i H.
  - rewrite skipn_nil. simpl in H. rewrite orb_false_r in H. exact H.
  - simpl in H. apply orb_false_iff in H as [H1 H2].
    destruct i as [|i]; [exact H1 | simpl; apply IH; exact H2].
Qed.

Section Keywords.
Variable fuel : nat.

(** The loop of [parseKeyword] cannot end once the input is exhausted. *)
Lemma keyword_loop_eof (n : nat) (st : State) (kw0 kw : string) (p : nat) :
  rest st = [] ->
  while_ n (fun _ => c' <- peek ;; ret (keywordOtherCharRE c'))
    (fun keyword => c' <- peek ;; advance ;;; ret (keyword ++ charText c')%string)
    kw0 st <> Ok kw p.
Proof.
  revert st kw0. induction n as [|n IH]; intros st kw0 Hr; [discriminate|].
  rewrite while_S. unfold bind at 1. unfold peek, ret. simpl.
  rewrite char_rest, Hr. simpl. unfold bind, peek, advance, advanceBy, ret. simpl.
  apply IH. change (rest (at_ st (pos st + 1)) = []).
  rewrite rest_at_S, Hr. reflexivity.
Qed.

Lemma keyword_loop_prefix (n : nat) (st : State) (kw0 kw : string) (p : nat) :
  while_ n (fun _ => c' <- peek ;; ret (keywordOtherCharRE c'))
    (fun keyword => c' <- peek ;; advance ;;; ret (keyword ++ charText c')%string)
    kw0 st = Ok kw p ->
  exists l r, kw = (kw0 ++ string_of_list_ascii l)%string /\ rest st = (l ++ r)%list.
Proof.
  revert st kw0. induction n as [|n IH]; intros st kw0 H; [discriminate|].
  rewrite while_S in H. unfold bind at 1 in H. unfold peek, ret in H. simpl in H.
  rewrite char_rest in H. destruct (rest st) as [|c r] eqn:Hr.
  - exfalso. simpl in H. unfold bind, peek, advance, advanceBy, ret in H. simpl in H.
    eapply keyword_loop_eof; [|exact H].
    change (rest (at_ st (pos st + 1)) = []). rewrite rest_at_S, Hr. reflexivity.
  - simpl in H. destruct (isLetter c || isDigit c).
    + unfold bind, peek, advance, advanceBy, ret in H. simpl in H.
      change (char (at_ st (pos st))) with (char st) in H.
      rewrite char_rest, Hr in H. simpl in H.
      apply IH in H. destruct H as (l & r' & Hk & Hr').
      change (rest (at_ st (pos st + 1)) = (l ++ r')%list) in Hr'.
      rewrite rest_at_S, Hr in Hr'. simpl in Hr'. subst r.
      exists (c :: l), r'. split; [|reflexivity].
      rewrite Hk. simpl. apply append_assoc_char.
    + injection H as <- _. exists [], (c :: r). split; [|reflexivity].
      simpl. symmetry. apply append_empty_r.
Qed.

(** A keyword that [parseKeyword] returns stands at the cursor. *)
Lemma parseKeyword_prefix (st : State) (kw : string) (p : nat) :
  parseKeyword fuel st = Ok (Some kw) p ->
  prefixb (list_ascii_of_string kw) (rest st) = true.
Proof.
  unfold parseKeyword. intros H. unfold bind at 1 in H. unfold peek in H.
  rewrite char_rest in H. destruct (rest st) as [|c r] eqn:Hr; simpl in H.
  - exfalso. unfold bind at 1 in H. unfold advance, advanceBy in H. simpl in H.
    apply bind_Ok_inv in H. destruct H as (kw' & p1 & H & _).
    eapply keyword_loop_eof; [|exact H].
    change (rest (at_ st (pos st + 1)) = []). rewrite rest_at_S, Hr. reflexivity.
  - destruct (isLetter c); simpl in H; [|discriminate].
    unfold bind at 1 in H. unfold advance, advanceBy in H. simpl in H.
    apply bind_Ok_inv in H. destruct H as (kw' & p1 & H & H2).
    apply bind_Ok_inv in H2. destruct H2 as (u & p2 & _ & H2).
    unfold ret in H2. injection H2 as -> _.
    apply keyword_loop_prefix in H. destruct H as (l & r' & Hk & Hr').
    change (rest (at_ st (pos st + 1)) = (l ++ r')%list) in Hr'.
    rewrite rest_at_S, Hr in Hr'. simpl in Hr'. subst r kw.
    simpl. rewrite Ascii.eqb_refl. simpl.
    rewrite list_ascii_of_string_of_list_ascii. apply prefixb_app.
Qed.

Lemma parseKeyword_not_mentioned (st : State) (kw k : string) (p : nat) :
  mentionsb (list_ascii_of_string k) (str st) = false ->
  parseKeyword fuel st = Ok (Some kw) p -> (kw == k) = false.
Proof.
  intros Hm H. apply parseKeyword_prefix in H.
  destruct (String.eqb_spec kw k) as [->|]; [|reflexivity].
  unfold rest in H. rewrite (mentionsb_skipn _ _ (pos st) Hm) in H. discriminate.
Qed.

(** The loop of [parseKeyword] stops before a character that is neither
    a letter nor a digit. *)
Lemma keyword_loop_word (n : nat) (st : State) (kw0 kw : string) (p : nat) :
  while_ n (fun _ => c' <- peek ;; ret (keywordOtherCharRE c'))
    (fun keyword => c' <- peek ;; advance ;;; ret (keyword ++ charText c')%string)
    kw0 st = Ok kw p ->
  exists l r, kw = (kw0 ++ string_of_list_ascii l)%string /\ rest st = (l ++ r)%list /\
              keywordOtherCharRE (hd_error r) = false.
Proof.
  revert st kw0. induction n as [|n IH]; intros st kw0 H; [discriminate|].
  rewrite while_S in H. unfold bind at 1 in H. unfold peek, ret in H. simpl in H.
  rewrite char_rest in H. destruct (rest st) as [|c r] eqn:Hr.
  - exfalso. simpl in H. unfold bind, peek, advance, advanceBy, ret in H. simpl in H.
    eapply keyword_loop_eof; [|exact H].
    change (rest (at_ st (pos st + 1)) = []). rewrite rest_at_S, Hr. reflexivity.
  - simpl in H. destruct (isLetter c || isDigit c) eqn:Hc.
    + unfold bind, peek, advance, advanceBy, ret in H. simpl in H.
      change (char (at_ st (pos st))) with (char st) in H.
      rewrite char_rest, Hr in H. simpl in H.
      apply IH in H. destruct H as (l & r' & Hk & Hr' & Hstop).
      change (rest (at_ st (pos st + 1)) = (l ++ r')%list) in Hr'.
      rewrite rest_at_S, Hr in Hr'. simpl in Hr'. subst r.
      exists (c :: l), r'. split; [|split; [reflexivity|exact Hstop]].
      rewrite Hk. simpl. apply append_assoc_char.
    + injection H as <- _. exists [], (c :: r). split; [|split; [reflexivity|exact Hc]].
      simpl. symmetry. apply append_empty_r.
Qed.

(** A keyword that [parseKeyword] returns stands at the cursor as a
    whole word. *)
Lemma parseKeyword_word (st : State) (kw : string) (p : nat) :
  parseKeyword fuel st = Ok (Some kw) p ->
  wordAt (list_ascii_of_string kw) (rest st) = true.
Proof.
  unfold parseKeyword. intros H. unfold bind at 1 in H. unfold peek in H.
  rewrite char_rest in H. destruct (rest st) as [|c r] eqn:Hr; simpl in H.
  - exfalso. unfold bind at 1 in H. unfold advance, advanceBy in H. simpl in H.
    apply bind_Ok_inv in H. destruct H as (kw' & p1 & H & _).
    eapply keyword_loop_eof; [|exact H].
    change (rest (at_ st (pos st + 1)) = []). rewrite rest_at_S, Hr. reflexivity.
  - destruct (isLetter c); simpl in H; [|discriminate].
    unfold bind at 1 in H. unfold advance, advanceBy in H. simpl in H.
    apply bind_Ok_inv in H. destruct H as (kw' & p1 & H & H2).
    apply bind_Ok_inv in H2. destruct H2 as (u & p2 & _ & H2).
    unfold ret in H2. injection H2 as -> _.
    apply keyword_loop_word in H. destruct H as (l & r' & Hk & Hr' & Hstop).
    change (rest (at_ st (pos st + 1)) = (l ++ r')%list) in Hr'.
    rewrite rest_at_S, Hr in Hr'. simpl in Hr'. subst r kw.
    unfold wordAt. simpl. rewrite Ascii.eqb_refl. simpl.
    rewrite list_ascii_of_string_of_list_ascii, prefixb_app. simpl.
    rewrite skipn_length_app, Hstop. reflexivity.
Qed.

Lemma parseKeyword_key_absent (st : State) (kw k : string) (p : nat) :
  keyOccursb (list_ascii_of_string k) (str st) = false ->
  parseKeyword fuel st = Ok (Some kw) p -> (kw == k) = false.
Proof.
  intros Hm H. apply parseKeyword_word in H.
  destruct (String.eqb_spec kw k) as [->|]; [|reflexivity].
  unfold rest in H. rewrite (keyOccursb_skipn _ _ (pos st) Hm) in H. discriminate.
Qed.

End Keywords.

(** ** Properties of the node records *)

(** Inversion of a computation that returned, through binds, branches
    and the final [ret]. *)
Ltac crunch :=
  repeat match goal with
         | H : bind _ _ _ = Ok _ _ |- _ =>
             let a := fresh "a" in
             let p := fresh "p" in
             let H1 := fresh "H" in
             apply bind_Ok_inv in H; destruct H as (a & p & H1 & H);
             cbv beta zeta in H
         | H : ret _ _ = Ok ?b _ |- _ =>
             let E1 := fresh "E" in
             let E2 := fresh "E" in
             apply ret_Ok_inv in H; destruct H as [E1 E2]; try subst b
         | H : throw _ _ = Ok _ _ |- _ => discriminate H
         | H : throwError _ _ = Ok _ _ |- _ => discriminate H
         | H : (if ?c then _ else _) _ = Ok _ _ |- _ => destruct c eqn:?
         | H : (match ?x with _ => _ end) _ = Ok _ _ |- _ => destruct x eqn:?
         end.

Section NodeRecords.
Context {num : Type} {JN : JSNumber num}.
Variable fuel : nat.
Variable E : Enums.

(** The input, and a property [P] of the records that the node handlers
    build from it which the pivot assignment keeps. *)
Variable s : list ascii.
Variable P : string -> obj num -> Prop.

Hypothesis P_pivot :
  forall t o q, P t o -> P t (setProp o "PivotPoint" (VRef q)).
Hypothesis P_node :
  forall type name st node p,
    In type ["Bone"; "Helper"; "Attachment"] -> str st = s ->
    while_ fuel (fun _ => charIsNot "}") (nodeEntry fuel E) (newNode E name type) st
    = Ok node p -> P type node.
Hypothesis P_eventObject :
  forall name st res p, str st = s ->
    while_ fuel (fun _ => charIsNot "}") (eventObjectEntry fuel) (newEventObject E name) st
    = Ok res p -> P "EventObject" res.
Hypothesis P_collisionShape :
  forall name st res p, str st = s ->
    while_ fuel (fun _ => charIsNot "}") (collisionShapeEntry fuel)
      (newCollisionShape E name) st
    = Ok res p -> P "CollisionShape" res.
Hypothesis P_particleEmitter2 :
  forall name st res p, str st = s ->
    while_ fuel (fun _ => charIsNot "}") (particleEmitter2Entry fuel E)
      (newParticleEmitter2 E name) st
    = Ok res p -> P "ParticleEmitter" res.
Hypothesis P_light :
  forall name st res p, str st = s ->
    while_ fuel (fun _ => charIsNot "}") (lightEntry fuel E) (newLight E name) st
    = Ok res p -> P "Light" res.
Hypothesis P_ribbonEmitter :
  forall name st res p, str st = s ->
    while_ fuel (fun _ => charIsNot "}") (ribbonEmitterEntry fuel)
      (newRibbonEmitter E name) st
    = Ok res p -> P "RibbonEmitter" res.

Lemma bucket_kept (m m' : Model num) (t : string) (l : list (value num)) :
  (forall v o, deref m v = Some o -> deref m' v = Some o) ->
  bucketSatisfies P m t l -> bucketSatisfies P m' t l.
Proof.
  intros Hd H. unfold bucketSatisfies in *. eapply Forall_impl; [|exact H].
  intros v (o & Ho & HP). exists o. auto.
Qed.

Lemma bucket_push (m : Model num) (t : string) (l : list (value num))
    (v : value num) (o : obj num) :
  bucketSatisfies P m t l -> deref m v = Some o -> P t o ->
  bucketSatisfies P m t (push l v).
Proof.
  intros H Hv HP. unfold bucketSatisfies, push. apply Forall_app. split; [exact H|].
  constructor; [|constructor]. exists o. auto.
Qed.

Lemma deref_app (m m' : Model num) (new : list (value num)) (v : value num)
    (o : obj num) :
  Store m' = (Store m ++ new)%list -> deref m v = Some o -> deref m' v = Some o.
Proof.
  intros HS. destruct v; simpl; try discriminate. rewrite HS.
  destruct (nth_error (Store m) addr) eqn:Ha; [|discriminate].
  rewrite nth_error_app1 by (apply nth_error_Some; congruence).
  rewrite Ha. auto.
Qed.

Lemma deref_new (m m' : Model num) (o : obj num) :
  Store m' = push (Store m) (VObj o) ->
  deref m' (VRef (List.length (Store m))) = Some o.
Proof.
  intros HS. simpl. rewrite HS. unfold push.
  rewrite nth_error_app2 by lia. rewrite Nat.sub_diag. reflexivity.
Qed.

(** A scene whose store was extended and whose buckets were kept. *)
Lemma nodesSatisfy_kept (m m' : Model num) (new : list (value num)) :
  Store m' = (Store m ++ new)%list ->
  Bones m' = Bones m -> Helpers m' = Helpers m -> Attachments m' = Attachments m ->
  EventObjects m' = EventObjects m -> CollisionShapes m' = CollisionShapes m ->
  ParticleEmitters2 m' = ParticleEmitters2 m -> Lights m' = Lights m ->
  RibbonEmitters m' = RibbonEmitters m ->
  nodesSatisfy P m -> nodesSatisfy P m'.
Proof.
  intros HS H1 H2 H3 H4 H5 H6 H7 H8 (I1 & I2 & I3 & I4 & I5 & I6 & I7 & I8).
  unfold nodesSatisfy. rewrite H1, H2, H3, H4, H5, H6, H7, H8.
  repeat split;
    (eapply bucket_kept; [intros v o; apply deref_app with (new := new); exact HS
                         | assumption]).
Qed.

Lemma allocAll_frame (vs : list (value num)) (m : Model num) :
  exists new, Store (fst (allocAll m vs)) = (Store m ++ new)%list /\
    Bones (fst (allocAll m vs)) = Bones m /\
    Helpers (fst (allocAll m vs)) = Helpers m /\
    Attachments (fst (allocAll m vs)) = Attachments m /\
    EventObjects (fst (allocAll m vs)) = EventObjects m /\
    CollisionShapes (fst (allocAll m vs)) = CollisionShapes m /\
    ParticleEmitters2 (fst (allocAll m vs)) = ParticleEmitters2 m /\
    Lights (fst (allocAll m vs)) = Lights m /\
    RibbonEmitters (fst (allocAll m vs)) = RibbonEmitters m.
Proof.
  revert m. induction vs as [|v vs IH]; intros m.
  - exists []. simpl. rewrite app_nil_r. repeat split.
  - assert (Hstep : forall w, exists new,
      Store (fst (allocAll (fst (alloc m w)) vs)) = (Store m ++ new)%list /\
      Bones (fst (allocAll (fst (alloc m w)) vs)) = Bones m /\
      Helpers (fst (allocAll (fst (alloc m w)) vs)) = Helpers m /\
      Attachments (fst (allocAll (fst (alloc m w)) vs)) = Attachments m /\
      EventObjects (fst (allocAll (fst (alloc m w)) vs)) = EventObjects m /\
      CollisionShapes (fst (allocAll (fst (alloc m w)) vs)) = CollisionShapes m /\
      ParticleEmitters2 (fst (allocAll (fst (alloc m w)) vs)) = ParticleEmitters2 m /\
      Lights (fst (allocAll (fst (alloc m w)) vs)) = Lights m /\
      RibbonEmitters (fst (allocAll (fst (alloc m w)) vs)) = RibbonEmitters m).
    { intros w. destruct (IH (fst (alloc m w))) as (new & HS & HB).
      exists (w :: new). split; [|exact HB].
      rewrite HS. unfold alloc, push. simpl. rewrite <- app_assoc. reflexivity. }
    destruct v; simpl; try apply Hstep. apply IH.
Qed.

(** The handlers that only fill their own list. *)
Ltac own_list_nodes H :=
  unbind H; ret_inv H;
  try match goal with |- context [if ?c then _ else _] => destruct c end;
  assumption.

Lemma own_list_handlers (k : string) (h : Model num -> M (Model num)) m st m' p :
  In (k, h)
    [("Version", parseVersion fuel); ("Model", parseModelInfo fuel);
     ("Sequences", parseSequences fuel); ("Textures", parseTextures fuel);
     ("Materials", parseMaterials fuel); ("Geoset", parseGeoset fuel);
     ("GeosetAnim", parseGeosetAnim fuel E);
     ("GlobalSequences", parseGlobalSequences fuel);
     ("ParticleEmitter", parseParticleEmitter fuel E);
     ("Camera", parseCamera fuel); ("TextureAnims", parseTextureAnims fuel)] ->
  h m st = Ok m' p -> nodesSatisfy P m -> nodesSatisfy P m'.
Proof.
  intros Hin H Hi. simpl in Hin.
  repeat (destruct Hin as [Hin|Hin]; [injection Hin as <- <- |]); [..|contradiction].
  - unfold parseVersion in H. own_list_nodes H.
  - unfold parseModelInfo in H. own_list_nodes H.
  - unfold parseSequences in H. own_list_nodes H.
  - unfold parseTextures in H. own_list_nodes H.
  - unfold parseMaterials in H. own_list_nodes H.
  - unfold parseGeoset in H. own_list_nodes H.
  - unfold parseGeosetAnim in H. own_list_nodes H.
  - unfold parseGlobalSequences in H. own_list_nodes H.
  - unfold parseParticleEmitter in H. own_list_nodes H.
  - unfold parseCamera in H. own_list_nodes H.
  - unfold parseTextureAnims in H. own_list_nodes H.
Qed.

Lemma parsePivotPoints_nodes m st m' p :
  parsePivotPoints fuel m st = Ok m' p -> nodesSatisfy P m -> nodesSatisfy P m'.
Proof.
  unfold parsePivotPoints. intros H Hi. unbind H. ret_inv H.
  match goal with
  | |- context [allocAll m ?vs] =>
      destruct (allocAll_frame vs m) as (new & HS & B1 & B2 & B3 & B4 & B5 & B6 & B7 & B8)
  end.
  apply nodesSatisfy_kept with (m := m) (new := new); assumption.
Qed.

(** The handlers that go through [parseNode]. *)
Lemma parseNode_record type (m : Model num) st r p :
  In type ["Bone"; "Helper"; "Attachment"] -> str st = s ->
  parseNode fuel E type m st = Ok r p ->
  exists node : obj num,
    P type node /\ fst r = VRef (List.length (Store m)) /\
    snd r = setNode (fst (alloc m (VObj node))) (getProp node "ObjectId") (fst r).
Proof.
  unfold parseNode. intros Ht Hs H. unbind H. ret_inv H.
  eexists. split; [|split; reflexivity].
  eapply P_node; [exact Ht | | eassumption]. exact Hs.
Qed.

Lemma setNode_frame (m : Model num) (k v : value num) :
  Store (setNode m k v) = Store m /\ Bones (setNode m k v) = Bones m /\
  Helpers (setNode m k v) = Helpers m /\ Attachments (setNode m k v) = Attachments m /\
  EventObjects (setNode m k v) = EventObjects m /\
  CollisionShapes (setNode m k v) = CollisionShapes m /\
  ParticleEmitters2 (setNode m k v) = ParticleEmitters2 m /\
  Lights (setNode m k v) = Lights m /\ RibbonEmitters (setNode m k v) = RibbonEmitters m.
Proof. unfold setNode. destruct (arrayIndex _); simpl; repeat split. Qed.

Lemma parseNode_nodes type (m : Model num) st r p :
  In type ["Bone"; "Helper"; "Attachment"] -> str st = s ->
  parseNode fuel E type m st = Ok r p -> nodesSatisfy P m ->
  nodesSatisfy P (snd r) /\
  exists node, deref (snd r) (fst r) = Some node /\ P type node.
Proof.
  intros Ht Hs H Hi. apply parseNode_record in H; auto.
  destruct H as (node & HP & Hr & Hm).
  destruct (setNode_frame (fst (alloc m (VObj node))) (getProp node "ObjectId") (fst r))
    as (HS & B1 & B2 & B3 & B4 & B5 & B6 & B7 & B8).
  rewrite <- Hm in *. simpl in *. split.
  - apply nodesSatisfy_kept with (m := m) (new := [VObj node]); assumption.
  - exists node. split; [|exact HP]. rewrite Hr. eapply deref_new. exact HS.
Qed.

Lemma node_handlers (m : Model num) st m' p :
  str st = s -> nodesSatisfy P m ->
  (parseBone fuel E m st = Ok m' p -> nodesSatisfy P m') /\
  (parseHelper fuel E m st = Ok m' p -> nodesSatisfy P m') /\
  (parseAttachment fuel E m st = Ok m' p -> nodesSatisfy P m').
Proof.
  intros Hs Hi. unfold parseBone, parseHelper, parseAttachment.
  (split; [|split]); intros H; bind_inv H; ret_inv H;
    (apply parseNode_nodes in H0; [|simpl; tauto|exact Hs|exact Hi]);
    destruct H0 as ((I1 & I2 & I3 & I4 & I5 & I6 & I7 & I8) & node & Hd & HP);
    unfold nodesSatisfy; simpl; repeat split; try assumption;
    eapply bucket_push; eauto.
Qed.

(** The handlers that store a node and append it to [Nodes]. *)
Lemma registered_nodes (m : Model num) (res : obj num) :
  nodesSatisfy P m ->
  nodesSatisfy P (fst (registerNode m res)) /\
  deref (fst (registerNode m res)) (snd (registerNode m res)) = Some res.
Proof.
  intros Hi. split.
  - apply nodesSatisfy_kept with (m := m) (new := [VObj res]);
      try reflexivity; assumption.
  - exact (deref_new m (fst (registerNode m res)) res eq_refl).
Qed.

Ltac appended_nodes H Hi Hs :=
  unbind H; ret_inv H;
  match goal with
  | |- context [registerNode ?m ?res] =>
      destruct (registered_nodes m res Hi)
        as ((I1 & I2 & I3 & I4 & I5 & I6 & I7 & I8) & Hd)
  end;
  unfold nodesSatisfy; simpl; repeat split; try assumption;
  (eapply bucket_push;
     [ match goal with I : bucketSatisfies _ _ _ _ |- _ => exact I end
     | match goal with D : deref _ _ = Some _ |- _ => exact D end
     | ]);
  first [ eapply P_eventObject | eapply P_collisionShape | eapply P_particleEmitter2
        | eapply P_light | eapply P_ribbonEmitter ];
  [| eassumption]; exact Hs.

Lemma parseEventObject_nodes m st m' p :
  str st = s -> parseEventObject fuel E m st = Ok m' p ->
  nodesSatisfy P m -> nodesSatisfy P m'.
Proof. unfold parseEventObject. intros Hs H Hi. appended_nodes H Hi Hs. Qed.

Lemma parseCollisionShape_nodes m st m' p :
  str st = s -> parseCollisionShape fuel E m st = Ok m' p ->
  nodesSatisfy P m -> nodesSatisfy P m'.
Proof. unfold parseCollisionShape. intros Hs H Hi. appended_nodes H Hi Hs. Qed.

Lemma parseParticleEmitter2_nodes m st m' p :
  str st = s -> parseParticleEmitter2 fuel E m st = Ok m' p ->
  nodesSatisfy P m -> nodesSatisfy P m'.
Proof. unfold parseParticleEmitter2. intros Hs H Hi. appended_nodes H Hi Hs. Qed.

Lemma parseLight_nodes m st m' p :
  str st = s -> parseLight fuel E m st = Ok m' p ->
  nodesSatisfy P m -> nodesSatisfy P m'.
Proof. unfold parseLight. intros Hs H Hi. appended_nodes H Hi Hs. Qed.

Lemma parseRibbonEmitter_nodes m st m' p :
  str st = s -> parseRibbonEmitter fuel E m st = Ok m' p ->
  nodesSatisfy P m -> nodesSatisfy P m'.
Proof. unfold parseRibbonEmitter. intros Hs H Hi. appended_nodes H Hi Hs. Qed.

Lemma handler_nodes (k : string) (h : Model num -> M (Model num)) m st m' p :
  lookupParser (parsers fuel E) k = Some h -> str st = s ->
  h m st = Ok m' p -> nodesSatisfy P m -> nodesSatisfy P m'.
Proof.
  intros Hl Hs H Hi. unfold parsers in Hl. cbn [lookupParser] in Hl.
  repeat match type of Hl with
         | (if ?c then _ else _) = Some _ =>
             destruct c eqn:?;
             [injection Hl as <-;
              first [ eapply own_list_handlers; [|exact H|exact Hi]; simpl; tauto
                    | eapply parsePivotPoints_nodes; eassumption
                    | eapply (proj1 (node_handlers m st m' p Hs Hi)); exact H
                    | eapply (proj1 (proj2 (node_handlers m st m' p Hs Hi))); exact H
                    | eapply (proj2 (proj2 (node_handlers m st m' p Hs Hi))); exact H
                    | eapply parseEventObject_nodes; eassumption
                    | eapply parseCollisionShape_nodes; eassumption
                    | eapply parseParticleEmitter2_nodes; eassumption
                    | eapply parseLight_nodes; eassumption
                    | eapply parseRibbonEmitter_nodes; eassumption ]
             |]
         end.
  discriminate.
Qed.

Lemma parseBlocks_nodes (m : Model num) st m' p :
  str st = s -> parseBlocks fuel E m st = Ok m' p ->
  nodesSatisfy P m -> nodesSatisfy P m'.
Proof.
  unfold parseBlocks. intros Hs H Hi. bind_inv H. ret_inv H.
  eapply (while_invariant (fun r : bool * Model num => nodesSatisfy P (snd r))) in H0;
    [exact H0 | | exact Hs | exact Hi].
  intros r st1 p1 r' p2 Hs1 Hr _ Hb. apply parseBlock_inv in Hb.
  destruct Hb as [->|(k & h & st' & p' & Hl & Hs' & Hh)]; [exact Hr|].
  eapply handler_nodes; [exact Hl | | exact Hh | exact Hr].
  simpl in Hs'. congruence.
Qed.

(** The pivot assignment keeps [P]. *)
Lemma assignPivot_nodes (m m' : Model num) (i : nat) :
  pivotsAreRefs m -> assignPivot m i = Some m' ->
  nodesSatisfy P m -> nodesSatisfy P m'.
Proof.
  intros Hp H Hi. pose proof (assignPivot_spec _ _ _ H) as (_ & _ & Hstep).
  destruct (truthy (pivotAt m i)) eqn:Ht; [|subst m'; exact Hi].
  destruct Hstep as (a & o & _ & Ha & HS).
  destruct (truthy_pivot_is_ref m i Hp Ht) as [q Hq]. rewrite Hq in HS.
  assert (Hd : forall t l, bucketSatisfies P m t l -> bucketSatisfies P m' t l).
  { intros t l Hl. unfold bucketSatisfies in *. eapply Forall_impl; [|exact Hl].
    intros v (o' & Ho' & HP). destruct v; simpl in Ho'; try discriminate.
    destruct (Nat.eq_dec addr a) as [->|Hne].
    - rewrite Ha in Ho'. injection Ho' as <-.
      exists (setProp o "PivotPoint" (VRef q)). split; [|apply P_pivot; exact HP].
      simpl. rewrite HS, nth_error_list_set_eq; [reflexivity|].
      apply nth_error_Some. congruence.
    - exists o'. split; [|exact HP]. simpl. rewrite HS.
      rewrite nth_error_list_set_neq by congruence. exact Ho'. }
  unfold assignPivot in H. unfold pivotAt in *. rewrite Ht in H.
  destruct (nth i (Nodes m) VUndefined); try discriminate.
  destruct (nth_error (Store m) addr) as [[| | | | | | |o1| |]|]; try discriminate.
  injection H as <-. destruct Hi as (I1 & I2 & I3 & I4 & I5 & I6 & I7 & I8).
  unfold nodesSatisfy. simpl.
  repeat split; match goal with |- bucketSatisfies _ _ ?t ?l =>
                  apply (Hd t l); assumption end.
Qed.

Lemma assignPivots_nodes (n : nat) :
  forall (i : nat) (m m' : Model num),
    pivotsAreRefs m -> assignPivots n i m = Some m' ->
    nodesSatisfy P m -> nodesSatisfy P m'.
Proof.
  induction n as [|n IH]; intros i m m' Hp H Hi; simpl in H.
  - injection H as <-. exact Hi.
  - destruct (assignPivot m i) as [m1|] eqn:H1; [|discriminate].
    eapply IH; [|exact H|eapply assignPivot_nodes; eauto].
    apply assignPivot_spec in H1. destruct H1 as (_ & HP1 & _).
    unfold pivotsAreRefs. rewrite HP1. exact Hp.
Qed.

Lemma nodesSatisfy_initial : nodesSatisfy P (@initialModel num JN).
Proof. unfold nodesSatisfy, bucketSatisfies. simpl. repeat split; constructor. Qed.

(** Every node record of the scene that [parse] returns has [P]. *)
Lemma parse_nodes (s' : string) (m : Model num) (p : nat) :
  list_ascii_of_string s' = s -> parse fuel E s' = Ok m p -> nodesSatisfy P m.
Proof.
  unfold parse, parseFrom. intros Hs H. bind_inv H. rename a into m0.
  unfold finalize in H.
  destruct (assignPivots (List.length (Nodes m0)) 0 m0) as [m1|] eqn:Hf;
    [|discriminate].
  ret_inv H.
  pose proof (parseBlocks_sharedInv _ _ _ _ _ _ H0 sharedInv_initial) as [_ Hp].
  eapply assignPivots_nodes; [exact Hp | exact Hf |].
  eapply parseBlocks_nodes; [|exact H0|apply nodesSatisfy_initial]. exact Hs.
Qed.

End NodeRecords.

(** ** The type tag of a node *)

Lemma land_member (x : Z) (l : list Z) :
  In x l -> Z.land x (fold_right Z.lor 0%Z l) = x.
Proof.
  induction l as [|a l IH]; intros H; [contradiction|]. simpl.
  apply Z.bits_inj'. intros n Hn.
  rewrite Z.land_spec, Z.lor_spec.
  destruct H as [->|H].
  - destruct (Z.testbit x n), (Z.testbit (fold_right Z.lor 0%Z l) n); reflexivity.
  - specialize (IH H). apply (f_equal (fun z => Z.testbit z n)) in IH.
    rewrite Z.land_spec in IH.
    destruct (Z.testbit x n), (Z.testbit a n),
      (Z.testbit (fold_right Z.lor 0%Z l) n); simpl in *; congruence.
Qed.

Lemma int32_range (z : Z) : (- 2 ^ 31 <= int32 z < 2 ^ 31)%Z.
Proof.
  unfold int32. pose proof (Z.mod_pos_bound (z + 2 ^ 31) (2 ^ 32)). lia.
Qed.

Lemma range_shiftr (x : Z) :
  (- 2 ^ 31 <= x < 2 ^ 31)%Z <-> (Z.shiftr x 31 = 0 \/ Z.shiftr x 31 = -1)%Z.
Proof.
  rewrite Z.shiftr_div_pow2 by lia.
  pose proof (Z.div_mod x (2 ^ 31) ltac:(lia)) as Hd.
  pose proof (Z.mod_pos_bound x (2 ^ 31) ltac:(lia)) as Hm.
  split; intros H; [|destruct H as [H|H]; rewrite H in Hd; lia].
  destruct (Z.eq_dec (x / 2 ^ 31) 0); [auto|].
  destruct (Z.eq_dec (x / 2 ^ 31) (-1)); [auto|]. nia.
Qed.

Lemma lor_range (a b : Z) :
  (- 2 ^ 31 <= a < 2 ^ 31)%Z -> (- 2 ^ 31 <= b < 2 ^ 31)%Z ->
  (- 2 ^ 31 <= Z.lor a b < 2 ^ 31)%Z.
Proof.
  rewrite !range_shiftr, Z.shiftr_lor.
  intros [->| ->] [->| ->]; simpl; auto.
Qed.

Section Tags.
Context {num : Type} {JN : JSNumber num}.
Variable fuel : nat.
Variable E : Enums.
Variable s : list ascii.

Hypothesis HE : enumsDisjoint E.
Hypothesis Hno : mentionsb (list_ascii_of_string "Flags") s = false.

Lemma tag_in_mask (t : string) :
  In t nodeTypeNames -> Z.land (NodeType E t) (tagMask E) = NodeType E t.
Proof. intros H. apply land_member. apply in_map. exact H. Qed.

Lemma tag_initial (t : string) (o : obj num) :
  In t nodeTypeNames ->
  getProp o "Flags" = VNum (ofZ (NodeType E t)) -> oneTagBit E t o.
Proof.
  intros Ht Hg. destruct HE as (Hbit & _). destruct (Hbit t Ht) as (k & Hk & Hv).
  exists (ofZ (NodeType E t)). split; [exact Hg|]. split; [|eauto].
  rewrite toInt32_ofZ.
  - apply tag_in_mask. exact Ht.
  - rewrite Hv. split; [pose proof (Z.pow_nonneg 2 k); lia|].
    apply Z.pow_lt_mono_r; lia.
Qed.

Lemma tag_setProp (t : string) (o : obj num) (k : string) (v : value num) :
  (k == "Flags") = false -> oneTagBit E t o -> oneTagBit E t (setProp o k v).
Proof.
  intros Hk (n & Hg & Hn). exists n. split; [|exact Hn].
  rewrite getProp_setProp_other; assumption.
Qed.

Lemma tag_orFlag_other (t : string) (o : obj num) (k : string) (v : Z) :
  (k == "Flags") = false -> oneTagBit E t o -> oneTagBit E t (orFlag o k v).
Proof. intros Hk H. unfold orFlag. apply tag_setProp; assumption. Qed.

Lemma tag_orFlag (t : string) (o : obj num) (v : Z) :
  Z.land (int32 v) (tagMask E) = 0%Z ->
  oneTagBit E t o -> oneTagBit E t (orFlag o "Flags" v).
Proof.
  intros Hv (n & Hg & Hn & Hk). unfold orFlag.
  eexists. split; [apply getProp_setProp_same|]. split; [|exact Hk].
  rewrite Hg. simpl. rewrite toInt32_ofZ.
  - rewrite Z.land_lor_distr_l, Hn, Hv. apply Z.lor_0_r.
  - apply lor_range; [apply toInt32_range | apply int32_range].
Qed.

Lemma requireKeyword_not_mentioned (st : State) (k K : string) (p : nat) :
  mentionsb (list_ascii_of_string K) (str st) = false ->
  requireKeyword fuel st = Ok k p -> (k == K) = false.
Proof.
  unfold requireKeyword. intros Hm H. bind_inv H.
  destruct a as [k'|]; [|discriminate]. ret_inv H.
  eapply parseKeyword_not_mentioned; eauto.
Qed.

Lemma parseStaticKeyword_not_mentioned (st : State) (ks : option string * bool)
    (K : string) (p : nat) :
  mentionsb (list_ascii_of_string K) (str st) = false -> ("null" == K) = false ->
  parseStaticKeyword fuel st = Ok ks p -> (keyOf (fst ks) == K) = false.
Proof.
  unfold parseStaticKeyword. intros Hm Hn H. bind_inv H.
  destruct a as [k|]; [|discriminate].
  destruct (k == "static").
  - bind_inv H. ret_inv H. destruct a as [k'|]; simpl; [|exact Hn].
    eapply parseKeyword_not_mentioned; [|exact H1]. exact Hm.
  - ret_inv H. simpl. eapply parseKeyword_not_mentioned; eauto.
Qed.

Lemma parseDontInherit_tag (t : string) (res res' : obj num) st p :
  oneTagBit E t res -> parseDontInherit fuel E res st = Ok res' p ->
  oneTagBit E t res'.
Proof.
  unfold parseDontInherit. intros Hi H. unbind H. ret_inv H.
  destruct HE as (_ & HF & _).
  repeat match goal with |- context [if ?c then _ else _] => destruct c end;
    try assumption; apply tag_orFlag; auto.
Qed.

(** The goals left by [crunch] on one entry of a node block. *)
Ltac tag_step Hs :=
  try assumption;
  first
    [ eapply parseDontInherit_tag; eassumption
    | apply tag_orFlag; [solve [apply HE] | assumption]
    | apply tag_orFlag_other; [reflexivity | assumption]
    | apply tag_setProp; [|assumption];
      first
        [ reflexivity
        | eapply requireKeyword_not_mentioned; [|eassumption]; simpl; rewrite Hs; exact Hno
        | eapply parseStaticKeyword_not_mentioned; [| |eassumption];
          [simpl; rewrite Hs; exact Hno | reflexivity] ] ].

Lemma nodeEntry_tag (t : string) (node node' : obj num) st p :
  str st = s -> oneTagBit E t node -> nodeEntry fuel E node st = Ok node' p ->
  oneTagBit E t node'.
Proof. unfold nodeEntry. intros Hs Hi H. crunch; tag_step Hs. Qed.

Lemma eventObjectEntry_tag (t : string) (res res' : obj num) st p :
  str st = s -> oneTagBit E t res -> eventObjectEntry fuel res st = Ok res' p ->
  oneTagBit E t res'.
Proof. unfold eventObjectEntry. intros Hs Hi H. crunch; tag_step Hs. Qed.

Lemma collisionShapeEntry_tag (t : string) (res res' : obj num) st p :
  str st = s -> oneTagBit E t res -> collisionShapeEntry fuel res st = Ok res' p ->
  oneTagBit E t res'.
Proof. unfold collisionShapeEntry. intros Hs Hi H. crunch; tag_step Hs. Qed.

Lemma particleEmitter2Entry_tag (t : string) (res res' : obj num) st p :
  str st = s -> oneTagBit E t res -> particleEmitter2Entry fuel E res st = Ok res' p ->
  oneTagBit E t res'.
Proof. unfold particleEmitter2Entry. intros Hs Hi H. crunch; tag_step Hs. Qed.

Lemma lightEntry_tag (t : string) (res res' : obj num) st p :
  str st = s -> oneTagBit E t res -> lightEntry fuel E res st = Ok res' p ->
  oneTagBit E t res'.
Proof. unfold lightEntry. intros Hs Hi H. crunch; tag_step Hs. Qed.

Lemma ribbonEmitterEntry_tag (t : string) (res res' : obj num) st p :
  str st = s -> oneTagBit E t res -> ribbonEmitterEntry fuel res st = Ok res' p ->
  oneTagBit E t res'.
Proof. unfold ribbonEmitterEntry. intros Hs Hi H. crunch; tag_step Hs. Qed.

End Tags.

Section TagTheorem.
Context {num : Type} {JN : JSNumber num}.

Lemma in_nodeTypeNames (type : string) :
  In type ["Bone"; "Helper"; "Attachment"] -> In type nodeTypeNames.
Proof. simpl. intuition. Qed.


End TagTheorem.

Lemma table_cases (P : Z -> Prop) (l : list (string * Z)) (k : string) :
  P 0%Z -> Forall (fun e => P (snd e)) l -> P (table l k).
Proof.
  intros H0 Hl. unfold table. induction Hl as [|e l He Hl IH]; simpl; [exact H0|].
  destruct (fst e == k); [exact He | exact IH].
Qed.

Lemma refEnums_disjoint : enumsDisjoint refEnums.
Proof.
  split; [|split].
  - intros t Ht. simpl in Ht.
    destruct Ht as [<-|[<-|[<-|[<-|[<-|[<-|[<-|[<-|[]]]]]]]]];
      [ exists 9%Z | exists 8%Z | exists 12%Z | exists 11%Z
      | exists 14%Z | exists 13%Z | exists 10%Z | exists 15%Z ];
      (split; [lia | reflexivity]).
  - intros k. simpl.
    apply (table_cases (fun v => Z.land (int32 v) (tagMask refEnums) = 0%Z));
      [reflexivity | repeat constructor].
  - intros k. simpl.
    apply (table_cases (fun v => Z.land (int32 v) (tagMask refEnums) = 0%Z));
      [reflexivity | repeat constructor].
Qed.



(** ** Animated tracks *)

Section Tracks.
Context {num : Type} {JN : JSNumber num}.
Variable fuel : nat.

Lemma typedSet_length (t : TypedArray num) (i : nat) (n : num) :
  List.length (elems (typedSet t i n)) = List.length (elems t).
Proof. unfold typedSet. simpl. apply length_list_set. Qed.

Lemma newTyped_length (k : elemKind) (n : nat) :
  List.length (elems (@newTyped num JN k n)) = n.
Proof. unfold newTyped. simpl. apply repeat_length. Qed.

Lemma typedReverse_length (t : TypedArray num) :
  List.length (elems (typedReverse t)) = List.length (elems t).
Proof. unfold typedReverse. simpl. apply length_rev. Qed.

(** A property of the value carried through an array is kept when each
    store keeps it. *)
Lemma arrayLoop_invariant {A} (I : A -> Prop) (store : A -> num -> A) (acc acc' : A) st p :
  (forall x n, I x -> I (store x n)) -> I acc ->
  arrayLoop fuel store acc st = Ok acc' p -> I acc'.
Proof.
  unfold arrayLoop. intros Hstore Ha H. unbind H. ret_inv H.
  match goal with
  | K : while_ _ _ _ _ _ = Ok _ _ |- _ =>
      eapply (while_invariant I) in K; [exact K | | reflexivity | exact Ha]
  end.
  intros x stb pb x' pc _ Hx _ Hb. unfold arrayEntry in Hb.
  crunch. apply Hstore. exact Hx.
Qed.

Lemma parseArrayOrSingleItem_length (arr arr' : TypedArray num) st p :
  parseArrayOrSingleItem fuel arr st = Ok arr' p ->
  List.length (elems arr') = List.length (elems arr).
Proof.
  unfold parseArrayOrSingleItem. intros H. bind_inv H. destruct a.
  - bind_inv H. ret_inv H. apply typedSet_length.
  - bind_inv H. ret_inv H.
    match goal with
    | K : arrayLoop _ _ _ _ = Ok _ _ |- _ =>
        eapply (arrayLoop_invariant
                  (fun r => List.length (elems (fst r)) = List.length (elems arr)))
          in K; [exact K | | reflexivity]
    end.
    intros x n Hx. unfold storeTyped. cbn [fst]. rewrite typedSet_length. exact Hx.
Qed.

Lemma parseAnimKeyframe_ok (frame : num) (type : AnimVectorType)
    (lineType : LineType) (k : AnimKeyframe num) st p :
  parseAnimKeyframe fuel frame type lineType st = Ok k p ->
  keyframeOK type lineType k = true.
Proof.
  unfold parseAnimKeyframe. intros H. cbv zeta in H. bind_inv H. bind_inv H.
  unfold keyframeOK. destruct (hasTangents lineType) eqn:Ht.
  - unbind H. ret_inv H. simpl.
    repeat match goal with
           | K : parseArrayOrSingleItem _ _ _ = Ok _ _ |- _ =>
               apply parseArrayOrSingleItem_length in K;
               rewrite newTyped_length in K; rewrite K
           end.
    rewrite Nat.eqb_refl. reflexivity.
  - ret_inv H. simpl.
    match goal with
    | K : parseArrayOrSingleItem _ _ _ = Ok _ _ |- _ =>
        apply parseArrayOrSingleItem_length in K;
        rewrite newTyped_length in K; rewrite K
    end.
    rewrite Nat.eqb_refl. reflexivity.
Qed.

Lemma animVectorEntry_ok (type : AnimVectorType) (a a' : AnimVector num) st p :
  animVectorEntry fuel type a st = Ok a' p ->
  trackOK type a = true -> trackOK type a' = true.
Proof.
  unfold animVectorEntry. intros H Ha. bind_inv H.
  destruct (kwIs a0 "GlobalSeqId").
  - unbind H. ret_inv H. exact Ha.
  - bind_inv H. destruct a1 as [f|]; [|discriminate]. unbind H. ret_inv H.
    unfold trackOK, push in *. simpl. rewrite forallb_app, Ha. simpl.
    match goal with
    | K : parseAnimKeyframe _ _ _ _ _ = Ok _ _ |- _ =>
        rewrite (parseAnimKeyframe_ok _ _ _ _ _ _ K)
    end. reflexivity.
Qed.

(** Every keyframe of a track that [parseAnimVector] returns has the
    shape of its channel and of the mode of the track. *)
Lemma parseAnimVector_ok (type : AnimVectorType) (a : AnimVector num) st p :
  parseAnimVector fuel type st = Ok a p -> trackOK type a = true.
Proof.
  unfold parseAnimVector. intros H. unbind H. ret_inv H.
  match goal with
  | K : while_ _ _ _ _ _ = Ok _ _ |- _ =>
      eapply (while_invariant (fun x => trackOK type x = true)) in K;
        [exact K | | reflexivity | reflexivity]
  end.
  intros x stb pb x' pc _ Hx _ Hb. eapply animVectorEntry_ok; eauto.
Qed.

Lemma keyframeOK_reverseKey (type : AnimVectorType) (lineType : LineType)
    (k : AnimKeyframe num) :
  keyframeOK type lineType (reverseKey k) = keyframeOK type lineType k.
Proof.
  unfold keyframeOK, reverseKey.
  destruct (InTan k) as [i|], (OutTan k) as [o|]; simpl;
    unfold typedReverse; simpl; rewrite ?length_rev; reflexivity.
Qed.

Lemma trackOK_reverseKeys (type : AnimVectorType) (a : AnimVector num) :
  trackOK type (reverseKeys a) = trackOK type a.
Proof.
  unfold trackOK, reverseKeys. simpl. induction (Keys a) as [|k l IH]; simpl;
    [reflexivity | rewrite keyframeOK_reverseKey, IH; reflexivity].
Qed.

End Tracks.

(** ** Values and their tracks *)

Section TrackValues.
Context {num : Type} {JN : JSNumber num}.
Variable tbl : channels.

Lemma valueOK_VObj (o : obj num) :
  valueOK tbl (VObj o) = forallb (fun e => entryOK tbl (fst e) (snd e)) o.
Proof.
  simpl. induction o as [|[k v] o IHo]; simpl; [reflexivity|].
  rewrite IHo. destruct v; reflexivity.
Qed.

(** Induction on values, through the arrays and the objects. *)
Lemma value_induction (P : value num -> Prop) :
  (forall v, (forall l, v <> VArr l) -> (forall o, v <> VObj o) -> P v) ->
  (forall l, Forall P l -> P (VArr l)) ->
  (forall o, Forall (fun e => P (snd e)) o -> P (VObj o)) ->
  forall v, P v.
Proof.
  intros Hleaf Harr Hobj. fix IH 1. intros v.
  destruct v as [ | |b|n|x|t|l|props|a|r]; try (apply Hleaf; intros; discriminate).
  - apply Harr. induction l as [|v l IHl]; constructor; [apply IH | exact IHl].
  - apply Hobj. induction props as [|e props IHp]; constructor; [apply IH | exact IHp].
Qed.

(** A value without tracks is well formed under every table. *)
Lemma valueOK_noChannels (v : value num) :
  valueOK noChannels v = true -> valueOK tbl v = true.
Proof.
  induction v as [v Hl Ho|l IHl|o IHo] using value_induction.
  - destruct v; simpl; try (intros; assumption);
      [exfalso; eapply Hl; reflexivity | exfalso; eapply Ho; reflexivity].
  - simpl. induction IHl as [|v l Hv _ IH]; simpl; [reflexivity|].
    rewrite !andb_true_iff. intros [H1 H2]. split; auto.
  - simpl. induction IHo as [|[k v] o Hv _ IH]; simpl; [reflexivity|].
    rewrite !andb_true_iff. intros [H1 H2]. split; [|auto].
    simpl in Hv. destruct v; try (apply Hv; exact H1). discriminate H1.
Qed.

Lemma entryOK_plain (k : string) (v : value num) :
  valueOK noChannels v = true -> entryOK tbl k v = true.
Proof.
  intros H. destruct v; try (apply valueOK_noChannels; exact H). discriminate H.
Qed.

Lemma entryOK_track (k : string) (type : AnimVectorType) (a : AnimVector num) :
  tbl k = Some type -> trackOK type a = true -> entryOK tbl k (VAnim a) = true.
Proof. intros Hk Ha. simpl. rewrite Hk. exact Ha. Qed.

Lemma valueOK_setProp (o : obj num) (k : string) (v : value num) :
  valueOK tbl (VObj o) = true -> entryOK tbl k v = true ->
  valueOK tbl (VObj (setProp o k v)) = true.
Proof.
  rewrite !valueOK_VObj. intros Ho Hv.
  induction o as [|[k' v'] o IHo]; simpl in *.
  - rewrite Hv. reflexivity.
  - apply andb_true_iff in Ho. destruct Ho as [H1 H2].
    destruct (k' == k); simpl; [rewrite Hv | rewrite H1]; auto.
Qed.

Lemma valueOK_deleteProp (o : obj num) (k : string) :
  valueOK tbl (VObj o) = true -> valueOK tbl (VObj (deleteProp o k)) = true.
Proof.
  rewrite !valueOK_VObj. intros Ho.
  induction o as [|[k' v'] o IHo]; simpl in *; [reflexivity|].
  apply andb_true_iff in Ho. destruct Ho as [H1 H2].
  destruct (k' == k); simpl; [exact H2 | rewrite H1; auto].
Qed.

Lemma entryOK_getProp (o : obj num) (k : string) :
  valueOK tbl (VObj o) = true -> entryOK tbl k (getProp o k) = true.
Proof.
  rewrite valueOK_VObj. intros Ho.
  induction o as [|[k' v'] o IHo]; simpl in *; [reflexivity|].
  apply andb_true_iff in Ho. destruct Ho as [H1 H2].
  destruct (k' == k) eqn:Hk; [|auto].
  apply String.eqb_eq in Hk. subst k'. exact H1.
Qed.

Lemma valueOK_orFlag (o : obj num) (k : string) (z : Z) :
  valueOK tbl (VObj o) = true -> valueOK tbl (VObj (orFlag o k z)) = true.
Proof. intros Ho. unfold orFlag. apply valueOK_setProp; [exact Ho | reflexivity]. Qed.

Lemma valueOK_push (l : list (value num)) (v : value num) :
  forallb (valueOK tbl) l = true -> valueOK tbl v = true ->
  forallb (valueOK tbl) (push l v) = true.
Proof. intros Hl Hv. unfold push. rewrite forallb_app, Hl. simpl. rewrite Hv. reflexivity. Qed.

Lemma valueOK_pushProp (o : obj num) (k : string) (v : value num) :
  valueOK tbl (VObj o) = true -> valueOK tbl v = true ->
  valueOK tbl (VObj (pushProp o k v)) = true.
Proof.
  intros Ho Hv. unfold pushProp. apply valueOK_setProp; [exact Ho|].
  pose proof (entryOK_getProp o k Ho) as Hg.
  destruct (getProp o k); try exact Hg. simpl in *. apply valueOK_push; assumption.
Qed.

Lemma entryOK_ofOptNum (k : string) (n : option num) : entryOK tbl k (ofOptNum n) = true.
Proof. destruct n; reflexivity. Qed.

Lemma entryOK_ofOptStr (k : string) (x : option string) : entryOK tbl k (ofOptStr x : value num) = true.
Proof. destruct x; reflexivity. Qed.

End TrackValues.

(** ** The handlers and their tracks *)

(** The keyword tests that hold are turned into equations and the
    keywords replaced by their spelling. *)
Ltac key_facts :=
  repeat match goal with
         | H : _ && _ = true |- _ => apply andb_true_iff in H; destruct H
         | H : _ || _ = true |- _ => apply orb_true_iff in H; destruct H
         | H : kwIn _ _ = true |- _ => unfold kwIn in H; simpl existsb in H
         | H : kwIs ?k _ = true |- _ =>
             destruct k; [apply String.eqb_eq in H; subst | discriminate H]
         | H : (_ == _) = true |- _ => apply String.eqb_eq in H; subst
         | H : false = true |- _ => discriminate H
         end.

Section TrackEntries.
Context {num : Type} {JN : JSNumber num}.
Variable fuel : nat.
Variable E : Enums.

(** A loop keeps what each run of its body keeps. *)
Lemma loop_invariant {A} (I : A -> Prop) (cond : A -> M bool) (body : A -> M A) :
  (forall x st x' p, I x -> body x st = Ok x' p -> I x') ->
  forall x st x' p, I x -> while_ fuel cond body x st = Ok x' p -> I x'.
Proof.
  intros Hstep x st x' p Hx H.
  eapply (while_invariant I) in H; [exact H | | reflexivity | exact Hx].
  intros y stb pb y' pc _ Hy _ Hb. eapply Hstep; eauto.
Qed.

Lemma parseArray_plain (arr : option (TypedArray num)) (pos : nat) (v : value num) st p :
  parseArray fuel arr pos st = Ok v p -> valueOK noChannels v = true.
Proof.
  unfold parseArray. intros H. crunch; try reflexivity.
  simpl. match goal with
  | K : arrayLoop _ _ _ _ = Ok _ _ |- _ =>
      eapply (arrayLoop_invariant _ (fun l => forallb (valueOK noChannels) l = true))
        in K; [exact K | | reflexivity]
  end.
  intros x n Hx. apply valueOK_push; [exact Hx | reflexivity].
Qed.

Lemma objectEntry_plain (o o' : obj num) st p :
  valueOK noChannels (VObj o) = true -> objectEntry fuel o st = Ok o' p ->
  valueOK noChannels (VObj o') = true.
Proof.
  unfold objectEntry. intros Ho H. crunch;
    (apply valueOK_setProp; [exact Ho|]);
    first [ apply entryOK_ofOptNum | apply entryOK_ofOptStr
          | apply entryOK_plain; eapply parseArray_plain; eassumption
          | match goal with
            | Hq : ofOptStr _ = ?v |- entryOK _ _ ?v = true =>
                rewrite <- Hq; apply entryOK_ofOptStr
            end
          | idtac ].
Qed.

Lemma parseObject_plain (r : value num * obj num) st p :
  parseObject fuel st = Ok r p ->
  valueOK noChannels (fst r) = true /\ valueOK noChannels (VObj (snd r)) = true.
Proof.
  unfold parseObject. intros H. crunch; simpl; (split; [reflexivity|]);
  match goal with
  | K : while_ _ _ _ _ _ = Ok _ _ |- _ =>
      eapply (loop_invariant (fun o => valueOK noChannels (VObj o) = true)) in K;
        [exact K | | reflexivity]
  end; intros x stb x' pb Hx Hb; eapply objectEntry_plain; eauto.
Qed.


Lemma parseDontInherit_track (tbl : channels) (res res' : obj num) st p :
  valueOK tbl (VObj res) = true -> parseDontInherit fuel E res st = Ok res' p ->
  valueOK tbl (VObj res') = true.
Proof.
  unfold parseDontInherit. intros Hi H. unbind H. ret_inv H.
  repeat match goal with |- context [if ?c then _ else _] => destruct c end;
    try assumption; apply valueOK_orFlag; assumption.
Qed.

Lemma parseSegmentColor_plain (colors : list (value num)) st p :
  parseSegmentColor fuel st = Ok colors p ->
  forallb (valueOK noChannels) colors = true.
Proof.
  unfold parseSegmentColor. intros H. crunch.
  match goal with
  | K : while_ _ _ _ _ _ = Ok _ _ |- _ =>
      eapply (loop_invariant (fun l => forallb (valueOK noChannels) l = true)) in K;
        [exact K | | reflexivity]
  end.
  intros x stb x' pb Hx Hb. unfold segmentColorEntry in Hb. crunch.
  apply valueOK_push; [exact Hx | reflexivity].
Qed.

Lemma parseSwappedColor_plain (v : value num) st p :
  parseSwappedColor fuel st = Ok v p -> valueOK noChannels v = true.
Proof. unfold parseSwappedColor. intros H. crunch. reflexivity. Qed.

Ltac track_value :=
  first
    [ apply entryOK_ofOptNum
    | apply entryOK_ofOptStr
    | reflexivity
    | match goal with
      | |- entryOK _ _ (if ?c then _ else _) = true => destruct c; reflexivity
      | |- entryOK _ _ (match ofOptNum ?n with _ => _ end) = true =>
          destruct n; reflexivity
      end
    | apply entryOK_plain; eapply parseArray_plain; eassumption
    | apply entryOK_plain; eapply parseSwappedColor_plain; eassumption
    | apply entryOK_plain; simpl; eapply parseSegmentColor_plain; eassumption
    | eapply entryOK_track;
      [reflexivity
      | simpl; rewrite ?trackOK_reverseKeys; eapply parseAnimVector_ok; eassumption] ].

Ltac track_step :=
  try match goal with
      | |- valueOK _ (VObj (if ?c then _ else _)) = true => destruct c
      end;
  try assumption;
  first
    [ eapply parseDontInherit_track; eassumption
    | apply valueOK_orFlag; assumption
    | apply valueOK_setProp; [assumption|]; key_facts; track_value ].

Lemma layerEntry_track (res res' : obj num) st p :
  valueOK layerChannels (VObj res) = true -> layerEntry fuel res st = Ok res' p ->
  valueOK layerChannels (VObj res') = true.
Proof. unfold layerEntry. intros Hi H. crunch; track_step. Qed.

Lemma parseLayer_track (layer : obj num) st p :
  parseLayer fuel st = Ok layer p -> valueOK layerChannels (VObj layer) = true.
Proof.
  unfold parseLayer. intros H. crunch.
  match goal with
  | K : while_ _ _ _ _ _ = Ok _ _ |- _ =>
      eapply (loop_invariant (fun o => valueOK layerChannels (VObj o) = true)) in K;
        [exact K | | reflexivity]
  end.
  intros x stb x' pb Hx Hb. eapply layerEntry_track; eauto.
Qed.

Lemma materialEntry_track (o o' : obj num) st p :
  valueOK layerChannels (VObj o) = true -> materialEntry fuel o st = Ok o' p ->
  valueOK layerChannels (VObj o') = true.
Proof.
  unfold materialEntry. intros Hi H. crunch; try track_step.
  apply (valueOK_pushProp layerChannels o "Layers" (VObj a2)); [exact Hi|].
  eapply parseLayer_track; eassumption.
Qed.

(** The loop of a block whose entries keep the tracks well formed. *)
Ltac track_loop tbl entry_track :=
  match goal with
  | K : while_ _ _ _ _ _ = Ok _ _ |- _ =>
      eapply (loop_invariant (fun o => valueOK tbl (VObj o) = true)) in K;
        [ | intros ? ? ? ? ? ?; eapply entry_track; eassumption | ]
  end.

Lemma materialsEntry_track (res res' : list (value num)) st p :
  forallb (valueOK layerChannels) res = true -> materialsEntry fuel res st = Ok res' p ->
  forallb (valueOK layerChannels) res' = true.
Proof.
  unfold materialsEntry. intros Hi H. crunch. apply valueOK_push; [exact Hi|].
  track_loop layerChannels materialEntry_track; [eassumption | reflexivity].
Qed.

Lemma geosetAnimEntry_track (res res' : obj num) st p :
  valueOK geosetAnimChannels (VObj res) = true ->
  geosetAnimEntry fuel E res st = Ok res' p ->
  valueOK geosetAnimChannels (VObj res') = true.
Proof. unfold geosetAnimEntry. intros Hi H. crunch; track_step. Qed.

Lemma nodeEntry_track (node node' : obj num) st p :
  valueOK nodeChannels (VObj node) = true ->
  nodeEntry fuel E node st = Ok node' p ->
  valueOK nodeChannels (VObj node') = true.
Proof. unfold nodeEntry. intros Hi H. crunch; track_step. Qed.

Lemma eventObjectEntry_track (res res' : obj num) st p :
  valueOK transformChannels (VObj res) = true ->
  eventObjectEntry fuel res st = Ok res' p ->
  valueOK transformChannels (VObj res') = true.
Proof. unfold eventObjectEntry. intros Hi H. crunch; track_step. Qed.

Lemma collisionShapeEntry_track (res res' : obj num) st p :
  valueOK transformChannels (VObj res) = true ->
  collisionShapeEntry fuel res st = Ok res' p ->
  valueOK transformChannels (VObj res') = true.
Proof. unfold collisionShapeEntry. intros Hi H. crunch; track_step. Qed.

Lemma particleEntry_track (res res' : obj num) st p :
  valueOK particleEmitterChannels (VObj res) = true ->
  particleEntry fuel res st = Ok res' p ->
  valueOK particleEmitterChannels (VObj res') = true.
Proof. unfold particleEntry. intros Hi H. crunch; track_step. Qed.

Lemma particleEmitterEntry_track (res res' : obj num) st p :
  valueOK particleEmitterChannels (VObj res) = true ->
  particleEmitterEntry fuel E res st = Ok res' p ->
  valueOK particleEmitterChannels (VObj res') = true.
Proof.
  unfold particleEmitterEntry. intros Hi H. crunch; try track_step.
  track_loop particleEmitterChannels particleEntry_track; eassumption.
Qed.

Lemma particleEmitter2Entry_track (res res' : obj num) st p :
  valueOK particleEmitter2Channels (VObj res) = true ->
  particleEmitter2Entry fuel E res st = Ok res' p ->
  valueOK particleEmitter2Channels (VObj res') = true.
Proof.
  unfold particleEmitter2Entry. intros Hi H. crunch; track_step.
Qed.

Lemma cameraTargetEntry_track (res res' : obj num) st p :
  valueOK cameraChannels (VObj res) = true ->
  cameraTargetEntry fuel res st = Ok res' p ->
  valueOK cameraChannels (VObj res') = true.
Proof. unfold cameraTargetEntry. intros Hi H. crunch; track_step. Qed.

Lemma cameraEntry_track (res res' : obj num) st p :
  valueOK cameraChannels (VObj res) = true ->
  cameraEntry fuel res st = Ok res' p ->
  valueOK cameraChannels (VObj res') = true.
Proof.
  unfold cameraEntry. intros Hi H. crunch; try track_step.
  track_loop cameraChannels cameraTargetEntry_track; eassumption.
Qed.

Lemma lightEntry_track (res res' : obj num) st p :
  valueOK lightChannels (VObj res) = true ->
  lightEntry fuel E res st = Ok res' p ->
  valueOK lightChannels (VObj res') = true.
Proof. unfold lightEntry. intros Hi H. crunch; track_step. Qed.

Lemma tVertexAnimEntry_track (o o' : obj num) st p :
  valueOK transformChannels (VObj o) = true ->
  tVertexAnimEntry fuel o st = Ok o' p ->
  valueOK transformChannels (VObj o') = true.
Proof. unfold tVertexAnimEntry. intros Hi H. crunch; track_step. Qed.

Lemma ribbonEmitterEntry_track (res res' : obj num) st p :
  valueOK ribbonEmitterChannels (VObj res) = true ->
  ribbonEmitterEntry fuel res st = Ok res' p ->
  valueOK ribbonEmitterChannels (VObj res') = true.
Proof. unfold ribbonEmitterEntry. intros Hi H. crunch; track_step. Qed.

Lemma textureAnimsEntry_track (res res' : list (value num)) st p :
  forallb (valueOK transformChannels) res = true ->
  textureAnimsEntry fuel res st = Ok res' p ->
  forallb (valueOK transformChannels) res' = true.
Proof.
  unfold textureAnimsEntry. intros Hi H. crunch. apply valueOK_push; [exact Hi|].
  track_loop transformChannels tVertexAnimEntry_track; [eassumption | reflexivity].
Qed.

Lemma groupsEntry_plain (groups groups' : list (value num)) st p :
  forallb (valueOK noChannels) groups = true ->
  groupsEntry fuel groups st = Ok groups' p ->
  forallb (valueOK noChannels) groups' = true.
Proof.
  unfold groupsEntry. intros Hi H. crunch.
  apply valueOK_push; [exact Hi | eapply parseArray_plain; eassumption].
Qed.

Lemma geosetEntry_plain (res res' : obj num) st p :
  valueOK noChannels (VObj res) = true ->
  geosetEntry fuel res st = Ok res' p ->
  valueOK noChannels (VObj res') = true.
Proof.
  unfold geosetEntry. intros Hi H. crunch; try track_step.
  - destruct (a == "TVertices");
      [apply valueOK_pushProp | apply valueOK_setProp]; solve [exact Hi | reflexivity].
  - apply valueOK_setProp;
      [apply valueOK_setProp; [exact Hi | apply entryOK_ofOptNum]|].
    simpl.
    match goal with
    | K : while_ _ _ _ _ _ = Ok _ _ |- _ =>
        eapply (loop_invariant (fun l => forallb (valueOK noChannels) l = true)) in K;
          [exact K | | reflexivity]
    end.
    intros x stb x' pb Hx Hb. eapply groupsEntry_plain; eauto.
  - apply valueOK_pushProp; [exact Hi|].
    match goal with
    | K : parseObject _ _ = Ok _ _ |- _ => apply parseObject_plain in K; destruct K as [_ K]
    end.
    destruct (getProp (snd a0) "Alpha"); try assumption.
    apply valueOK_setProp; [assumption | reflexivity].
Qed.

Lemma sequenceEntry_plain (res res' : list (value num)) st p :
  forallb (valueOK noChannels) res = true ->
  sequenceEntry fuel res st = Ok res' p ->
  forallb (valueOK noChannels) res' = true.
Proof.
  unfold sequenceEntry. intros Hi H. crunch.
  match goal with
  | K : parseObject _ _ = Ok _ _ |- _ => apply parseObject_plain in K; destruct K as [K1 K2]
  end.
  apply valueOK_push; [exact Hi|].
  apply valueOK_setProp; [|reflexivity].
  apply valueOK_setProp; [exact K2 | apply entryOK_plain; exact K1].
Qed.

Lemma textureEntry_plain (res res' : list (value num)) st p :
  forallb (valueOK noChannels) res = true ->
  textureEntry fuel res st = Ok res' p ->
  forallb (valueOK noChannels) res' = true.
Proof.
  unfold textureEntry. intros Hi H. crunch.
  match goal with
  | K : parseObject _ _ = Ok _ _ |- _ => apply parseObject_plain in K; destruct K as [K1 K2]
  end.
  apply valueOK_push; [exact Hi|].
  repeat match goal with
         | |- valueOK _ (VObj (if ?c then _ else _)) = true => destruct c
         | |- valueOK _ (VObj (deleteProp _ _)) = true => apply valueOK_deleteProp
         end;
    (apply valueOK_setProp; [exact K2 | reflexivity]).
Qed.

Lemma entryOK_noChannels (k : string) (v : value num) :
  entryOK noChannels k v = valueOK noChannels v.
Proof. destruct v; reflexivity. Qed.

(** *** The records held by value *)

Lemma parseVersion_values (m m' : Model num) st p :
  parseVersion fuel m st = Ok m' p -> valuesOK m -> valuesOK m'.
Proof.
  unfold parseVersion. intros H Hi. crunch.
  match goal with
  | K : parseObject _ _ = Ok _ _ |- _ => apply parseObject_plain in K; destruct K as [K1 K2]
  end.
  destruct (truthy _); [|exact Hi].
  unfold valuesOK in *. simpl. intuition.
  rewrite <- (entryOK_noChannels "FormatVersion"). apply entryOK_getProp. exact K2.
Qed.

Lemma parseModelInfo_values (m m' : Model num) st p :
  parseModelInfo fuel m st = Ok m' p -> valuesOK m -> valuesOK m'.
Proof.
  unfold parseModelInfo. intros H Hi. crunch.
  match goal with
  | K : parseObject _ _ = Ok _ _ |- _ => apply parseObject_plain in K; destruct K as [K1 K2]
  end.
  unfold valuesOK in *. cbn [Info set_Info Materials GeosetAnims ParticleEmitters Cameras
    TextureAnims Sequences Textures Geosets GlobalSequences Version]. intuition.
  apply valueOK_setProp; [exact K2 | apply entryOK_plain; exact K1].
Qed.

(** The loop of a block that collects records in a list. *)
Ltac list_loop tbl entry_track :=
  match goal with
  | K : while_ _ _ _ _ _ = Ok _ _ |- _ =>
      eapply (loop_invariant (fun l => forallb (valueOK tbl) l = true)) in K;
        [ | intros ? ? ? ? ? ?; eapply entry_track; eassumption | reflexivity ]
  end.

Lemma parseSequences_values (m m' : Model num) st p :
  parseSequences fuel m st = Ok m' p -> valuesOK m -> valuesOK m'.
Proof.
  unfold parseSequences. intros H Hi. crunch. list_loop noChannels sequenceEntry_plain.
  unfold valuesOK in *. simpl. intuition.
Qed.

Lemma parseTextures_values (m m' : Model num) st p :
  parseTextures fuel m st = Ok m' p -> valuesOK m -> valuesOK m'.
Proof.
  unfold parseTextures. intros H Hi. crunch. list_loop noChannels textureEntry_plain.
  unfold valuesOK in *. simpl. intuition.
Qed.

Lemma parseMaterials_values (m m' : Model num) st p :
  parseMaterials fuel m st = Ok m' p -> valuesOK m -> valuesOK m'.
Proof.
  unfold parseMaterials. intros H Hi. crunch. list_loop layerChannels materialsEntry_track.
  unfold valuesOK in *. simpl. intuition.
Qed.

Lemma parseTextureAnims_values (m m' : Model num) st p :
  parseTextureAnims fuel m st = Ok m' p -> valuesOK m -> valuesOK m'.
Proof.
  unfold parseTextureAnims. intros H Hi. crunch.
  list_loop transformChannels textureAnimsEntry_track.
  unfold valuesOK in *. simpl. intuition.
Qed.

Lemma parseGeoset_values (m m' : Model num) st p :
  parseGeoset fuel m st = Ok m' p -> valuesOK m -> valuesOK m'.
Proof.
  unfold parseGeoset. intros H Hi. crunch.
  track_loop (@noChannels) geosetEntry_plain; [|reflexivity].
  unfold valuesOK in *. simpl. intuition. apply valueOK_push; assumption.
Qed.

Lemma parseGeosetAnim_values (m m' : Model num) st p :
  parseGeosetAnim fuel E m st = Ok m' p -> valuesOK m -> valuesOK m'.
Proof.
  unfold parseGeosetAnim. intros H Hi. crunch.
  track_loop geosetAnimChannels geosetAnimEntry_track; [|reflexivity].
  unfold valuesOK in *. simpl. intuition. apply valueOK_push; assumption.
Qed.

Lemma parseParticleEmitter_values (m m' : Model num) st p :
  parseParticleEmitter fuel E m st = Ok m' p -> valuesOK m -> valuesOK m'.
Proof.
  unfold parseParticleEmitter. intros H Hi. crunch.
  track_loop particleEmitterChannels particleEmitterEntry_track;
    [|apply valueOK_setProp; [reflexivity | apply entryOK_ofOptStr]].
  unfold valuesOK in *. simpl. intuition. apply valueOK_push; assumption.
Qed.

Lemma parseCamera_values (m m' : Model num) st p :
  parseCamera fuel m st = Ok m' p -> valuesOK m -> valuesOK m'.
Proof.
  unfold parseCamera. intros H Hi. crunch.
  track_loop cameraChannels cameraEntry_track;
    [|apply valueOK_setProp; [reflexivity | apply entryOK_ofOptStr]].
  unfold valuesOK in *. simpl. intuition. apply valueOK_push; assumption.
Qed.

Lemma parseGlobalSequences_values (m m' : Model num) st p :
  parseGlobalSequences fuel m st = Ok m' p -> valuesOK m -> valuesOK m'.
Proof.
  unfold parseGlobalSequences. intros H Hi. crunch.
  match goal with
  | K : while_ _ _ _ _ _ = Ok _ _ |- _ =>
      eapply (loop_invariant
                (fun r : nat * list (value num) =>
                   forallb (valueOK noChannels) (snd r) = true)) in K;
        [ | | reflexivity ]
  end.
  - unfold valuesOK in *. simpl. intuition.
  - intros x stb x' pb Hx Hb. crunch; simpl; [|exact Hx].
    apply valueOK_push; [exact Hx|].
    rewrite <- (entryOK_noChannels ""). apply entryOK_ofOptNum.
Qed.

Lemma parseNode_values (type : string) (m : Model num) st r p :
  parseNode fuel E type m st = Ok r p -> valuesOK m -> valuesOK (snd r).
Proof.
  unfold parseNode. intros H Hi. crunch. simpl. unfold setNode.
  destruct (arrayIndex _); exact Hi.
Qed.

Lemma allocAll_values (vs : list (value num)) (m : Model num) :
  valuesOK m -> valuesOK (fst (allocAll m vs)).
Proof.
  revert m. induction vs as [|v vs IH]; intros m Hi; [exact Hi|].
  destruct v; simpl; apply IH; exact Hi.
Qed.

Lemma parsePivotPoints_values (m m' : Model num) st p :
  parsePivotPoints fuel m st = Ok m' p -> valuesOK m -> valuesOK m'.
Proof.
  unfold parsePivotPoints. intros H Hi. crunch.
  match goal with
  | |- valuesOK (set_PivotPoints (fst (allocAll m ?vs)) _) =>
      exact (allocAll_values vs m Hi)
  end.
Qed.

Lemma handler_values (k : string) (h : Model num -> M (Model num)) m st m' p :
  lookupParser (parsers fuel E) k = Some h ->
  h m st = Ok m' p -> valuesOK m -> valuesOK m'.
Proof.
  intros Hl H Hi. unfold parsers in Hl. cbn [lookupParser] in Hl.
  repeat match type of Hl with
         | (if ?c then _ else _) = Some _ =>
             destruct c eqn:?;
             [injection Hl as <-;
              first [ eapply parseVersion_values; eassumption
                    | eapply parseModelInfo_values; eassumption
                    | eapply parseSequences_values; eassumption
                    | eapply parseTextures_values; eassumption
                    | eapply parseMaterials_values; eassumption
                    | eapply parseGeoset_values; eassumption
                    | eapply parseGeosetAnim_values; eassumption
                    | eapply parsePivotPoints_values; eassumption
                    | eapply parseGlobalSequences_values; eassumption
                    | eapply parseParticleEmitter_values; eassumption
                    | eapply parseCamera_values; eassumption
                    | eapply parseTextureAnims_values; eassumption
                    | unfold parseBone, parseHelper, parseAttachment in H; crunch;
                      match goal with
                      | K : parseNode _ _ _ _ _ = Ok _ _ |- _ =>
                          exact (parseNode_values _ _ _ _ _ K Hi)
                      end
                    | unfold parseEventObject, parseCollisionShape,
                        parseParticleEmitter2, parseLight, parseRibbonEmitter in H;
                      crunch; exact Hi ]
             |]
         end.
  discriminate.
Qed.

Lemma parseBlocks_values (m : Model num) st m' p :
  parseBlocks fuel E m st = Ok m' p -> valuesOK m -> valuesOK m'.
Proof.
  unfold parseBlocks. intros H Hi. bind_inv H. ret_inv H.
  match goal with
  | K : while_ _ _ _ _ _ = Ok _ _ |- _ =>
      eapply (loop_invariant (fun r : bool * Model num => valuesOK (snd r))) in K;
        [exact K | | exact Hi]
  end.
  intros r stb r' pb Hr Hb. apply parseBlock_inv in Hb.
  destruct Hb as [->|(k & h & st' & p' & Hl & Hs' & Hh)]; [exact Hr|].
  eapply handler_values; eauto.
Qed.

Lemma assignPivots_values (n : nat) :
  forall (i : nat) (m m' : Model num),
    assignPivots n i m = Some m' -> valuesOK m -> valuesOK m'.
Proof.
  induction n as [|n IH]; intros i m m' H Hi; simpl in H.
  - injection H as <-. exact Hi.
  - destruct (assignPivot m i) as [m1|] eqn:H1; [|discriminate].
    eapply IH; [exact H|]. unfold assignPivot in H1.
    destruct (truthy _); [|injection H1 as <-; exact Hi].
    destruct (nth i (Nodes m) VUndefined); try discriminate.
    destruct (nth_error (Store m) addr) as [[| | | | | | |o1| |]|]; try discriminate.
    injection H1 as <-. exact Hi.
Qed.

Lemma nodeChannelsOf_node (type : string) :
  In type ["Bone"; "Helper"; "Attachment"] -> nodeChannelsOf type = nodeChannels.
Proof. simpl. intros [<-|[<-|[<-|[]]]]; reflexivity. Qed.

(** C2.  In the scene that [parse] returns, every animated track is the
    value of a key for which the handler of its record declares a channel,
    and every keyframe of the track has a vector whose length is the arity
    of that channel (1, 3 or 4); in a Hermite or Bezier track every
    keyframe has an in-tangent and an out-tangent of that arity, in any
    other track no keyframe has a tangent. *)
Theorem tracks_have_channel_arity (s : string) (m : Model num) (p : nat) :
  parse fuel E s = Ok m p -> sceneTracksOK m.
Proof.
  intros H. split.
  - apply parse_nodes
      with (fuel := fuel) (E := E) (s := list_ascii_of_string s) (s' := s) (p := p);
      try exact H; try reflexivity.
    + intros t o q Ho. apply valueOK_setProp; [exact Ho | reflexivity].
    + intros type name st node p' Ht _ Hw. rewrite (nodeChannelsOf_node type Ht).
      track_loop nodeChannels nodeEntry_track; [eassumption|].
      destruct name; reflexivity.
    + intros name st res p' _ Hw.
      track_loop transformChannels eventObjectEntry_track; [eassumption|].
      destruct name; reflexivity.
    + intros name st res p' _ Hw.
      track_loop transformChannels collisionShapeEntry_track; [eassumption|].
      destruct name; reflexivity.
    + intros name st res p' _ Hw.
      track_loop particleEmitter2Channels particleEmitter2Entry_track; [eassumption|].
      destruct name; reflexivity.
    + intros name st res p' _ Hw.
      track_loop lightChannels lightEntry_track; [eassumption|].
      destruct name; reflexivity.
    + intros name st res p' _ Hw.
      track_loop ribbonEmitterChannels ribbonEmitterEntry_track; [eassumption|].
      destruct name; reflexivity.
  - unfold parse, parseFrom in H. bind_inv H. unfold finalize in H.
    destruct (assignPivots _ 0 a) as [m1|] eqn:Hf; [|discriminate].
    ret_inv H. eapply assignPivots_values; [exact Hf|].
    eapply parseBlocks_values; [eassumption|].
    unfold valuesOK. simpl. intuition.
Qed.

End TrackEntries.

(** C2, a witness: a Hermite track of arity 1 and a linear track of
    arity 3. *)
Lemma tracks_have_channel_arity_witness :
  exists m p, refParse 80 trackInput = Ok m p /\ sceneTracksOK m.
Proof.
  eexists. eexists. split; [vm_compute; reflexivity|].
  eapply (tracks_have_channel_arity 80 refEnums trackInput).
  vm_compute. reflexivity.
Defined.
(** ** The field [PivotPoint] of the nodes without a pivot point *)

Section KeyAbsent.
Variable fuel : nat.

Lemma requireKeyword_key_absent (st : State) (k K : string) (p : nat) :
  keyOccursb (list_ascii_of_string K) (str st) = false ->
  requireKeyword fuel st = Ok k p -> (k == K) = false.
Proof.
  unfold requireKeyword. intros Hm H. bind_inv H.
  destruct a as [k'|]; [|discriminate]. ret_inv H.
  eapply parseKeyword_key_absent; eauto.
Qed.

Lemma parseStaticKeyword_key_absent (st : State) (ks : option string * bool)
    (K : string) (p : nat) :
  keyOccursb (list_ascii_of_string K) (str st) = false -> ("null" == K) = false ->
  parseStaticKeyword fuel st = Ok ks p -> (keyOf (fst ks) == K) = false.
Proof.
  unfold parseStaticKeyword. intros Hm Hn H. bind_inv H.
  destruct a as [k|]; [|discriminate].
  destruct (k == "static").
  - bind_inv H. ret_inv H. destruct a as [k'|]; simpl; [|exact Hn].
    eapply parseKeyword_key_absent; [|exact H1]. exact Hm.
  - ret_inv H. simpl. eapply parseKeyword_key_absent; eauto.
Qed.

End KeyAbsent.

(** A source in which the key [PivotPoint] does not occur leaves the
    field as the handlers created it. *)
Section PivotField.
Context {num : Type} {JN : JSNumber num}.
Variable fuel : nat.
Variable E : Enums.
Variable s : list ascii.
Hypothesis Hno : keyOccursb (list_ascii_of_string "PivotPoint") s = false.

Lemma noPivot_setProp (o : obj num) (k : string) (v : value num) :
  (k == "PivotPoint") = false -> noPivot o -> noPivot (setProp o k v).
Proof. intros Hk H. unfold noPivot. rewrite getProp_setProp_other; assumption. Qed.

Lemma noPivot_orFlag (o : obj num) (k : string) (v : Z) :
  (k == "PivotPoint") = false -> noPivot o -> noPivot (orFlag o k v).
Proof. intros Hk H. unfold orFlag. apply noPivot_setProp; assumption. Qed.

Lemma parseDontInherit_noPivot (res res' : obj num) st p :
  noPivot res -> parseDontInherit fuel E res st = Ok res' p -> noPivot res'.
Proof.
  unfold parseDontInherit. intros Hi H. unbind H. ret_inv H.
  repeat match goal with |- context [if ?c then _ else _] => destruct c end;
    try assumption; apply noPivot_orFlag; auto.
Qed.

Ltac pivot_step Hs :=
  try assumption;
  first
    [ eapply parseDontInherit_noPivot; eassumption
    | apply noPivot_orFlag; [reflexivity | assumption]
    | apply noPivot_setProp; [|assumption];
      first
        [ reflexivity
        | eapply requireKeyword_key_absent; [|eassumption]; simpl; rewrite Hs; exact Hno
        | eapply parseStaticKeyword_key_absent; [| |eassumption];
          [simpl; rewrite Hs; exact Hno | reflexivity] ] ].

Lemma nodeEntry_noPivot (node node' : obj num) st p :
  str st = s -> noPivot node -> nodeEntry fuel E node st = Ok node' p -> noPivot node'.
Proof. unfold nodeEntry. intros Hs Hi H. crunch; pivot_step Hs. Qed.

Lemma eventObjectEntry_noPivot (res res' : obj num) st p :
  str st = s -> noPivot res -> eventObjectEntry fuel res st = Ok res' p -> noPivot res'.
Proof. unfold eventObjectEntry. intros Hs Hi H. crunch; pivot_step Hs. Qed.

Lemma collisionShapeEntry_noPivot (res res' : obj num) st p :
  str st = s -> noPivot res -> collisionShapeEntry fuel res st = Ok res' p -> noPivot res'.
Proof. unfold collisionShapeEntry. intros Hs Hi H. crunch; pivot_step Hs. Qed.

Lemma particleEmitter2Entry_noPivot (res res' : obj num) st p :
  str st = s -> noPivot res -> particleEmitter2Entry fuel E res st = Ok res' p ->
  noPivot res'.
Proof. unfold particleEmitter2Entry. intros Hs Hi H. crunch; pivot_step Hs. Qed.

Lemma lightEntry_noPivot (res res' : obj num) st p :
  str st = s -> noPivot res -> lightEntry fuel E res st = Ok res' p -> noPivot res'.
Proof. unfold lightEntry. intros Hs Hi H. crunch; pivot_step Hs. Qed.

Lemma ribbonEmitterEntry_noPivot (res res' : obj num) st p :
  str st = s -> noPivot res -> ribbonEmitterEntry fuel res st = Ok res' p -> noPivot res'.
Proof. unfold ribbonEmitterEntry. intros Hs Hi H. crunch; pivot_step Hs. Qed.

End PivotField.

(** Every node that [Nodes] holds is in a bucket. *)
Section Listed.
Context {num : Type} {JN : JSNumber num}.
Variable fuel : nat.
Variable E : Enums.

Lemma nodesListed_step (m m' : Model num) (v : value num) :
  nodesListed m ->
  (forall x, In x (nodeBuckets m) -> In x (nodeBuckets m')) ->
  In v (nodeBuckets m') ->
  (Nodes m' = Nodes m \/ Nodes m' = push (Nodes m) v \/
   exists i, Nodes m' = arraySet (Nodes m) i v) ->
  nodesListed m'.
Proof.
  intros Hi Hmono Hv HN j a Hj. destruct HN as [HN|[HN|[i HN]]]; rewrite HN in Hj.
  - apply Hmono. eapply Hi. exact Hj.
  - apply nth_error_push_inv in Hj. destruct Hj as [Hj|[_ <-]]; [|exact Hv].
    apply Hmono. eapply Hi. exact Hj.
  - apply nth_error_arraySet_inv in Hj.
    destruct Hj as [[_ <-]|[_ [Hj|Hj]]]; [exact Hv | | discriminate].
    apply Hmono. eapply Hi. exact Hj.
Qed.

Ltac own_list_listed H :=
  unbind H; ret_inv H;
  try match goal with |- context [if ?c then _ else _] => destruct c end;
  assumption.

Lemma own_list_listed (k : string) (h : Model num -> M (Model num)) m st m' p :
  In (k, h)
    [("Version", parseVersion fuel); ("Model", parseModelInfo fuel);
     ("Sequences", parseSequences fuel); ("Textures", parseTextures fuel);
     ("Materials", parseMaterials fuel); ("Geoset", parseGeoset fuel);
     ("GeosetAnim", parseGeosetAnim fuel E);
     ("GlobalSequences", parseGlobalSequences fuel);
     ("ParticleEmitter", parseParticleEmitter fuel E);
     ("Camera", parseCamera fuel); ("TextureAnims", parseTextureAnims fuel)] ->
  h m st = Ok m' p -> nodesListed m -> nodesListed m'.
Proof.
  intros Hin H Hi. simpl in Hin.
  repeat (destruct Hin as [Hin|Hin]; [injection Hin as <- <- |]); [..|contradiction].
  - unfold parseVersion in H. own_list_listed H.
  - unfold parseModelInfo in H. own_list_listed H.
  - unfold parseSequences in H. own_list_listed H.
  - unfold parseTextures in H. own_list_listed H.
  - unfold parseMaterials in H. own_list_listed H.
  - unfold parseGeoset in H. own_list_listed H.
  - unfold parseGeosetAnim in H. own_list_listed H.
  - unfold parseGlobalSequences in H. own_list_listed H.
  - unfold parseParticleEmitter in H. own_list_listed H.
  - unfold parseCamera in H. own_list_listed H.
  - unfold parseTextureAnims in H. own_list_listed H.
Qed.

Lemma parsePivotPoints_listed m st m' p :
  parsePivotPoints fuel m st = Ok m' p -> nodesListed m -> nodesListed m'.
Proof.
  unfold parsePivotPoints. intros H Hi. unbind H. ret_inv H.
  match goal with
  | |- context [allocAll m ?vs] =>
      destruct (allocAll_frame vs m) as (new & _ & B1 & B2 & B3 & B4 & B5 & B6 & B7 & B8);
      destruct (allocAll_spec vs m) as (HN & _)
  end.
  unfold nodesListed, nodeBuckets in *. simpl.
  rewrite HN, B1, B2, B3, B4, B5, B6, B7, B8. exact Hi.
Qed.

Ltac bucket_mono :=
  unfold nodeBuckets, push; simpl; intros;
  repeat rewrite in_app_iff in *; simpl; tauto.

Lemma node_handlers_listed (m : Model num) st m' p :
  nodesListed m ->
  (parseBone fuel E m st = Ok m' p -> nodesListed m') /\
  (parseHelper fuel E m st = Ok m' p -> nodesListed m') /\
  (parseAttachment fuel E m st = Ok m' p -> nodesListed m').
Proof.
  intros Hi. unfold parseBone, parseHelper, parseAttachment.
  (split; [|split]); intros H; bind_inv H; ret_inv H;
    apply parseNode_inv in H0; destruct H0 as (node & Hr & Hm);
    (apply nodesListed_step with (m := m) (v := fst a); [exact Hi | | |]);
    rewrite Hm, Hr; unfold setNode, alloc; destruct (arrayIndex _); simpl;
    try bucket_mono; eauto.
Qed.

Ltac appended_listed H Hi :=
  unbind H; ret_inv H;
  match goal with
  | |- context [registerNode ?m ?res] =>
      apply nodesListed_step with (m := m) (v := snd (registerNode m res));
      [exact Hi | | |]
  end; unfold registerNode, alloc; simpl; try bucket_mono; auto.

Lemma parseEventObject_listed m st m' p :
  parseEventObject fuel E m st = Ok m' p -> nodesListed m -> nodesListed m'.
Proof. unfold parseEventObject. intros H Hi. appended_listed H Hi. Qed.

Lemma parseCollisionShape_listed m st m' p :
  parseCollisionShape fuel E m st = Ok m' p -> nodesListed m -> nodesListed m'.
Proof. unfold parseCollisionShape. intros H Hi. appended_listed H Hi. Qed.

Lemma parseParticleEmitter2_listed m st m' p :
  parseParticleEmitter2 fuel E m st = Ok m' p -> nodesListed m -> nodesListed m'.
Proof. unfold parseParticleEmitter2. intros H Hi. appended_listed H Hi. Qed.

Lemma parseLight_listed m st m' p :
  parseLight fuel E m st = Ok m' p -> nodesListed m -> nodesListed m'.
Proof. unfold parseLight. intros H Hi. appended_listed H Hi. Qed.

Lemma parseRibbonEmitter_listed m st m' p :
  parseRibbonEmitter fuel E m st = Ok m' p -> nodesListed m -> nodesListed m'.
Proof. unfold parseRibbonEmitter. intros H Hi. appended_listed H Hi. Qed.

Lemma handler_listed (k : string) (h : Model num -> M (Model num)) m st m' p :
  lookupParser (parsers fuel E) k = Some h ->
  h m st = Ok m' p -> nodesListed m -> nodesListed m'.
Proof.
  intros Hl H Hi. unfold parsers in Hl. cbn [lookupParser] in Hl.
  repeat match type of Hl with
         | (if ?c then _ else _) = Some _ =>
             destruct c eqn:?;
             [injection Hl as <-;
              first [ eapply own_list_listed; [|exact H|exact Hi]; simpl; tauto
                    | eapply parsePivotPoints_listed; eassumption
                    | eapply (proj1 (node_handlers_listed m st m' p Hi)); exact H
                    | eapply (proj1 (proj2 (node_handlers_listed m st m' p Hi))); exact H
                    | eapply (proj2 (proj2 (node_handlers_listed m st m' p Hi))); exact H
                    | eapply parseEventObject_listed; eassumption
                    | eapply parseCollisionShape_listed; eassumption
                    | eapply parseParticleEmitter2_listed; eassumption
                    | eapply parseLight_listed; eassumption
                    | eapply parseRibbonEmitter_listed; eassumption ]
             |]
         end.
  discriminate.
Qed.

Lemma parseBlocks_listed (m : Model num) st m' p :
  parseBlocks fuel E m st = Ok m' p -> nodesListed m -> nodesListed m'.
Proof.
  unfold parseBlocks. intros H Hi. bind_inv H. ret_inv H.
  eapply (while_invariant (fun r : bool * Model num => nodesListed (snd r))) in H0;
    [exact H0 | | reflexivity | exact Hi].
  intros r st1 p1 r' p2 _ Hr _ Hb. apply parseBlock_inv in Hb.
  destruct Hb as [->|(k & h & st' & p' & Hl & _ & Hh)]; [exact Hr|].
  eapply handler_listed; eauto.
Qed.

Lemma nodesListed_initial : nodesListed (@initialModel num JN).
Proof. intros [|i] a H; discriminate. Qed.

End Listed.

Section PivotTheorem.
Context {num : Type} {JN : JSNumber num}.
Variable fuel : nat.
Variable E : Enums.

Lemma in_nodeBuckets (P : string -> obj num -> Prop) (m : Model num) (v : value num) :
  nodesSatisfy P m -> In v (nodeBuckets m) ->
  exists t o, deref m v = Some o /\ P t o.
Proof.
  intros (I1 & I2 & I3 & I4 & I5 & I6 & I7 & I8) H. unfold nodeBuckets in H.
  unfold bucketSatisfies in *. rewrite Forall_forall in *.
  repeat rewrite in_app_iff in H.
  repeat destruct H as [H|H];
    match goal with I : forall x, In x ?l -> _, H : In _ ?l |- _ =>
      destruct (I _ H) as (o & Ho & HP); eauto end.
Qed.

Lemma parseBlocks_noPivot (s : string) (m0 : Model num) (p : nat) :
  keyOccurs "PivotPoint" s = false ->
  parseBlocks fuel E initialModel (mkState (list_ascii_of_string s) 0) = Ok m0 p ->
  nodesSatisfy (fun _ => noPivot) m0.
Proof.
  intros Hno H.
  eapply parseBlocks_nodes
    with (s := list_ascii_of_string s) (st := mkState (list_ascii_of_string s) 0);
    [ .. | reflexivity | exact H | apply nodesSatisfy_initial].
  - intros type name st node p' Ht Hs Hw.
    eapply (while_invariant noPivot) in Hw; [exact Hw | | exact Hs | reflexivity].
    intros a st1 p1 a' p2 Hs1 Ha _ Hb.
    eapply nodeEntry_noPivot with (s := list_ascii_of_string s) (st := at_ st1 p1);
      first [exact Hno | exact Hs1 | exact Ha | exact Hb].
  - intros name st res p' Hs Hw.
    eapply (while_invariant noPivot) in Hw; [exact Hw | | exact Hs | reflexivity].
    intros a st1 p1 a' p2 Hs1 Ha _ Hb.
    eapply eventObjectEntry_noPivot with (s := list_ascii_of_string s) (st := at_ st1 p1);
      first [exact Hno | exact Hs1 | exact Ha | exact Hb].
  - intros name st res p' Hs Hw.
    eapply (while_invariant noPivot) in Hw; [exact Hw | | exact Hs | reflexivity].
    intros a st1 p1 a' p2 Hs1 Ha _ Hb.
    eapply collisionShapeEntry_noPivot with (s := list_ascii_of_string s) (st := at_ st1 p1);
      first [exact Hno | exact Hs1 | exact Ha | exact Hb].
  - intros name st res p' Hs Hw.
    eapply (while_invariant noPivot) in Hw; [exact Hw | | exact Hs | reflexivity].
    intros a st1 p1 a' p2 Hs1 Ha _ Hb.
    eapply particleEmitter2Entry_noPivot with (s := list_ascii_of_string s) (st := at_ st1 p1);
      first [exact Hno | exact Hs1 | exact Ha | exact Hb].
  - intros name st res p' Hs Hw.
    eapply (while_invariant noPivot) in Hw; [exact Hw | | exact Hs | reflexivity].
    intros a st1 p1 a' p2 Hs1 Ha _ Hb.
    eapply lightEntry_noPivot with (s := list_ascii_of_string s) (st := at_ st1 p1);
      first [exact Hno | exact Hs1 | exact Ha | exact Hb].
  - intros name st res p' Hs Hw.
    eapply (while_invariant noPivot) in Hw; [exact Hw | | exact Hs | reflexivity].
    intros a st1 p1 a' p2 Hs1 Ha _ Hb.
    eapply ribbonEmitterEntry_noPivot with (s := list_ascii_of_string s) (st := at_ st1 p1);
      first [exact Hno | exact Hs1 | exact Ha | exact Hb].
Qed.

(** C5 (as amended).  In the scene that [parse] returns, every index of
    [Nodes] whose entry of [PivotPoints] is defined holds a node whose
    [PivotPoint] is that very reference, and the node at an index without
    a defined entry is as the top-level loop left it ([pivotsAssigned]);
    when the key [PivotPoint] does not occur in the source, the
    [PivotPoint] of such a node is [null]. *)
Theorem pivots_assigned_by_reference (s : string) (m : Model num) (p : nat) :
  parse fuel E s = Ok m p ->
  pivotsAssigned fuel E s m p /\
  (keyOccurs "PivotPoint" s = false -> pivotsUnset m).
Proof.
  intros H. pose proof (parse_pivotsAssigned fuel E s m p H) as Hpa.
  split; [exact Hpa|]. intros Hno i o Hi Ht Ho.
  destruct Hpa as (m0 & H0 & HN & HP & Hall).
  destruct (Hall i Hi) as [_ Hkeep]. rewrite (Hkeep Ht) in Ho.
  pose proof (parseBlocks_listed _ _ _ _ _ _ H0 nodesListed_initial) as Hl.
  pose proof (parseBlocks_noPivot s m0 p Hno H0) as Hs.
  unfold nodeAt in Ho. rewrite HN in Hi.
  destruct (nth i (Nodes m0) VUndefined) eqn:Hn; simpl in Ho; try discriminate.
  assert (Hne : nth_error (Nodes m0) i = Some (VRef addr)).
  { rewrite <- Hn. apply nth_error_nth'. exact Hi. }
  apply Hl in Hne. destruct (in_nodeBuckets _ _ _ Hs Hne) as (t & o' & Ho' & HQ).
  simpl in Ho'. rewrite Ho in Ho'. injection Ho' as <-. exact HQ.
Qed.

End PivotTheorem.

(** C5, a witness: two lights and one pivot point; the first light
    refers to it and the [PivotPoint] of the second is [null]. *)
Lemma pivots_assigned_by_reference_witness :
  exists m p, refParse 80 twoLightsInput = Ok m p /\
              pivotsAssigned 80 refEnums twoLightsInput m p /\ pivotsUnset m.
Proof.
  eexists. eexists. split; [vm_compute; reflexivity|].
  refine ((fun H => conj (proj1 H) (proj2 H _))
            (pivots_assigned_by_reference 80 refEnums twoLightsInput _ _ _));
    vm_compute; reflexivity.
Defined.

(** C5, the claim as stated fails: a key [PivotPoint] in a node block is
    stored like any other loose key, and the light of this scene, which
    has no entry in [PivotPoints], has [PivotPoint] 5. *)
Lemma pivot_key_sets_PivotPoint :
  exists m p, refParse 40 pivotKeyInput = Ok m p /\ ~ pivotsUnset m.
Proof.
  eexists. eexists. split; [vm_compute; reflexivity|].
  intros H. specialize (H 0). vm_compute in H.
  specialize (H _ (le_n 1) eq_refl eq_refl). discriminate.
Qed.

(** ** The driver *)

(** The left-hand side is replaced by its value. *)
Ltac evaluate :=
  lazymatch goal with
  | |- ?l = _ => let r := eval vm_compute in l in
                 transitivity r; [vm_compute; reflexivity | reflexivity]
  end.

(** C7, the code departs from the claim.  [toString] is none of the
    twenty keywords of [parsers], yet [keyword in parsers] finds it on the
    prototype of the table: the driver calls it instead of
    [parseUnknownBlock], the block is not skipped, and the driver stops at
    its brace.  The [Version] block that follows is never read: the scene
    keeps the default version 800, where the input without the unknown
    block gives 900. *)
Theorem inherited_keyword_block_not_skipped (n : nat) (E : Enums) :
  (exists m p, parse (40 + n) E inheritedKeywordInput = Ok m p /\
               Version m = VNum (DecNum.ofZ 800) /\ p = 9) /\
  (exists m p, parse (40 + n) E versionInput = Ok m p /\
               Version m = VNum (DecNum.ofZ 900) /\ p = 30).
Proof.
  split; eexists; eexists; (split; [evaluate | split; reflexivity]).
Qed.

(** ** Running the parser on a given text *)

Lemma returns_ret {A} (a : A) (l : list ascii) : returns (ret a) l a l.
Proof. intros st Hl. exists (pos st). rewrite at_pos. auto. Qed.

Lemma returns_bind {A B} (m : M A) (k : A -> M B) l a l1 b l2 :
  returns m l a l1 -> returns (k a) l1 b l2 -> returns (bind m k) l b l2.
Proof.
  intros Hm Hk st Hl. destruct (Hm st Hl) as (p & Hp & Hr).
  destruct (Hk _ Hr) as (q & Hq & Hr'). exists q.
  rewrite (bind_Ok_eq _ _ _ _ _ Hp). auto.
Qed.

Lemma raises_bind {A B} (m : M A) (k : A -> M B) l a l1 e :
  returns m l a l1 -> raises (k a) l1 e -> raises (bind m k) l e.
Proof.
  intros Hm Hk st Hl. destruct (Hm st Hl) as (p & Hp & Hr).
  rewrite (bind_Ok_eq _ _ _ _ _ Hp). apply Hk. exact Hr.
Qed.

Lemma raises_bind_l {A B} (m : M A) (k : A -> M B) l e :
  raises m l e -> raises (bind m k) l e.
Proof. intros Hm st Hl. apply bind_Throw. apply Hm. exact Hl. Qed.

Lemma raises_throw {A} (e : error) (l : list ascii) : raises (@throw A e) l e.
Proof. intros st _. reflexivity. Qed.

Lemma returns_peek (l : list ascii) : returns peek l (hd_error l) l.
Proof.
  intros st Hl. exists (pos st). unfold peek. rewrite char_rest, Hl, at_pos. auto.
Qed.

Lemma returns_peekAt (k : nat) (l : list ascii) : returns (peekAt k) l (nth_error l k) l.
Proof.
  intros st Hl. exists (pos st). unfold peekAt. rewrite at_pos. split; [|exact Hl].
  f_equal. rewrite <- Hl. unfold rest. rewrite nth_error_skipn. reflexivity.
Qed.

Lemma returns_advanceBy (k : nat) (l : list ascii) : returns (advanceBy k) l tt (skipn k l).
Proof.
  intros st Hl. exists (pos st + k). split; [reflexivity|]. rewrite rest_at, Hl. reflexivity.
Qed.

Lemma returns_advance (l : list ascii) : returns advance l tt (tl l).
Proof.
  intros st Hl. exists (pos st + 1). split; [reflexivity|]. rewrite rest_at_S, Hl. reflexivity.
Qed.

Lemma returns_inBounds (l : list ascii) :
  returns inBounds l (match l with [] => false | _ => true end) l.
Proof.
  intros st Hl. exists (pos st). unfold inBounds. rewrite at_pos. split; [|exact Hl].
  f_equal. unfold rest in Hl. destruct l.
  - apply Nat.ltb_ge. destruct (Nat.le_gt_cases (List.length (str st)) (pos st)) as [H|H];
      [exact H|].
    assert (Hn : List.length (skipn (pos st) (str st)) = 0) by (rewrite Hl; reflexivity).
    rewrite length_skipn in Hn. lia.
  - apply Nat.ltb_lt.
    assert (Hn : List.length (skipn (pos st) (str st)) = S (List.length l))
      by (rewrite Hl; reflexivity).
    rewrite length_skipn in Hn. lia.
Qed.

Lemma returns_charIs (a : ascii) (l : list ascii) :
  returns (charIs a) l (is_char (hd_error l) a) l.
Proof. unfold charIs. eapply returns_bind; [apply returns_peek | apply returns_ret]. Qed.

Lemma returns_charIsNot (a : ascii) (l : list ascii) :
  returns (charIsNot a) l (negb (is_char (hd_error l) a)) l.
Proof. unfold charIsNot. eapply returns_bind; [apply returns_peek | apply returns_ret]. Qed.

Lemma returns_while_stop {A} (fuel : nat) (cond : A -> M bool) (body : A -> M A) a l l' :
  0 < fuel -> returns (cond a) l false l' -> returns (while_ fuel cond body a) l a l'.
Proof.
  intros Hf Hc st Hl. destruct fuel; [lia|]. destruct (Hc st Hl) as (p & Hp & Hr).
  exists p. rewrite while_S, Hp. auto.
Qed.

Lemma returns_while_step {A} (fuel : nat) (cond : A -> M bool) (body : A -> M A)
    a l l1 a' l2 v l3 :
  0 < fuel -> returns (cond a) l true l1 -> returns (body a) l1 a' l2 ->
  returns (while_ (fuel - 1) cond body a') l2 v l3 ->
  returns (while_ fuel cond body a) l v l3.
Proof.
  intros Hf Hc Hb Hw st Hl. destruct fuel; [lia|]. simpl in Hw. rewrite Nat.sub_0_r in Hw.
  destruct (Hc st Hl) as (p & Hp & Hr). destruct (Hb _ Hr) as (q & Hq & Hr').
  destruct (Hw _ Hr') as (q' & Hq' & Hr''). exists q'.
  rewrite while_S, Hp, Hq. auto.
Qed.

Lemma raises_while_body {A} (fuel : nat) (cond : A -> M bool) (body : A -> M A)
    a l l1 e :
  0 < fuel -> returns (cond a) l true l1 -> raises (body a) l1 e ->
  raises (while_ fuel cond body a) l e.
Proof.
  intros Hf Hc Hb st Hl. destruct fuel; [lia|].
  destruct (Hc st Hl) as (p & Hp & Hr). rewrite while_S, Hp, (Hb _ Hr). reflexivity.
Qed.

Lemma raises_while_step {A} (fuel : nat) (cond : A -> M bool) (body : A -> M A)
    a l l1 a' l2 e :
  0 < fuel -> returns (cond a) l true l1 -> returns (body a) l1 a' l2 ->
  raises (while_ (fuel - 1) cond body a') l2 e ->
  raises (while_ fuel cond body a) l e.
Proof.
  intros Hf Hc Hb Hw st Hl. destruct fuel; [lia|]. simpl in Hw. rewrite Nat.sub_0_r in Hw.
  destruct (Hc st Hl) as (p & Hp & Hr). destruct (Hb _ Hr) as (q & Hq & Hr').
  rewrite while_S, Hp, Hq. apply Hw. exact Hr'.
Qed.

(** A scanning loop over the characters of a class: it stops at the
    first character outside the class, or at the end of the input when
    the test fails on [undefined]. *)
Lemma scan_pos (f : ascii -> bool) (cls : option ascii -> bool) (fuel : nat) :
  (forall c, cls (Some c) = f c) ->
  forall st, span f (rest st) < List.length (rest st) \/ cls None = false ->
    span f (rest st) < fuel ->
    while_ fuel (fun _ => c <- peek ;; ret (cls c)) (fun _ => advance) tt st
    = Ok tt (pos st + span f (rest st)).
Proof.
  intros Hf. induction fuel as [|fuel IH]; intros st Hend Hlt; [lia|].
  rewrite while_S. unfold bind at 1, peek, ret. cbn [pos at_].
  rewrite char_rest. pose proof (rest_at_S st) as Hr.
  destruct (rest st) as [|c r]; cbn [span hd_error tl List.length] in *.
  - destruct Hend as [Hend| ->]; [lia|]. f_equal. lia.
  - rewrite Hf. destruct (f c) eqn:Hc.
    + unfold advance at 1, advanceBy. cbn [pos at_].
      transitivity (@Ok unit tt (pos (at_ st (pos st + 1))
                         + span f (rest (at_ st (pos st + 1)))));
        [apply IH; rewrite Hr; [|lia] | rewrite Hr; cbn [pos at_]; f_equal; lia].
      destruct Hend as [Hend|Hend]; [left; lia | right; exact Hend].
    + f_equal. lia.
Qed.

Lemma returns_scan (f : ascii -> bool) (cls : option ascii -> bool) (fuel : nat)
    (l : list ascii) :
  (forall c, cls (Some c) = f c) ->
  span f l < List.length l \/ cls None = false -> span f l < fuel ->
  returns (while_ fuel (fun _ => c <- peek ;; ret (cls c)) (fun _ => advance) tt)
    l tt (skipn (span f l) l).
Proof.
  intros Hf Hend Hlt st Hl. exists (pos st + span f l). rewrite rest_at, Hl.
  split; [|reflexivity]. rewrite <- Hl in *. apply scan_pos; assumption.
Qed.

Lemma returns_parseSpace (fuel : nat) (l : list ascii) :
  span isSpace l < fuel -> returns (parseSpace fuel) l tt (skipSpace l).
Proof.
  intros H. unfold parseSpace, skipSpace. apply returns_scan; auto.
Qed.

Lemma returns_parseSymbol (fuel : nat) (c : ascii) (l : list ascii) :
  span isSpace l < fuel -> returns (parseSymbol fuel c) (c :: l) tt (skipSpace l).
Proof.
  intros H. unfold parseSymbol.
  eapply returns_bind; [apply returns_charIs|]. cbn [hd_error is_char].
  rewrite Ascii.eqb_refl.
  eapply returns_bind; [apply returns_advance | apply returns_parseSpace; exact H].
Qed.

Lemma returns_parseSymbol_miss (fuel : nat) (c : ascii) (l : list ascii) :
  is_char (hd_error l) c = false -> returns (parseSymbol fuel c) l tt l.
Proof.
  intros H. unfold parseSymbol.
  eapply returns_bind; [apply returns_charIs|]. rewrite H. apply returns_ret.
Qed.

Lemma returns_strictParseSymbol (fuel : nat) (c : ascii) (l : list ascii) :
  span isSpace l < fuel -> returns (strictParseSymbol fuel c) (c :: l) tt (skipSpace l).
Proof.
  intros H. unfold strictParseSymbol.
  eapply returns_bind; [apply returns_charIsNot|]. cbn [hd_error is_char].
  rewrite Ascii.eqb_refl. cbn [negb].
  eapply returns_bind; [apply returns_ret|].
  eapply returns_bind; [apply returns_advance | apply returns_parseSpace; exact H].
Qed.

(** The loop of [parseKeyword] on letters and digits that are followed
    by another character. *)
Lemma keyword_loop_run (cnt : nat) :
  forall (l : list ascii) (kw0 : string),
    span isAlnum l < List.length l -> span isAlnum l < cnt ->
    returns
      (while_ cnt (fun _ => c' <- peek ;; ret (keywordOtherCharRE c'))
         (fun keyword => c' <- peek ;; advance ;;; ret (keyword ++ charText c')) kw0)
      l (kw0 ++ string_of_list_ascii (firstn (span isAlnum l) l))
      (skipn (span isAlnum l) l).
Proof.
  induction cnt as [|cnt IH]; intros l kw0 Hend Hlt; [lia|].
  destruct l as [|c l]; cbn [span List.length] in *; [lia|].
  assert (Ha : keywordOtherCharRE (Some c) = isAlnum c) by reflexivity.
  destruct (isAlnum c) eqn:Hc; cbn [firstn skipn].
  - eapply returns_while_step; [lia | | |].
    + eapply returns_bind; [apply returns_peek|]. cbn [hd_error].
      rewrite Ha. apply returns_ret.
    + eapply returns_bind; [apply returns_peek|].
      eapply returns_bind; [apply returns_advance | apply returns_ret].
    + cbn [tl hd_error charText string_of_list_ascii].
      replace (S cnt - 1) with cnt by lia.
      rewrite <- (append_assoc_char kw0 c
                    (string_of_list_ascii (firstn (span isAlnum l) l))).
      apply IH; lia.
  - cbn [string_of_list_ascii]. rewrite append_empty_r. apply returns_while_stop; [lia|].
    eapply returns_bind; [apply returns_peek|]. cbn [hd_error].
    rewrite Ha. apply returns_ret.
Qed.

Lemma returns_parseKeyword (fuel : nat) (c : ascii) (l : list ascii) :
  isLetter c = true ->
  span isAlnum l < List.length l -> span isAlnum l < fuel ->
  span isSpace (skipn (span isAlnum l) l) < fuel ->
  returns (parseKeyword fuel) (c :: l)
    (Some (String c (string_of_list_ascii (firstn (span isAlnum l) l))))
    (skipSpace (skipn (span isAlnum l) l)).
Proof.
  intros Hc Hend Hlt Hsp. unfold parseKeyword.
  eapply returns_bind; [apply returns_peek|]. cbn [hd_error keywordFirstCharRE].
  rewrite Hc. cbn [negb].
  eapply returns_bind; [apply returns_advance|]. cbn [tl].
  eapply returns_bind; [apply keyword_loop_run; assumption|].
  eapply returns_bind; [apply returns_parseSpace; exact Hsp|].
  apply returns_ret.
Qed.

Lemma returns_parseKeyword_none (fuel : nat) (c : ascii) (l : list ascii) :
  isLetter c = false -> returns (parseKeyword fuel) (c :: l) None (c :: l).
Proof.
  intros Hc. unfold parseKeyword.
  eapply returns_bind; [apply returns_peek|]. cbn [hd_error keywordFirstCharRE].
  rewrite Hc. apply returns_ret.
Qed.

Lemma substring_rest (st : State) (p k : nat) :
  substring (at_ st p) (pos st) (pos st + k) = string_of_list_ascii (firstn k (rest st)).
Proof. unfold substring, rest. cbn [str at_]. do 2 f_equal. lia. Qed.

Lemma returns_parseNumber {num} {JN : JSNumber num} (fuel : nat) (c : ascii)
    (l : list ascii) :
  numberFirstCharRE (Some c) = true ->
  span isNumberChar l < List.length l -> span isNumberChar l < fuel ->
  span isSpace (skipn (span isNumberChar l) l) < fuel ->
  returns (parseNumber fuel) (c :: l)
    (Some (parseFloat (String c (string_of_list_ascii (firstn (span isNumberChar l) l)))))
    (skipSpace (skipn (span isNumberChar l) l)).
Proof.
  intros Hc Hend Hlt Hsp st Hl. unfold parseNumber.
  rewrite (bind_Ok_eq _ _ st (Some c) (pos st)) by (unfold peek; rewrite char_rest, Hl; reflexivity).
  rewrite Hc, at_pos.
  rewrite (bind_Ok_eq _ _ st (pos st) (pos st)) by reflexivity. rewrite at_pos.
  rewrite (bind_Ok_eq _ _ st tt (pos st + 1)) by reflexivity.
  assert (Hr : rest (at_ st (pos st + 1)) = l) by (rewrite rest_at_S, Hl; reflexivity).
  pose proof (scan_pos isNumberChar numberOtherCharRE fuel (fun _ => eq_refl)
                (at_ st (pos st + 1))) as Hscan.
  rewrite Hr in Hscan. cbn [pos at_] in Hscan.
  rewrite (bind_Ok_eq _ _ _ tt (pos st + 1 + span isNumberChar l))
    by (apply Hscan; [left; exact Hend | exact Hlt]).
  rewrite at_at.
  rewrite (bind_Ok_eq _ _ _ (pos st + 1 + span isNumberChar l)
             (pos st + 1 + span isNumberChar l)) by reflexivity.
  rewrite at_at. unfold getSubstring at 1.
  rewrite (bind_Ok_eq _ _ _ (string_of_list_ascii (firstn (1 + span isNumberChar l) (rest st)))
             (pos st + 1 + span isNumberChar l)).
  2:{ f_equal. rewrite <- Nat.add_assoc. apply substring_rest. }
  rewrite at_at.
  assert (Hr2 : rest (at_ st (pos st + 1 + span isNumberChar l))
                = skipn (span isNumberChar l) l).
  { rewrite <- Nat.add_assoc, rest_at, Hl. reflexivity. }
  destruct (returns_parseSpace fuel _ Hsp _ Hr2) as (q & Hq & Hr3).
  rewrite (bind_Ok_eq _ _ _ _ _ Hq), at_at. exists q. unfold ret. cbn [pos at_].
  rewrite Hl. cbn [firstn Nat.add string_of_list_ascii]. split; [reflexivity|].
  rewrite at_at in Hr3. exact Hr3.
Qed.

Lemma returns_parseNumber_none {num} {JN : JSNumber num} (fuel : nat) (l : list ascii) :
  numberFirstCharRE (hd_error l) = false ->
  returns (parseNumber fuel) l None l.
Proof.
  intros Hc. unfold parseNumber.
  eapply returns_bind; [apply returns_peek|]. rewrite Hc. apply returns_ret.
Qed.

Lemma returns_parseString (fuel : nat) (l : list ascii) :
  span notQuote l < List.length l -> span notQuote l < fuel ->
  span isSpace (skipn (S (span notQuote l)) l) < fuel ->
  returns (parseString fuel) (dquote :: l)
    (Some (string_of_list_ascii (firstn (span notQuote l) l)))
    (skipSpace (skipn (S (span notQuote l)) l)).
Proof.
  intros Hend Hlt Hsp st Hl. unfold parseString.
  rewrite (bind_Ok_eq _ _ st true (pos st)).
  2:{ unfold charIs, bind, peek, ret. rewrite char_rest, Hl. reflexivity. }
  rewrite at_pos.
  rewrite (bind_Ok_eq _ _ st tt (pos st + 1)) by reflexivity.
  rewrite (bind_Ok_eq _ _ _ (pos st + 1) (pos st + 1)) by reflexivity. rewrite at_at.
  assert (Hr : rest (at_ st (pos st + 1)) = l) by (rewrite rest_at_S, Hl; reflexivity).
  pose proof (scan_pos notQuote (fun c => negb (is_char c dquote)) fuel
                (fun _ => eq_refl) (at_ st (pos st + 1))) as Hscan.
  rewrite Hr in Hscan. cbn [pos at_] in Hscan.
  rewrite (bind_Ok_eq _ _ _ tt (pos st + 1 + span notQuote l))
    by (apply Hscan; [left; exact Hend | exact Hlt]).
  rewrite at_at.
  rewrite (bind_Ok_eq _ _ _ tt (pos st + 1 + span notQuote l + 1)) by reflexivity.
  rewrite at_at.
  rewrite (bind_Ok_eq _ _ _ (pos st + 1 + span notQuote l + 1)
             (pos st + 1 + span notQuote l + 1)) by reflexivity.
  rewrite at_at. unfold getSubstring at 1.
  rewrite (bind_Ok_eq _ _ _ (string_of_list_ascii (firstn (span notQuote l) l))
             (pos st + 1 + span notQuote l + 1)).
  2:{ f_equal. unfold substring. cbn [str at_]. unfold rest in Hr. cbn [str pos at_] in Hr.
      rewrite Hr. do 2 f_equal. lia. }
  rewrite at_at.
  assert (Hr2 : rest (at_ st (pos st + 1 + span notQuote l + 1))
                = skipn (S (span notQuote l)) l).
  { replace (pos st + 1 + span notQuote l + 1) with (pos st + S (S (span notQuote l))) by lia.
    rewrite rest_at, Hl. reflexivity. }
  destruct (returns_parseSpace fuel _ Hsp _ Hr2) as (q & Hq & Hr3).
  rewrite (bind_Ok_eq _ _ _ _ _ Hq), at_at. exists q. unfold ret. cbn [pos at_].
  split; [reflexivity|]. rewrite at_at in Hr3. exact Hr3.
Qed.

(** The token readers, with what they read and leave given by
    equations that evaluation settles. *)
Lemma run_parseKeyword (fuel : nat) (c : ascii) (l : list ascii) (n1 n2 : nat)
    (kw : string) (l' : list ascii) :
  isLetter c = true -> span isAlnum l = n1 -> n1 < List.length l ->
  String c (string_of_list_ascii (firstn n1 l)) = kw ->
  span isSpace (skipn n1 l) = n2 -> skipn n2 (skipn n1 l) = l' ->
  n1 < fuel -> n2 < fuel ->
  returns (parseKeyword fuel) (c :: l) (Some kw) l'.
Proof.
  intros Hc <- Hend <- <- <- H1 H2. apply returns_parseKeyword; assumption.
Qed.

Lemma run_parseNumber {num} {JN : JSNumber num} (fuel : nat) (c : ascii)
    (l : list ascii) (n1 n2 : nat) (lexeme : string) (l' : list ascii) :
  numberFirstCharRE (Some c) = true -> span isNumberChar l = n1 ->
  n1 < List.length l ->
  String c (string_of_list_ascii (firstn n1 l)) = lexeme ->
  span isSpace (skipn n1 l) = n2 -> skipn n2 (skipn n1 l) = l' ->
  n1 < fuel -> n2 < fuel ->
  returns (parseNumber fuel) (c :: l) (Some (parseFloat lexeme)) l'.
Proof.
  intros Hc <- Hend <- <- <- H1 H2. apply returns_parseNumber; assumption.
Qed.

Lemma run_parseString (fuel : nat) (l : list ascii) (n1 n2 : nat)
    (text : string) (l' : list ascii) :
  span notQuote l = n1 -> n1 < List.length l ->
  string_of_list_ascii (firstn n1 l) = text ->
  span isSpace (skipn (S n1) l) = n2 -> skipn n2 (skipn (S n1) l) = l' ->
  n1 < fuel -> n2 < fuel ->
  returns (parseString fuel) (dquote :: l) (Some text) l'.
Proof.
  intros <- Hend <- <- <- H1 H2. apply returns_parseString; assumption.
Qed.

Lemma run_parseString_none (fuel : nat) (l : list ascii) :
  is_char (hd_error l) dquote = false -> returns (parseString fuel) l None l.
Proof.
  intros H. unfold parseString.
  eapply returns_bind; [apply returns_charIs|]. rewrite H. apply returns_ret.
Qed.

Lemma run_parseSymbol (fuel : nat) (c : ascii) (l : list ascii) (n : nat)
    (l' : list ascii) :
  span isSpace l = n -> skipn n l = l' -> n < fuel ->
  returns (parseSymbol fuel c) (c :: l) tt l'.
Proof. intros <- <- H. apply returns_parseSymbol; assumption. Qed.

Lemma run_strictParseSymbol (fuel : nat) (c : ascii) (l : list ascii) (n : nat)
    (l' : list ascii) :
  span isSpace l = n -> skipn n l = l' -> n < fuel ->
  returns (strictParseSymbol fuel c) (c :: l) tt l'.
Proof. intros <- <- H. apply returns_strictParseSymbol; assumption. Qed.

Lemma run_value {A} (m : M A) (l : list ascii) (v v' : A) (l1 l1' : list ascii) :
  returns m l v l1 -> v = v' -> l1 = l1' -> returns m l v' l1'.
Proof. intros H <- <-. exact H. Qed.

(** Evaluation of the tests on characters and texts. *)
Ltac pure_eval :=
  simpl; repeat (match goal with H : _ = _ |- _ => rewrite H end; simpl); reflexivity.
Ltac len_eval :=
  cbn [List.length]; rewrite ?length_app; cbn [List.length]; lia.

Ltac run_token :=
  first
    [ eassumption
    | eapply run_parseKeyword;
      [reflexivity | pure_eval | len_eval | pure_eval | pure_eval | pure_eval | lia | lia]
    | eapply returns_parseKeyword_none; reflexivity
    | eapply run_parseNumber;
      [reflexivity | pure_eval | len_eval | pure_eval | pure_eval | pure_eval | lia | lia]
    | eapply returns_parseNumber_none; reflexivity
    | eapply run_parseString;
      [pure_eval | len_eval | pure_eval | pure_eval | pure_eval | lia | lia]
    | eapply run_parseString_none; reflexivity
    | eapply run_strictParseSymbol; [pure_eval | pure_eval | lia]
    | eapply run_parseSymbol; [pure_eval | pure_eval | lia]
    | eapply returns_parseSymbol_miss; reflexivity
    | eapply run_value; [apply returns_charIs | pure_eval | reflexivity]
    | eapply run_value; [apply returns_charIsNot | pure_eval | reflexivity]
    | eapply run_value; [apply returns_peek | pure_eval | reflexivity]
    | eapply run_value; [apply returns_peekAt | pure_eval | reflexivity]
    | eapply run_value; [apply returns_inBounds | pure_eval | reflexivity]
    | apply returns_advance
    | apply returns_ret ].

(** A test or a dispatch on a value that evaluation settles. *)
Ltac settle c :=
  first [ replace c with true by (symmetry; pure_eval)
        | replace c with false by (symmetry; pure_eval) ].
Ltac settle_match x :=
  let x' := eval simpl in x in
  progress change x with x'.

Ltac head_of t := lazymatch t with ?f _ => head_of f | _ => t end.

Ltac run :=
  cbv beta iota zeta;
  lazymatch goal with
  | |- returns (bind _ _) _ _ _ => eapply returns_bind; [run | run]
  | |- returns (while_ _ _ _ _) _ _ _ =>
      first [ eassumption
            | apply returns_while_stop; [lia | solve [run]]
            | eapply returns_while_step; [lia | solve [run] | run | run] ]
  | |- returns (if ?c then _ else _) _ _ _ => settle c; run
  | |- returns (match ?x with _ => _ end) _ _ _ => settle_match x; run
  | |- returns ?m _ _ _ =>
      first [ run_token | let h := head_of m in unfold h; run ]
  | |- raises (bind _ _) _ _ =>
      first [ eapply raises_bind; [solve [run] | run] | apply raises_bind_l; run ]
  | |- raises (while_ _ _ _ _) _ _ =>
      first [ eapply raises_while_body; [lia | solve [run] | run]
            | eapply raises_while_step; [lia | solve [run] | solve [run] | run] ]
  | |- raises (throw _) _ _ => apply raises_throw
  | |- raises (if ?c then _ else _) _ _ => settle c; run
  | |- raises (match ?x with _ => _ end) _ _ => settle_match x; run
  | |- raises ?m _ _ => let h := head_of m in unfold h; run
  end.


Lemma letter_not_space (c : ascii) : isLetter c = true -> isSpace c = false.
Proof.
  unfold isLetter, isSpace. destruct (code c =? 32) eqn:H1; destruct (code c =? 160) eqn:H2;
    rewrite ?Nat.eqb_eq, ?Nat.eqb_neq in *;
    repeat rewrite ?orb_true_iff, ?andb_true_iff, ?orb_false_iff, ?andb_false_iff,
      ?Nat.leb_le, ?Nat.leb_gt; lia.
Qed.

Lemma string_of_list_of_string (s : string) :
  string_of_list_ascii (list_ascii_of_string s) = s.
Proof. apply string_of_list_ascii_of_string. Qed.

Lemma span_all_stop (f : ascii -> bool) (l : list ascii) (x : ascii) (r : list ascii) :
  forallb f l = true -> f x = false -> span f (l ++ x :: r) = List.length l.
Proof.
  intros Hl Hx. induction l as [|c l IH]; simpl in *; [rewrite Hx; reflexivity|].
  apply andb_true_iff in Hl as [-> Hl]. rewrite IH by exact Hl. reflexivity.
Qed.

Lemma firstn_length_app {A} (l r : list A) : firstn (List.length l) (l ++ r) = l.
Proof. rewrite firstn_app, Nat.sub_diag, firstn_all. simpl. apply app_nil_r. Qed.

Lemma span_le (f : ascii -> bool) (l : list ascii) : span f l <= List.length l.
Proof. induction l as [|c l IH]; simpl; [lia|]. destruct (f c); simpl; lia. Qed.

Lemma length_list_of_string (s : string) :
  List.length (list_ascii_of_string s) = String.length s.
Proof. induction s as [|c s IH]; simpl; [reflexivity | rewrite IH; reflexivity]. Qed.

(** A keyword followed by a text that ends it is read as it stands. *)
Lemma returns_keyword_text (fuel : nat) (kw text : string) :
  isKeyword kw = true -> endsKeyword text = true ->
  String.length kw + String.length text < fuel ->
  span isSpace (list_ascii_of_string kw ++ list_ascii_of_string text) = 0 /\
  returns (parseKeyword fuel)
    (list_ascii_of_string kw ++ list_ascii_of_string text) (Some kw)
    (skipSpace (list_ascii_of_string text)).
Proof.
  intros Hk He Hf. destruct kw as [|c cs]; [discriminate|]. destruct text as [|x r]; [discriminate|].
  simpl in Hk, He. apply andb_true_iff in Hk as [Hc Hcs]. apply negb_true_iff in He.
  cbn [list_ascii_of_string app]. split.
  - cbn [span]. rewrite (letter_not_space c Hc). reflexivity.
  - pose proof (span_all_stop isAlnum _ x (list_ascii_of_string r) Hcs He) as Hspan.
    cbn [String.length] in Hf. rewrite <- !length_list_of_string in Hf.
    pose proof (span_le isSpace (x :: list_ascii_of_string r)) as Hle. cbn [List.length] in Hle.
    eapply run_value;
      [apply returns_parseKeyword; rewrite ?Hspan, ?skipn_length_app, ?length_app;
         cbn [List.length]; first [exact Hc | lia]
      | rewrite Hspan, firstn_length_app, string_of_list_of_string; reflexivity
      | rewrite Hspan, skipn_length_app; reflexivity ].
Qed.

Lemma keyword_head (kw : string) (r : list ascii) (a : ascii) :
  isKeyword kw = true -> isLetter a = false ->
  is_char (hd_error (list_ascii_of_string kw ++ r)) a = false.
Proof.
  intros Hk Ha. destruct kw as [|c cs]; [discriminate|].
  simpl in *. apply andb_true_iff in Hk as [Hc _].
  destruct (Ascii.eqb c a) eqn:Hca; [|reflexivity].
  apply Ascii.eqb_eq in Hca. congruence.
Qed.


Section RunParse.
Context {num : Type} {JN : JSNumber num}.
Variable fuel : nat.
Variable E : Enums.

Lemma parse_raises (s : string) (e : error) :
  raises (parseFrom fuel E (@initialModel num JN)) (list_ascii_of_string s) e ->
  parse fuel E s = Throw e.
Proof. intros H. apply H. reflexivity. Qed.

Lemma parse_returns (s : string) (m : Model num) (l : list ascii) :
  returns (parseFrom fuel E initialModel) (list_ascii_of_string s) m l ->
  exists p, parse fuel E s = Ok m p.
Proof. intros H. destruct (H (mkState (list_ascii_of_string s) 0) eq_refl) as (p & Hp & _). eauto. Qed.

End RunParse.

(** ** Keywords outside the fixed set of a block *)

Section UnknownProperty.
Context {num : Type} {JN : JSNumber num}.

(** An entry that opens with a keyword outside the set of its block
    throws, whatever the record read so far. *)
Lemma materialEntry_unknown (fuel : nat) (kw text : string) (o : obj num) :
  isKeyword kw = true -> endsKeyword text = true ->
  String.length kw + String.length text < fuel ->
  existsb (String.eqb kw) materialKeywords = false ->
  raises (materialEntry fuel o) (list_ascii_of_string (kw ++ text))
    (Error ("Unknown material property " ++ kw)).
Proof.
  intros Hk He Hlen Hno.
  destruct (returns_keyword_text fuel kw text Hk He Hlen) as [Hsp Hkw].
  cbn [existsb materialKeywords] in Hno. rewrite !orb_false_iff in Hno.
  destruct Hno as (N1 & N2 & N3 & N4 & N5 & _).
  rewrite list_of_append.
  set (tail := (list_ascii_of_string kw ++ list_ascii_of_string text)%list) in *.
  clearbody tail. run.
Qed.

Lemma tVertexAnimEntry_unknown (fuel : nat) (kw text : string) (o : obj num) :
  isKeyword kw = true -> endsKeyword text = true ->
  String.length kw + String.length text < fuel ->
  existsb (String.eqb kw) textureAnimKeywords = false ->
  raises (tVertexAnimEntry fuel o) (list_ascii_of_string (kw ++ text))
    (Error ("Unknown texture anim property " ++ kw)).
Proof.
  intros Hk He Hlen Hno.
  destruct (returns_keyword_text fuel kw text Hk He Hlen) as [Hsp Hkw].
  cbn [existsb textureAnimKeywords] in Hno. rewrite !orb_false_iff in Hno.
  destruct Hno as (N1 & N2 & N3 & _).
  rewrite list_of_append.
  set (tail := (list_ascii_of_string kw ++ list_ascii_of_string text)%list) in *.
  clearbody tail. run.
Qed.
(** C9 (as amended).  An entry of a [Material] block that opens with a
    keyword that is none of [Layer], [PriorityPlane], [ConstantColor],
    [SortPrimsFarZ] and [FullResolution] throws the error
    [Unknown material property] followed by the keyword, whatever was read
    of the block before; when it is the first entry, [parse] returns no
    scene and throws that error.  And so for a [TVertexAnim] block and a
    keyword that is none of [Translation], [Rotation] and [Scaling], with
    the error [Unknown texture anim property].  Neither error carries an
    offset. *)
Theorem unknown_property_aborts (fuel : nat) (E : Enums) (kw text : string) :
  isKeyword kw = true -> endsKeyword text = true ->
  16 + String.length kw + String.length text <= fuel ->
  (existsb (String.eqb kw) materialKeywords = false ->
   (forall o : obj num,
      raises (materialEntry fuel o) (list_ascii_of_string (kw ++ text))
        (Error ("Unknown material property " ++ kw))) /\
   parse fuel E (materialsInput kw text)
   = Throw (Error ("Unknown material property " ++ kw))) /\
  (existsb (String.eqb kw) textureAnimKeywords = false ->
   (forall o : obj num,
      raises (tVertexAnimEntry fuel o) (list_ascii_of_string (kw ++ text))
        (Error ("Unknown texture anim property " ++ kw))) /\
   parse fuel E (textureAnimsInput kw text)
   = Throw (Error ("Unknown texture anim property " ++ kw))).
Proof.
  intros Hk He Hf.
  assert (Hlen : String.length kw + String.length text < fuel) by lia.
  destruct (returns_keyword_text fuel kw text Hk He Hlen) as [Hsp Hkw].
  pose proof (keyword_head kw (list_ascii_of_string text) "}" Hk eq_refl) as Hb.
  split; intros Hno;
    (split;
     [intros o;
      first [apply materialEntry_unknown | apply tVertexAnimEntry_unknown]; assumption|]);
    apply parse_raises;
    unfold materialsInput, textureAnimsInput; rewrite !list_of_append;
    cbn [existsb materialKeywords textureAnimKeywords] in Hno;
    rewrite !orb_false_iff in Hno.
  - destruct Hno as (N1 & N2 & N3 & N4 & N5 & _).
    set (tail := (list_ascii_of_string kw ++ list_ascii_of_string text)%list) in *.
    clearbody tail. cbn [list_ascii_of_string app]. run.
  - destruct Hno as (N1 & N2 & N3 & _).
    set (tail := (list_ascii_of_string kw ++ list_ascii_of_string text)%list) in *.
    clearbody tail. cbn [list_ascii_of_string app]. run.
Qed.

End UnknownProperty.

(** C9, a witness: the keyword [Foo]. *)
Lemma unknown_property_aborts_witness :
  refParse 40 (materialsInput "Foo" ", } }")
  = Throw (Error "Unknown material property Foo") /\
  refParse 40 (textureAnimsInput "Foo" ", } }")
  = Throw (Error "Unknown texture anim property Foo").
Proof.
  pose proof (unknown_property_aborts 40 refEnums "Foo" ", } }" eq_refl eq_refl) as H.
  destruct H as [H1 H2]; [vm_compute; lia|].
  split; [apply (proj2 (H1 eq_refl)) | apply (proj2 (H2 eq_refl))].
Defined.

(** C9, the claim as stated fails: the error for the keyword [Foo] in a
    [Material] block is no syntax error with an offset. *)
Lemma unknown_property_error_has_no_offset :
  ~ exists near msg,
      refParse 40 (materialsInput "Foo" ", } }") = Throw (SyntaxError near msg).
Proof. intros (near & msg & H). vm_compute in H. discriminate H. Qed.

(** ** The flags of a layer *)

Lemma flag_cases (k : string) (P : string -> Prop) :
  flagKeyword k = true ->
  P "Unshaded" -> P "SphereEnvMap" -> P "TwoSided" -> P "Unfogged" ->
  P "NoDepthTest" -> P "NoDepthSet" -> P k.
Proof.
  unfold flagKeyword. cbn [existsb layerShadingKeywords]. rewrite !orb_true_iff.
  intros H; intros. destruct H as [H|[H|[H|[H|[H|[H|H]]]]]]; try discriminate;
    apply String.eqb_eq in H; subst k; assumption.
Qed.

Lemma lor_byte (a b : Z) :
  (0 <= a < 256)%Z -> (0 <= b < 256)%Z -> (0 <= Z.lor a b < 256)%Z.
Proof.
  intros Ha Hb. pose proof (proj2 (Z.lor_nonneg a b) (conj (proj1 Ha) (proj1 Hb))) as Hn.
  assert (H : Z.shiftr (Z.lor a b) 8 = 0%Z).
  { rewrite Z.shiftr_lor, !Z.shiftr_div_pow2 by lia.
    rewrite (Z.div_small a), (Z.div_small b) by (change (2 ^ 8)%Z with 256%Z; lia).
    reflexivity. }
  rewrite Z.shiftr_div_pow2 in H by lia. apply Z.div_small_iff in H; [|lia].
  change (2 ^ 8)%Z with 256%Z in H. lia.
Qed.

Lemma flag_byte (k : string) : (0 <= LayerShading k < 256)%Z.
Proof.
  unfold LayerShading.
  repeat match goal with |- context [if ?c then _ else _] => destruct c end; lia.
Qed.

Lemma shadingOf_byte (ks : list string) : (0 <= shadingOf ks < 256)%Z.
Proof.
  induction ks as [|k ks IH]; [cbn; lia|].
  unfold shadingOf in *. cbn [map fold_right]. apply lor_byte; [apply flag_byte | exact IH].
Qed.

Section LayerEntry.
Context {num : Type} {JN : JSNumber num}.
Variable fuel : nat.

Lemma int32_flag (k : string) : int32 (LayerShading k) = LayerShading k.
Proof.
  pose proof (flag_byte k) as Hk. unfold int32. rewrite Z.mod_small by lia. lia.
Qed.

(** What one entry of a [Layer] block does to [Shading]. *)
Lemma layerEntry_shading (res res' : obj num) st p ks p0 :
  parseStaticKeyword fuel st = Ok ks p0 ->
  layerEntry fuel res st = Ok res' p ->
  (kwIn (fst ks) layerShadingKeywords = true ->
   getProp res' "Shading"
   = VNum (ofZ (Z.lor (valueToInt32 (getProp res "Shading"))
                  (LayerShading (keyOf (fst ks)))))) /\
  (kwIn (fst ks) layerShadingKeywords = false ->
   (keyOf (fst ks) == "Shading") = false ->
   getProp res' "Shading" = getProp res "Shading").
Proof.
  unfold layerEntry. intros Hks H. bind_inv H. rewrite Hks in H0. injection H0 as <- <-.
  cbv beta zeta in H. split.
  - intros Hflag.
    assert (H1 : negb (snd ks) && kwIs (fst ks) "TextureID" = false).
    { destruct (fst ks) as [k|]; [|discriminate Hflag]. cbn [kwIs].
      destruct (k == "TextureID") eqn:Hk; [|apply andb_false_r].
      apply String.eqb_eq in Hk. subst k. discriminate Hflag. }
    assert (H2 : negb (snd ks) && kwIs (fst ks) "Alpha" = false).
    { destruct (fst ks) as [k|]; [|discriminate Hflag]. cbn [kwIs].
      destruct (k == "Alpha") eqn:Hk; [|apply andb_false_r].
      apply String.eqb_eq in Hk. subst k. discriminate Hflag. }
    rewrite H1, H2, Hflag in H. crunch. unfold orFlag.
    rewrite getProp_setProp_same, int32_flag. reflexivity.
  - intros Hflag Hkey. rewrite Hflag in H. crunch; key_facts;
      try (rewrite getProp_setProp_other by first [reflexivity | exact Hkey]);
      try reflexivity.
    destruct (kwIn a1 _); [apply getProp_setProp_other|]; reflexivity.
Qed.
End LayerEntry.

Section LayerFlags.
Context {num : Type} {JN : JSNumber num}.
Variable fuel : nat.
Hypothesis Hf : 30 <= fuel.

(** What follows a flag in a block is no white space and no closing brace
    before the next flag. *)
Lemma flagsText_head (ks : list string) (r : list ascii) :
  forallb flagKeyword ks = true ->
  span isSpace (list_ascii_of_string (flagsText ks) ++ "}"%char :: r) = 0.
Proof.
  destruct ks as [|k ks]; [reflexivity|]. cbn [forallb flagsText].
  intros H. apply andb_true_iff in H as [Hk _].
  pattern k. apply flag_cases; [exact Hk | reflexivity ..].
Qed.

Lemma flagsText_brace (ks : list string) (r : list ascii) :
  forallb flagKeyword ks = true -> ks <> [] ->
  is_char (hd_error (list_ascii_of_string (flagsText ks) ++ "}"%char :: r)) "}" = false.
Proof.
  destruct ks as [|k ks]; [congruence|]. cbn [forallb flagsText].
  intros H _. apply andb_true_iff in H as [Hk _].
  pattern k. apply flag_cases; [exact Hk | reflexivity ..].
Qed.

Lemma orFlag_layer (z : Z) (k : string) :
  (0 <= z < 256)%Z ->
  orFlag (layerWith z) "Shading" (LayerShading k) = layerWith (Z.lor z (LayerShading k)).
Proof.
  intros Hz. pose proof (flag_byte k) as Hk. unfold orFlag, layerWith.
  cbn [getProp setProp String.eqb Ascii.eqb Bool.eqb valueToInt32].
  rewrite toInt32_ofZ by lia. unfold int32. rewrite Z.mod_small by lia.
  replace (LayerShading k + 2 ^ 31 - 2 ^ 31)%Z with (LayerShading k) by lia. reflexivity.
Qed.

(** One flag keyword and its comma. *)
Lemma layerEntry_flag (k : string) (z : Z) (tail : list ascii) :
  flagKeyword k = true -> (0 <= z < 256)%Z -> span isSpace tail = 0 ->
  returns (layerEntry fuel (layerWith z))
    (list_ascii_of_string (k ++ ", ") ++ tail)
    (layerWith (Z.lor z (LayerShading k))) tail.
Proof.
  intros Hk Hz Hsp. rewrite <- orFlag_layer by exact Hz.
  pattern k. apply flag_cases; [exact Hk | ..]; cbn [list_ascii_of_string append app]; run.
Qed.

(** The loop of [parseLayer] over the flags [ks]. *)
Lemma layer_flags_loop (ks : list string) :
  forall (z : Z) (cnt : nat) (r : list ascii),
    forallb flagKeyword ks = true -> (0 <= z < 256)%Z -> List.length ks < cnt ->
    returns (while_ cnt (fun _ => charIsNot "}") (layerEntry fuel) (layerWith z))
      (list_ascii_of_string (flagsText ks) ++ "}"%char :: r)
      (layerWith (Z.lor z (shadingOf ks))) ("}"%char :: r).
Proof.
  induction ks as [|k ks IH]; intros z cnt r Hks Hz Hcnt.
  - cbn [flagsText list_ascii_of_string app shadingOf map fold_right].
    rewrite Z.lor_0_r. apply returns_while_stop; [simpl in Hcnt; lia | run].
  - pose proof (flagsText_brace (k :: ks) r Hks ltac:(discriminate)) as Hb.
    cbn [forallb] in Hks. apply andb_true_iff in Hks as [Hk Hks].
    cbn [List.length] in Hcnt. cbn [flagsText] in *.
    rewrite !list_of_append, <- !app_assoc in *. rewrite (app_assoc _ _ (_ ++ _)%list), <- list_of_append.
    eapply returns_while_step; [lia | | apply layerEntry_flag | ].
    + eapply run_value; [apply returns_charIsNot | | reflexivity].
      rewrite list_of_append, <- app_assoc, Hb. reflexivity.
    + exact Hk.
    + exact Hz.
    + apply flagsText_head. exact Hks.
    + unfold shadingOf. cbn [map fold_right]. rewrite Z.lor_assoc.
      apply IH; [exact Hks | apply lor_byte; [exact Hz | apply flag_byte] | lia].
Qed.

Lemma layerInput_runs (E : Enums) (ks : list string) :
  forallb flagKeyword ks = true -> List.length ks < fuel ->
  exists (m : Model num) p,
    parse fuel E (layerInput ks) = Ok m p /\
    Materials m = [VObj [("RenderMode", VNum (ofZ 0));
                         ("Layers", VArr [VObj (layerWith (shadingOf ks))])]].
Proof.
  intros Hks Hlen.
  enough (Hrun : exists m l, returns (parseFrom fuel E (@initialModel num JN))
                     (list_ascii_of_string (layerInput ks)) m l /\
             Materials m = [VObj [("RenderMode", VNum (ofZ 0));
                         ("Layers", VArr [VObj (layerWith (shadingOf ks))])]]).
  { destruct Hrun as (m & l & Hrun & Hm).
    destruct (parse_returns _ _ _ _ _ Hrun) as [p Hp]. eauto. }
  pose proof (layer_flags_loop ks 0 fuel (list_ascii_of_string " } }") Hks
                ltac:(lia) Hlen) as Hloop.
  rewrite Z.lor_0_l in Hloop.
  pose proof (flagsText_head ks (list_ascii_of_string " } }") Hks) as Hsp.
  unfold layerInput. rewrite !list_of_append. cbn [list_ascii_of_string app] in *.
  set (tail := (list_ascii_of_string (flagsText ks) ++ _)%list) in *. clearbody tail.
  eexists. eexists. split; [run | reflexivity].
Qed.
End LayerFlags.

(** C8 (as amended).  A [Layer] block that lists the flag keywords [ks],
    any of [Unshaded], [SphereEnvMap], [TwoSided], [Unfogged],
    [NoDepthTest] and [NoDepthSet] in any order, gives a layer whose
    [Shading] is the bitwise OR of the values of [ks], and no other bit.
    In any [Layer] block, an entry that opens with a flag keyword ORs the
    value of the flag into [Shading], and an entry with another key leaves
    [Shading] as it is, unless the key is [Shading] itself. *)
Theorem layer_shading_is_or {num} {JN : JSNumber num} (fuel : nat) (E : Enums) :
  (forall ks : list string,
     forallb flagKeyword ks = true -> 30 + List.length ks <= fuel ->
     exists (m : Model num) p,
       parse fuel E (layerInput ks) = Ok m p /\
       Materials m = [VObj [("RenderMode", VNum (ofZ 0));
                            ("Layers", VArr [VObj (layerWith (shadingOf ks))])]]) /\
  (forall (res res' : obj num) st p ks p0,
     parseStaticKeyword fuel st = Ok ks p0 ->
     layerEntry fuel res st = Ok res' p ->
     (kwIn (fst ks) layerShadingKeywords = true ->
      getProp res' "Shading"
      = VNum (ofZ (Z.lor (valueToInt32 (getProp res "Shading"))
                     (LayerShading (keyOf (fst ks)))))) /\
     (kwIn (fst ks) layerShadingKeywords = false ->
      (keyOf (fst ks) == "Shading") = false ->
      getProp res' "Shading" = getProp res "Shading")).
Proof.
  split.
  - intros ks Hks Hf. apply layerInput_runs; [lia | exact Hks | lia].
  - intros res res' st p ks p0. apply layerEntry_shading.
Qed.

(** C8, a witness: two flags, whose values 1 and 16 give 17. *)
Lemma layer_shading_is_or_witness :
  shadingOf ["Unshaded"; "TwoSided"] = 17%Z /\
  exists (m : Model DecNum.t) p,
    refParse 40 (layerInput ["Unshaded"; "TwoSided"]) = Ok m p /\
    Materials m = [VObj [("RenderMode", VNum (DecNum.ofZ 0));
                         ("Layers", VArr [VObj (layerWith 17)])]].
Proof.
  split; [reflexivity|].
  apply (proj1 (layer_shading_is_or (JN := JSNumber_DecNum) 40 refEnums)
           ["Unshaded"; "TwoSided"]);
    [reflexivity | vm_compute; lia].
Defined.

(** C8, the claim as stated fails: in this block the only flag is
    [Unshaded], of value 1, and the entry [Shading 4] replaces the field. *)
Lemma shading_key_replaces_flags :
  exists (m : Model DecNum.t) p layer,
    refParse 40 shadingKeyInput = Ok m p /\
    Materials m = [VObj [("RenderMode", VNum (DecNum.ofZ 0));
                         ("Layers", VArr [VObj layer])]] /\
    getProp layer "Shading" = VNum (DecNum.ofZ 4) /\
    getProp layer "Shading" <> VNum (DecNum.ofZ (shadingOf ["Unshaded"])).
Proof.
  eexists. eexists. eexists. split; [vm_compute; reflexivity|].
  split; [reflexivity|]. split; [reflexivity | discriminate].
Qed.

(** ** Colours *)

Lemma number_not_space (c : ascii) :
  numberFirstCharRE (Some c) = true -> isSpace c = false /\ Ascii.eqb c "}" = false.
Proof.
  unfold numberFirstCharRE, isDigit, isSpace. intros H. split.
  - destruct (code c =? 32) eqn:H1; destruct (code c =? 160) eqn:H2;
      destruct (code c =? 45) eqn:H3;
      rewrite ?Nat.eqb_eq, ?Nat.eqb_neq in *; revert H;
      repeat rewrite ?orb_true_iff, ?andb_true_iff, ?orb_false_iff, ?andb_false_iff,
        ?Nat.leb_le, ?Nat.leb_gt; lia.
  - destruct (Ascii.eqb c "}") eqn:Hc; [|reflexivity].
    apply Ascii.eqb_eq in Hc. subst c. discriminate H.
Qed.

Lemma number_head (lexeme : string) (l : list ascii) :
  isNumberLexeme lexeme = true ->
  span isSpace (list_ascii_of_string lexeme ++ l) = 0 /\
  is_char (hd_error (list_ascii_of_string lexeme ++ l)) "}" = false.
Proof.
  destruct lexeme as [|c cs]; [discriminate|]. cbn [isNumberLexeme].
  intros H. apply andb_true_iff in H as [Hc _].
  destruct (number_not_space c Hc) as [H1 H2].
  cbn [list_ascii_of_string app span hd_error is_char]. rewrite H1, H2. auto.
Qed.

(** A number followed by a character that ends it is read as it stands. *)
Lemma returns_number_text {num} {JN : JSNumber num} (fuel : nat) (lexeme : string)
    (x : ascii) (r : list ascii) :
  isNumberLexeme lexeme = true -> isNumberChar x = false ->
  String.length lexeme < fuel -> span isSpace (x :: r) < fuel ->
  returns (parseNumber fuel) (list_ascii_of_string lexeme ++ x :: r)
    (Some (parseFloat lexeme)) (skipSpace (x :: r)).
Proof.
  intros Hk Hx Hf Hsp. destruct lexeme as [|c cs]; [discriminate|].
  cbn [isNumberLexeme] in Hk. apply andb_true_iff in Hk as [Hc Hcs].
  cbn [list_ascii_of_string app].
  pose proof (span_all_stop isNumberChar _ x r Hcs Hx) as Hspan.
  cbn [String.length] in Hf. rewrite <- length_list_of_string in Hf.
  eapply run_value;
    [apply returns_parseNumber; rewrite ?Hspan, ?skipn_length_app, ?length_app;
       cbn [List.length]; first [exact Hc | exact Hsp | lia]
    | rewrite Hspan, firstn_length_app, string_of_list_of_string; reflexivity
    | rewrite Hspan, skipn_length_app; reflexivity ].
Qed.

Lemma string_length_append (a b : string) :
  String.length (a ++ b) = String.length a + String.length b.
Proof. induction a as [|c a IH]; simpl; [reflexivity | rewrite IH; reflexivity]. Qed.

Section Colours.
Context {num : Type} {JN : JSNumber num}.
Variable fuel : nat.
Variables b g r : string.
Hypothesis Hb : isNumberLexeme b = true.
Hypothesis Hg : isNumberLexeme g = true.
Hypothesis Hr : isNumberLexeme r = true.
Hypothesis Hf : 30 + String.length b + String.length g + String.length r <= fuel.

(** The numbers between the braces of a colour are stored in the order of
    the source. *)
Lemma colorText_arrayLoop (k : elemKind) (tail : list ascii) :
  span isSpace tail < fuel ->
  returns (arrayLoop fuel storeTyped (@newTyped num JN k 3, 0))
    (list_ascii_of_string (colorText b g r) ++ tail)
    (mkTyped k [coerce k (parseFloat b); coerce k (parseFloat g);
                coerce k (parseFloat r)], 3)
    (skipSpace tail).
Proof.
  intros Hsp. unfold colorText. rewrite !list_of_append, <- !app_assoc.
  cbn [list_ascii_of_string app].
  set (tr := (list_ascii_of_string r ++ " "%char :: "}"%char :: tail)%list).
  set (tg := (list_ascii_of_string g ++ ","%char :: " "%char :: tr)%list).
  set (tb := (list_ascii_of_string b ++ ","%char :: " "%char :: tg)%list).
  destruct (number_head r (" "%char :: "}"%char :: tail) Hr) as [Sr Br].
  destruct (number_head g (","%char :: " "%char :: tr) Hg) as [Sg Bg].
  destruct (number_head b (","%char :: " "%char :: tg) Hb) as [Sb Bb].
  fold tr in Sr, Br. fold tg in Sg, Bg. fold tb in Sb, Bb.
  assert (Nr : returns (parseNumber fuel) tr (Some (parseFloat r)) ("}"%char :: tail)).
  { apply (returns_number_text fuel r " " ("}"%char :: tail)); [exact Hr | reflexivity | lia | simpl; lia]. }
  assert (Ng : returns (parseNumber fuel) tg (Some (parseFloat g))
                 (","%char :: " "%char :: tr)).
  { apply (returns_number_text fuel g "," (" "%char :: tr)); [exact Hg | reflexivity | lia | simpl; lia]. }
  assert (Nb : returns (parseNumber fuel) tb (Some (parseFloat b))
                 (","%char :: " "%char :: tg)).
  { apply (returns_number_text fuel b "," (" "%char :: tg)); [exact Hb | reflexivity | lia | simpl; lia]. }
  assert (Hend : returns (strictParseSymbol fuel "}") ("}"%char :: tail) tt (skipSpace tail)).
  { apply returns_strictParseSymbol. exact Hsp. }
  clearbody tb tg tr.
  run.
Qed.

Lemma colorText_head (tail : list ascii) :
  span isSpace (list_ascii_of_string (colorText b g r) ++ tail) = 0 /\
  is_char (hd_error (list_ascii_of_string (colorText b g r) ++ tail)) "{" = true.
Proof. split; reflexivity. Qed.

Lemma colorText_parseArray (tail : list ascii) :
  span isSpace tail < fuel ->
  returns (parseArray fuel (Some (@newTyped num JN Float32 3)) 0)
    (list_ascii_of_string (colorText b g r) ++ tail)
    (VTyped (mkTyped Float32 [coerce Float32 (parseFloat b); coerce Float32 (parseFloat g);
                              coerce Float32 (parseFloat r)]))
    (skipSpace tail).
Proof.
  intros Hsp. pose proof (colorText_arrayLoop Float32 tail Hsp) as Hloop.
  destruct (colorText_head tail) as [_ Hh].
  set (tc := (list_ascii_of_string (colorText b g r) ++ tail)%list) in *. clearbody tc.
  unfold parseArray. run.
Qed.

Lemma colorText_parseItem (tail : list ascii) :
  span isSpace tail < fuel ->
  returns (parseArrayOrSingleItem fuel (@newTyped num JN Float32 3))
    (list_ascii_of_string (colorText b g r) ++ tail)
    (mkTyped Float32 [coerce Float32 (parseFloat b); coerce Float32 (parseFloat g);
                      coerce Float32 (parseFloat r)])
    (skipSpace tail).
Proof.
  intros Hsp. pose proof (colorText_arrayLoop Float32 tail Hsp) as Hloop.
  destruct (colorText_head tail) as [_ Hh].
  set (tc := (list_ascii_of_string (colorText b g r) ++ tail)%list) in *. clearbody tc.
  unfold parseArrayOrSingleItem. run.
Qed.

Variable E : Enums.

Lemma parse_returns_with (s : string) (Q : Model num -> Prop) :
  (exists m l, returns (parseFrom fuel E (@initialModel num JN))
                 (list_ascii_of_string s) m l /\ Q m) ->
  parsesTo fuel E s Q.
Proof.
  intros (m & l & Hrun & Hm). destruct (parse_returns _ _ _ _ _ Hrun) as [p Hp].
  exists m, p. auto.
Qed.

Ltac color_setup tailtext :=
  apply parse_returns_with;
  unfold geosetAnimColorInput, lightColorInput, ribbonColorInput, quoted;
  rewrite !list_of_append;
  let Hc := fresh "Hc" in
  pose proof (colorText_parseArray (list_ascii_of_string tailtext) ltac:(simpl; lia)) as Hc;
  let Hs := fresh "Hs" in let Hh := fresh "Hh" in
  destruct (colorText_head (list_ascii_of_string tailtext)) as [Hs Hh];
  set (tc := (list_ascii_of_string (colorText b g r) ++ _)%list) in *; clearbody tc;
  simpl in Hc; cbn [list_ascii_of_string app append].

Lemma geosetAnimColor_runs :
  parsesTo fuel E (geosetAnimColorInput b g r)
    (fun m : Model num => single m (GeosetAnims m) "Color" (VTyped (rgb b g r))).
Proof.
  color_setup ", }". eexists. eexists. split; [run|].
  eexists. eexists. split; [reflexivity|]. split; [left; reflexivity | reflexivity].
Qed.

Lemma lightColor_runs :
  parsesTo fuel E (lightColorInput "Color" b g r)
    (fun m : Model num => single m (Lights m) "Color" (VTyped (rgb b g r))).
Proof.
  color_setup ", }". eexists. eexists. split; [run|].
  eexists. eexists. split; [reflexivity|]. split; [right; reflexivity | reflexivity].
Qed.

Lemma lightAmbColor_runs :
  parsesTo fuel E (lightColorInput "AmbColor" b g r)
    (fun m : Model num => single m (Lights m) "AmbColor" (VTyped (rgb b g r))).
Proof.
  color_setup ", }". eexists. eexists. split; [run|].
  eexists. eexists. split; [reflexivity|]. split; [right; reflexivity | reflexivity].
Qed.

Lemma ribbonColor_runs :
  parsesTo fuel E (ribbonColorInput b g r)
    (fun m : Model num => single m (RibbonEmitters m) "Color" (VTyped (rgb b g r))).
Proof.
  color_setup ", }". eexists. eexists. split; [run|].
  eexists. eexists. split; [reflexivity|]. split; [right; reflexivity | reflexivity].
Qed.
End Colours.

Section Segments.
Context {num : Type} {JN : JSNumber num}.
Variable fuel : nat.

Lemma segmentText_head (cs : list (string * string * string)) (tail : list ascii) :
  span isSpace (list_ascii_of_string (segmentText cs) ++ "}"%char :: tail) = 0.
Proof. destruct cs as [|[[b g] r] cs]; reflexivity. Qed.

(** The loop of [parseSegmentColor] over the colours [cs]. *)
Lemma segment_loop (cs : list (string * string * string)) :
  forall (acc : list (value num)) (cnt : nat) (tail : list ascii),
    forallb isNumberTriple cs = true ->
    30 + String.length (segmentText cs) <= fuel -> List.length cs < cnt ->
    returns (while_ cnt (fun _ => charIsNot "}") (segmentColorEntry fuel) acc)
      (list_ascii_of_string (segmentText cs) ++ "}"%char :: tail)
      (acc ++ map rgbOf cs)%list ("}"%char :: tail).
Proof.
  induction cs as [|[[b g] r] cs IH]; intros acc cnt tail Hcs Hf Hcnt.
  - cbn [segmentText list_ascii_of_string app map]. rewrite app_nil_r.
    apply returns_while_stop; [simpl in Hcnt; lia | run].
  - cbn [forallb] in Hcs. apply andb_true_iff in Hcs as [Hc Hcs].
    unfold isNumberTriple in Hc. cbn [fst snd] in Hc.
    apply andb_true_iff in Hc as [Hc Hr]. apply andb_true_iff in Hc as [Hb Hg].
    cbn [segmentText] in *. unfold colorText in Hf.
    rewrite !string_length_append in Hf. cbn [String.length] in Hf.
    cbn [List.length] in Hcnt.
    pose proof (segmentText_head cs tail) as Hs.
    rewrite !list_of_append, <- !app_assoc.
    set (rest' := (list_ascii_of_string (segmentText cs) ++ "}"%char :: tail)%list) in *.
    pose proof (colorText_parseArray fuel b g r Hb Hg Hr ltac:(lia)
                  (list_ascii_of_string ", " ++ rest') ltac:(simpl; lia)) as Hc.
    destruct (colorText_head b g r (list_ascii_of_string ", " ++ rest')) as [Hs' Hh].
    set (tc := (list_ascii_of_string (colorText b g r) ++ _)%list) in *.
    assert (HIH : returns (while_ (cnt - 1) (fun _ => charIsNot "}") (segmentColorEntry fuel)
                     (push acc (rgbOf (b, g, r)))) rest'
                    (acc ++ map rgbOf ((b, g, r) :: cs))%list ("}"%char :: tail)).
    { cbn [map]. replace (acc ++ rgbOf (b, g, r) :: map rgbOf cs)%list
        with (push acc (rgbOf (b, g, r)) ++ map rgbOf cs)%list
        by (unfold push; rewrite <- app_assoc; reflexivity).
      apply IH; [exact Hcs | lia | lia]. }
    clearbody tc rest'. simpl in Hc. cbn [list_ascii_of_string app].
    eapply returns_while_step; [lia | run | | exact HIH].
    eapply run_value; [unfold segmentColorEntry; run | reflexivity | reflexivity].
Qed.

Variable E : Enums.

Lemma segmentColor_runs (cs : list (string * string * string)) :
  forallb isNumberTriple cs = true ->
  30 + String.length (segmentText cs) <= fuel ->
  parsesTo fuel E (segmentColorInput cs)
    (fun m : Model num => single m (ParticleEmitters2 m) "SegmentColor" (VArr (map rgbOf cs))).
Proof.
  intros Hcs Hf. apply parse_returns_with.
  unfold segmentColorInput, quoted. rewrite !list_of_append.
  assert (Hcnt : List.length cs <= String.length (segmentText cs)).
  { clear. induction cs as [|[[b g] r] cs IH]; [simpl; lia|].
    cbn [segmentText List.length]. rewrite !string_length_append.
    cbn [String.length]. lia. }
  pose proof (segment_loop cs [] fuel (list_ascii_of_string ", }") Hcs Hf ltac:(lia)) as Hloop.
  pose proof (segmentText_head cs (list_ascii_of_string ", }")) as Hs.
  cbn [list_ascii_of_string app append] in *.
  set (tc := (list_ascii_of_string (segmentText cs) ++ _)%list) in *. clearbody tc.
  eexists. eexists. split; [run|].
  eexists. eexists. split; [reflexivity|]. split; [right; reflexivity | reflexivity].
Qed.
End Segments.

Section ColourTracks.
Context {num : Type} {JN : JSNumber num}.
Variable fuel : nat.
Variable E : Enums.
Hypothesis Hfuel : 30 <= fuel.

(** The blocks with an animated colour, for any text [track] of a track
    that [parseAnimVector] reads as [a]. *)
Variable track : string.
Variable a : AnimVector num.
Hypothesis Htrack :
  returns (parseAnimVector fuel FLOAT3)
    (list_ascii_of_string track ++ list_ascii_of_string " }") a ["}"%char].
Hypothesis Hhead :
  span isSpace (list_ascii_of_string track ++ list_ascii_of_string " }") = 0.

Lemma geosetAnimTrack_runs :
  parsesTo fuel E (geosetAnimTrackInput track)
    (fun m : Model num => single m (GeosetAnims m) "Color" (VAnim (reverseKeys a))).
Proof.
  apply parse_returns_with. unfold geosetAnimTrackInput. rewrite !list_of_append.
  set (tc := (list_ascii_of_string track ++ _)%list) in *. clearbody tc.
  cbn [list_ascii_of_string app append].
  eexists. eexists. split; [run|].
  eexists. eexists. split; [reflexivity|]. split; [left; reflexivity | reflexivity].
Qed.

Lemma lightTrack_runs (key : string) :
  key = "Color" \/ key = "AmbColor" ->
  parsesTo fuel E (lightTrackInput key track)
    (fun m : Model num => single m (Lights m) key (VAnim (reverseKeys a))).
Proof.
  intros Hkey. apply parse_returns_with. unfold lightTrackInput, quoted.
  rewrite !list_of_append.
  set (tc := (list_ascii_of_string track ++ _)%list) in *. clearbody tc.
  destruct Hkey as [-> | ->]; cbn [list_ascii_of_string app append];
    (eexists; eexists; split; [run|];
     eexists; eexists; split; [reflexivity|]; split; [right; reflexivity | reflexivity]).
Qed.
End ColourTracks.

Section TrackTexts.
Context {num : Type} {JN : JSNumber num}.
Variable fuel : nat.

Lemma linearTrack_runs (b g r : string) :
  isNumberTriple (b, g, r) = true -> 30 + tripleLength (b, g, r) <= fuel ->
  returns (parseAnimVector fuel FLOAT3)
    (list_ascii_of_string (linearTrackText b g r) ++ list_ascii_of_string " }")
    (mkAnimVector Linear None [mkKeyframe (parseFloat "0") (bgr (b, g, r)) None None])
    ["}"%char].
Proof.
  unfold isNumberTriple, tripleLength. cbn [fst snd]. intros Hc Hf.
  apply andb_true_iff in Hc as [Hc Hr]. apply andb_true_iff in Hc as [Hb Hg].
  unfold linearTrackText. rewrite !list_of_append, <- !app_assoc.
  pose proof (colorText_parseItem fuel b g r Hb Hg Hr ltac:(lia)
                (list_ascii_of_string ", }" ++ list_ascii_of_string " }")
                ltac:(simpl; lia)) as Hc.
  destruct (colorText_head b g r (list_ascii_of_string ", }" ++ list_ascii_of_string " }"))
    as [Hs Hh].
  set (tc := (list_ascii_of_string (colorText b g r) ++ _)%list) in *. clearbody tc.
  simpl in Hc. cbn [list_ascii_of_string app append].
  eapply run_value; [unfold parseAnimVector; run | reflexivity | reflexivity].
Qed.

Lemma hermiteTrack_runs (v i o : string * string * string) :
  isNumberTriple v = true -> isNumberTriple i = true -> isNumberTriple o = true ->
  30 + tripleLength v + tripleLength i + tripleLength o <= fuel ->
  returns (parseAnimVector fuel FLOAT3)
    (list_ascii_of_string (hermiteTrackText v i o) ++ list_ascii_of_string " }")
    (mkAnimVector Hermite None
       [mkKeyframe (parseFloat "0") (bgr v) (Some (bgr i)) (Some (bgr o))])
    ["}"%char].
Proof.
  destruct v as [[vb vg] vr], i as [[ib ig] ir], o as [[ob og] or].
  unfold isNumberTriple, tripleLength. cbn [fst snd]. intros Hv Hi Ho Hf.
  apply andb_true_iff in Hv as [Hv Hvr]. apply andb_true_iff in Hv as [Hvb Hvg].
  apply andb_true_iff in Hi as [Hi Hir]. apply andb_true_iff in Hi as [Hib Hig].
  apply andb_true_iff in Ho as [Ho Hor]. apply andb_true_iff in Ho as [Hob Hog].
  unfold hermiteTrackText. cbn [fst snd]. rewrite !list_of_append, <- !app_assoc.
  pose proof (colorText_parseItem fuel ob og or Hob Hog Hor ltac:(lia)
                (list_ascii_of_string ", }" ++ list_ascii_of_string " }")
                ltac:(simpl; lia)) as Hco.
  destruct (colorText_head ob og or
              (list_ascii_of_string ", }" ++ list_ascii_of_string " }")) as [Hso Hho].
  set (to := (list_ascii_of_string (colorText ob og or) ++ _)%list) in *.
  pose proof (colorText_parseItem fuel ib ig ir Hib Hig Hir ltac:(lia)
                (list_ascii_of_string ", OutTan " ++ to) ltac:(simpl; lia)) as Hci.
  destruct (colorText_head ib ig ir (list_ascii_of_string ", OutTan " ++ to)) as [Hsi Hhi].
  set (ti := (list_ascii_of_string (colorText ib ig ir) ++ _)%list) in *.
  pose proof (colorText_parseItem fuel vb vg vr Hvb Hvg Hvr ltac:(lia)
                (list_ascii_of_string ", InTan " ++ ti) ltac:(simpl; lia)) as Hcv.
  destruct (colorText_head vb vg vr (list_ascii_of_string ", InTan " ++ ti)) as [Hsv Hhv].
  set (tv := (list_ascii_of_string (colorText vb vg vr) ++ _)%list) in *.
  clearbody tv. simpl in Hcv. clearbody ti. simpl in Hci. clearbody to. simpl in Hco.
  cbn [list_ascii_of_string app append].
  eapply run_value; [unfold parseAnimVector; run | reflexivity | reflexivity].
Qed.
End TrackTexts.

Lemma reverseKeys_linear {num} {JN : JSNumber num} (c : string * string * string) :
  VAnim (reverseKeys (mkAnimVector Linear None
                        [mkKeyframe (parseFloat "0") (bgr c) None None]))
  = linearStored c.
Proof. reflexivity. Qed.

Lemma reverseKeys_hermite {num} {JN : JSNumber num} (v i o : string * string * string) :
  VAnim (reverseKeys (mkAnimVector Hermite None
                        [mkKeyframe (parseFloat "0") (bgr v) (Some (bgr i)) (Some (bgr o))]))
  = hermiteStored v i o.
Proof. reflexivity. Qed.



(** ** The parser behind a prefix *)

Section Shift.
Variable pre : list ascii.

Lemma shift_at (st : State) (p : nat) :
  at_ (shift pre st) (List.length pre + p) = shift pre (at_ st p).
Proof. reflexivity. Qed.

Lemma char_shift (st : State) : char (shift pre st) = char st.
Proof.
  unfold char, shift. cbn [str pos]. rewrite nth_error_app2 by lia.
  f_equal. lia.
Qed.

Lemma shifts2_ret {A} (sh : A -> A) (a : A) : shifts2 pre sh (ret (sh a)) (ret a).
Proof. intros st. reflexivity. Qed.

Lemma shifts_ret {A} (a : A) : shifts2 pre id (ret a) (ret a).
Proof. intros st. reflexivity. Qed.

Lemma shifts2_bind {A B} (shA : A -> A) (shB : B -> B) (m' m : M A)
    (k' k : A -> M B) :
  shifts2 pre shA m' m -> (forall a, shifts2 pre shB (k' (shA a)) (k a)) ->
  shifts2 pre shB (bind m' k') (bind m k).
Proof.
  intros Hm Hk st. unfold bind. rewrite Hm. destruct (m st) as [a p| |]; cbn [shiftResult];
    [|reflexivity..].
  rewrite shift_at. apply Hk.
Qed.

Lemma shifts_throw {A} (sh : A -> A) (e : error) :
  shiftError (List.length pre) e = e -> shifts2 pre sh (throw e) (throw e).
Proof. intros He st. unfold throw. cbn [shiftResult]. rewrite He. reflexivity. Qed.

Lemma shifts_throwError {A} (sh : A -> A) (msg : string) :
  shifts2 pre sh (throwError msg) (throwError msg).
Proof. intros st. reflexivity. Qed.

Lemma shifts_peek : shifts pre peek.
Proof. intros st. unfold peek. rewrite char_shift. reflexivity. Qed.

Lemma shifts_peekAt (k : nat) : shifts pre (peekAt k).
Proof.
  intros st. unfold peekAt, shift, id. cbn [str pos shiftResult].
  rewrite nth_error_app2 by lia. f_equal. f_equal. lia.
Qed.

Lemma shifts_getPos : shifts2 pre (fun p => List.length pre + p) getPos getPos.
Proof. intros st. reflexivity. Qed.

Lemma shifts_advanceBy (k : nat) : shifts pre (advanceBy k).
Proof.
  intros st. unfold advanceBy, shift, id. cbn [str pos shiftResult]. f_equal. lia.
Qed.

Lemma shifts_advance : shifts pre advance.
Proof. apply shifts_advanceBy. Qed.

Lemma shifts_inBounds : shifts pre inBounds.
Proof.
  intros st. unfold inBounds, shift, id. cbn [str pos shiftResult]. f_equal.
  rewrite length_app.
  destruct (Nat.ltb_spec (pos st) (List.length (str st)));
    [apply Nat.ltb_lt | apply Nat.ltb_ge]; lia.
Qed.

Lemma shifts_getSubstring (start stop start' stop' : nat) :
  start' = List.length pre + start -> stop' - start' = stop - start ->
  shifts2 pre id (getSubstring start' stop') (getSubstring start stop).
Proof.
  intros -> Hlen st. unfold getSubstring, substring, shift, id.
  cbn [str pos shiftResult]. rewrite Hlen. do 3 f_equal.
  rewrite skipn_app, skipn_all2 by lia.
  replace (List.length pre + start - List.length pre) with start by lia. reflexivity.
Qed.

Lemma shifts2_while {A} (cond : A -> M bool) (body : A -> M A) :
  (forall a, shifts pre (cond a)) -> (forall a, shifts pre (body a)) ->
  forall fuel a, shifts pre (while_ fuel cond body a).
Proof.
  intros Hc Hb. induction fuel as [|fuel IH]; intros a st; [reflexivity|].
  rewrite !while_S, Hc. destruct (cond a st) as [[|] p| |]; cbn [shiftResult id];
    try reflexivity.
  rewrite shift_at, Hb. destruct (body a (at_ st p)) as [a' q| |]; cbn [shiftResult id];
    try reflexivity.
  rewrite shift_at. apply IH.
Qed.

Lemma shifts_charIs (a : ascii) : shifts pre (charIs a).
Proof.
  unfold charIs. eapply shifts2_bind; [apply shifts_peek | intros c; apply shifts_ret].
Qed.

Lemma shifts_charIsNot (a : ascii) : shifts pre (charIsNot a).
Proof.
  unfold charIsNot. eapply shifts2_bind; [apply shifts_peek | intros c; apply shifts_ret].
Qed.


Lemma shifts_bind {A B} (shB : B -> B) (m : M A) (k' k : A -> M B) :
  shifts pre m -> (forall a, shifts2 pre shB (k' a) (k a)) ->
  shifts2 pre shB (bind m k') (bind m k).
Proof. intros Hm Hk. eapply shifts2_bind; [exact Hm | exact Hk]. Qed.

End Shift.

Create HintDb shifts.
#[export] Hint Resolve shifts_peek shifts_peekAt shifts_advance shifts_advanceBy
  shifts_inBounds shifts_charIs shifts_charIsNot : shifts.

(** The proof that a computation built from the primitives runs behind a
    prefix as it runs without it. *)
Ltac shift_auto :=
  repeat
    match goal with
    | |- shifts _ _ => unfold shifts
    | |- forall _, _ => intro
    | |- _ => progress cbv beta zeta
    | |- shifts2 _ _ (ret _) (ret _) => apply shifts_ret
    | |- shifts2 _ _ (throwError _) (throwError _) => apply shifts_throwError
    | |- shifts2 _ _ (throw _) (throw _) => apply shifts_throw; reflexivity
    | |- shifts2 _ _ (bind _ _) (bind _ _) => apply shifts_bind
    | |- shifts2 _ _ (while_ _ _ _ _) (while_ _ _ _ _) => apply shifts2_while
    | |- shifts2 _ _ (if ?c then _ else _) (if ?c then _ else _) => destruct c
    | |- shifts2 _ _ (match ?x with _ => _ end) (match ?x with _ => _ end) => destruct x
    | |- shifts2 ?p id ?m ?m =>
        first [ change (shifts p m); solve [auto with shifts]
              | let h := head_of m in progress unfold h ]
    end.

Section ShiftScanner.
Context {num : Type} {JN : JSNumber num}.
Variable pre : list ascii.
Variable fuel : nat.

Lemma parseComment_shifts : shifts pre (parseComment fuel).
Proof. unfold parseComment. shift_auto. Qed.

Lemma parseSpace_shifts : shifts pre (parseSpace fuel).
Proof. unfold parseSpace. shift_auto. Qed.
#[local] Hint Resolve parseComment_shifts parseSpace_shifts : shifts.

Lemma parseKeyword_shifts : shifts pre (parseKeyword fuel).
Proof. unfold parseKeyword. shift_auto. Qed.

Lemma parseSymbol_shifts (c : ascii) : shifts pre (parseSymbol fuel c).
Proof. unfold parseSymbol. shift_auto. Qed.

Lemma strictParseSymbol_shifts (c : ascii) : shifts pre (strictParseSymbol fuel c).
Proof. unfold strictParseSymbol. shift_auto. Qed.
#[local] Hint Resolve parseKeyword_shifts parseSymbol_shifts strictParseSymbol_shifts : shifts.

Lemma parseString_shifts : shifts pre (parseString fuel).
Proof.
  unfold parseString, shifts. apply shifts_bind; [auto with shifts|]. intros [|]; [|shift_auto].
  apply shifts_bind; [auto with shifts|]. intros _.
  eapply shifts2_bind; [apply shifts_getPos|]. intros start. cbv beta.
  apply shifts_bind; [shift_auto|]. intros _.
  apply shifts_bind; [auto with shifts|]. intros _.
  eapply shifts2_bind; [apply shifts_getPos|]. intros stop. cbv beta.
  eapply shifts2_bind with (shA := id); [apply shifts_getSubstring; lia|].
  intros res. unfold id. shift_auto.
Qed.

Lemma parseNumber_shifts : shifts pre (@parseNumber num JN fuel).
Proof.
  unfold parseNumber, shifts. apply shifts_bind; [auto with shifts|]. intros c.
  destruct (numberFirstCharRE c); [|shift_auto].
  eapply shifts2_bind; [apply shifts_getPos|]. intros start. cbv beta.
  apply shifts_bind; [auto with shifts|]. intros _.
  apply shifts_bind; [shift_auto|]. intros _.
  eapply shifts2_bind; [apply shifts_getPos|]. intros stop. cbv beta.
  eapply shifts2_bind with (shA := id); [apply shifts_getSubstring; lia|].
  intros res. unfold id. shift_auto.
Qed.

End ShiftScanner.

#[export] Hint Resolve parseComment_shifts parseSpace_shifts parseKeyword_shifts
  parseSymbol_shifts strictParseSymbol_shifts parseString_shifts parseNumber_shifts
  : shifts.

Section ShiftParser.
Context {num : Type} {JN : JSNumber num}.
Variable pre : list ascii.
Variable fuel : nat.
Variable E : Enums.

Lemma arrayLoop_shifts {A} (store : A -> num -> A) (a : A) : shifts pre (arrayLoop fuel store a).
Proof. unfold arrayLoop. shift_auto. Qed.
#[local] Hint Resolve arrayLoop_shifts : shifts.

Lemma parseArray_shifts (arr : option (TypedArray num)) (i : nat) : shifts pre (parseArray fuel arr i).
Proof. unfold parseArray. shift_auto. Qed.
#[local] Hint Resolve parseArray_shifts : shifts.

Lemma parseArrayOrSingleItem_shifts (arr : TypedArray num) : shifts pre (parseArrayOrSingleItem fuel arr).
Proof. unfold parseArrayOrSingleItem. shift_auto. Qed.
#[local] Hint Resolve parseArrayOrSingleItem_shifts : shifts.

Lemma parseObject_shifts : shifts pre (@parseObject num JN fuel).
Proof. unfold parseObject. shift_auto. Qed.
#[local] Hint Resolve parseObject_shifts : shifts.

Lemma parseAnimVector_shifts (type : AnimVectorType) : shifts pre (@parseAnimVector num JN fuel type).
Proof. unfold parseAnimVector. shift_auto. Qed.
#[local] Hint Resolve parseAnimVector_shifts : shifts.

Lemma parseStaticKeyword_shifts : shifts pre (parseStaticKeyword fuel).
Proof. unfold parseStaticKeyword. shift_auto. Qed.
#[local] Hint Resolve parseStaticKeyword_shifts : shifts.

Lemma requireKeyword_shifts : shifts pre (requireKeyword fuel).
Proof. unfold requireKeyword. shift_auto. Qed.
#[local] Hint Resolve requireKeyword_shifts : shifts.

Lemma parseDontInherit_shifts (res : obj num) : shifts pre (parseDontInherit fuel E res).
Proof. unfold parseDontInherit. shift_auto. Qed.
#[local] Hint Resolve parseDontInherit_shifts : shifts.

Lemma parseVectors_shifts (count : option num) (k : nat) (arr : TypedArray num) : shifts pre (parseVectors fuel count k arr).
Proof. unfold parseVectors. shift_auto. Qed.
#[local] Hint Resolve parseVectors_shifts : shifts.

Lemma parseLayer_shifts : shifts pre (@parseLayer num JN fuel).
Proof. unfold parseLayer. shift_auto. Qed.
#[local] Hint Resolve parseLayer_shifts : shifts.

Lemma parseSwappedColor_shifts : shifts pre (@parseSwappedColor num JN fuel).
Proof. unfold parseSwappedColor. shift_auto. Qed.
#[local] Hint Resolve parseSwappedColor_shifts : shifts.

Lemma parseSegmentColor_shifts : shifts pre (@parseSegmentColor num JN fuel).
Proof. unfold parseSegmentColor. shift_auto. Qed.
#[local] Hint Resolve parseSegmentColor_shifts : shifts.

Lemma parseUnknownBlock_shifts : shifts pre (parseUnknownBlock fuel).
Proof. unfold parseUnknownBlock. shift_auto. Qed.
#[local] Hint Resolve parseUnknownBlock_shifts : shifts.

Lemma parseNode_shifts (type : string) (m : Model num) : shifts pre (parseNode fuel E type m).
Proof. unfold parseNode. shift_auto. Qed.
#[local] Hint Resolve parseNode_shifts : shifts.

Lemma parseVersion_shifts (m : Model num) : shifts pre (parseVersion fuel m).
Proof. unfold parseVersion. shift_auto. Qed.

Lemma parseModelInfo_shifts (m : Model num) : shifts pre (parseModelInfo fuel m).
Proof. unfold parseModelInfo. shift_auto. Qed.

Lemma parseSequences_shifts (m : Model num) : shifts pre (parseSequences fuel m).
Proof. unfold parseSequences. shift_auto. Qed.

Lemma parseTextures_shifts (m : Model num) : shifts pre (parseTextures fuel m).
Proof. unfold parseTextures. shift_auto. Qed.

Lemma parseMaterials_shifts (m : Model num) : shifts pre (parseMaterials fuel m).
Proof. unfold parseMaterials. shift_auto. Qed.

Lemma parseGeoset_shifts (m : Model num) : shifts pre (parseGeoset fuel m).
Proof. unfold parseGeoset. shift_auto. Qed.

Lemma parseGeosetAnim_shifts (m : Model num) : shifts pre (parseGeosetAnim fuel E m).
Proof. unfold parseGeosetAnim. shift_auto. Qed.

Lemma parseBone_shifts (m : Model num) : shifts pre (parseBone fuel E m).
Proof. unfold parseBone. shift_auto. Qed.

Lemma parseHelper_shifts (m : Model num) : shifts pre (parseHelper fuel E m).
Proof. unfold parseHelper. shift_auto. Qed.

Lemma parseAttachment_shifts (m : Model num) : shifts pre (parseAttachment fuel E m).
Proof. unfold parseAttachment. shift_auto. Qed.

Lemma parsePivotPoints_shifts (m : Model num) : shifts pre (parsePivotPoints fuel m).
Proof. unfold parsePivotPoints. shift_auto. Qed.

Lemma parseEventObject_shifts (m : Model num) : shifts pre (parseEventObject fuel E m).
Proof. unfold parseEventObject. shift_auto. Qed.

Lemma parseCollisionShape_shifts (m : Model num) : shifts pre (parseCollisionShape fuel E m).
Proof. unfold parseCollisionShape. shift_auto. Qed.

Lemma parseGlobalSequences_shifts (m : Model num) : shifts pre (parseGlobalSequences fuel m).
Proof. unfold parseGlobalSequences. shift_auto. Qed.

Lemma parseParticleEmitter_shifts (m : Model num) : shifts pre (parseParticleEmitter fuel E m).
Proof. unfold parseParticleEmitter. shift_auto. Qed.

Lemma parseParticleEmitter2_shifts (m : Model num) : shifts pre (parseParticleEmitter2 fuel E m).
Proof. unfold parseParticleEmitter2. shift_auto. Qed.

Lemma parseCamera_shifts (m : Model num) : shifts pre (parseCamera fuel m).
Proof. unfold parseCamera. shift_auto. Qed.

Lemma parseLight_shifts (m : Model num) : shifts pre (parseLight fuel E m).
Proof. unfold parseLight. shift_auto. Qed.

Lemma parseTextureAnims_shifts (m : Model num) : shifts pre (parseTextureAnims fuel m).
Proof. unfold parseTextureAnims. shift_auto. Qed.

Lemma parseRibbonEmitter_shifts (m : Model num) : shifts pre (parseRibbonEmitter fuel E m).
Proof. unfold parseRibbonEmitter. shift_auto. Qed.


Lemma handler_shifts (k : string) (h : Model num -> M (Model num)) (m : Model num) :
  lookupParser (parsers fuel E) k = Some h -> shifts pre (h m).
Proof.
  intros Hl. unfold parsers in Hl. cbn [lookupParser] in Hl.
  repeat match type of Hl with
         | (if ?c then _ else _) = Some _ =>
             destruct c;
             [injection Hl as <-;
              first [ apply parseVersion_shifts | apply parseModelInfo_shifts
                    | apply parseSequences_shifts | apply parseTextures_shifts
                    | apply parseMaterials_shifts | apply parseGeoset_shifts
                    | apply parseGeosetAnim_shifts | apply parseBone_shifts
                    | apply parseHelper_shifts | apply parseAttachment_shifts
                    | apply parsePivotPoints_shifts | apply parseEventObject_shifts
                    | apply parseCollisionShape_shifts | apply parseGlobalSequences_shifts
                    | apply parseParticleEmitter_shifts | apply parseParticleEmitter2_shifts
                    | apply parseCamera_shifts | apply parseLight_shifts
                    | apply parseTextureAnims_shifts | apply parseRibbonEmitter_shifts ]
             |]
         end.
  discriminate.
Qed.

Lemma parseBlock_shifts (m : Model num) : shifts pre (parseBlock fuel E m).
Proof.
  unfold parseBlock, shifts. apply shifts_bind; [shift_auto|]. intros _.
  apply shifts_bind; [auto with shifts|]. intros [k|]; [|shift_auto].
  destruct (lookupParser (parsers fuel E) k) as [h|] eqn:Hl; [|shift_auto].
  apply shifts_bind; [eapply handler_shifts; exact Hl | shift_auto].
Qed.

Lemma parseFrom_shifts (m : Model num) : shifts pre (parseFrom fuel E m).
Proof.
  unfold parseFrom, parseBlocks, finalize, shifts.
  apply shifts_bind; [|shift_auto].
  apply shifts_bind; [|shift_auto].
  apply shifts2_while; [shift_auto | intros r; apply parseBlock_shifts].
Qed.

End ShiftParser.

(** ** Comments before a top-level keyword *)

Section Comments.
Variable fuel : nat.

(** The test of the loop of [parseComment]: the cursor moves before the
    character is compared. *)
Lemma comment_test (st : State) (x y : ascii) (r : list ascii) :
  rest st = x :: y :: r ->
  (b <- inBounds ;; if b then advance ;;; charIsNot "010" else ret false) st
  = Ok (negb (Ascii.eqb y "010")) (pos st + 1).
Proof.
  intros Hr. destruct (returns_inBounds _ st Hr) as (p0 & Hin & _).
  assert (Hin' : inBounds st = Ok true (pos st))
    by (unfold inBounds in *; injection Hin as Hb _; rewrite Hb; reflexivity).
  rewrite (bind_Ok_eq _ _ _ _ _ Hin'), at_pos.
  rewrite (bind_Ok_eq _ _ st tt (pos st + 1)) by reflexivity.
  unfold charIsNot, bind, peek, ret. rewrite char_rest, rest_at_S, Hr. reflexivity.
Qed.

(** The loop of [parseComment]: the character at the cursor is passed
    untested, and the loop ends on the line feed. *)
Lemma comment_scan (text : list ascii) :
  forall (cnt : nat) (st : State) (x : ascii) (l : list ascii),
    rest st = x :: (text ++ "010"%char :: l)%list ->
    forallb (fun a => negb (Ascii.eqb a "010")) text = true ->
    List.length text < cnt ->
    while_ cnt
      (fun _ => b <- inBounds ;; if b then advance ;;; charIsNot "010" else ret false)
      (fun _ => ret tt) tt st
    = Ok tt (pos st + 1 + List.length text).
Proof.
  induction text as [|a text IH]; intros cnt st x l Hr Ht Hcnt;
    (destruct cnt as [|cnt]; [simpl in Hcnt; lia|]); rewrite while_S;
    cbn [app] in Hr; rewrite (comment_test st _ _ _ Hr).
  - rewrite Ascii.eqb_refl. cbn [negb List.length]. f_equal. lia.
  - cbn [forallb] in Ht. apply andb_true_iff in Ht as [Ha Ht]. rewrite Ha.
    unfold ret at 1. cbn [pos at_ negb].
    assert (Hr2 : rest (at_ st (pos st + 1)) = a :: (text ++ "010"%char :: l)%list)
      by (rewrite rest_at_S, Hr; reflexivity).
    rewrite (IH cnt (at_ st (pos st + 1)) a l Hr2 Ht) by (cbn [List.length] in Hcnt; lia).
    cbn [pos at_ List.length]. f_equal. lia.
Qed.

(** [parseComment] on a comment. *)
Lemma parseComment_comment (st : State) (c : ascii) (text : string) (l : list ascii) :
  rest st = (list_ascii_of_string (commentText c text) ++ l)%list ->
  noLineFeed text = true -> String.length text < fuel ->
  parseComment fuel st = Ok true (pos st + String.length (commentText c text)).
Proof.
  intros Hr Ht Hf. unfold commentText in *. rewrite !list_of_append in Hr.
  cbn [list_ascii_of_string app append] in Hr. rewrite list_of_append, <- app_assoc in Hr.
  cbn [list_ascii_of_string app] in Hr.
  unfold parseComment.
  rewrite (bind_Ok_eq _ _ st (Some "/"%char) (pos st))
    by (unfold peek; rewrite char_rest, Hr; reflexivity).
  rewrite at_pos.
  rewrite (bind_Ok_eq _ _ st (Some "/"%char) (pos st)).
  2:{ destruct (returns_peekAt 1 _ st Hr) as (p & Hp & _). unfold peekAt in *.
      injection Hp as Hp _. rewrite Hp. reflexivity. }
  rewrite at_pos. cbn [is_char Ascii.eqb Bool.eqb andb].
  rewrite (bind_Ok_eq _ _ st tt (pos st + 2)) by reflexivity.
  assert (Hr2 : rest (at_ st (pos st + 2))
                = c :: (list_ascii_of_string text ++ "010"%char :: l)%list)
    by (rewrite rest_at, Hr; reflexivity).
  rewrite (bind_Ok_eq _ _ _ _ _
             (comment_scan _ fuel _ c l Hr2 Ht
                ltac:(rewrite length_list_of_string; exact Hf))).
  rewrite at_at. cbn [pos at_].
  rewrite (bind_Ok_eq _ _ _ tt (pos st + 2 + 1 + List.length (list_ascii_of_string text) + 1))
    by reflexivity.
  unfold ret. cbn [pos at_]. f_equal.
  rewrite length_list_of_string. cbn [String.length append].
  rewrite string_length_append. cbn [String.length]. lia.
Qed.

Lemma parseComment_none (st : State) (s : string) :
  rest st = list_ascii_of_string s -> startsComment s = false ->
  parseComment fuel st = Ok false (pos st).
Proof.
  intros Hr Hs. unfold parseComment.
  rewrite (bind_Ok_eq _ _ st (hd_error (list_ascii_of_string s)) (pos st))
    by (unfold peek; rewrite char_rest, Hr; reflexivity).
  rewrite at_pos.
  rewrite (bind_Ok_eq _ _ st (nth_error (list_ascii_of_string s) 1) (pos st)).
  2:{ destruct (returns_peekAt 1 _ st Hr) as (p & Hp & _). unfold peekAt in *.
      injection Hp as Hp _. rewrite Hp. reflexivity. }
  rewrite at_pos.
  replace (is_char (hd_error (list_ascii_of_string s)) "/"
           && is_char (nth_error (list_ascii_of_string s) 1) "/") with false;
    [reflexivity|].
  destruct s as [|a [|b s]]; cbn [list_ascii_of_string hd_error nth_error is_char];
    rewrite ?andb_false_r; try reflexivity.
  symmetry. exact Hs.
Qed.

Lemma commentText_length (c : ascii) (text : string) :
  String.length (commentText c text) = 4 + String.length text.
Proof.
  unfold commentText. cbn [append String.length]. rewrite string_length_append.
  cbn [String.length]. lia.
Qed.

(** The loop [while (parseComment(state));] over comments. *)
Lemma comments_loop (cs : list (ascii * string)) (s : string) :
  commentsOK cs = true -> startsComment s = false ->
  String.length (commentsText cs) < fuel ->
  forall (cnt : nat) (st : State),
    rest st = list_ascii_of_string (commentsText cs ++ s) -> List.length cs < cnt ->
    while_ cnt (fun _ => parseComment fuel) (fun _ => ret tt) tt st
    = Ok tt (pos st + String.length (commentsText cs)).
Proof.
  intros Hcs Hs. induction cs as [|[c text] cs IH]; intros Hf cnt st Hr Hcnt;
    (destruct cnt as [|cnt]; [simpl in Hcnt; lia|]); rewrite while_S.
  - cbn [commentsText append] in *. rewrite (parseComment_none st s Hr Hs).
    cbn [String.length]. f_equal. lia.
  - cbn [commentsOK forallb snd] in Hcs. apply andb_true_iff in Hcs as [Ht Hcs].
    cbn [commentsText] in *. rewrite string_length_append, commentText_length in Hf.
    rewrite !list_of_append, <- app_assoc, <- list_of_append in Hr.
    rewrite (parseComment_comment st c text _ Hr Ht) by lia.
    unfold ret at 1. cbn [pos at_].
    rewrite IH; [ | exact Hcs | lia | | cbn [List.length] in Hcnt; lia ].
    + cbn [pos at_]. rewrite string_length_append. f_equal. lia.
    + rewrite rest_at, Hr, <- length_list_of_string, skipn_length_app. reflexivity.
Qed.
End Comments.

Section CommentsSkipped.
Context {num : Type} {JN : JSNumber num}.
Variable fuel : nat.
Variable E : Enums.
Variable cs : list (ascii * string).
Variable s : string.
Hypothesis Hcs : commentsOK cs = true.
Hypothesis Hne : s <> "".
Hypothesis Hs : startsComment s = false.
Hypothesis Hf : String.length (commentsText cs) < fuel.

Lemma comments_count : List.length cs <= String.length (commentsText cs).
Proof.
  clear. induction cs as [|[c text] l IH]; [simpl; lia|].
  cbn [commentsText List.length]. rewrite string_length_append, commentText_length. lia.
Qed.

Lemma parseBlock_comments (m : Model num) (st : State) :
  rest st = list_ascii_of_string (commentsText cs ++ s) ->
  parseBlock fuel E m st
  = parseBlock fuel E m (at_ st (pos st + String.length (commentsText cs))).
Proof.
  intros Hr. pose proof comments_count as Hn. unfold parseBlock.
  rewrite (bind_Ok_eq _ _ _ _ _
             (comments_loop fuel cs s Hcs Hs Hf fuel st Hr ltac:(lia))).
  assert (Hr' : rest (at_ st (pos st + String.length (commentsText cs)))
                = list_ascii_of_string (commentsText [] ++ s)).
  { rewrite rest_at, Hr, list_of_append, <- length_list_of_string, skipn_length_app.
    reflexivity. }
  rewrite (bind_Ok_eq _ _ _ _ _
             (comments_loop fuel [] s eq_refl Hs ltac:(simpl; lia) fuel _ Hr'
                ltac:(simpl; lia))).
  cbn [commentsText String.length pos at_]. rewrite Nat.add_0_r, !at_at. reflexivity.
Qed.

Lemma parseFrom_comments (m : Model num) (st : State) :
  rest st = list_ascii_of_string (commentsText cs ++ s) ->
  parseFrom fuel E m st
  = parseFrom fuel E m (at_ st (pos st + String.length (commentsText cs))).
Proof.
  intros Hr. unfold parseFrom, parseBlocks.
  assert (Hr' : rest (at_ st (pos st + String.length (commentsText cs)))
                = list_ascii_of_string s).
  { rewrite rest_at, Hr, list_of_append, <- length_list_of_string, skipn_length_app.
    reflexivity. }
  assert (Hin : forall st' l, rest st' = l -> l <> [] -> inBounds st' = Ok true (pos st')).
  { intros st' l Hl Hnil. destruct (returns_inBounds _ st' Hl) as (p & Hp & _).
    unfold inBounds in *. injection Hp as Hp _. rewrite Hp.
    destruct l; [congruence | reflexivity]. }
  assert (Hw : forall cnt,
               while_ cnt (fun r : bool * Model num => if fst r then inBounds else ret false)
                 (fun r => parseBlock fuel E (snd r)) (true, m) st
               = while_ cnt (fun r : bool * Model num => if fst r then inBounds else ret false)
                   (fun r => parseBlock fuel E (snd r)) (true, m)
                   (at_ st (pos st + String.length (commentsText cs)))).
  { intros [|n]; [reflexivity|]. rewrite !while_S. cbn [fst snd].
    rewrite (Hin st _ Hr), (Hin _ _ Hr'), at_pos.
    - cbn [pos at_]. rewrite (parseBlock_comments m st Hr). reflexivity.
    - destruct s; [congruence | discriminate].
    - rewrite list_of_append. destruct s; [congruence|].
      destruct (list_ascii_of_string (commentsText cs)); discriminate. }
  unfold bind. rewrite Hw.
  destruct (while_ fuel _ _ _ _) as [r p| |]; reflexivity.
Qed.

Lemma parse_comments :
  parse fuel E (commentsText cs ++ s)
  = shiftResult (String.length (commentsText cs)) id (parse fuel E s).
Proof.
  unfold parse.
  rewrite (parseFrom_comments _ (mkState (list_ascii_of_string (commentsText cs ++ s)) 0)
             eq_refl).
  cbn [pos at_ str].
  rewrite list_of_append, <- length_list_of_string.
  rewrite <- (parseFrom_shifts (list_ascii_of_string (commentsText cs)) fuel E).
  unfold shift, at_. cbn [str pos]. rewrite Nat.add_0_r. reflexivity.
Qed.
End CommentsSkipped.



(** ** More fuel *)

Lemma extends_refl {A} (m : M A) : extends m m.
Proof. intros st _. reflexivity. Qed.

Lemma extends_bind {A B} (m m' : M A) (k k' : A -> M B) :
  extends m m' -> (forall a, extends (k a) (k' a)) ->
  extends (bind m k) (bind m' k').
Proof.
  intros Hm Hk st Hnd. unfold bind in *.
  destruct (m st) as [a p| |] eqn:Hst.
  - rewrite (Hm st) by congruence. rewrite Hst. apply Hk. exact Hnd.
  - rewrite (Hm st) by congruence. rewrite Hst. reflexivity.
  - contradiction.
Qed.

Lemma extends_while {A} (cond cond' : A -> M bool) (body body' : A -> M A) :
  (forall a, extends (cond a) (cond' a)) -> (forall a, extends (body a) (body' a)) ->
  forall n n' a, n <= n' -> extends (while_ n cond body a) (while_ n' cond' body' a).
Proof.
  intros Hc Hb. induction n as [|n IH]; intros n' a Hle st Hnd; [contradiction|].
  destruct n' as [|n']; [lia|]. rewrite while_S in Hnd. rewrite !while_S.
  destruct (cond a st) as [[|] p| |] eqn:Hst.
  - rewrite (Hc a st) by congruence. rewrite Hst.
    destruct (body a (at_ st p)) as [a' q| |] eqn:Hbd.
    + rewrite (Hb a (at_ st p)) by congruence. rewrite Hbd. apply IH; [lia | exact Hnd].
    + rewrite (Hb a (at_ st p)) by congruence. rewrite Hbd. reflexivity.
    + contradiction.
  - rewrite (Hc a st) by congruence. rewrite Hst. reflexivity.
  - rewrite (Hc a st) by congruence. rewrite Hst. reflexivity.
  - contradiction.
Qed.

Create HintDb fuels.

(** The proof that a computation built from the primitives and the loops
    returns with more fuel what it returns with less. *)
Ltac fuel_auto :=
  repeat
    match goal with
    | |- forall _, _ => intro
    | |- _ => progress cbv beta zeta
    | |- extends ?m ?m => apply extends_refl
    | |- extends (bind _ _) (bind _ _) => apply extends_bind
    | |- extends (while_ _ _ _ _) (while_ _ _ _ _) =>
        apply extends_while; [| | assumption]
    | |- extends (if ?c then _ else _) (if ?c then _ else _) => destruct c
    | |- extends (match ?x with _ => _ end) (match ?x with _ => _ end) => destruct x
    | |- extends ?m _ =>
        first [ solve [auto with fuels]
              | let h := head_of m in progress unfold h ]
    end.

Section FuelScanner.
Context {num : Type} {JN : JSNumber num}.
Variables fuel fuel' : nat.
Hypothesis Hle : fuel <= fuel'.

Lemma parseComment_extends :
  extends (parseComment fuel) (parseComment fuel').
Proof. unfold parseComment. fuel_auto. Qed.

#[local] Hint Resolve parseComment_extends : fuels.

Lemma parseSpace_extends :
  extends (parseSpace fuel) (parseSpace fuel').
Proof. unfold parseSpace. fuel_auto. Qed.

#[local] Hint Resolve parseSpace_extends : fuels.

Lemma parseKeyword_extends :
  extends (parseKeyword fuel) (parseKeyword fuel').
Proof. unfold parseKeyword. fuel_auto. Qed.

#[local] Hint Resolve parseKeyword_extends : fuels.

Lemma parseSymbol_extends (c : ascii) :
  extends (parseSymbol fuel c) (parseSymbol fuel' c).
Proof. unfold parseSymbol. fuel_auto. Qed.

#[local] Hint Resolve parseSymbol_extends : fuels.

Lemma strictParseSymbol_extends (c : ascii) :
  extends (strictParseSymbol fuel c) (strictParseSymbol fuel' c).
Proof. unfold strictParseSymbol. fuel_auto. Qed.

#[local] Hint Resolve strictParseSymbol_extends : fuels.

Lemma parseString_extends :
  extends (parseString fuel) (parseString fuel').
Proof. unfold parseString. fuel_auto. Qed.

#[local] Hint Resolve parseString_extends : fuels.

Lemma parseNumber_extends :
  extends (@parseNumber num JN fuel) (@parseNumber num JN fuel').
Proof. unfold parseNumber. fuel_auto. Qed.

#[local] Hint Resolve parseNumber_extends : fuels.

End FuelScanner.

#[export] Hint Resolve parseComment_extends parseSpace_extends parseKeyword_extends parseSymbol_extends strictParseSymbol_extends parseString_extends parseNumber_extends
  : fuels.

Section FuelParser.
Context {num : Type} {JN : JSNumber num}.
Variables fuel fuel' : nat.
Variable E : Enums.
Hypothesis Hle : fuel <= fuel'.

Lemma arrayLoop_extends {A} (store : A -> num -> A) (a : A) :
  extends (arrayLoop fuel store a) (arrayLoop fuel' store a).
Proof. unfold arrayLoop. fuel_auto. Qed.

#[local] Hint Resolve arrayLoop_extends : fuels.

Lemma parseArray_extends (arr : option (TypedArray num)) (i : nat) :
  extends (parseArray fuel arr i) (parseArray fuel' arr i).
Proof. unfold parseArray. fuel_auto. Qed.

#[local] Hint Resolve parseArray_extends : fuels.

Lemma parseArrayOrSingleItem_extends (arr : TypedArray num) :
  extends (parseArrayOrSingleItem fuel arr) (parseArrayOrSingleItem fuel' arr).
Proof. unfold parseArrayOrSingleItem. fuel_auto. Qed.

#[local] Hint Resolve parseArrayOrSingleItem_extends : fuels.

Lemma parseObject_extends :
  extends (@parseObject num JN fuel) (@parseObject num JN fuel').
Proof. unfold parseObject. fuel_auto. Qed.

#[local] Hint Resolve parseObject_extends : fuels.

Lemma parseAnimVector_extends (type : AnimVectorType) :
  extends (@parseAnimVector num JN fuel type) (@parseAnimVector num JN fuel' type).
Proof. unfold parseAnimVector. fuel_auto. Qed.

#[local] Hint Resolve parseAnimVector_extends : fuels.

Lemma parseStaticKeyword_extends :
  extends (parseStaticKeyword fuel) (parseStaticKeyword fuel').
Proof. unfold parseStaticKeyword. fuel_auto. Qed.

#[local] Hint Resolve parseStaticKeyword_extends : fuels.

Lemma requireKeyword_extends :
  extends (requireKeyword fuel) (requireKeyword fuel').
Proof. unfold requireKeyword. fuel_auto. Qed.

#[local] Hint Resolve requireKeyword_extends : fuels.

Lemma parseDontInherit_extends (res : obj num) :
  extends (parseDontInherit fuel E res) (parseDontInherit fuel' E res).
Proof. unfold parseDontInherit. fuel_auto. Qed.

#[local] Hint Resolve parseDontInherit_extends : fuels.

Lemma parseVectors_extends (count : option num) (k : nat) (arr : TypedArray num) :
  extends (parseVectors fuel count k arr) (parseVectors fuel' count k arr).
Proof. unfold parseVectors. fuel_auto. Qed.

#[local] Hint Resolve parseVectors_extends : fuels.

Lemma parseLayer_extends :
  extends (@parseLayer num JN fuel) (@parseLayer num JN fuel').
Proof. unfold parseLayer. fuel_auto. Qed.

#[local] Hint Resolve parseLayer_extends : fuels.

Lemma parseSwappedColor_extends :
  extends (@parseSwappedColor num JN fuel) (@parseSwappedColor num JN fuel').
Proof. unfold parseSwappedColor. fuel_auto. Qed.

#[local] Hint Resolve parseSwappedColor_extends : fuels.

Lemma parseSegmentColor_extends :
  extends (@parseSegmentColor num JN fuel) (@parseSegmentColor num JN fuel').
Proof. unfold parseSegmentColor. fuel_auto. Qed.

#[local] Hint Resolve parseSegmentColor_extends : fuels.

Lemma parseUnknownBlock_extends :
  extends (parseUnknownBlock fuel) (parseUnknownBlock fuel').
Proof. unfold parseUnknownBlock. fuel_auto. Qed.

#[local] Hint Resolve parseUnknownBlock_extends : fuels.

Lemma parseNode_extends (type : string) (m : Model num) :
  extends (parseNode fuel E type m) (parseNode fuel' E type m).
Proof. unfold parseNode. fuel_auto. Qed.

#[local] Hint Resolve parseNode_extends : fuels.

Lemma parseVersion_extends (m : Model num) :
  extends (parseVersion fuel m) (parseVersion fuel' m).
Proof. unfold parseVersion. fuel_auto. Qed.

Lemma parseModelInfo_extends (m : Model num) :
  extends (parseModelInfo fuel m) (parseModelInfo fuel' m).
Proof. unfold parseModelInfo. fuel_auto. Qed.

Lemma parseSequences_extends (m : Model num) :
  extends (parseSequences fuel m) (parseSequences fuel' m).
Proof. unfold parseSequences. fuel_auto. Qed.

Lemma parseTextures_extends (m : Model num) :
  extends (parseTextures fuel m) (parseTextures fuel' m).
Proof. unfold parseTextures. fuel_auto. Qed.

Lemma parseMaterials_extends (m : Model num) :
  extends (parseMaterials fuel m) (parseMaterials fuel' m).
Proof. unfold parseMaterials. fuel_auto. Qed.

Lemma parseGeoset_extends (m : Model num) :
  extends (parseGeoset fuel m) (parseGeoset fuel' m).
Proof. unfold parseGeoset. fuel_auto. Qed.

Lemma parseGeosetAnim_extends (m : Model num) :
  extends (parseGeosetAnim fuel E m) (parseGeosetAnim fuel' E m).
Proof. unfold parseGeosetAnim. fuel_auto. Qed.

Lemma parseBone_extends (m : Model num) :
  extends (parseBone fuel E m) (parseBone fuel' E m).
Proof. unfold parseBone. fuel_auto. Qed.

Lemma parseHelper_extends (m : Model num) :
  extends (parseHelper fuel E m) (parseHelper fuel' E m).
Proof. unfold parseHelper. fuel_auto. Qed.

Lemma parseAttachment_extends (m : Model num) :
  extends (parseAttachment fuel E m) (parseAttachment fuel' E m).
Proof. unfold parseAttachment. fuel_auto. Qed.

Lemma parsePivotPoints_extends (m : Model num) :
  extends (parsePivotPoints fuel m) (parsePivotPoints fuel' m).
Proof. unfold parsePivotPoints. fuel_auto. Qed.

Lemma parseEventObject_extends (m : Model num) :
  extends (parseEventObject fuel E m) (parseEventObject fuel' E m).
Proof. unfold parseEventObject. fuel_auto. Qed.

Lemma parseCollisionShape_extends (m : Model num) :
  extends (parseCollisionShape fuel E m) (parseCollisionShape fuel' E m).
Proof. unfold parseCollisionShape. fuel_auto. Qed.

Lemma parseGlobalSequences_extends (m : Model num) :
  extends (parseGlobalSequences fuel m) (parseGlobalSequences fuel' m).
Proof. unfold parseGlobalSequences. fuel_auto. Qed.

Lemma parseParticleEmitter_extends (m : Model num) :
  extends (parseParticleEmitter fuel E m) (parseParticleEmitter fuel' E m).
Proof. unfold parseParticleEmitter. fuel_auto. Qed.

Lemma parseParticleEmitter2_extends (m : Model num) :
  extends (parseParticleEmitter2 fuel E m) (parseParticleEmitter2 fuel' E m).
Proof. unfold parseParticleEmitter2. fuel_auto. Qed.

Lemma parseCamera_extends (m : Model num) :
  extends (parseCamera fuel m) (parseCamera fuel' m).
Proof. unfold parseCamera. fuel_auto. Qed.

Lemma parseLight_extends (m : Model num) :
  extends (parseLight fuel E m) (parseLight fuel' E m).
Proof. unfold parseLight. fuel_auto. Qed.

Lemma parseTextureAnims_extends (m : Model num) :
  extends (parseTextureAnims fuel m) (parseTextureAnims fuel' m).
Proof. unfold parseTextureAnims. fuel_auto. Qed.

Lemma parseRibbonEmitter_extends (m : Model num) :
  extends (parseRibbonEmitter fuel E m) (parseRibbonEmitter fuel' E m).
Proof. unfold parseRibbonEmitter. fuel_auto. Qed.

Lemma handler_extends (k : string) (h : Model num -> M (Model num)) (m : Model num) :
  lookupParser (parsers fuel E) k = Some h ->
  exists h', lookupParser (parsers fuel' E) k = Some h' /\ extends (h m) (h' m).
Proof.
  intros Hl. unfold parsers in *. cbn [lookupParser] in *.
  repeat match type of Hl with
         | (if ?c then _ else _) = Some _ =>
             destruct c;
             [injection Hl as <-; eexists; split; [reflexivity|];
              first [ apply parseVersion_extends
                    | apply parseModelInfo_extends
                    | apply parseSequences_extends
                    | apply parseTextures_extends
                    | apply parseMaterials_extends
                    | apply parseGeoset_extends
                    | apply parseGeosetAnim_extends
                    | apply parseBone_extends
                    | apply parseHelper_extends
                    | apply parseAttachment_extends
                    | apply parsePivotPoints_extends
                    | apply parseEventObject_extends
                    | apply parseCollisionShape_extends
                    | apply parseGlobalSequences_extends
                    | apply parseParticleEmitter_extends
                    | apply parseParticleEmitter2_extends
                    | apply parseCamera_extends
                    | apply parseLight_extends
                    | apply parseTextureAnims_extends
                    | apply parseRibbonEmitter_extends ];
              exact Hle
             |]
         end.
  discriminate.
Qed.

Lemma lookupParser_none (k : string) :
  lookupParser (parsers fuel E) k = None -> lookupParser (parsers fuel' E) k = None.
Proof.
  unfold parsers. cbn [lookupParser].
  repeat match goal with |- (if ?c then _ else _) = None -> _ => destruct c; [discriminate|] end.
  auto.
Qed.

Lemma parseBlock_extends (m : Model num) :
  extends (parseBlock fuel E m) (parseBlock fuel' E m).
Proof.
  unfold parseBlock. apply extends_bind; [fuel_auto|]. intros _.
  apply extends_bind; [auto with fuels|]. intros [k|]; [|fuel_auto].
  destruct (lookupParser (parsers fuel E) k) as [h|] eqn:Hl.
  - destruct (handler_extends k h m Hl) as (h' & Hl' & Hh). rewrite Hl'.
    apply extends_bind; [exact Hh | fuel_auto].
  - rewrite (lookupParser_none k Hl). fuel_auto.
Qed.

Lemma parseFrom_extends (m : Model num) :
  extends (parseFrom fuel E m) (parseFrom fuel' E m).
Proof.
  unfold parseFrom, parseBlocks.
  apply extends_bind; [|fuel_auto].
  apply extends_bind; [|fuel_auto].
  apply extends_while; [fuel_auto | intros r; apply parseBlock_extends | exact Hle].
Qed.

End FuelParser.

(** ** The scanner on its own *)

Lemma span_stop (f : ascii -> bool) (l : list ascii) :
  match hd_error (skipn (span f l) l) with Some c => f c = false | None => True end.
Proof.
  induction l as [|c l IH]; simpl; [exact I|].
  destruct (f c) eqn:Hc; simpl; [exact IH | exact Hc].
Qed.

Lemma string_append_assoc (a b c : string) : ((a ++ b) ++ c = a ++ (b ++ c))%string.
Proof. induction a as [|x a IH]; cbn [append]; [reflexivity | rewrite IH; reflexivity]. Qed.

Lemma keyword_not_comment (kw t : string) :
  isKeyword kw = true -> startsComment (kw ++ t) = false.
Proof.
  destruct kw as [|c cs]; [discriminate|]. cbn [isKeyword append]. intros Hk.
  apply andb_true_iff in Hk as [Hc _].
  destruct (cs ++ t); cbn [startsComment]; [reflexivity|].
  destruct (Ascii.eqb_spec c "/") as [->|]; [discriminate|reflexivity].
Qed.

Lemma span_all_space (ws s : string) :
  allSpace ws = true -> startsSpace s = false ->
  span isSpace (list_ascii_of_string (ws ++ s)) = String.length ws.
Proof.
  unfold allSpace. intros Hw Hs. rewrite list_of_append, <- length_list_of_string.
  destruct s as [|c s']; cbn [list_ascii_of_string].
  - rewrite app_nil_r. induction (list_ascii_of_string ws) as [|x l IH];
      [reflexivity|]. cbn [forallb] in Hw. apply andb_true_iff in Hw as [Hx Hl].
    cbn [span List.length]. rewrite Hx, IH; auto.
  - apply span_all_stop; assumption.
Qed.

Section ScannerFacts.
Variable fuel : nat.

(** [parseSpace] moves the cursor over the white space at the cursor and
    stops at the first other character or at the end of the input. *)
Lemma parseSpace_pos (st : State) :
  span isSpace (rest st) < fuel ->
  parseSpace fuel st = Ok tt (pos st + span isSpace (rest st)) /\
  spaceRE (char (at_ st (pos st + span isSpace (rest st)))) = false.
Proof.
  intros Hf. split.
  - unfold parseSpace. apply scan_pos; [reflexivity | right; reflexivity | exact Hf].
  - rewrite char_rest, rest_at. pose proof (span_stop isSpace (rest st)) as H.
    destruct (hd_error (skipn (span isSpace (rest st)) (rest st))); [exact H | reflexivity].
Qed.

(** The loops of [parseKeyword] and [parseNumber] have no test for the end
    of the input: [undefined] passes their tests. *)
Lemma keyword_loop_diverges (n : nat) :
  forall (st : State) (kw0 : string),
    forallb isAlnum (rest st) = true ->
    while_ n (fun _ => c' <- peek ;; ret (keywordOtherCharRE c'))
      (fun keyword => c' <- peek ;; advance ;;; ret (keyword ++ charText c')%string)
      kw0 st = Diverge.
Proof.
  induction n as [|n IH]; intros st kw0 Hall; [reflexivity|].
  rewrite while_S. unfold bind at 1. unfold peek, ret. cbn [pos at_].
  rewrite char_rest. pose proof (rest_at_S st) as Hr.
  destruct (rest st) as [|c r] eqn:Hrest; cbn [hd_error keywordOtherCharRE tl] in *.
  - unfold bind, peek, advance, advanceBy, ret. cbn [pos at_].
    apply IH. change (forallb isAlnum (rest (at_ st (pos st + 1))) = true).
    rewrite Hr. reflexivity.
  - cbn [forallb] in Hall. apply andb_true_iff in Hall as [Hc Hall].
    unfold isAlnum in Hc. rewrite Hc.
    unfold bind, peek, advance, advanceBy, ret. cbn [pos at_].
    apply IH. change (forallb isAlnum (rest (at_ st (pos st + 1))) = true).
    rewrite Hr. exact Hall.
Qed.

Lemma parseKeyword_diverges (st : State) :
  keywordFirstCharRE (hd_error (rest st)) = true ->
  forallb isAlnum (tl (rest st)) = true ->
  parseKeyword fuel st = Diverge.
Proof.
  intros Hc Hall. unfold parseKeyword. unfold bind at 1. unfold peek.
  rewrite char_rest, Hc. cbn [negb]. unfold bind at 1. unfold advance, advanceBy.
  apply bind_Diverge. apply keyword_loop_diverges.
  change (forallb isAlnum (rest (at_ st (pos st + 1))) = true).
  rewrite rest_at_S. exact Hall.
Qed.

Lemma number_loop_diverges (n : nat) :
  forall (st : State),
    forallb isNumberChar (rest st) = true ->
    while_ n (fun _ => c' <- peek ;; ret (numberOtherCharRE c')) (fun _ => advance) tt st
    = Diverge.
Proof.
  induction n as [|n IH]; intros st Hall; [reflexivity|].
  rewrite while_S. unfold bind at 1. unfold peek, ret. cbn [pos at_].
  rewrite char_rest. pose proof (rest_at_S st) as Hr.
  destruct (rest st) as [|c r] eqn:Hrest; cbn [hd_error numberOtherCharRE tl] in *.
  - unfold advance, advanceBy. cbn [pos at_].
    apply IH. change (forallb isNumberChar (rest (at_ st (pos st + 1))) = true).
    rewrite Hr. reflexivity.
  - cbn [forallb] in Hall. apply andb_true_iff in Hall as [Hc Hall].
    unfold isNumberChar in Hc. rewrite Hc.
    unfold advance, advanceBy. cbn [pos at_].
    apply IH. change (forallb isNumberChar (rest (at_ st (pos st + 1))) = true).
    rewrite Hr. exact Hall.
Qed.

Lemma parseNumber_diverges {num} {JN : JSNumber num} (st : State) :
  numberFirstCharRE (hd_error (rest st)) = true ->
  forallb isNumberChar (tl (rest st)) = true ->
  parseNumber fuel st = Diverge.
Proof.
  intros Hc Hall. unfold parseNumber. unfold bind at 1. unfold peek.
  rewrite char_rest, Hc. unfold bind at 1. unfold getPos.
  unfold bind at 1. unfold advance, advanceBy.
  apply bind_Diverge. apply number_loop_diverges.
  change (forallb isNumberChar (rest (at_ st (pos st + 1))) = true).
  rewrite rest_at_S. exact Hall.
Qed.

(** X1.  [parseSpace] returns with the cursor moved over exactly the white
    space that stands at the cursor: the character it stops at is no white
    space, and at the end of the input it stops as well. *)
Theorem parseSpace_stops_at_non_space (st : State) :
  span isSpace (rest st) < fuel ->
  parseSpace fuel st = Ok tt (pos st + span isSpace (rest st)) /\
  spaceRE (char (at_ st (pos st + span isSpace (rest st)))) = false.
Proof.
  intros Hf. split.
  - unfold parseSpace. apply scan_pos; [reflexivity | right; reflexivity | exact Hf].
  - rewrite char_rest, rest_at. pose proof (span_stop isSpace (rest st)) as H.
    destruct (hd_error (skipn (span isSpace (rest st)) (rest st))); [exact H | reflexivity].
Qed.

End ScannerFacts.

(** X1, a witness: two spaces before a letter. *)
Lemma parseSpace_stops_at_non_space_witness :
  parseSpace 5 (mkState (list_ascii_of_string "  x") 0) = Ok tt 2.
Proof.
  apply (proj1 (parseSpace_stops_at_non_space 5 (mkState (list_ascii_of_string "  x") 0)
                  ltac:(vm_compute; lia))).
Defined.

Section ScannerTexts.
Context {num : Type} {JN : JSNumber num}.
Variable fuel : nat.


(** X3.  A number lexeme, a minus sign or digit followed by the characters
    of [numberOtherCharRE], that is followed by a character of another kind
    is handed as a whole to [parseFloat], whatever its shape, and the white
    space behind it is skipped. *)
Theorem parseNumber_reads_whole_lexeme (lexeme text : string) :
  isNumberLexeme lexeme = true -> endsNumber text = true ->
  String.length lexeme + String.length text < fuel ->
  returns (parseNumber fuel) (list_ascii_of_string (lexeme ++ text))
    (Some (parseFloat lexeme)) (skipSpace (list_ascii_of_string text)).
Proof.
  intros Hn He Hf. destruct text as [|x t]; [discriminate|]. cbn [endsNumber] in He.
  apply negb_true_iff in He. rewrite list_of_append. cbn [list_ascii_of_string].
  cbn [String.length] in Hf.
  apply returns_number_text; [exact Hn | exact He | lia |].
  pose proof (span_le isSpace (x :: list_ascii_of_string t)) as H.
  cbn [List.length] in H. rewrite length_list_of_string in H. lia.
Qed.

(** X4.  [parseString] returns the text between the double quote at the
    cursor and the next double quote, unchanged (there is no escape
    character), and skips the white space behind the closing quote. *)
Theorem parseString_reads_to_next_quote (s text : string) :
  noQuote s = true -> String.length s + String.length text < fuel ->
  returns (parseString fuel) (list_ascii_of_string (quoted s ++ text)) (Some s)
    (skipSpace (list_ascii_of_string text)).
Proof.
  unfold noQuote, quoted. intros Hs Hf.
  cbn [append list_ascii_of_string]. rewrite list_of_append, list_of_append.
  cbn [list_ascii_of_string]. rewrite <- app_assoc. cbn [app].
  pose proof (span_all_stop notQuote (list_ascii_of_string s) dquote
                (list_ascii_of_string text) Hs eq_refl) as Hspan.
  pose proof (span_le isSpace (list_ascii_of_string text)) as Hsp.
  rewrite length_list_of_string in Hsp.
  assert (Hskip : skipn (S (List.length (list_ascii_of_string s)))
                    (list_ascii_of_string s ++ dquote :: list_ascii_of_string text)
                  = list_ascii_of_string text).
  { replace (S (List.length (list_ascii_of_string s)))
      with (List.length (list_ascii_of_string s ++ [dquote])%list)
      by (rewrite length_app; cbn [List.length]; lia).
    replace (list_ascii_of_string s ++ dquote :: list_ascii_of_string text)%list
      with ((list_ascii_of_string s ++ [dquote]) ++ list_ascii_of_string text)%list
      by (rewrite <- app_assoc; reflexivity).
    apply skipn_length_app. }
  eapply run_value; [apply returns_parseString | |].
  - rewrite Hspan, length_app. cbn [List.length]. lia.
  - rewrite Hspan, length_list_of_string. lia.
  - rewrite Hspan, Hskip. lia.
  - rewrite Hspan, firstn_length_app, string_of_list_of_string. reflexivity.
  - rewrite Hspan, Hskip. reflexivity.
Qed.

End ScannerTexts.


(** X3, a witness: the lexeme [12.5] before a comma. *)
Lemma parseNumber_reads_whole_lexeme_witness :
  returns (parseNumber (num := DecNum.t) 20) (list_ascii_of_string ("12.5" ++ ", "))
    (Some (@parseFloat DecNum.t JSNumber_DecNum "12.5"))
    (skipSpace (list_ascii_of_string ", ")).
Proof.
  apply (parseNumber_reads_whole_lexeme (JN := JSNumber_DecNum) 20 "12.5" ", ");
    [reflexivity | reflexivity | vm_compute; lia].
Defined.

(** X4, a witness: a name with a backslash in it. *)
Lemma parseString_reads_to_next_quote_witness :
  returns (parseString 20) (list_ascii_of_string (quoted "a\b" ++ " {")) (Some "a\b")
    (skipSpace (list_ascii_of_string " {")).
Proof.
  apply (parseString_reads_to_next_quote 20 "a\b" " {"); [reflexivity | vm_compute; lia].
Defined.

(** ** Inputs that end too early *)

Lemma diverges_bind {A B} (m : M A) (k : A -> M B) l a l1 :
  returns m l a l1 -> diverges (k a) l1 -> diverges (bind m k) l.
Proof.
  intros Hm Hk st Hl. destruct (Hm st Hl) as (p & Hp & Hr).
  rewrite (bind_Ok_eq _ _ _ _ _ Hp). apply Hk. exact Hr.
Qed.

Lemma diverges_bind_l {A B} (m : M A) (k : A -> M B) l :
  diverges m l -> diverges (bind m k) l.
Proof. intros Hm st Hl. apply bind_Diverge. apply Hm. exact Hl. Qed.

Lemma diverges_while_body {A} (fuel : nat) (cond : A -> M bool) (body : A -> M A) a l l1 :
  returns (cond a) l true l1 -> diverges (body a) l1 ->
  diverges (while_ fuel cond body a) l.
Proof.
  intros Hc Hb st Hl. destruct fuel as [|fuel]; [reflexivity|].
  destruct (Hc st Hl) as (p & Hp & Hr). rewrite while_S, Hp, (Hb _ Hr). reflexivity.
Qed.

Section EarlyEnd.
Context {num : Type} {JN : JSNumber num}.
Variable E : Enums.

Lemma parse_more_fuel (fuel fuel' : nat) (s : string) :
  fuel <= fuel' -> parse fuel E s <> Diverge -> parse fuel' E s = parse fuel E s.
Proof. intros Hle H. unfold parse in *. apply parseFrom_extends; assumption. Qed.

Lemma parse_diverges_less_fuel (fuel fuel' : nat) (s : string) :
  fuel <= fuel' -> parse fuel' E s = Diverge -> parse fuel E s = Diverge.
Proof.
  intros Hle H. destruct (parse fuel E s) as [m p|e|] eqn:Hp; [| |reflexivity].
  - rewrite (parse_more_fuel fuel fuel' s Hle) in H by congruence. congruence.
  - rewrite (parse_more_fuel fuel fuel' s Hle) in H by congruence. congruence.
Qed.

Lemma parseFrom_diverges (fuel : nat) (m : Model num) (l : list ascii) :
  l <> [] -> diverges (parseBlock fuel E m) l -> diverges (parseFrom fuel E m) l.
Proof.
  intros Hne Hb. unfold parseFrom, parseBlocks.
  apply diverges_bind_l. apply diverges_bind_l.
  eapply diverges_while_body; [|exact Hb].
  cbn [fst]. pose proof (returns_inBounds l) as H. destruct l; [contradiction | exact H].
Qed.

Lemma parse_diverges (fuel : nat) (s : string) :
  s <> "" -> diverges (parseBlock fuel E initialModel) (list_ascii_of_string s) ->
  parse fuel E s = Diverge.
Proof.
  intros Hne Hb. unfold parse. apply parseFrom_diverges with (l := list_ascii_of_string s);
    [destruct s; [contradiction | discriminate] | exact Hb | reflexivity].
Qed.

Lemma comments_none (fuel : nat) (s : string) :
  0 < fuel -> startsComment s = false ->
  returns (while_ fuel (fun _ => parseComment fuel) (fun _ => ret tt) tt)
    (list_ascii_of_string s) tt (list_ascii_of_string s).
Proof.
  intros Hf Hs st Hr. destruct fuel as [|n]; [lia|].
  exists (pos st). rewrite while_S, (parseComment_none (S n) st s Hr Hs), at_pos. auto.
Qed.


(** X6.  [parseNumber] has no test for the end of the input either: on a
    number that ends the input it does not return, and so [parse] does not
    return on the keyword [PivotPoints] followed by such a number. *)
Theorem number_at_end_never_returns (fuel : nat) (lexeme : string) :
  isNumberLexeme lexeme = true ->
  parse fuel E (numberAtEndInput lexeme) = Diverge /\
  forall st, rest st = list_ascii_of_string lexeme ->
             parseNumber (num := num) fuel st = Diverge.
Proof.
  intros Hk.
  assert (Hnum : forall n st, rest st = list_ascii_of_string lexeme ->
                              parseNumber (num := num) n st = Diverge).
  { intros n st Hr. destruct lexeme as [|c cs]; [discriminate|]. cbn [isNumberLexeme] in Hk.
    apply andb_true_iff in Hk as [Hc Hcs].
    apply parseNumber_diverges; rewrite Hr; [exact Hc | exact Hcs]. }
  split; [|apply Hnum].
  apply parse_diverges_less_fuel with (fuel' := fuel + 13 + String.length lexeme); [lia|].
  set (n := fuel + 13 + String.length lexeme).
  apply parse_diverges; [discriminate|].
  unfold parseBlock. eapply diverges_bind.
  - apply comments_none; [unfold n; lia | reflexivity].
  - destruct (returns_keyword_text n "PivotPoints" (" " ++ lexeme) eq_refl eq_refl)
      as [_ Hkw]; [cbn [String.length append]; unfold n; lia|].
    replace (skipSpace (list_ascii_of_string (" " ++ lexeme)))
      with (list_ascii_of_string lexeme) in Hkw.
    2:{ unfold skipSpace. cbn [append list_ascii_of_string span isSpace].
        change (isSpace " ") with true. cbv iota. cbn [skipn].
        destruct (number_head lexeme [] Hk) as [Hsp _]. rewrite app_nil_r in Hsp.
        rewrite Hsp. reflexivity. }
    unfold numberAtEndInput. rewrite list_of_append.
    eapply diverges_bind; [exact Hkw|]. cbv beta iota.
    change (lookupParser (parsers n E) "PivotPoints") with (Some (parsePivotPoints (num := num) n)).
    cbv beta iota. apply diverges_bind_l. unfold parsePivotPoints.
    apply diverges_bind_l. intros st Hr. apply Hnum. exact Hr.
Qed.

(** X8.  [parse] does not return on a source that is made of comments
    only: behind the last comment the driver reads a keyword at the end of
    the input. *)
Theorem trailing_comment_never_returns (fuel : nat) (cs : list (ascii * string)) :
  cs <> [] -> commentsOK cs = true ->
  parse fuel E (commentsText cs) = Diverge.
Proof.
  intros Hne Hcs.
  apply parse_diverges_less_fuel with (fuel' := fuel + S (String.length (commentsText cs)));
    [lia|].
  set (n := fuel + S (String.length (commentsText cs))).
  assert (Hs : commentsText cs <> "").
  { destruct cs as [|[c text] cs']; [contradiction|]. discriminate. }
  apply parse_diverges; [exact Hs|].
  unfold parseBlock. intros st Hr.
  assert (Hr' : rest st = list_ascii_of_string (commentsText cs ++ "")).
  { rewrite Hr, append_empty_r. reflexivity. }
  assert (Hloop := comments_loop n cs "" Hcs eq_refl ltac:(unfold n; lia) n st Hr'
                     ltac:(pose proof (comments_count cs); unfold n; lia)).
  rewrite (bind_Ok_eq _ _ _ _ _ Hloop). apply bind_Diverge.
  apply parseKeyword_diverges.
  - rewrite rest_at, Hr, <- length_list_of_string, skipn_all. reflexivity.
  - rewrite rest_at, Hr, <- length_list_of_string, skipn_all. reflexivity.
Qed.

(** X7.  At the end of the input the entry loop of a block goes on (the
    character there is not a closing brace) and its entry reads a keyword,
    which does not return: [parse] does not return on a [Version] block
    that ends after its opening brace. *)
Theorem end_of_input_inside_block_never_returns (fuel : nat) (ws : string) :
  allSpace ws = true ->
  parse fuel E (truncatedInput ws) = Diverge /\
  forall (o : obj num) (st : State), rest st = [] -> objectEntry fuel o st = Diverge.
Proof.
  intros Hw.
  assert (Hentry : forall n (o : obj num) (st : State),
            rest st = [] -> objectEntry n o st = Diverge).
  { intros n o st Hr. unfold objectEntry. apply bind_Diverge.
    apply parseKeyword_diverges; rewrite Hr; reflexivity. }
  split; [|apply Hentry].
  apply parse_diverges_less_fuel with (fuel' := fuel + 10 + String.length ws); [lia|].
  set (n := fuel + 10 + String.length ws).
  apply parse_diverges; [discriminate|].
  unfold parseBlock. eapply diverges_bind.
  - apply comments_none; [unfold n; lia | reflexivity].
  - assert (Hsp : span isSpace (list_ascii_of_string ws) = String.length ws).
    { rewrite <- (span_all_space ws "" Hw eq_refl), append_empty_r. reflexivity. }
    assert (Hskip : skipSpace (list_ascii_of_string ws) = []).
    { unfold skipSpace. rewrite Hsp, <- length_list_of_string. apply skipn_all. }
    destruct (returns_keyword_text n "Version" (" {" ++ ws) eq_refl eq_refl)
      as [_ Hkw]; [cbn [String.length append]; unfold n; lia|].
    unfold truncatedInput.
    change ("Version {" ++ ws) with ("Version" ++ " {" ++ ws). rewrite list_of_append.
    eapply diverges_bind; [exact Hkw|]. cbv beta iota.
    change (lookupParser (parsers n E) "Version") with (Some (parseVersion (num := num) n)).
    cbv beta iota. apply diverges_bind_l. unfold parseVersion.
    apply diverges_bind_l. unfold parseObject.
    change (skipSpace (list_ascii_of_string (" {" ++ ws)))
      with ("{"%char :: list_ascii_of_string ws).
    eapply diverges_bind; [apply returns_charIsNot|]. cbn [hd_error is_char negb].
    change (Ascii.eqb "{" "{") with true. cbv iota. cbn [negb].
    eapply diverges_bind; [apply returns_ret|].
    eapply diverges_bind;
      [apply returns_strictParseSymbol; rewrite Hsp; unfold n; lia|].
    rewrite Hskip. apply diverges_bind_l.
    eapply diverges_while_body.
    + eapply run_value; [apply returns_charIsNot | reflexivity | reflexivity].
    + intros st Hr. apply Hentry. exact Hr.
Qed.

End EarlyEnd.


(** X6, a witness: the number 12. *)
Lemma number_at_end_never_returns_witness :
  refParse 100 (numberAtEndInput "12") = Diverge.
Proof.
  apply (proj1 (number_at_end_never_returns (JN := JSNumber_DecNum) refEnums 100 "12" eq_refl)).
Defined.

(** X7, a witness: a line feed behind the brace. *)
Lemma end_of_input_inside_block_never_returns_witness :
  refParse 100 (truncatedInput (String "010"%char "")) = Diverge.
Proof.
  apply (proj1 (end_of_input_inside_block_never_returns (JN := JSNumber_DecNum) refEnums 100
                  (String "010"%char "") eq_refl)).
Defined.

(** X8, a witness: one comment. *)
Lemma trailing_comment_never_returns_witness :
  refParse 100 (commentsText [("c"%char, "omment")]) = Diverge.
Proof.
  apply (trailing_comment_never_returns (JN := JSNumber_DecNum) refEnums 100
           [("c"%char, "omment")]); [discriminate | reflexivity].
Defined.

(** ** The top-level loop *)

Section TopLevel.
Context {num : Type} {JN : JSNumber num}.
Variable E : Enums.

Lemma inBounds_rest (st : State) :
  inBounds st = Ok (match rest st with [] => false | _ => true end) (pos st).
Proof.
  destruct (returns_inBounds (rest st) st eq_refl) as (p & Hp & _).
  unfold inBounds in *. injection Hp as Hb _. rewrite Hb. reflexivity.
Qed.

Lemma parseBlock_stops (fuel : nat) (m : Model num) (st : State) (s : string) :
  0 < fuel -> rest st = list_ascii_of_string s ->
  startsKeyword s = false -> s <> "" -> startsComment s = false ->
  parseBlock fuel E m st = Ok (false, m) (pos st).
Proof.
  intros Hf Hr Hk Hne Hc. unfold parseBlock.
  destruct fuel as [|n]; [lia|].
  assert (Hloop : while_ (S n) (fun _ => parseComment (S n)) (fun _ => ret tt) tt st
                  = Ok tt (pos st)).
  { rewrite while_S, (parseComment_none (S n) st s Hr Hc). reflexivity. }
  rewrite (bind_Ok_eq _ _ _ _ _ Hloop), at_pos.
  assert (Hkw : parseKeyword (S n) st = Ok None (pos st)).
  { unfold parseKeyword. unfold bind at 1. unfold peek. rewrite char_rest, Hr.
    destruct s as [|c cs]; [contradiction|]. cbn [list_ascii_of_string hd_error].
    cbn [startsKeyword] in Hk. cbn [keywordFirstCharRE]. rewrite Hk. reflexivity. }
  rewrite (bind_Ok_eq _ _ _ _ _ Hkw), at_pos. reflexivity.
Qed.

(** X9.  Where the text at the cursor begins with neither a letter nor a
    comment the top-level loop ends without an error: what follows is not
    read.  A source that begins so gives the default scene. *)
Theorem text_that_opens_no_block_is_ignored (fuel : nat) (s : string) :
  2 <= fuel -> startsKeyword s = false -> startsComment s = false ->
  parse fuel E s = Ok initialModel 0 /\
  forall (m : Model num) (st : State),
    rest st = list_ascii_of_string s -> parseFrom fuel E m st = finalize m st.
Proof.
  intros Hf Hk Hc.
  assert (Hgen : forall (m : Model num) (st : State),
            rest st = list_ascii_of_string s -> parseFrom fuel E m st = finalize m st).
  { intros m st Hr. unfold parseFrom, parseBlocks.
    destruct fuel as [|[|n]]; [lia | lia |].
    assert (Hloop : while_ (S (S n))
                      (fun r : bool * Model num => if fst r then inBounds else ret false)
                      (fun r => parseBlock (S (S n)) E (snd r)) (true, m) st
                    = Ok (if match s with "" => true | _ => false end then (true, m)
                          else (false, m)) (pos st)).
    { rewrite while_S. cbn [fst snd]. rewrite inBounds_rest, Hr.
      destruct s as [|c cs]; [reflexivity|]. cbn [list_ascii_of_string].
      rewrite at_pos.
      rewrite (parseBlock_stops (S (S n)) m st (String c cs)); try assumption;
        [|lia|discriminate].
      rewrite at_pos, while_S. reflexivity. }
    unfold bind at 1. unfold bind at 1. rewrite Hloop.
    rewrite at_pos. destruct s; unfold ret; cbn [snd]; rewrite at_pos; reflexivity. }
  split; [|exact Hgen].
  unfold parse. rewrite Hgen by reflexivity. reflexivity.
Qed.

(** X11.  The parser never looks behind the cursor: started behind the
    text [pre] it returns, throws or diverges as it does on the rest alone,
    with the cursor and the offset of a syntax error moved by the length of
    [pre]. *)
Theorem parser_ignores_text_before_cursor (fuel : nat) (pre s : string) (m : Model num) :
  parseFrom fuel E m
    (mkState (list_ascii_of_string (pre ++ s)) (String.length pre))
  = shiftResult (String.length pre) id
      (parseFrom fuel E m (mkState (list_ascii_of_string s) 0)).
Proof.
  pose proof (parseFrom_shifts (list_ascii_of_string pre) fuel E m
                (mkState (list_ascii_of_string s) 0)) as H.
  unfold shift in H. cbn [str pos] in H.
  rewrite length_list_of_string, Nat.add_0_r, <- list_of_append in H. exact H.
Qed.

End TopLevel.

(** The keyword and the unknown block, with the cursor they leave. *)

Lemma keyword_loop_pos (cnt : nat) :
  forall (st : State) (kw0 : string),
    span isAlnum (rest st) < List.length (rest st) -> span isAlnum (rest st) < cnt ->
    while_ cnt (fun _ => c' <- peek ;; ret (keywordOtherCharRE c'))
      (fun keyword => c' <- peek ;; advance ;;; ret (keyword ++ charText c')%string)
      kw0 st
    = Ok (kw0 ++ string_of_list_ascii (firstn (span isAlnum (rest st)) (rest st)))
        (pos st + span isAlnum (rest st)).
Proof.
  induction cnt as [|cnt IH]; intros st kw0 Hend Hlt; [lia|].
  rewrite while_S. unfold bind at 1. unfold peek, ret. cbn [pos at_].
  rewrite char_rest. pose proof (rest_at_S st) as Hr.
  destruct (rest st) as [|c r] eqn:Hrest; cbn [span List.length] in *; [lia|].
  cbn [hd_error keywordOtherCharRE tl] in *. fold (isAlnum c).
  destruct (isAlnum c) eqn:Hc.
  - unfold bind, peek, advance, advanceBy, ret. cbn [pos at_].
    change (char (at_ st (pos st))) with (char st). rewrite char_rest, Hrest.
    cbn [hd_error charText].
    transitivity (@Ok string
      ((kw0 ++ String c "") ++
       string_of_list_ascii (firstn (span isAlnum (rest (at_ st (pos st + 1))))
                               (rest (at_ st (pos st + 1)))))
      (pos (at_ st (pos st + 1)) + span isAlnum (rest (at_ st (pos st + 1))))).
    + apply IH; rewrite Hr; lia.
    + rewrite Hr. cbn [pos at_ firstn string_of_list_ascii].
      rewrite append_assoc_char. f_equal. lia.
  - cbn [firstn string_of_list_ascii]. rewrite append_empty_r. f_equal. lia.
Qed.

Lemma parseKeyword_pos (fuel : nat) (st : State) (c : ascii) (l : list ascii) :
  rest st = c :: l -> isLetter c = true ->
  span isAlnum l < List.length l -> span isAlnum l < fuel ->
  span isSpace (skipn (span isAlnum l) l) < fuel ->
  parseKeyword fuel st
  = Ok (Some (String c (string_of_list_ascii (firstn (span isAlnum l) l))))
      (pos st + 1 + span isAlnum l + span isSpace (skipn (span isAlnum l) l)).
Proof.
  intros Hr Hc Hend Hlt Hsp. unfold parseKeyword. unfold bind at 1. unfold peek.
  rewrite char_rest, Hr. cbn [hd_error keywordFirstCharRE]. rewrite Hc. cbn [negb].
  unfold bind at 1. unfold advance, advanceBy. cbn [pos at_].
  assert (Hr1 : rest (at_ st (pos st + 1)) = l) by (rewrite rest_at_S, Hr; reflexivity).
  pose proof (keyword_loop_pos fuel (at_ st (pos st + 1)) (charText (Some c))) as Hloop.
  rewrite Hr1 in Hloop. specialize (Hloop Hend Hlt).
  change (at_ (at_ st (pos st)) (pos st + 1)) with (at_ st (pos st + 1)).
  rewrite (bind_Ok_eq _ _ _ _ _ Hloop). cbn [pos at_].
  change (at_ (at_ st (pos st + 1)) (pos st + 1 + span isAlnum l))
    with (at_ st (pos st + 1 + span isAlnum l)).
  assert (Hr2 : rest (at_ st (pos st + 1 + span isAlnum l)) = skipn (span isAlnum l) l).
  { rewrite <- Nat.add_assoc, rest_at, Hr. reflexivity. }
  destruct (parseSpace_pos fuel (at_ st (pos st + 1 + span isAlnum l)))
    as [Hspace _]; [rewrite Hr2; exact Hsp|].
  rewrite Hr2 in Hspace. rewrite (bind_Ok_eq _ _ _ _ _ Hspace). reflexivity.
Qed.

Lemma parseKeyword_text_pos (fuel : nat) (st : State) (kw : string) (x : ascii)
    (r : list ascii) :
  rest st = (list_ascii_of_string kw ++ x :: r)%list ->
  isKeyword kw = true -> isAlnum x = false ->
  String.length kw < fuel -> span isSpace (x :: r) < fuel ->
  parseKeyword fuel st = Ok (Some kw) (pos st + String.length kw + span isSpace (x :: r)).
Proof.
  intros Hr Hk Hx Hf Hsp. destruct kw as [|c cs]; [discriminate|].
  cbn [isKeyword] in Hk. apply andb_true_iff in Hk as [Hc Hcs].
  cbn [list_ascii_of_string app] in Hr.
  pose proof (span_all_stop isAlnum _ x r Hcs Hx) as Hspan.
  cbn [String.length] in *. rewrite <- length_list_of_string in *.
  rewrite (parseKeyword_pos fuel st c _ Hr Hc); rewrite ?Hspan, ?skipn_length_app, ?length_app;
    cbn [List.length]; try lia; try assumption.
  rewrite firstn_length_app, string_of_list_of_string. f_equal. lia.
Qed.

Lemma skipSpace_header (h r : list ascii) :
  forallb notOpenBrace h = true ->
  exists h', skipn (span isSpace (h ++ "{"%char :: r)) (h ++ "{"%char :: r)
             = (h' ++ "{"%char :: r)%list /\
             forallb notOpenBrace h' = true /\
             span isSpace (h ++ "{"%char :: r) + List.length h' = List.length h.
Proof.
  induction h as [|c h IH]; intros Hh.
  - exists []. cbn. auto.
  - cbn [forallb] in Hh. apply andb_true_iff in Hh as [Hc Hh].
    cbn [app span]. destruct (isSpace c).
    + destruct (IH Hh) as (h' & H1 & H2 & H3). exists h'. cbn [skipn List.length].
      split; [exact H1|]. split; [exact H2 | lia].
    + exists (c :: h). cbn [skipn forallb List.length]. rewrite Hc, Hh. auto.
Qed.

Lemma braces_step (cnt : nat) (st : State) (c : ascii) (r : list ascii) (opened : Z) :
  rest st = c :: r -> (0 < opened)%Z ->
  while_ (S cnt)
    (fun opened => c <- peek ;;
                   ret (match c with Some _ => (0 <? opened)%Z | None => false end))
    (fun opened =>
       c <- peek ;;
       advance ;;;
       ret (if is_char c "{" then (opened + 1)%Z
            else if is_char c "}" then (opened - 1)%Z
            else opened)) opened st
  = while_ cnt
      (fun opened => c <- peek ;;
                     ret (match c with Some _ => (0 <? opened)%Z | None => false end))
      (fun opened =>
         c <- peek ;;
         advance ;;;
         ret (if is_char c "{" then (opened + 1)%Z
              else if is_char c "}" then (opened - 1)%Z
              else opened))
      (if Ascii.eqb c "{" then (opened + 1)%Z
       else if Ascii.eqb c "}" then (opened - 1)%Z else opened)
      (at_ st (pos st + 1)).
Proof.
  intros Hr Ho. rewrite while_S. unfold bind, peek, advance, advanceBy, ret.
  cbn [pos at_]. change (char (at_ st (pos st))) with (char st).
  rewrite char_rest, Hr. cbn [hd_error is_char].
  replace (0 <? opened)%Z with true by (symmetry; apply Z.ltb_lt; exact Ho).
  reflexivity.
Qed.

Lemma braces_stop (cnt : nat) (st : State) :
  while_ (S cnt)
    (fun opened => c <- peek ;;
                   ret (match c with Some _ => (0 <? opened)%Z | None => false end))
    (fun opened =>
       c <- peek ;;
       advance ;;;
       ret (if is_char c "{" then (opened + 1)%Z
            else if is_char c "}" then (opened - 1)%Z
            else opened)) 0%Z st
  = Ok 0%Z (pos st).
Proof.
  rewrite while_S. unfold bind, peek, ret. cbn [pos at_].
  destruct (char st); reflexivity.
Qed.

Lemma braces_loop (body : list ascii) :
  forall (d cnt : nat) (st : State) (tail : list ascii),
    bracesOK d body = true -> rest st = (body ++ "}"%char :: tail)%list ->
    List.length body + 1 < cnt ->
    while_ cnt
      (fun opened => c <- peek ;;
                     ret (match c with Some _ => (0 <? opened)%Z | None => false end))
      (fun opened =>
         c <- peek ;;
         advance ;;;
         ret (if is_char c "{" then (opened + 1)%Z
              else if is_char c "}" then (opened - 1)%Z
              else opened)) (Z.of_nat (S d)) st
    = Ok 0%Z (pos st + List.length body + 1).
Proof.
  induction body as [|c body IH]; intros d cnt st tail Hb Hr Hcnt.
  - cbn [bracesOK] in Hb. apply Nat.eqb_eq in Hb. subst d.
    destruct cnt as [|[|cnt]]; cbn [List.length] in Hcnt; try lia.
    cbn [app] in Hr. rewrite (braces_step _ _ _ _ _ Hr) by lia.
    change (if Ascii.eqb "}" "{" then (Z.of_nat 1 + 1)%Z
            else if Ascii.eqb "}" "}" then (Z.of_nat 1 - 1)%Z else Z.of_nat 1)
      with 0%Z.
    rewrite braces_stop. cbn [pos at_ List.length]. f_equal. lia.
  - destruct cnt as [|cnt]; [lia|]. cbn [List.length] in Hcnt.
    cbn [app] in Hr. rewrite (braces_step _ _ _ _ _ Hr) by lia.
    assert (Hr1 : rest (at_ st (pos st + 1)) = (body ++ "}"%char :: tail)%list)
      by (rewrite rest_at_S, Hr; reflexivity).
    cbn [bracesOK] in Hb.
    destruct (Ascii.eqb c "{") eqn:Ho.
    + replace (Z.of_nat (S d) + 1)%Z with (Z.of_nat (S (S d))) by lia.
      rewrite (IH (S d) cnt (at_ st (pos st + 1)) tail Hb Hr1) by lia.
      cbn [pos at_ List.length]. f_equal; lia.
    + destruct (Ascii.eqb c "}") eqn:Hcl.
      * destruct d as [|d]; [discriminate|].
        replace (Z.of_nat (S (S d)) - 1)%Z with (Z.of_nat (S d)) by lia.
        rewrite (IH d cnt (at_ st (pos st + 1)) tail Hb Hr1) by lia.
        cbn [pos at_ List.length]. f_equal; lia.
      * rewrite (IH d cnt (at_ st (pos st + 1)) tail Hb Hr1) by lia.
        cbn [pos at_ List.length]. f_equal; lia.
Qed.

Lemma parseUnknownBlock_pos (fuel : nat) (st : State) (h body tail : list ascii) :
  rest st = (h ++ "{"%char :: body ++ "}"%char :: tail)%list ->
  forallb notOpenBrace h = true -> bracesOK 0 body = true ->
  List.length h < fuel -> List.length body + 1 < fuel -> span isSpace tail < fuel ->
  parseUnknownBlock fuel st
  = Ok tt (pos st + List.length h + 1 + List.length body + 1 + span isSpace tail).
Proof.
  intros Hr Hh Hb Hf1 Hf2 Hf3. unfold parseUnknownBlock.
  assert (Hspan : span notOpenBrace (rest st) = List.length h).
  { rewrite Hr. apply span_all_stop; [exact Hh | reflexivity]. }
  assert (H1 : while_ fuel
             (fun _ => c <- peek ;;
                       ret (match c with Some a => negb (Ascii.eqb a "{") | None => false end))
             (fun _ => advance) tt st = Ok tt (pos st + List.length h)).
  { rewrite <- Hspan.
    apply (scan_pos notOpenBrace
             (fun c => match c with Some a => negb (Ascii.eqb a "{") | None => false end));
      [reflexivity | right; reflexivity | rewrite Hspan; exact Hf1]. }
  rewrite (bind_Ok_eq _ _ _ _ _ H1). unfold bind at 1. unfold advance, advanceBy.
  cbn [pos at_].
  change (at_ (at_ st (pos st + List.length h)) (pos st + List.length h + 1))
    with (at_ st (pos st + List.length h + 1)).
  assert (Hr1 : rest (at_ st (pos st + List.length h + 1))
                = (body ++ "}"%char :: tail)%list).
  { rewrite <- Nat.add_assoc, rest_at, Hr.
    replace (List.length h + 1) with (List.length (h ++ ["{"%char])%list)
      by (rewrite length_app; reflexivity).
    change (h ++ "{"%char :: body ++ "}"%char :: tail)%list
      with (h ++ ["{"%char] ++ body ++ "}"%char :: tail)%list.
    rewrite app_assoc. apply skipn_length_app. }
  pose proof (braces_loop body 0 fuel _ tail Hb Hr1 Hf2) as H2.
  rewrite (bind_Ok_eq _ _ _ _ _ H2). cbn [pos at_].
  match goal with |- parseSpace _ ?s = _ => set (st2 := s) end.
  assert (Hr2 : rest st2 = tail).
  { unfold st2. rewrite at_at.
    replace (pos st + List.length h + 1 + List.length body + 1)
      with (pos st + List.length ((h ++ ["{"%char]) ++ body ++ ["}"%char])%list)
      by (rewrite !length_app; cbn [List.length]; lia).
    rewrite rest_at, Hr.
    replace (h ++ "{"%char :: body ++ "}"%char :: tail)%list
      with (((h ++ ["{"%char]) ++ body ++ ["}"%char]) ++ tail)%list
      by (rewrite <- !app_assoc; reflexivity).
    apply skipn_length_app. }
  destruct (parseSpace_pos fuel st2) as [H3 _]; [rewrite Hr2; exact Hf3|].
  rewrite H3, Hr2. reflexivity.
Qed.

Section UnknownBlock.
Context {num : Type} {JN : JSNumber num}.
Variable E : Enums.

Lemma lookupParser_unknown (fuel : nat) (k : string) :
  existsb (String.eqb k) blockKeywords = false ->
  lookupParser (parsers (num := num) fuel E) k = None.
Proof.
  unfold blockKeywords, parsers. cbn [existsb lookupParser]. intros H.
  repeat (apply orb_false_iff in H; destruct H as [H0 H]; rewrite String.eqb_sym in H0;
          rewrite H0; clear H0).
  reflexivity.
Qed.

Lemma unknownBlock_length (kw hdr body : string) :
  String.length (unknownBlock kw hdr body)
  = String.length kw + String.length hdr + 1 + String.length body + 1.
Proof.
  unfold unknownBlock. rewrite !string_length_append. cbn [String.length]. lia.
Qed.

Lemma parseBlock_unknown (fuel : nat) (m : Model num) (st : State)
    (kw hdr body s : string) :
  rest st = list_ascii_of_string (unknownBlock kw hdr body ++ s) ->
  isKeyword kw = true ->
  existsb (String.eqb kw) blockKeywords = false ->
  existsb (String.eqb kw) inheritedProperties = false ->
  endsKeyword (hdr ++ "{") = true -> noOpenBrace hdr = true -> balanced body = true ->
  String.length (unknownBlock kw hdr body) + span isSpace (list_ascii_of_string s) < fuel ->
  parseBlock fuel E m st
  = Ok (true, m)
      (pos st + String.length (unknownBlock kw hdr body)
       + span isSpace (list_ascii_of_string s)).
Proof.
  intros Hr Hk Hb Hi He Hh Hbal Hf.
  rewrite unknownBlock_length in Hf.
  set (L := (list_ascii_of_string hdr
             ++ "{"%char :: list_ascii_of_string body
             ++ "}"%char :: list_ascii_of_string s)%list).
  assert (Hr' : rest st = (list_ascii_of_string kw ++ L)%list).
  { rewrite Hr. unfold unknownBlock, L. rewrite !list_of_append.
    cbn [list_ascii_of_string]. rewrite <- !app_assoc. reflexivity. }
  assert (HL : exists x r, L = x :: r /\ isAlnum x = false).
  { unfold L. destruct hdr as [|c hdr']; cbn [list_ascii_of_string app append endsKeyword] in *.
    - eexists. eexists. split; [reflexivity|reflexivity].
    - eexists. eexists. split; [reflexivity|]. apply negb_true_iff. exact He. }
  destruct HL as (x & r & HL & Hx).
  assert (HLlen : span isSpace L <= String.length hdr).
  { destruct (skipSpace_header (list_ascii_of_string hdr)
                (list_ascii_of_string body ++ "}"%char :: list_ascii_of_string s) Hh)
      as (h' & _ & _ & H3). fold L in H3. rewrite length_list_of_string in H3. lia. }
  unfold parseBlock. destruct fuel as [|n]; [lia|].
  assert (Hloop : while_ (S n) (fun _ => parseComment (S n)) (fun _ => ret tt) tt st
                  = Ok tt (pos st)).
  { rewrite while_S, (parseComment_none (S n) st _ Hr); [reflexivity|].
    unfold unknownBlock. rewrite string_append_assoc.
    apply keyword_not_comment. exact Hk. }
  rewrite (bind_Ok_eq _ _ _ _ _ Hloop), at_pos.
  assert (Hkw : parseKeyword (S n) st
                = Ok (Some kw) (pos st + String.length kw + span isSpace L)).
  { rewrite HL in *. apply parseKeyword_text_pos with (r := r); try assumption; lia. }
  rewrite (bind_Ok_eq _ _ _ _ _ Hkw). cbv beta iota.
  rewrite (lookupParser_unknown (S n) kw Hb).
  destruct (skipSpace_header (list_ascii_of_string hdr)
              (list_ascii_of_string body ++ "}"%char :: list_ascii_of_string s) Hh)
    as (h' & H1 & H2 & H3). fold L in H1, H3. rewrite length_list_of_string in H3.
  set (st1 := at_ st (pos st + String.length kw + span isSpace L)).
  assert (Hr1 : rest st1 = (h' ++ "{"%char :: list_ascii_of_string body
                                ++ "}"%char :: list_ascii_of_string s)%list).
  { unfold st1. rewrite <- Nat.add_assoc, rest_at, Hr', <- length_list_of_string.
    rewrite (Nat.add_comm (List.length (list_ascii_of_string kw))), <- skipn_skipn.
    rewrite skipn_length_app. exact H1. }
  assert (Hub : parseUnknownBlock (S n) st1
                = Ok tt (pos st1 + List.length h' + 1
                         + List.length (list_ascii_of_string body) + 1
                         + span isSpace (list_ascii_of_string s))).
  { apply parseUnknownBlock_pos; try assumption;
      rewrite ?length_list_of_string; lia. }
  rewrite Hi. rewrite (bind_Ok_eq _ _ _ _ _ Hub). unfold ret. cbn [pos at_].
  f_equal. unfold st1. cbn [pos at_]. rewrite unknownBlock_length, length_list_of_string.
  lia.
Qed.

Lemma turns_shift (pre : list ascii) (k fuel : nat) (m : Model num) :
  shifts pre
    (r <- (r <- while_ k (fun r : bool * Model num => if fst r then inBounds else ret false)
                  (fun r => parseBlock fuel E (snd r)) (true, m) ;;
           ret (snd r)) ;;
     finalize r).
Proof.
  unfold finalize, shifts.
  apply shifts_bind; [|shift_auto].
  apply shifts_bind; [|shift_auto].
  apply shifts2_while; [shift_auto | intros r; apply parseBlock_shifts].
Qed.

Lemma turns_extend (k fuel fuel' : nat) (m : Model num) :
  fuel <= k -> fuel <= fuel' ->
  extends (parseFrom fuel E m)
    (r <- (r <- while_ k (fun r : bool * Model num => if fst r then inBounds else ret false)
                  (fun r => parseBlock fuel' E (snd r)) (true, m) ;;
           ret (snd r)) ;;
     finalize r).
Proof.
  intros Hk Hf. unfold parseFrom, parseBlocks.
  apply extends_bind; [|fuel_auto].
  apply extends_bind; [|fuel_auto].
  apply extends_while; [fuel_auto | intros r; apply parseBlock_extends; exact Hf | exact Hk].
Qed.

(** X10.  A block whose keyword is neither a key of [parsers] nor a
    property that [parsers] inherits, with a header without brace and a
    body of matched braces, is skipped together with the white space behind
    it: the turn of the top-level loop returns the scene it was given, and
    when [parse] returns or throws on the text [s] behind the block, it does
    the same on the source with the block, shifted by the length of the
    block. *)
Theorem unknown_block_is_skipped (fuel fuel' : nat) (kw hdr body ws s : string) :
  isKeyword kw = true ->
  existsb (String.eqb kw) blockKeywords = false ->
  existsb (String.eqb kw) inheritedProperties = false ->
  endsKeyword (hdr ++ "{") = true -> noOpenBrace hdr = true -> balanced body = true ->
  allSpace ws = true -> startsSpace s = false ->
  fuel < fuel' -> String.length (unknownBlock kw hdr body ++ ws) < fuel' ->
  (forall (m : Model num) (st : State),
     rest st = list_ascii_of_string (unknownBlock kw hdr body ++ ws ++ s) ->
     parseBlock fuel' E m st
     = Ok (true, m) (pos st + String.length (unknownBlock kw hdr body ++ ws))) /\
  (parse fuel E s <> Diverge ->
   parse fuel' E (unknownBlock kw hdr body ++ ws ++ s)
   = shiftResult (String.length (unknownBlock kw hdr body ++ ws)) id (parse fuel E s)).
Proof.
  intros Hk Hb Hi He Hh Hbal Hw Hs Hlt Hf.
  rewrite string_length_append in *.
  assert (Hblock : forall (m : Model num) (st : State),
     rest st = list_ascii_of_string (unknownBlock kw hdr body ++ ws ++ s) ->
     parseBlock fuel' E m st
     = Ok (true, m) (pos st + (String.length (unknownBlock kw hdr body) + String.length ws))).
  { intros m st Hr.
    rewrite (parseBlock_unknown fuel' m st kw hdr body (ws ++ s) Hr);
      rewrite ?(span_all_space ws s Hw Hs); try assumption.
    f_equal. lia. }
  split; [exact Hblock|]. intros Hnd.
  set (n := String.length (unknownBlock kw hdr body) + String.length ws) in *.
  unfold parse in *. unfold parseFrom at 1. unfold parseBlocks.
  set (st0 := mkState (list_ascii_of_string (unknownBlock kw hdr body ++ ws ++ s)) 0).
  destruct fuel' as [|k]; [lia|].
  assert (Hin : inBounds st0 = Ok true 0).
  { rewrite inBounds_rest. unfold st0, rest. cbn [pos str skipn].
    destruct kw; [discriminate|reflexivity]. }
  assert (Hturn : while_ (S k)
                    (fun r : bool * Model num => if fst r then inBounds else ret false)
                    (fun r => parseBlock (S k) E (snd r)) (true, initialModel) st0
                  = while_ k
                      (fun r : bool * Model num => if fst r then inBounds else ret false)
                      (fun r => parseBlock (S k) E (snd r)) (true, initialModel)
                      (at_ st0 n)).
  { rewrite while_S. cbn [fst snd]. rewrite Hin.
    change (at_ st0 0) with st0. rewrite (Hblock initialModel st0 eq_refl). reflexivity. }
  assert (Hst : at_ st0 n
                = shift (list_ascii_of_string (unknownBlock kw hdr body ++ ws))
                    (mkState (list_ascii_of_string s) 0)).
  { unfold st0, at_, shift. cbn [str pos].
    rewrite length_list_of_string, string_length_append, Nat.add_0_r.
    rewrite <- list_of_append, string_append_assoc. reflexivity. }
  transitivity
    ((r <- (r <- while_ k
                   (fun r : bool * Model num => if fst r then inBounds else ret false)
                   (fun r => parseBlock (S k) E (snd r)) (true, initialModel) ;;
            ret (snd r)) ;;
      finalize r) (at_ st0 n)).
  { unfold bind. rewrite Hturn. reflexivity. }
  rewrite Hst, turns_shift, length_list_of_string, string_length_append. fold n.
  f_equal. apply turns_extend; [lia | lia | exact Hnd].
Qed.

End UnknownBlock.

(** X9, a witness: a space before a [Version] block. *)
Lemma text_that_opens_no_block_is_ignored_witness :
  refParse 60 spaceBeforeInput = Ok initialModel 0.
Proof.
  apply (proj1 (text_that_opens_no_block_is_ignored (JN := JSNumber_DecNum) refEnums 60
                  spaceBeforeInput ltac:(lia) eq_refl eq_refl)).
Defined.

(** X10, a witness: a block [Foo] with nested braces before a [Version]
    block. *)
Lemma unknown_block_is_skipped_witness :
  refParse 80 (unknownBlock "Foo" " 1 " " a { b } c " ++ " " ++ versionInput)
  = shiftResult (String.length (unknownBlock "Foo" " 1 " " a { b } c " ++ " ")) id
      (refParse 60 versionInput).
Proof.
  apply (proj2 (unknown_block_is_skipped (JN := JSNumber_DecNum) refEnums 60 80
                  "Foo" " 1 " " a { b } c " " " versionInput
                  eq_refl eq_refl eq_refl eq_refl eq_refl eq_refl eq_refl eq_refl
                  ltac:(lia) ltac:(vm_compute; lia))).
  vm_compute. discriminate.
Defined.

(** ** What the handlers store *)

Section FormatVersion.
Context {num : Type} {JN : JSNumber num}.
Variable E : Enums.

(** X12.  A [Version] block stores its [FormatVersion] when the number is
    truthy; for 0 and for a lexeme that is no number the version stays the
    default, 800. *)
Theorem format_version_is_stored_when_truthy (fuel : nat) (n : string) :
  isNumberLexeme n = true -> 40 + String.length n <= fuel ->
  parsesTo fuel E (versionText n)
    (fun m : Model num =>
       Version m = if toBoolean (parseFloat n) then VNum (parseFloat n)
                   else VNum (ofZ 800)).
Proof.
  intros Hn Hf. apply parse_returns_with.
  unfold versionText. rewrite !list_of_append.
  assert (Hnum : returns (parseNumber (num := num) fuel)
                   (list_ascii_of_string n ++ list_ascii_of_string ", }")
                   (Some (parseFloat n)) (list_ascii_of_string ", }")).
  { apply (returns_number_text fuel n "," [" "%char; "}"%char]);
      [exact Hn | reflexivity | lia | simpl; lia]. }
  destruct (number_head n (list_ascii_of_string ", }") Hn) as [Hsp Hbr].
  assert (Hq : is_char (hd_error (list_ascii_of_string n ++ list_ascii_of_string ", }"))
                 dquote = false).
  { destruct n as [|c cs]; [discriminate|]. cbn [isNumberLexeme] in Hn.
    apply andb_true_iff in Hn as [Hc _]. cbn [list_ascii_of_string app hd_error is_char].
    destruct (Ascii.eqb_spec c dquote) as [->|]; [discriminate | reflexivity]. }
  assert (Hb : is_char (hd_error (list_ascii_of_string n ++ list_ascii_of_string ", }"))
                 "{" = false).
  { destruct n as [|c cs]; [discriminate|]. cbn [isNumberLexeme] in Hn.
    apply andb_true_iff in Hn as [Hc _]. cbn [list_ascii_of_string app hd_error is_char].
    destruct (Ascii.eqb_spec c "{") as [->|]; [discriminate | reflexivity]. }
  set (tail := (list_ascii_of_string n ++ list_ascii_of_string ", }")%list) in *.
  clearbody tail. cbn [list_ascii_of_string app append].
  destruct (toBoolean (parseFloat n)) eqn:Ht; eexists; eexists;
    (split; [unfold parseFrom; eapply returns_bind; [run|]; simpl; rewrite Ht; run|]);
    reflexivity.
Qed.

End FormatVersion.

(** X12, a witness: the versions 1000 and 0. *)
Lemma format_version_is_stored_when_truthy_witness :
  parsesTo 60 refEnums (versionText "1000")
    (fun m : Model DecNum.t => Version m = VNum (DecNum.ofZ 1000)) /\
  parsesTo 60 refEnums (versionText "0")
    (fun m : Model DecNum.t => Version m = VNum (DecNum.ofZ 800)).
Proof.
  split.
  - destruct (format_version_is_stored_when_truthy (JN := JSNumber_DecNum) refEnums 60
                "1000" eq_refl ltac:(vm_compute; lia)) as (m & p & Hp & Hv).
    exists m, p. split; [exact Hp|]. rewrite Hv. vm_compute. reflexivity.
  - destruct (format_version_is_stored_when_truthy (JN := JSNumber_DecNum) refEnums 60
                "0" eq_refl ltac:(vm_compute; lia)) as (m & p & Hp & Hv).
    exists m, p. split; [exact Hp|]. rewrite Hv. vm_compute. reflexivity.
Defined.

Section Arrays.
Context {num : Type} {JN : JSNumber num}.
Variable fuel : nat.

Lemma numbersText_head (ns : list string) (tail : list ascii) :
  forallb isNumberLexeme ns = true ->
  span isSpace (list_ascii_of_string (numbersText ns) ++ "}"%char :: tail) = 0.
Proof.
  destruct ns as [|n ns]; [reflexivity|]. cbn [forallb numbersText]. intros H.
  apply andb_true_iff in H as [Hn _]. rewrite list_of_append, <- app_assoc.
  apply (number_head n _ Hn).
Qed.

Lemma numbers_loop {A} (store : A -> num -> A) (tail : list ascii) (ns : list string) :
  forall (cnt : nat) (a : A),
    forallb isNumberLexeme ns = true ->
    String.length (numbersText ns) < fuel -> List.length ns < cnt ->
    returns (while_ cnt (fun _ => charIsNot "}") (arrayEntry fuel store) a)
      (list_ascii_of_string (numbersText ns) ++ "}"%char :: tail)
      (fold_left store (map parseFloat ns) a) ("}"%char :: tail).
Proof.
  induction ns as [|n ns IH]; intros cnt a Hns Hf Hcnt.
  - cbn [numbersText list_ascii_of_string app map fold_left].
    apply returns_while_stop; [cbn [List.length] in Hcnt; lia|].
    eapply run_value; [apply returns_charIsNot | reflexivity | reflexivity].
  - cbn [forallb] in Hns. apply andb_true_iff in Hns as [Hn Hns].
    cbn [numbersText] in *. rewrite !string_length_append in Hf. cbn [String.length] in Hf.
    rewrite !list_of_append, <- !app_assoc. cbn [list_ascii_of_string app map fold_left].
    set (rest' := (list_ascii_of_string (numbersText ns) ++ "}"%char :: tail)%list).
    pose proof (numbersText_head ns tail Hns) as Hsp. fold rest' in Hsp.
    destruct (number_head n (","%char :: " "%char :: rest') Hn) as [_ Hb].
    cbn [List.length] in Hcnt.
    eapply returns_while_step; [lia | | |].
    + eapply run_value; [apply returns_charIsNot | rewrite Hb; reflexivity | reflexivity].
    + unfold arrayEntry. eapply returns_bind.
      * apply (returns_number_text fuel n "," (" "%char :: rest'));
          [exact Hn | reflexivity | lia | simpl; lia].
      * cbv beta iota. eapply returns_bind; [|apply returns_ret].
        change (skipSpace (","%char :: " "%char :: rest')) with (","%char :: " "%char :: rest').
        eapply run_value; [apply returns_parseSymbol | reflexivity |].
        -- cbn [span]. change (isSpace " ") with true. cbv iota. rewrite Hsp. lia.
        -- unfold skipSpace. cbn [span]. change (isSpace " ") with true. cbv iota.
           rewrite Hsp. reflexivity.
    + replace (cnt - 1 - 0) with (cnt - 1) by lia. apply IH; [exact Hns | lia | lia].
Qed.

Lemma returns_arrayLoop {A} (store : A -> num -> A) (a : A) (ns : list string)
    (tail : list ascii) :
  forallb isNumberLexeme ns = true ->
  String.length (arrayText ns) + span isSpace tail < fuel ->
  returns (arrayLoop fuel store a) (list_ascii_of_string (arrayText ns) ++ tail)
    (fold_left store (map parseFloat ns) a) (skipSpace tail).
Proof.
  intros Hns Hf. unfold arrayText in *. rewrite !string_length_append in Hf.
  cbn [String.length] in Hf.
  assert (Hlen : List.length ns <= String.length (numbersText ns)).
  { clear - Hns. induction ns as [|n ns IH]; [cbn; lia|]. cbn [forallb] in Hns.
    apply andb_true_iff in Hns as [_ Hns]. cbn [numbersText List.length].
    rewrite !string_length_append. cbn [String.length]. specialize (IH Hns). lia. }
  rewrite !list_of_append, <- !app_assoc. cbn [list_ascii_of_string app].
  unfold arrayLoop. eapply returns_bind.
  - eapply run_value; [apply returns_strictParseSymbol | reflexivity |].
    + cbn [span]. change (isSpace " ") with true. cbv iota.
      rewrite (numbersText_head ns tail Hns). lia.
    + unfold skipSpace. cbn [span]. change (isSpace " ") with true. cbv iota.
      rewrite (numbersText_head ns tail Hns). reflexivity.
  - eapply returns_bind; [apply numbers_loop; [exact Hns | lia | lia]|].
    eapply returns_bind; [apply returns_strictParseSymbol; lia | apply returns_ret].
Qed.

(** The stores into a typed array: behind its end they are ignored. *)
Lemma list_set_app_l {A} (l r : list A) (x y : A) (i : nat) :
  i = List.length l -> list_set (l ++ x :: r) i y = (l ++ y :: r)%list.
Proof.
  intros ->. induction l as [|h l IH]; cbn [app list_set List.length]; [reflexivity|].
  rewrite IH. reflexivity.
Qed.

Lemma list_set_beyond {A} (l : list A) (y : A) (i : nat) :
  List.length l <= i -> list_set l i y = l.
Proof.
  revert i. induction l as [|h l IH]; intros i Hi; [destruct i; reflexivity|].
  cbn [List.length] in Hi. destruct i as [|i]; [lia|]. cbn [list_set].
  rewrite IH by lia. reflexivity.
Qed.

Lemma storeTyped_beyond (k : elemKind) (xs : list num) :
  forall (l : list num) (i : nat),
    List.length l <= i ->
    fold_left storeTyped xs (mkTyped k l, i) = (mkTyped k l, i + List.length xs).
Proof.
  induction xs as [|x xs IH]; intros l i Hi.
  - cbn [fold_left List.length]. rewrite Nat.add_0_r. reflexivity.
  - cbn [fold_left List.length]. unfold storeTyped at 2. cbn [fst snd].
    unfold typedSet. cbn [kind elems]. rewrite list_set_beyond by exact Hi.
    rewrite IH by lia. f_equal. lia.
Qed.

Lemma storeTyped_fold (k : elemKind) (xs : list num) :
  forall (done : list num) (zeros : nat),
    fold_left storeTyped xs (mkTyped k (done ++ repeat (ofZ 0) zeros)%list, List.length done)
    = (mkTyped k (done ++ firstn zeros (map (coerce k) xs)
                    ++ repeat (ofZ 0) (zeros - List.length xs))%list,
       List.length done + List.length xs).
Proof.
  induction xs as [|x xs IH]; intros done zeros.
  - cbn [fold_left map firstn List.length]. rewrite firstn_nil, Nat.sub_0_r, Nat.add_0_r.
    reflexivity.
  - cbn [fold_left map List.length]. unfold storeTyped at 2. cbn [fst snd].
    unfold typedSet. cbn [kind elems].
    destruct zeros as [|z].
    + cbn [repeat firstn Nat.sub app]. rewrite app_nil_r.
      rewrite list_set_beyond by lia. rewrite storeTyped_beyond by lia.
      f_equal. lia.
    + cbn [repeat]. rewrite list_set_app_l by reflexivity.
      replace (done ++ coerce k x :: repeat (ofZ 0) z)%list
        with ((done ++ [coerce k x]) ++ repeat (ofZ 0) z)%list
        by (rewrite <- app_assoc; reflexivity).
      replace (S (List.length done)) with (List.length (done ++ [coerce k x])%list)
        by (rewrite length_app; cbn [List.length]; lia).
      rewrite IH. rewrite <- app_assoc. cbn [firstn app Nat.sub].
      f_equal. rewrite length_app. cbn [List.length]. lia.
Qed.

(** X13.  [parseArray] into a zero-filled typed array of length [len]
    stores the numbers of the source in their order, each converted to the
    element kind: the numbers behind the [len]-th are dropped without an
    error, and the elements for which the source has no number stay 0. *)
Theorem typed_array_is_truncated_or_padded (k : elemKind) (len : nat) (ns : list string)
    (tail : string) :
  forallb isNumberLexeme ns = true ->
  String.length (arrayText ns) + span isSpace (list_ascii_of_string tail) < fuel ->
  returns (parseArray fuel (Some (newTyped k len)) 0)
    (list_ascii_of_string (arrayText ns ++ tail))
    (VTyped (filled k len (map parseFloat ns)))
    (skipSpace (list_ascii_of_string tail)).
Proof.
  intros Hns Hf. rewrite list_of_append. unfold parseArray.
  eapply returns_bind; [apply returns_charIsNot|].
  change (negb (is_char (hd_error (list_ascii_of_string (arrayText ns)
                                     ++ list_ascii_of_string tail)) "{")) with false.
  cbv iota. eapply returns_bind; [apply returns_arrayLoop; assumption|].
  eapply run_value; [apply returns_ret | | reflexivity].
  f_equal. unfold newTyped, filled.
  pose proof (storeTyped_fold k (map parseFloat ns) [] len) as H.
  cbn [app List.length Nat.add] in H. rewrite H. cbn [fst]. rewrite length_map. reflexivity.
Qed.

End Arrays.

(** X13, a witness: four numbers for three elements, and one. *)
Lemma typed_array_is_truncated_or_padded_witness :
  exists a b : TypedArray DecNum.t,
    returns (parseArray 40 (Some (newTyped Float32 3)) 0)
      (list_ascii_of_string (arrayText ["1"; "2"; "3"; "4"] ++ "")) (VTyped a) [] /\
    returns (parseArray 40 (Some (newTyped Float32 3)) 0)
      (list_ascii_of_string (arrayText ["7"] ++ "")) (VTyped b) [] /\
    a = mkTyped Float32 [DecNum.ofZ 1; DecNum.ofZ 2; DecNum.ofZ 3] /\
    b = mkTyped Float32 [DecNum.ofZ 7; DecNum.ofZ 0; DecNum.ofZ 0].
Proof.
  eexists. eexists. split; [|split; [|split]].
  - apply (typed_array_is_truncated_or_padded (JN := JSNumber_DecNum) 40 Float32 3
             ["1"; "2"; "3"; "4"] ""); [reflexivity | vm_compute; lia].
  - apply (typed_array_is_truncated_or_padded (JN := JSNumber_DecNum) 40 Float32 3
             ["7"] ""); [reflexivity | vm_compute; lia].
  - vm_compute. reflexivity.
  - vm_compute. reflexivity.
Defined.

(** Keys of the records that [setProp] builds. *)
Section ObjectFacts.
Context {num : Type}.

Lemma hasProp_In (o : obj num) (k : string) : hasProp o k = true <-> In k (map fst o).
Proof.
  induction o as [|[k' v] o IH]; cbn [hasProp map fst In]; [split; [discriminate|intros []]|].
  rewrite orb_true_iff, IH, String.eqb_eq. reflexivity.
Qed.

Lemma setProp_keys (o : obj num) (k : string) (v : value num) (k' : string) :
  In k' (map fst (setProp o k v)) <-> k' = k \/ In k' (map fst o).
Proof.
  induction o as [|[k0 v0] o IH]; cbn [setProp map fst In]; [intuition congruence|].
  destruct (String.eqb_spec k0 k) as [->|Hne]; cbn [map fst In]; [intuition congruence|].
  rewrite IH. intuition congruence.
Qed.

Lemma setProp_nodup (o : obj num) (k : string) (v : value num) :
  NoDup (map fst o) -> NoDup (map fst (setProp o k v)).
Proof.
  induction o as [|[k0 v0] o IH]; cbn [setProp map fst]; intros H.
  - constructor; [intros []|constructor].
  - inversion H as [|? ? Hn Hd]; subst.
    destruct (String.eqb_spec k0 k) as [->|Hne]; cbn [map fst].
    + constructor; assumption.
    + constructor; [|apply IH; exact Hd].
      rewrite setProp_keys. intros [->|Hin]; [congruence | contradiction].
Qed.

Lemma hasProp_setProp_other (o : obj num) (k k' : string) (v : value num) :
  k' <> k -> hasProp (setProp o k v) k' = hasProp o k'.
Proof.
  intros Hne. destruct (hasProp o k') eqn:H.
  - apply hasProp_In. rewrite setProp_keys. right. apply hasProp_In. exact H.
  - destruct (hasProp (setProp o k v) k') eqn:H'; [|reflexivity].
    apply hasProp_In in H'. rewrite setProp_keys in H'. destruct H' as [->|Hin];
      [contradiction|]. apply hasProp_In in Hin. congruence.
Qed.

Lemma deleteProp_keys (o : obj num) (k k' : string) :
  In k' (map fst (deleteProp o k)) -> In k' (map fst o).
Proof.
  induction o as [|[k0 v0] o IH]; cbn [deleteProp map fst In]; [tauto|].
  destruct (k0 == k); cbn [map fst In]; tauto.
Qed.

Lemma deleteProp_keys_other (o : obj num) (k k' : string) :
  k' <> k -> In k' (map fst o) -> In k' (map fst (deleteProp o k)).
Proof.
  intros Hne. induction o as [|[k0 v0] o IH]; cbn [deleteProp map fst In]; [tauto|].
  destruct (String.eqb_spec k0 k) as [->|H0]; cbn [map fst In].
  - intros [->|H]; [contradiction | exact H].
  - tauto.
Qed.

Lemma deleteProp_nodup (o : obj num) (k : string) :
  NoDup (map fst o) -> NoDup (map fst (deleteProp o k)).
Proof.
  induction o as [|[k0 v0] o IH]; cbn [deleteProp map fst]; intros H; [constructor|].
  inversion H as [|? ? Hn Hd]; subst. destruct (k0 == k); [exact Hd|].
  cbn [map fst]. constructor; [|apply IH; exact Hd].
  intros Hin. apply Hn. eapply deleteProp_keys. exact Hin.
Qed.

Lemma hasProp_deleteProp_same (o : obj num) (k : string) :
  NoDup (map fst o) -> hasProp (deleteProp o k) k = false.
Proof.
  induction o as [|[k0 v0] o IH]; cbn [deleteProp map fst hasProp]; intros H;
    [reflexivity|].
  inversion H as [|? ? Hn Hd]; subst.
  destruct (String.eqb_spec k0 k) as [->|Hne].
  - destruct (hasProp o k) eqn:Hh; [|reflexivity]. apply hasProp_In in Hh. contradiction.
  - cbn [hasProp]. rewrite (proj2 (String.eqb_neq k0 k) Hne), IH by exact Hd. reflexivity.
Qed.

Lemma hasProp_deleteProp_other (o : obj num) (k k' : string) :
  hasProp o k' = false -> hasProp (deleteProp o k) k' = false.
Proof.
  intros H. destruct (hasProp (deleteProp o k) k') eqn:H'; [|reflexivity].
  apply hasProp_In in H'. apply deleteProp_keys in H'. apply hasProp_In in H'. congruence.
Qed.

Lemma getProp_deleteProp_other (o : obj num) (k k' : string) :
  k' <> k -> getProp (deleteProp o k) k' = getProp o k'.
Proof.
  intros Hne. induction o as [|[k0 v0] o IH]; cbn [deleteProp getProp]; [reflexivity|].
  destruct (String.eqb_spec k0 k) as [->|H0]; cbn [getProp].
  - rewrite (proj2 (String.eqb_neq k k')) by congruence. reflexivity.
  - rewrite IH. reflexivity.
Qed.

End ObjectFacts.

Section Normalised.
Context {num : Type} {JN : JSNumber num}.
Variable fuel : nat.
Variable E : Enums.

Lemma objectEntry_nodup (o o' : obj num) st p :
  NoDup (map fst o) -> objectEntry fuel o st = Ok o' p -> NoDup (map fst o').
Proof.
  unfold objectEntry. intros Hn H. bind_inv H. destruct a as [k|]; [|discriminate].
  bind_inv H. bind_inv H. ret_inv H. apply setProp_nodup. exact Hn.
Qed.

Lemma parseObject_nodup (r : value num * obj num) st p :
  parseObject fuel st = Ok r p -> NoDup (map fst (snd r)).
Proof.
  unfold parseObject. intros H. unbind H. ret_inv H. cbn [snd].
  match goal with
  | K : while_ _ _ _ _ _ = Ok _ _ |- _ =>
      eapply (loop_invariant fuel (fun o : obj num => NoDup (map fst o))) in K;
        [exact K | intros ? ? ? ? ? ?; eapply objectEntry_nodup; eassumption | constructor]
  end.
Qed.

Lemma textureEntry_ok (res res' : list (value num)) st p :
  Forall textureOK res -> textureEntry fuel res st = Ok res' p -> Forall textureOK res'.
Proof.
  unfold textureEntry. intros Hres H. bind_inv H. bind_inv H. ret_inv H.
  apply parseObject_nodup in H1. destruct a0 as [prefix o]. cbn [snd] in *.
  unfold push. apply Forall_app. split; [exact Hres|]. constructor; [|constructor].
  set (ww := hasProp o "WrapWidth"). set (wh := hasProp o "WrapHeight").
  set (v := VNum (ofZ (0 + (if ww then TextureFlags "WrapWidth" else 0)
                         + (if wh then TextureFlags "WrapHeight" else 0))%Z)).
  set (o1 := setProp o "Flags" v).
  assert (N1 : NoDup (map fst o1)) by (apply setProp_nodup; exact H1).
  assert (W1 : hasProp o1 "WrapWidth" = ww)
    by (apply hasProp_setProp_other; discriminate).
  assert (H1' : hasProp o1 "WrapHeight" = wh)
    by (apply hasProp_setProp_other; discriminate).
  assert (F1 : getProp o1 "Flags" = v) by apply getProp_setProp_same.
  set (o2 := if ww then deleteProp o1 "WrapWidth" else o1).
  assert (N2 : NoDup (map fst o2)) by (unfold o2; destruct ww; [apply deleteProp_nodup|]; exact N1).
  assert (W2 : hasProp o2 "WrapWidth" = false).
  { unfold o2. destruct ww eqn:Hww; [apply hasProp_deleteProp_same; exact N1 | exact W1]. }
  assert (F2 : getProp o2 "Flags" = v).
  { unfold o2. destruct ww; [rewrite getProp_deleteProp_other by discriminate|]; exact F1. }
  eexists. split; [reflexivity|]. fold ww wh v o1 o2.
  split; [|split].
  - destruct wh; [apply hasProp_deleteProp_other|]; exact W2.
  - destruct wh eqn:Hwh; [apply hasProp_deleteProp_same; exact N2|].
    unfold o2. destruct ww; [apply hasProp_deleteProp_other|]; exact H1'.
  - exists ww, wh. destruct wh; [rewrite getProp_deleteProp_other by discriminate|];
      exact F2.
Qed.

Lemma sequenceEntry_ok (res res' : list (value num)) st p :
  Forall sequenceOK res -> sequenceEntry fuel res st = Ok res' p ->
  Forall sequenceOK res'.
Proof.
  unfold sequenceEntry. intros Hres H. bind_inv H. bind_inv H. ret_inv H.
  unfold push. apply Forall_app. split; [exact Hres|]. constructor; [|constructor].
  eexists. eexists. split; [reflexivity|]. apply getProp_setProp_same.
Qed.

Ltac kept H Hi :=
  unbind H; ret_inv H;
  try match goal with |- context [if ?c then _ else _] => destruct c end;
  try exact Hi.

Lemma handler_normalised (k : string) (h : Model num -> M (Model num)) m st m' p :
  lookupParser (parsers fuel E) k = Some h ->
  h m st = Ok m' p -> listsNormalised m -> listsNormalised m'.
Proof.
  intros Hl H Hi. unfold parsers in Hl. cbn [lookupParser] in Hl.
  repeat match type of Hl with
         | (if ?c then _ else _) = Some _ =>
             destruct c; [injection Hl as <-|]
         end; [..|discriminate].
  - unfold parseVersion in H. kept H Hi.
  - unfold parseModelInfo in H. kept H Hi.
  - unfold parseSequences in H. kept H Hi. destruct Hi as [Ht _]. split; [exact Ht|].
    cbn [Sequences set_Sequences].
    match goal with
    | K : while_ _ _ _ _ _ = Ok _ _ |- _ =>
        eapply (loop_invariant fuel (fun l => Forall sequenceOK l)) in K;
          [exact K | intros ? ? ? ? ? ?; eapply sequenceEntry_ok; eassumption | constructor]
    end.
  - unfold parseTextures in H. kept H Hi. destruct Hi as [_ Hs]. split; [|exact Hs].
    cbn [Textures set_Textures].
    match goal with
    | K : while_ _ _ _ _ _ = Ok _ _ |- _ =>
        eapply (loop_invariant fuel (fun l => Forall textureOK l)) in K;
          [exact K | intros ? ? ? ? ? ?; eapply textureEntry_ok; eassumption | constructor]
    end.
  - unfold parseMaterials in H. kept H Hi.
  - unfold parseGeoset in H. kept H Hi.
  - unfold parseGeosetAnim in H. kept H Hi.
  - unfold parseBone in H. bind_inv H. ret_inv H. apply parseNode_inv in H0.
    destruct H0 as (node & _ & Hm). unfold listsNormalised. cbn [Textures Sequences set_Bones].
    rewrite Hm. unfold setNode. destruct (arrayIndex _); exact Hi.
  - unfold parseHelper in H. bind_inv H. ret_inv H. apply parseNode_inv in H0.
    destruct H0 as (node & _ & Hm). unfold listsNormalised. cbn [Textures Sequences set_Helpers].
    rewrite Hm. unfold setNode. destruct (arrayIndex _); exact Hi.
  - unfold parseAttachment in H. bind_inv H. ret_inv H. apply parseNode_inv in H0.
    destruct H0 as (node & _ & Hm). unfold listsNormalised.
    cbn [Textures Sequences set_Attachments].
    rewrite Hm. unfold setNode. destruct (arrayIndex _); exact Hi.
  - unfold parsePivotPoints in H. kept H Hi.
    match goal with
    | |- context [allocAll m ?vs] => generalize vs
    end.
    intros vs. unfold listsNormalised. cbn [Textures Sequences set_PivotPoints].
    revert m Hi. induction vs as [|v vs IH]; intros m Hi; [exact Hi|].
    destruct v; cbn [allocAll fst]; try (apply IH; exact Hi).
  - unfold parseEventObject in H. kept H Hi.
  - unfold parseCollisionShape in H. kept H Hi.
  - unfold parseGlobalSequences in H. kept H Hi.
  - unfold parseParticleEmitter in H. kept H Hi.
  - unfold parseParticleEmitter2 in H. kept H Hi.
  - unfold parseCamera in H. kept H Hi.
  - unfold parseLight in H. kept H Hi.
  - unfold parseTextureAnims in H. kept H Hi.
  - unfold parseRibbonEmitter in H. kept H Hi.
Qed.


End Normalised.


(** ** The nodes and the pivot points of the scene *)

Section SceneInvariants.
Context {num : Type} {JN : JSNumber num}.
Variable fuel : nat.
Variable E : Enums.

Lemma assignPivot_buckets (m m' : Model num) (i : nat) :
  assignPivot m i = Some m' -> nodeBuckets m' = nodeBuckets m /\ Nodes m' = Nodes m.
Proof.
  unfold assignPivot. intros H. destruct (truthy _); [|injection H as <-; auto].
  destruct (nth i (Nodes m) VUndefined); try discriminate.
  destruct (nth_error (Store m) addr) as [[| | | | | | |o1| |]|]; try discriminate.
  injection H as <-. auto.
Qed.

Lemma assignPivots_listed (n : nat) :
  forall (i : nat) (m m' : Model num),
    assignPivots n i m = Some m' -> nodesListed m -> nodesListed m'.
Proof.
  induction n as [|n IH]; intros i m m' H Hi; simpl in H.
  - injection H as <-. exact Hi.
  - destruct (assignPivot m i) as [m1|] eqn:H1; [|discriminate].
    eapply IH; [exact H|]. apply assignPivot_buckets in H1. destruct H1 as [Hb HN].
    unfold nodesListed. rewrite Hb, HN. exact Hi.
Qed.

(** X16.  In the scene that [parse] returns no node record stands at two
    indices of [Nodes], every reference that [Nodes] holds points into the
    store, and every node of [Nodes] is also held by one of the eight
    buckets of nodes. *)
Theorem nodes_hold_each_record_once (s : string) (m : Model num) (p : nat) :
  parse fuel E s = Ok m p -> nodesDistinct m /\ nodesListed m.
Proof.
  unfold parse, parseFrom. intros H. bind_inv H. rename a into m0.
  unfold finalize in H.
  destruct (assignPivots (List.length (Nodes m0)) 0 m0) as [m1|] eqn:Hf;
    [|discriminate].
  ret_inv H.
  pose proof (parseBlocks_sharedInv _ _ _ _ _ _ H0 sharedInv_initial) as [Hd _].
  destruct (assignPivots_spec _ _ _ _ Hf Hd) as (HN & _ & HL & _).
  split.
  - unfold nodesDistinct. rewrite HN, HL. exact Hd.
  - eapply assignPivots_listed; [exact Hf|].
    eapply parseBlocks_listed; [exact H0 | apply nodesListed_initial].
Qed.

(** The store only grows under the handlers. *)
Lemma storeExtends_refl (m : Model num) : storeExtends m m.
Proof. exists []. rewrite app_nil_r. reflexivity. Qed.

Lemma storeExtends_trans (a b c : Model num) :
  storeExtends a b -> storeExtends b c -> storeExtends a c.
Proof.
  intros [n1 H1] [n2 H2]. exists (n1 ++ n2)%list. rewrite H2, H1, app_assoc. reflexivity.
Qed.

Lemma grows_storeExtends (m m' : Model num) : grows m m' -> storeExtends m m'.
Proof.
  intros [_ [[_ HS]|(x & HS & _)]].
  - exists []. rewrite HS, app_nil_r. reflexivity.
  - exists [x]. exact HS.
Qed.

Lemma parsePivotPoints_storeExtends (m m' : Model num) st p :
  parsePivotPoints fuel m st = Ok m' p -> storeExtends m m'.
Proof.
  unfold parsePivotPoints. intros H. unbind H. ret_inv H.
  match goal with
  | |- context [allocAll m ?vs] =>
      destruct (allocAll_frame vs m) as (new & HS & _)
  end.
  exists new. exact HS.
Qed.

Lemma handler_storeExtends (k : string) (h : Model num -> M (Model num)) m st m' p :
  lookupParser (parsers fuel E) k = Some h ->
  h m st = Ok m' p -> storeExtends m m'.
Proof.
  intros Hl H. unfold parsers in Hl. cbn [lookupParser] in Hl.
  repeat match type of Hl with
         | (if ?c then _ else _) = Some _ =>
             destruct c;
             [injection Hl as <-;
              first [ eapply parsePivotPoints_storeExtends; eassumption
                    | apply grows_storeExtends;
                      eauto using parseVersion_grows, parseModelInfo_grows,
                        parseSequences_grows, parseTextures_grows, parseMaterials_grows,
                        parseGeoset_grows, parseGeosetAnim_grows, parseBone_grows,
                        parseHelper_grows, parseAttachment_grows,
                        parseEventObject_grows, parseCollisionShape_grows,
                        parseGlobalSequences_grows, parseParticleEmitter_grows,
                        parseParticleEmitter2_grows, parseCamera_grows, parseLight_grows,
                        parseTextureAnims_grows, parseRibbonEmitter_grows ]
             |]
         end.
  discriminate.
Qed.

(** X18.  The top-level loop never changes a node record or a pivot
    vector once it is stored: the store it returns is the store it was
    given with the new objects behind.  (Only the finalization pass writes
    into a stored record.) *)
Theorem blocks_never_change_stored_records (m : Model num) (st : State) (m' : Model num)
    (p : nat) :
  parseBlocks fuel E m st = Ok m' p ->
  exists new, Store m' = (Store m ++ new)%list.
Proof.
  unfold parseBlocks. intros H. bind_inv H. ret_inv H.
  eapply (while_invariant (fun r : bool * Model num => storeExtends m (snd r))) in H0;
    [exact H0 | | reflexivity | apply storeExtends_refl].
  intros r st1 p1 r' p2 _ Hr _ Hb. apply parseBlock_inv in Hb.
  destruct Hb as [->|(k & h & st' & p' & Hl & _ & Hh)]; [exact Hr|].
  eapply storeExtends_trans; [exact Hr|]. eapply handler_storeExtends; eauto.
Qed.

(** The finalization pass on a hole of [Nodes]. *)
Lemma assignPivots_hole (n : nat) :
  forall (i j : nat) (m : Model num),
    i <= j -> j < i + n -> truthy (pivotAt m j) = true -> isHole (nodeAt m j) = true ->
    assignPivots n i m = None.
Proof.
  induction n as [|n IH]; intros i j m Hij Hj Hp Hh; [lia|].
  cbn [assignPivots]. destruct (assignPivot m i) as [m1|] eqn:H1; [|reflexivity].
  destruct (Nat.eq_dec i j) as [->|Hne].
  - exfalso. unfold assignPivot in H1. unfold pivotAt, nodeAt in *. rewrite Hp in H1.
    destruct (nth j (Nodes m) VUndefined); discriminate.
  - pose proof (assignPivot_spec _ _ _ H1) as (HN & HP & _).
    apply (IH (S i) j m1); try lia; unfold pivotAt, nodeAt in *; rewrite ?HN, ?HP;
      assumption.
Qed.

(** X19.  When the top-level loop leaves a hole in [Nodes] at an index
    that has a pivot point, the finalization pass assigns to a property of
    [undefined]: [parse] throws a type error and returns no scene. *)
Theorem pivot_for_missing_node_is_type_error (s : string) (m0 : Model num) (p : nat)
    (i : nat) :
  parseBlocks fuel E initialModel (mkState (list_ascii_of_string s) 0) = Ok m0 p ->
  i < List.length (Nodes m0) -> truthy (pivotAt m0 i) = true ->
  isHole (nodeAt m0 i) = true ->
  parse fuel E s = Throw TypeError.
Proof.
  intros H Hi Hp Hh. unfold parse, parseFrom. rewrite (bind_Ok_eq _ _ _ _ _ H).
  unfold finalize. rewrite (assignPivots_hole _ 0 i m0); try assumption; try lia.
  reflexivity.
Qed.

Lemma parseArray_typed (t : TypedArray num) (i : nat) (v : value num) st p :
  parseArray fuel (Some t) i st = Ok v p ->
  v = VNull \/ exists t', v = VTyped t' /\ kind t' = kind t /\
                          List.length (elems t') = List.length (elems t).
Proof.
  unfold parseArray. intros H. bind_inv H. destruct a.
  - ret_inv H. left. reflexivity.
  - bind_inv H. ret_inv H. right. eexists. split; [reflexivity|].
    match goal with
    | K : arrayLoop _ _ _ _ = Ok _ _ |- _ =>
        eapply (arrayLoop_invariant fuel
                  (fun r => kind (fst r) = kind t /\
                            List.length (elems (fst r)) = List.length (elems t)))
          in K; [exact K | | split; reflexivity]
    end.
    intros x n [Hk Hl]. unfold storeTyped. cbn [fst]. rewrite typedSet_length.
    split; [exact Hk | exact Hl].
Qed.

Lemma pivotVectorOK_extends (m m' : Model num) (v : value num) :
  storeExtends m m' -> pivotVectorOK m v -> pivotVectorOK m' v.
Proof.
  intros [new HS] [->|(q & x & -> & Hq & Hx)]; [left; reflexivity|].
  right. exists q, x. split; [reflexivity|]. split; [|exact Hx].
  rewrite HS. rewrite nth_error_app1; [exact Hq|]. apply nth_error_Some. congruence.
Qed.

Lemma allocAll_pivots (vs : list (value num)) :
  forall m : Model num,
    Forall (fun v => v = VNull \/ isVector3 v) vs ->
    Forall (pivotVectorOK (fst (allocAll m vs))) (snd (allocAll m vs)).
Proof.
  induction vs as [|v vs IH]; intros m Hvs; [constructor|].
  inversion Hvs as [|? ? Hv Hrest]; subst.
  destruct Hv as [->|Hv].
  - cbn [allocAll fst snd]. constructor; [left; reflexivity | apply IH; exact Hrest].
  - assert (Hstep : Forall (pivotVectorOK (fst (allocAll (fst (alloc m v)) vs)))
                      (VRef (snd (alloc m v)) :: snd (allocAll (fst (alloc m v)) vs))).
    { constructor; [|apply IH; exact Hrest].
      right. exists (List.length (Store m)), v. split; [reflexivity|]. split; [|exact Hv].
      destruct (allocAll_frame vs (fst (alloc m v))) as (new & HS & _).
      rewrite HS. unfold alloc, push. cbn [fst Store set_Store].
      rewrite <- app_assoc, nth_error_app2 by lia. rewrite Nat.sub_diag. reflexivity. }
    destruct Hv as (t & -> & _). exact Hstep.
Qed.

Lemma parsePivotPoints_pivots (m m' : Model num) st p :
  parsePivotPoints fuel m st = Ok m' p -> pivotVectorsOK m'.
Proof.
  unfold parsePivotPoints. intros H. unbind H. ret_inv H.
  unfold pivotVectorsOK. cbn [PivotPoints set_PivotPoints Store].
  match goal with
  | K : while_ _ _ _ _ _ = Ok ?r _ |- _ =>
      eapply (loop_invariant fuel
                (fun r : nat * list (value num) =>
                   Forall (fun v => v = VNull \/ isVector3 v) (snd r))) in K;
        [ | | constructor]
  end.
  - match goal with |- context [allocAll m ?vs] =>
      pose proof (allocAll_pivots vs m) as Ha end.
    apply Ha. assumption.
  - intros x stb x' pb Hx Hb. unbind Hb. ret_inv Hb. cbn [snd].
    unfold push. apply Forall_app. split; [exact Hx|]. constructor; [|constructor].
    match goal with
    | K : parseArray _ _ _ _ = Ok _ _ |- _ => apply parseArray_typed in K;
        destruct K as [->|(t' & -> & Hk & Hl)]
    end; [left; reflexivity|].
    right. exists t'. split; [reflexivity|]. split; [exact Hk|].
    rewrite Hl. apply newTyped_length.
Qed.

Lemma handler_pivots (k : string) (h : Model num -> M (Model num)) m st m' p :
  lookupParser (parsers fuel E) k = Some h ->
  h m st = Ok m' p -> pivotVectorsOK m -> pivotVectorsOK m'.
Proof.
  intros Hl H Hi.
  destruct (String.eqb_spec k "PivotPoints") as [->|Hne].
  - change (lookupParser (parsers fuel E) "PivotPoints")
      with (Some (parsePivotPoints (num := num) fuel)) in Hl.
    injection Hl as <-. eapply parsePivotPoints_pivots. exact H.
  - assert (Hg : grows m m').
    { unfold parsers in Hl. cbn [lookupParser] in Hl.
      repeat match type of Hl with
             | (if ?c then _ else _) = Some _ =>
                 destruct c eqn:?;
                 [injection Hl as <-;
                  first [ match goal with
                          | K : ("PivotPoints" == k) = true |- _ =>
                              apply String.eqb_eq in K; congruence
                          end
                        | eauto using parseVersion_grows, parseModelInfo_grows,
                            parseSequences_grows, parseTextures_grows, parseMaterials_grows,
                            parseGeoset_grows, parseGeosetAnim_grows, parseBone_grows,
                            parseHelper_grows, parseAttachment_grows,
                            parseEventObject_grows, parseCollisionShape_grows,
                            parseGlobalSequences_grows, parseParticleEmitter_grows,
                            parseParticleEmitter2_grows, parseCamera_grows, parseLight_grows,
                            parseTextureAnims_grows, parseRibbonEmitter_grows ]
                 |]
             end.
      discriminate. }
    unfold pivotVectorsOK. destruct Hg as [HP Hg']. rewrite HP.
    eapply Forall_impl; [|exact Hi]. intros v Hv.
    eapply pivotVectorOK_extends; [|exact Hv].
    apply grows_storeExtends. split; [exact HP | exact Hg'].
Qed.

Lemma assignPivot_pivots (m m' : Model num) (i : nat) :
  assignPivot m i = Some m' -> pivotVectorsOK m -> pivotVectorsOK m'.
Proof.
  unfold assignPivot. intros H Hi. destruct (truthy _); [|injection H as <-; exact Hi].
  destruct (nth i (Nodes m) VUndefined); try discriminate.
  destruct (nth_error (Store m) addr) as [[| | | | | | |o1| |]|] eqn:Ha; try discriminate.
  injection H as <-. unfold pivotVectorsOK in *. cbn [PivotPoints set_Store Store].
  eapply Forall_impl; [|exact Hi]. intros v [->|(q & x & -> & Hq & Hx)]; [left; reflexivity|].
  right. exists q, x. split; [reflexivity|]. split; [|exact Hx].
  cbn [Store set_Store]. destruct (Nat.eq_dec q addr) as [->|Hne].
  - rewrite Ha in Hq. injection Hq as <-. destruct Hx as (t & Hx & _). discriminate.
  - rewrite nth_error_list_set_neq by congruence. exact Hq.
Qed.

(** X15.  In the scene that [parse] returns every pivot point is [null]
    or a [Float32Array] of exactly three elements, however many numbers the
    source lists between its braces. *)
Theorem pivot_points_have_three_components (s : string) (m : Model num) (p : nat) :
  parse fuel E s = Ok m p -> pivotVectorsOK m.
Proof.
  unfold parse, parseFrom. intros H. bind_inv H. rename a into m0.
  assert (H0' : pivotVectorsOK m0).
  { unfold parseBlocks in H0. bind_inv H0. ret_inv H0.
    eapply (while_invariant (fun r : bool * Model num => pivotVectorsOK (snd r))) in H1;
      [exact H1 | | reflexivity | constructor].
    intros r stx px r' py _ Hr _ Hb. apply parseBlock_inv in Hb.
    destruct Hb as [->|(k & h & st' & p' & Hl & _ & Hh)]; [exact Hr|].
    eapply handler_pivots; eauto. }
  unfold finalize in H.
  destruct (assignPivots (List.length (Nodes m0)) 0 m0) as [m1|] eqn:Hf;
    [|discriminate].
  ret_inv H. clear H0. revert Hf H0'. generalize 0. generalize (List.length (Nodes m0)).
  intros n. revert m0. induction n as [|n IH]; intros m0 i Hf Hi; cbn [assignPivots] in Hf.
  - injection Hf as <-. exact Hi.
  - destruct (assignPivot m0 i) as [m2|] eqn:H1; [|discriminate].
    eapply IH; [exact Hf|]. eapply assignPivot_pivots; eauto.
Qed.

(** X17.  The handlers of [EventObject], [CollisionShape],
    [ParticleEmitter2], [Light] and [RibbonEmitter] store their node and
    append it to the end of [Nodes], whatever its [ObjectId]: the index of
    the node in [Nodes] is the length [Nodes] had. *)
Theorem emitters_and_lights_are_appended (k : string)
    (h : Model num -> M (Model num)) (m m' : Model num) (st : State) (p : nat) :
  existsb (String.eqb k) appendedKinds = true ->
  lookupParser (parsers fuel E) k = Some h ->
  h m st = Ok m' p ->
  exists res : obj num,
    Store m' = push (Store m) (VObj res) /\
    Nodes m' = push (Nodes m) (VRef (List.length (Store m))).
Proof.
  intros Hk Hl H. unfold appendedKinds in Hk. cbn [existsb] in Hk.
  repeat (apply orb_true_iff in Hk; destruct Hk as [Hk|Hk];
          [apply String.eqb_eq in Hk; subst k |]); [..|discriminate].
  1: change (lookupParser (parsers fuel E) "EventObject")
       with (Some (parseEventObject (num := num) fuel E)) in Hl.
  2: change (lookupParser (parsers fuel E) "CollisionShape")
       with (Some (parseCollisionShape (num := num) fuel E)) in Hl.
  3: change (lookupParser (parsers fuel E) "ParticleEmitter2")
       with (Some (parseParticleEmitter2 (num := num) fuel E)) in Hl.
  4: change (lookupParser (parsers fuel E) "Light")
       with (Some (parseLight (num := num) fuel E)) in Hl.
  5: change (lookupParser (parsers fuel E) "RibbonEmitter")
       with (Some (parseRibbonEmitter (num := num) fuel E)) in Hl.
  all: injection Hl as <-.
  - unfold parseEventObject in H. unbind H. ret_inv H. eexists. split; reflexivity.
  - unfold parseCollisionShape in H. unbind H. ret_inv H. eexists. split; reflexivity.
  - unfold parseParticleEmitter2 in H. unbind H. ret_inv H. eexists. split; reflexivity.
  - unfold parseLight in H. unbind H. ret_inv H. eexists. split; reflexivity.
  - unfold parseRibbonEmitter in H. unbind H. ret_inv H. eexists. split; reflexivity.
Qed.

End SceneInvariants.

(** X17, a witness: a light with [ObjectId] 5 is stored at index 0. *)
Lemma emitters_and_lights_are_appended_witness :
  exists (m' : Model DecNum.t) (p : nat) (res : obj DecNum.t),
    parseLight 40 refEnums initialModel (mkState (list_ascii_of_string lightIdInput) 0)
    = Ok m' p /\
    Store m' = [VObj res] /\ Nodes m' = [VRef 0] /\
    getProp res "ObjectId" = VNum (DecNum.ofZ 5).
Proof.
  eexists. eexists.
  destruct (emitters_and_lights_are_appended (JN := JSNumber_DecNum) 40 refEnums "Light"
              (parseLight 40 refEnums) initialModel
              _ (mkState (list_ascii_of_string lightIdInput) 0) _
              eq_refl eq_refl ltac:(vm_compute; reflexivity)) as (res & HS & HN).
  exists res. split; [vm_compute; reflexivity|]. split; [exact HS|]. split; [exact HN|].
  vm_compute in HS. injection HS as <-. vm_compute. reflexivity.
Defined.

(** X15, X16, witnesses: two lights and one pivot point. *)
Lemma pivot_points_have_three_components_witness :
  exists m p, refParse 80 twoLightsInput = Ok m p /\ pivotVectorsOK m /\
              List.length (PivotPoints m) = 1.
Proof.
  eexists. eexists. split; [vm_compute; reflexivity|]. split; [|reflexivity].
  eapply (pivot_points_have_three_components (JN := JSNumber_DecNum) 80 refEnums twoLightsInput).
  vm_compute. reflexivity.
Defined.

Lemma nodes_hold_each_record_once_witness :
  exists m p, refParse 80 twoLightsInput = Ok m p /\ nodesDistinct m /\ nodesListed m /\
              List.length (Nodes m) = 2.
Proof.
  eexists. eexists. split; [vm_compute; reflexivity|].
  refine ((fun H => conj (proj1 H) (conj (proj2 H) eq_refl))
            (nodes_hold_each_record_once (JN := JSNumber_DecNum) 80 refEnums twoLightsInput
               _ _ _)).
  vm_compute. reflexivity.
Defined.

(** X18, a witness: the top-level loop on two lights and one pivot
    point. *)
Lemma blocks_never_change_stored_records_witness :
  exists (m : Model DecNum.t) (p : nat) new,
    parseBlocks 80 refEnums initialModel (mkState (list_ascii_of_string twoLightsInput) 0)
    = Ok m p /\ Store m = (Store (@initialModel DecNum.t _) ++ new)%list.
Proof.
  eexists. eexists.
  destruct (blocks_never_change_stored_records (JN := JSNumber_DecNum) 80 refEnums
              initialModel (mkState (list_ascii_of_string twoLightsInput) 0) _ _
              ltac:(vm_compute; reflexivity)) as [new Hnew].
  exists new. split; [vm_compute; reflexivity | exact Hnew].
Defined.

(** X19, a witness: a bone with [ObjectId] 1 and one pivot point. *)
Lemma pivot_for_missing_node_is_type_error_witness :
  refParse 80 holeInput = Throw TypeError.
Proof.
  eapply (pivot_for_missing_node_is_type_error 80 refEnums holeInput _ _ 0).
  - vm_compute. reflexivity.
  - vm_compute. lia.
  - vm_compute. reflexivity.
  - vm_compute. reflexivity.
Defined.


(** ** The [Model] block and the reported position *)

Section Reports.
Context {num : Type} {JN : JSNumber num}.
Variable E : Enums.

(** X20.  A [Model] block replaces the [Info] record of the scene instead
    of filling it in: after a block with an empty body the record holds the
    name alone, and the defaults ([BlendTime] 150, [BoundsRadius] 0, the two
    extents) are gone. *)
Theorem model_block_replaces_info (fuel : nat) (name : string) :
  noQuote name = true -> 20 + String.length name <= fuel ->
  parsesTo fuel E (modelText name)
    (fun m : Model num => Info m = [("Name", VStr name)]).
Proof.
  intros Hq Hf. apply parse_returns_with.
  unfold modelText. rewrite !list_of_append.
  assert (Hstr : returns (parseString fuel)
                   (list_ascii_of_string (quoted name) ++ list_ascii_of_string " { }")
                   (Some name) (list_ascii_of_string "{ }")).
  { set (text := list_ascii_of_string " { }"). unfold noQuote, quoted in *.
    cbn [append list_ascii_of_string]. rewrite list_of_append.
    cbn [list_ascii_of_string]. rewrite <- app_comm_cons, <- app_assoc. cbn [app].
    pose proof (span_all_stop notQuote (list_ascii_of_string name) dquote text Hq eq_refl)
      as Hspan.
    assert (Hskip : skipn (S (List.length (list_ascii_of_string name)))
                      (list_ascii_of_string name ++ dquote :: text) = text).
    { replace (S (List.length (list_ascii_of_string name)))
        with (List.length (list_ascii_of_string name ++ [dquote])%list)
        by (rewrite length_app; cbn [List.length]; lia).
      replace (list_ascii_of_string name ++ dquote :: text)%list
        with ((list_ascii_of_string name ++ [dquote]) ++ text)%list
        by (rewrite <- app_assoc; reflexivity).
      apply skipn_length_app. }
    eapply run_parseString.
    - exact Hspan.
    - rewrite length_app. cbn [List.length]. lia.
    - rewrite firstn_length_app. apply string_of_list_of_string.
    - rewrite Hskip. reflexivity.
    - rewrite Hskip. reflexivity.
    - rewrite length_list_of_string. lia.
    - change (1 < fuel). lia. }
  assert (Hb : is_char (hd_error (list_ascii_of_string (quoted name)
                                    ++ list_ascii_of_string " { }")) "{" = false)
    by reflexivity.
  assert (Hsp : span isSpace (list_ascii_of_string (quoted name)
                                ++ list_ascii_of_string " { }") = 0) by reflexivity.
  set (tail := (list_ascii_of_string (quoted name) ++ list_ascii_of_string " { }")%list)
    in *.
  clearbody tail. cbn [list_ascii_of_string app append].
  eexists. eexists. split; [run|]. reflexivity.
Qed.

(** The position form of [parseNumber] on a number lexeme. *)
Lemma parseNumber_pos (fuel : nat) (st : State) (c : ascii) (l : list ascii) :
  rest st = c :: l -> numberFirstCharRE (Some c) = true ->
  span isNumberChar l < List.length l -> span isNumberChar l < fuel ->
  span isSpace (skipn (span isNumberChar l) l) < fuel ->
  parseNumber (num := num) fuel st
  = Ok (Some (parseFloat (String c (string_of_list_ascii (firstn (span isNumberChar l) l)))))
      (pos st + 1 + span isNumberChar l + span isSpace (skipn (span isNumberChar l) l)).
Proof.
  intros Hl Hc Hend Hlt Hsp. unfold parseNumber.
  rewrite (bind_Ok_eq _ _ st (Some c) (pos st)) by (unfold peek; rewrite char_rest, Hl; reflexivity).
  rewrite Hc, at_pos.
  rewrite (bind_Ok_eq _ _ st (pos st) (pos st)) by reflexivity. rewrite at_pos.
  rewrite (bind_Ok_eq _ _ st tt (pos st + 1)) by reflexivity.
  assert (Hr : rest (at_ st (pos st + 1)) = l) by (rewrite rest_at_S, Hl; reflexivity).
  pose proof (scan_pos isNumberChar numberOtherCharRE fuel (fun _ => eq_refl)
                (at_ st (pos st + 1))) as Hscan.
  rewrite Hr in Hscan. cbn [pos at_] in Hscan.
  rewrite (bind_Ok_eq _ _ _ tt (pos st + 1 + span isNumberChar l))
    by (apply Hscan; [left; exact Hend | exact Hlt]).
  rewrite at_at.
  rewrite (bind_Ok_eq _ _ _ (pos st + 1 + span isNumberChar l)
             (pos st + 1 + span isNumberChar l)) by reflexivity.
  rewrite at_at. unfold getSubstring at 1.
  rewrite (bind_Ok_eq _ _ _ (string_of_list_ascii (firstn (1 + span isNumberChar l) (rest st)))
             (pos st + 1 + span isNumberChar l)).
  2:{ f_equal. rewrite <- Nat.add_assoc. apply substring_rest. }
  rewrite at_at.
  assert (Hr2 : rest (at_ st (pos st + 1 + span isNumberChar l))
                = skipn (span isNumberChar l) l).
  { rewrite <- Nat.add_assoc, rest_at, Hl. reflexivity. }
  destruct (parseSpace_pos fuel (at_ st (pos st + 1 + span isNumberChar l)))
    as [Hq _]; [rewrite Hr2; exact Hsp|].
  rewrite Hr2 in Hq. cbn [pos at_] in Hq.
  rewrite (bind_Ok_eq _ _ _ _ _ Hq), at_at. unfold ret. cbn [pos at_].
  rewrite Hl. reflexivity.
Qed.

Lemma parseNumber_text_pos (fuel : nat) (st : State) (n : string) (x : ascii)
    (r : list ascii) :
  rest st = (list_ascii_of_string n ++ x :: r)%list ->
  isNumberLexeme n = true -> isNumberChar x = false ->
  String.length n < fuel -> span isSpace (x :: r) < fuel ->
  parseNumber (num := num) fuel st
  = Ok (Some (parseFloat n)) (pos st + String.length n + span isSpace (x :: r)).
Proof.
  intros Hr Hk Hx Hf Hsp. destruct n as [|c cs]; [discriminate|].
  cbn [isNumberLexeme] in Hk. apply andb_true_iff in Hk as [Hc Hcs].
  cbn [list_ascii_of_string app] in Hr.
  pose proof (span_all_stop isNumberChar _ x r Hcs Hx) as Hspan.
  cbn [String.length] in *. rewrite <- length_list_of_string in *.
  rewrite (parseNumber_pos fuel st c _ Hr Hc); rewrite ?Hspan, ?skipn_length_app, ?length_app;
    cbn [List.length]; try lia; try assumption.
  rewrite firstn_length_app, string_of_list_of_string. f_equal. lia.
Qed.

(** X21.  Where [PivotPoints] and its count are followed by a character
    that is neither white space nor the opening brace, [parse] throws the
    syntax error of [strictParseSymbol], and the position it reports is the
    offset of that character. *)
Theorem missing_brace_is_reported_at_its_offset (fuel : nat) (n : string) (x : ascii)
    (tail : string) :
  isNumberLexeme n = true -> isNumberChar x = false -> isSpace x = false ->
  Ascii.eqb x "{" = false -> 20 + String.length n <= fuel ->
  parse fuel E (missingBraceInput n x tail)
  = Throw (SyntaxError (13 + String.length n) "extected {").
Proof.
  intros Hn Hx Hs Hb Hf. unfold parse, parseFrom, parseBlocks.
  set (st0 := mkState (list_ascii_of_string (missingBraceInput n x tail)) 0).
  apply bind_Throw. apply bind_Throw.
  destruct fuel as [|k]; [lia|]. rewrite while_S. cbn [fst snd].
  assert (Hin : inBounds st0 = Ok true 0) by reflexivity.
  rewrite Hin. change (at_ st0 0) with st0.
  assert (Hblock : parseBlock (S k) E initialModel st0
                   = Throw (SyntaxError (13 + String.length n) "extected {")).
  { unfold parseBlock.
    assert (Hloop : while_ (S k) (fun _ => parseComment (S k)) (fun _ => ret tt) tt st0
                    = Ok tt 0).
    { rewrite while_S, (parseComment_none (S k) st0 _ eq_refl); reflexivity. }
    rewrite (bind_Ok_eq _ _ _ _ _ Hloop). change (at_ st0 0) with st0.
    assert (Hkw : parseKeyword (S k) st0 = Ok (Some "PivotPoints") 12).
    { rewrite (parseKeyword_text_pos (S k) st0 "PivotPoints" " "
                 (list_ascii_of_string (n ++ " " ++ String x tail)));
        [ | reflexivity | reflexivity | reflexivity | cbn [String.length]; lia | ].
      - f_equal. cbn [pos st0 String.length]. cbn [span]. change (isSpace " ") with true.
        cbv iota. destruct (number_head n (list_ascii_of_string (" " ++ String x tail)) Hn)
          as [Hsp _]. rewrite <- list_of_append in Hsp. rewrite Hsp. reflexivity.
      - cbn [span]. change (isSpace " ") with true. cbv iota.
        destruct (number_head n (list_ascii_of_string (" " ++ String x tail)) Hn)
          as [Hsp _]. rewrite <- list_of_append in Hsp. rewrite Hsp. lia. }
    rewrite (bind_Ok_eq _ _ _ _ _ Hkw). cbv beta iota.
    change (lookupParser (parsers (S k) E) "PivotPoints")
      with (Some (parsePivotPoints (num := num) (S k))).
    cbv beta iota. apply bind_Throw. unfold parsePivotPoints.
    assert (Hr : rest (at_ st0 12)
                 = (list_ascii_of_string n
                    ++ " "%char :: list_ascii_of_string (String x tail))%list).
    { unfold rest, st0, missingBraceInput. cbn [pos str at_ append list_ascii_of_string skipn].
      rewrite list_of_append. reflexivity. }
    assert (Hnum : parseNumber (num := num) (S k) (at_ st0 12)
                   = Ok (Some (parseFloat n)) (12 + String.length n + 1)).
    { rewrite (parseNumber_text_pos (S k) (at_ st0 12) n " "
                 (list_ascii_of_string (String x tail)) Hr Hn eq_refl);
        cbn [span list_ascii_of_string]; change (isSpace " ") with true; cbv iota;
        rewrite ?Hs; [reflexivity | lia | lia]. }
    rewrite (bind_Ok_eq _ _ _ _ _ Hnum), at_at.
    apply bind_Throw. unfold strictParseSymbol.
    assert (Hc : char (at_ st0 (12 + String.length n + 1)) = Some x).
    { rewrite char_rest.
      replace (12 + String.length n + 1) with (12 + (String.length n + 1)) by lia.
      change (at_ st0 (12 + (String.length n + 1)))
        with (at_ (at_ st0 12) (pos (at_ st0 12) + (String.length n + 1))).
      rewrite rest_at, Hr.
      replace (String.length n + 1)
        with (List.length (list_ascii_of_string n ++ [" "%char])%list)
        by (rewrite length_app, length_list_of_string; reflexivity).
      replace (list_ascii_of_string n ++ " "%char :: list_ascii_of_string (String x tail))%list
        with ((list_ascii_of_string n ++ [" "%char]) ++ list_ascii_of_string (String x tail))%list
        by (rewrite <- app_assoc; reflexivity).
      rewrite skipn_length_app. reflexivity. }
    unfold bind at 1. unfold bind at 1. unfold charIsNot, bind, peek, ret. rewrite Hc.
    cbn [is_char]. rewrite Hb. cbn [negb].
    unfold throwError. cbn [pos at_]. do 2 f_equal. lia. }
  rewrite Hblock. reflexivity.
Qed.

End Reports.

(** X20, a witness: a model called [Peon]. *)
Lemma model_block_replaces_info_witness :
  noQuote "Peon" = true /\
  parsesTo 40 refEnums (modelText "Peon")
    (fun m : Model DecNum.t => Info m = [("Name", VStr "Peon")]).
Proof.
  split; [reflexivity|].
  apply (model_block_replaces_info (JN := JSNumber_DecNum) refEnums 40 "Peon");
    [reflexivity | cbn [String.length]; lia].
Defined.

(** X21, a witness: a bracket where the brace should stand. *)
Lemma missing_brace_is_reported_at_its_offset_witness :
  refParse 40 (missingBraceInput "2" "[" " }") = Throw (SyntaxError 14 "extected {").
Proof.
  apply (missing_brace_is_reported_at_its_offset (JN := JSNumber_DecNum) refEnums 40
           "2" "[" " }"); try reflexivity. cbn [String.length]. lia.
Defined.
